(** * filesystem-server: the watcher pool and the two read-through caches

    A shallow embedding of
    - [src/utils/monitor-pool.js]  (the bounded pool of watchers),
    - [src/tools/watch-tools.js]   (the callbacks registered through the pool,
                                    and the watchers of [watchPath]),
    - [src/tools/file-tools.js]    (the file-content cache and the file tools),
    - [src/tools/dir-tools.js]     (the directory-listing cache),
    - [src/config/security.js] and [src/utils/path-utils.js]  (the checks of
                                    paths and of tool calls),
    - [src/tools/index.js]         ([executeTool], for the watch tools),
    followed by the properties of the specification that concern them, and by
    further properties of the code.

    Conventions of the embedding.
    - The module-level singletons (MONITOR_POOL, FILE_CACHE, CACHE_MONITORS,
      DIR_CACHE, DIR_MONITORS) and the file system are fields of one [State]
      that every function takes and returns.
    - JavaScript numbers are [Z]; [Date.now()] and [Math.random()] are
      arguments ([now], [random]) of the function that calls them.  One call
      of an exported function reads the clock once.
    - A JavaScript [Map] whose iteration order the code depends on is an
      association list in insertion order; the other maps and sets are stdpp
      [gmap]s and [gset]s.
    - The functions of Node's [path] module are the fields of the class
      [PathLib]; every theorem holds for any implementation of them, and
      [posix] is the implementation used in the examples.
    - [WATCHERS] and [CHANGE_HANDLERS] of the watch tools are the fields of
      [WatchTools.Registry]; the configuration of the security checks is an
      argument of the functions that read it.
    - The file system maps a path to a file with its text, or to a
      directory.  A path is looked up in the spelling in which a tool
      receives it: two spellings of one file are two paths of the model.
      Files are read and written in the default encoding, UTF-8, and the
      size of a file is the number of bytes of its text in that encoding. *)

From Stdlib Require Import ZArith Ascii String.
From stdpp Require Import gmap strings list fin_maps sorting.

Local Open Scope Z_scope.

(* ===================================================================== *)
(** * Part I: the model                                                   *)
(* ===================================================================== *)

(** ** Insertion-ordered maps (JavaScript [Map]) *)

Section JsMap.
Context {K V : Type} `{EqDecision K}.
Implicit Types (k : K) (v : V) (m : list (K * V)).

(** [Map.prototype.get] *)
Fixpoint mget k m : option V :=
  match m with
  | [] => None
  | (k', v) :: r => if decide (k = k') then Some v else mget k r
  end.

(** [Map.prototype.has] *)
Definition mhas k m : bool :=
  match mget k m with Some _ => true | None => false end.

(** [Map.prototype.set]: an existing key keeps its position, a new key goes
    to the end. *)
Fixpoint mset k v m : list (K * V) :=
  match m with
  | [] => [(k, v)]
  | (k', v') :: r => if decide (k = k') then (k, v) :: r else (k', v') :: mset k v r
  end.

(** [Map.prototype.delete] *)
Fixpoint mdel k m : list (K * V) :=
  match m with
  | [] => []
  | (k', v') :: r => if decide (k = k') then mdel k r else (k', v') :: mdel k r
  end.

(** [Map.prototype.size] *)
Definition msize m : Z := Z.of_nat (length m).

(** [Map.prototype.keys] *)
Definition mkeys m : list K := map fst m.

(** The loop shared by [removeOldestWatcher] and [evictFromDirCache]:
<<
    let oldestTime = Date.now(); let oldestId = null;
    for (const [id, info] of map.entries())
      if (stamp(info) < oldestTime) { oldestTime = stamp(info); oldestId = id; }
>>
    started from the pair [(oldestTime, oldestId)]. *)
Fixpoint scanOldest (stamp : V → Z) (oldestTime : Z) (oldestId : option K) m
  : Z * option K :=
  match m with
  | [] => (oldestTime, oldestId)
  | (k, v) :: r =>
      if stamp v <? oldestTime then scanOldest stamp (stamp v) (Some k) r
      else scanOldest stamp oldestTime oldestId r
  end.

End JsMap.

(** ** Node's [path] module *)

Class PathLib := {
  normalize : string → string;
  dirname : string → string;
  relative : string → string → string;
  isAbsolute : string → bool
}.

(** [str.startsWith('..')] *)
Definition startsWithDotDot (s : string) : bool :=
  match s with
  | String a (String b _) => bool_decide (a = "."%char) && bool_decide (b = "."%char)
  | _ => false
  end.

(** *** The POSIX implementation, for the examples *)

Module Posix.

Definition isSlash (c : ascii) : bool := bool_decide (c = "/"%char).

(** Splits at every slash: [a//b] gives the segments [a], [], [b]. *)
Fixpoint segments (cur : list ascii) (cs : list ascii) : list (list ascii) :=
  match cs with
  | [] => [rev cur]
  | c :: r => if isSlash c then rev cur :: segments [] r else segments (c :: cur) r
  end.

Definition dots : list ascii := ["."%char; "."%char].

(** [normalizeString]: the stack of segments kept so far, last one first. *)
Fixpoint normalizeSegments (allowAboveRoot : bool) (res : list (list ascii))
  (segs : list (list ascii)) : list (list ascii) :=
  match segs with
  | [] => rev res
  | s :: r =>
      if bool_decide (s = []) || bool_decide (s = ["."%char]) then
        normalizeSegments allowAboveRoot res r
      else if bool_decide (s = dots) then
        match res with
        | top :: below =>
            if bool_decide (top = dots) then normalizeSegments allowAboveRoot (s :: res) r
            else normalizeSegments allowAboveRoot below r
        | [] =>
            if allowAboveRoot then normalizeSegments allowAboveRoot [s] r
            else normalizeSegments allowAboveRoot [] r
        end
      else normalizeSegments allowAboveRoot (s :: res) r
  end.

Fixpoint joinSegments (segs : list (list ascii)) : list ascii :=
  match segs with
  | [] => []
  | [s] => s
  | s :: r => s ++ "/"%char :: joinSegments r
  end.

Definition isAbsolute (p : string) : bool :=
  match p with String c _ => isSlash c | EmptyString => false end.

Definition normalize (p : string) : string :=
  match list_ascii_of_string p with
  | [] => "."
  | cs =>
      let abs := isAbsolute p in
      let trailing := match rev cs with c :: _ => isSlash c | [] => false end in
      let body := joinSegments (normalizeSegments (negb abs) [] (segments [] cs)) in
      match body with
      | [] => if abs then "/" else if trailing then "./" else "."
      | _ =>
          let body := if trailing then body ++ ["/"%char] else body in
          string_of_list_ascii (if abs then "/"%char :: body else body)
      end
  end.

(** The backwards scan of [dirname]: [cs] holds the characters at the indices
    [i], [i-1], ..., 1. *)
Fixpoint dirnameEnd (cs : list ascii) (i : nat) (matchedSlash : bool) : option nat :=
  match cs with
  | [] => None
  | c :: r =>
      if isSlash c then
        if matchedSlash then dirnameEnd r (pred i) true else Some i
      else dirnameEnd r (pred i) false
  end.

Definition dirname (p : string) : string :=
  match list_ascii_of_string p with
  | [] => "."
  | c0 :: tl =>
      match dirnameEnd (rev tl) (length tl) true with
      | None => if isSlash c0 then "/" else "."
      | Some e =>
          if isSlash c0 && bool_decide (e = 1%nat) then "//"
          else string_of_list_ascii (take e (c0 :: tl))
      end
  end.

Fixpoint dropCommon (a b : list (list ascii)) : list (list ascii) * list (list ascii) :=
  match a, b with
  | x :: a', y :: b' => if bool_decide (x = y) then dropCommon a' b' else (a, b)
  | _, _ => (a, b)
  end.

(** [relative], with the working directory at the root. *)
Definition relative (from to : string) : string :=
  let resolve p :=
    normalizeSegments false [] (segments [] (list_ascii_of_string p)) in
  let '(up, down) := dropCommon (resolve from) (resolve to) in
  string_of_list_ascii (joinSegments (map (λ _, dots) up ++ down)).

End Posix.

Definition posix : PathLib := {|
  normalize := Posix.normalize;
  dirname := Posix.dirname;
  relative := Posix.relative;
  isAbsolute := Posix.isAbsolute
|}.

(** ** The pool of watchers ([src/utils/monitor-pool.js]) *)

(** The identifier [watcher_<timestamp>_<random>] of [generateWatcherId] is
    the pair of its two numbers; [random] stands for
    [Math.floor(Math.random() * 10000)]. *)
Definition WatcherId : Type := Z * Z.

Definition generateWatcherId (now random : Z) : WatcherId := (now, random).

(** What the pool does with the watcher object it is handed: it tests
    [typeof instance.close === 'function'] and calls [close()], which may
    throw. *)
Record WatcherInstance := {
  hasClose : bool;
  closeThrows : bool
}.

Inductive WatchType := file | directory.

(** [watcherInfo]; its [options] are stored and never read, and are left out. *)
Record WatcherInfo := {
  w_id : WatcherId;
  w_path : string;
  w_instance : WatcherInstance;
  w_type : WatchType;
  w_processId : string;
  w_createdAt : Z;
  w_lastUsedAt : Z;
  w_useCount : Z
}.

(** [MONITOR_POOL]; the cleanup timer is left out. *)
Record MonitorPool := {
  watchers : list (WatcherId * WatcherInfo);
  pathToId : gmap string (gset WatcherId);
  maxWatchers : Z;
  maxPerPath : Z;
  maxPerProcess : Z;
  created : Z;
  closed : Z;
  rejected : Z;
  activeCount : Z;
  processMap : gmap string Z;
  maxIdleTime : Z
}.

(** The pool as the module creates it, with the limits of the configuration. *)
Definition emptyPool (maxW maxPath maxProc maxIdle : Z) : MonitorPool := {|
  watchers := [];
  pathToId := ∅;
  maxWatchers := maxW;
  maxPerPath := maxPath;
  maxPerProcess := maxProc;
  created := 0;
  closed := 0;
  rejected := 0;
  activeCount := 0;
  processMap := ∅;
  maxIdleTime := maxIdle
|}.

(** [MONITOR_POOL.stats.rejected++] *)
Definition countRejected (p : MonitorPool) : MonitorPool := {|
  watchers := watchers p;
  pathToId := pathToId p;
  maxWatchers := maxWatchers p;
  maxPerPath := maxPerPath p;
  maxPerProcess := maxPerProcess p;
  created := created p;
  closed := closed p;
  rejected := rejected p + 1;
  activeCount := activeCount p;
  processMap := processMap p;
  maxIdleTime := maxIdleTime p
|}.

(** [removeWatcher(watcherId)].  The only statement of the [try] block that
    can throw is [instance.close()], the first one: the [catch] branch returns
    [false] from an unchanged pool. *)
Definition removeWatcher (watcherId : WatcherId) (p : MonitorPool) : bool * MonitorPool :=
  match mget watcherId (watchers p) with
  | None => (false, p)
  | Some watcherInfo =>
      if hasClose (w_instance watcherInfo) && closeThrows (w_instance watcherInfo)
      then (false, p)
      else
        let pathToId' :=
          match pathToId p !! w_path watcherInfo with
          | Some ids =>
              let ids' := ids ∖ {[watcherId]} in
              if bool_decide (size ids' = 0%nat)
              then delete (w_path watcherInfo) (pathToId p)
              else <[w_path watcherInfo := ids']> (pathToId p)
          | None => pathToId p
          end in
        let processId := w_processId watcherInfo in
        let processCount := default 0 (processMap p !! processId) in
        let processMap' :=
          if processCount >? 1 then <[processId := processCount - 1]> (processMap p)
          else delete processId (processMap p) in
        let watchers' := mdel watcherId (watchers p) in
        (true,
         {| watchers := watchers';
            pathToId := pathToId';
            maxWatchers := maxWatchers p;
            maxPerPath := maxPerPath p;
            maxPerProcess := maxPerProcess p;
            created := created p;
            closed := closed p + 1;
            rejected := rejected p;
            activeCount := msize watchers';
            processMap := processMap';
            maxIdleTime := maxIdleTime p |})
  end.

(** [removeOldestWatcher()] *)
Definition removeOldestWatcher (now : Z) (p : MonitorPool) : bool * MonitorPool :=
  if bool_decide (msize (watchers p) = 0) then (false, p)
  else
    match snd (scanOldest w_createdAt now None (watchers p)) with
    | Some oldestId => removeWatcher oldestId p
    | None => (false, p)
    end.

(** The local [pathWatcherCount] of [addWatcher]: the size of the set of ids
    indexed under the path, 0 without one. *)
Definition pathWatcherCount (p : MonitorPool) (targetPath : string) : Z :=
  match pathToId p !! targetPath with
  | Some ids => Z.of_nat (size ids)
  | None => 0
  end.

(** The local [processWatcherCount] of [addWatcher]:
    [processMap.get(processId) || 0]. *)
Definition processWatcherCount (p : MonitorPool) (processId : string) : Z :=
  default 0 (processMap p !! processId).

(** [addWatcher(targetPath, watcher, options, type, processId)].  A missing
    [watcher] is [None]; the result [null] is [None]. *)
Definition addWatcher `{PathLib} (targetPath : string) (watcher : option WatcherInstance)
    (type : WatchType) (processId : string) (now random : Z) (p : MonitorPool)
  : option WatcherInfo * MonitorPool :=
  match watcher with
  | None => (None, p)
  | Some instance =>
      if bool_decide (targetPath = EmptyString) then (None, p)
      else
        let targetPath := normalize targetPath in
        let p :=
          if msize (watchers p) >=? maxWatchers p
          then snd (removeOldestWatcher now (countRejected p))
          else p in
        if pathWatcherCount p targetPath >=? maxPerPath p then (None, countRejected p)
        else if processWatcherCount p processId >=? maxPerProcess p
        then (None, countRejected p)
        else
          let watcherId := generateWatcherId now random in
          let watcherInfo :=
            {| w_id := watcherId;
               w_path := targetPath;
               w_instance := instance;
               w_type := type;
               w_processId := processId;
               w_createdAt := now;
               w_lastUsedAt := now;
               w_useCount := 0 |} in
          let watchers' := mset watcherId watcherInfo (watchers p) in
          (Some watcherInfo,
           {| watchers := watchers';
              pathToId :=
                <[targetPath := default ∅ (pathToId p !! targetPath) ∪ {[watcherId]}]>
                  (pathToId p);
              maxWatchers := maxWatchers p;
              maxPerPath := maxPerPath p;
              maxPerProcess := maxPerProcess p;
              created := created p + 1;
              closed := closed p;
              rejected := rejected p;
              activeCount := msize watchers';
              processMap :=
                <[processId := processWatcherCount p processId + 1]> (processMap p);
              maxIdleTime := maxIdleTime p |})
  end.

(** [useWatcher(watcherId)] *)
Definition useWatcher (watcherId : WatcherId) (now : Z) (p : MonitorPool) : MonitorPool :=
  match mget watcherId (watchers p) with
  | None => p
  | Some i =>
      let i' :=
        {| w_id := w_id i; w_path := w_path i; w_instance := w_instance i;
           w_type := w_type i; w_processId := w_processId i;
           w_createdAt := w_createdAt i; w_lastUsedAt := now;
           w_useCount := w_useCount i + 1 |} in
      {| watchers := mset watcherId i' (watchers p);
         pathToId := pathToId p;
         maxWatchers := maxWatchers p;
         maxPerPath := maxPerPath p;
         maxPerProcess := maxPerProcess p;
         created := created p;
         closed := closed p;
         rejected := rejected p;
         activeCount := activeCount p;
         processMap := processMap p;
         maxIdleTime := maxIdleTime p |}
  end.

(** The second loop of [cleanupIdleWatchers]: remove each collected id and
    count the removals that succeed. *)
Fixpoint removeAll (ids : list WatcherId) (count : Z) (p : MonitorPool) : Z * MonitorPool :=
  match ids with
  | [] => (count, p)
  | watcherId :: rest =>
      let '(removed, p') := removeWatcher watcherId p in
      removeAll rest (if removed then count + 1 else count) p'
  end.

(** [cleanupIdleWatchers()] *)
Definition cleanupIdleWatchers (now : Z) (p : MonitorPool) : Z * MonitorPool :=
  let idleThreshold := now - maxIdleTime p in
  let idleWatchers :=
    mkeys (filter (λ e, w_lastUsedAt (snd e) < idleThreshold) (watchers p)) in
  removeAll idleWatchers 0 p.

(** ** The state of the server *)

(** The file system: a file with its content, or a directory. *)
Inductive FsNode := FsFile (content : string) | FsDir.

(** A chokidar watcher as [watch-tools.js] hands it out: the object with the
    [_poolId] that [setFileChangeCallback] and [setDirChangeCallback] store
    on it. *)
Record Watcher := { poolId : option WatcherId }.

(** [CACHE_MONITORS] and [DIR_MONITORS] *)
Record Monitors := {
  mon_enabled : bool;
  mon_watchers : gmap string Watcher;
  monitoredPaths : gset string
}.

(** An item of [FILE_CACHE.items] *)
Record CacheItem := {
  content : string;
  timestamp : Z;
  lastAccess : Z
}.

(** [FILE_CACHE].  Its [monitoring.watchers] and [monitoring.monitoredPaths]
    are never written to and are left out; [fc_monitoring] is
    [FILE_CACHE.monitoring.enabled]. *)
Record FileCache := {
  fc_enabled : bool;
  fc_items : list (string * CacheItem);
  fc_size : Z;
  fc_maxSize : Z;
  fc_maxAge : Z;
  fc_hits : Z;
  fc_misses : Z;
  fc_evictions : Z;
  fc_monitoring : bool
}.

(** An item of [DIR_CACHE.items]; the listing is the list of entry names. *)
Record DirItem := {
  listing : list string;
  d_timestamp : Z;
  lastAccessed : Z
}.

(** [DIR_CACHE] *)
Record DirCache := {
  dc_enabled : bool;
  dc_maxSize : Z;
  dc_maxAge : Z;
  dc_items : list (string * DirItem);
  dc_hits : Z;
  dc_misses : Z;
  dc_evictions : Z
}.

Record State := {
  pool : MonitorPool;
  FILE_CACHE : FileCache;
  CACHE_MONITORS : Monitors;
  DIR_CACHE : DirCache;
  DIR_MONITORS : Monitors;
  fs : gmap string FsNode
}.

(** What the functions read and never write: the loaded configuration, the
    security predicates, the process id, and which renames cross a device. *)
Record Config := {
  cacheMonitoring : bool;            (* config.fileOperations.cacheMonitoring.enabled *)
  thresholdRead : option Z;          (* config.fileOperations.streamThresholds.read *)
  thresholdWrite : option Z;
  thresholdAppend : option Z;
  thresholdCopy : option Z;
  pid : string;                      (* process.pid.toString() *)
  validateToolCall : string → list string → bool;
  isPathAllowed : string → bool;     (* securityUtils.isPathAllowed *)
  crossDevice : string → string → bool
}.

(** [LARGE_FILE_THRESHOLD] *)
Definition LARGE_FILE_THRESHOLD_read : Z := 10 * 1024 * 1024.
Definition LARGE_FILE_THRESHOLD_write : Z := 5 * 1024 * 1024.

(** [configured || fallback] on numbers: a missing or zero value is falsy. *)
Definition orElse (configured : option Z) (fallback : Z) : Z :=
  match configured with
  | Some v => if bool_decide (v = 0) then fallback else v
  | None => fallback
  end.

(** [str.length] *)
Definition strlen (s : string) : Z := Z.of_nat (String.length s).

(** [fs.statSync(filePath).size] of a file that holds the text [s]: the
    number of bytes of its UTF-8 encoding.  A character stands for a code
    unit below 256, which takes one byte when it is below 128 and two bytes
    otherwise. *)
Fixpoint statSize (s : string) : Z :=
  match s with
  | EmptyString => 0
  | String c r => (if (nat_of_ascii c <? 128)%nat then 1 else 2) + statSize r
  end.

Definition withPool (st : State) (p : MonitorPool) : State :=
  {| pool := p; FILE_CACHE := FILE_CACHE st; CACHE_MONITORS := CACHE_MONITORS st;
     DIR_CACHE := DIR_CACHE st; DIR_MONITORS := DIR_MONITORS st; fs := fs st |}.

Definition withFileCache (st : State) (c : FileCache) : State :=
  {| pool := pool st; FILE_CACHE := c; CACHE_MONITORS := CACHE_MONITORS st;
     DIR_CACHE := DIR_CACHE st; DIR_MONITORS := DIR_MONITORS st; fs := fs st |}.

Definition withCacheMonitors (st : State) (m : Monitors) : State :=
  {| pool := pool st; FILE_CACHE := FILE_CACHE st; CACHE_MONITORS := m;
     DIR_CACHE := DIR_CACHE st; DIR_MONITORS := DIR_MONITORS st; fs := fs st |}.

Definition withDirCache (st : State) (c : DirCache) : State :=
  {| pool := pool st; FILE_CACHE := FILE_CACHE st; CACHE_MONITORS := CACHE_MONITORS st;
     DIR_CACHE := c; DIR_MONITORS := DIR_MONITORS st; fs := fs st |}.

Definition withDirMonitors (st : State) (m : Monitors) : State :=
  {| pool := pool st; FILE_CACHE := FILE_CACHE st; CACHE_MONITORS := CACHE_MONITORS st;
     DIR_CACHE := DIR_CACHE st; DIR_MONITORS := m; fs := fs st |}.

Definition withFs (st : State) (f : gmap string FsNode) : State :=
  {| pool := pool st; FILE_CACHE := FILE_CACHE st; CACHE_MONITORS := CACHE_MONITORS st;
     DIR_CACHE := DIR_CACHE st; DIR_MONITORS := DIR_MONITORS st; fs := f |}.

(** The fields of [FILE_CACHE] that the functions assign. *)
Definition fcSet (c : FileCache) (items : list (string * CacheItem))
    (size hits misses evictions : Z) : FileCache :=
  {| fc_enabled := fc_enabled c; fc_items := items; fc_size := size;
     fc_maxSize := fc_maxSize c; fc_maxAge := fc_maxAge c;
     fc_hits := hits; fc_misses := misses; fc_evictions := evictions;
     fc_monitoring := fc_monitoring c |}.

Definition fcSetItems (c : FileCache) (items : list (string * CacheItem)) : FileCache :=
  fcSet c items (fc_size c) (fc_hits c) (fc_misses c) (fc_evictions c).

(** The fields of [DIR_CACHE] that the functions assign. *)
Definition dcSet (c : DirCache) (items : list (string * DirItem))
    (hits misses evictions : Z) : DirCache :=
  {| dc_enabled := dc_enabled c; dc_maxSize := dc_maxSize c; dc_maxAge := dc_maxAge c;
     dc_items := items; dc_hits := hits; dc_misses := misses;
     dc_evictions := evictions |}.

Definition dcSetItems (c : DirCache) (items : list (string * DirItem)) : DirCache :=
  dcSet c items (dc_hits c) (dc_misses c) (dc_evictions c).

(** [watchers.set(path, watcher); monitoredPaths.add(path)] *)
Definition monAdd (m : Monitors) (path : string) (w : Watcher) : Monitors :=
  {| mon_enabled := mon_enabled m;
     mon_watchers := <[path := w]> (mon_watchers m);
     monitoredPaths := monitoredPaths m ∪ {[path]} |}.

(** [watchers.delete(path); monitoredPaths.delete(path)] *)
Definition monRemove (m : Monitors) (path : string) : Monitors :=
  {| mon_enabled := mon_enabled m;
     mon_watchers := delete path (mon_watchers m);
     monitoredPaths := monitoredPaths m ∖ {[path]} |}.

(** [initCacheMonitoring] and [initDirCacheMonitoring]: [enabled = true] *)
Definition monEnable (m : Monitors) : Monitors :=
  {| mon_enabled := true; mon_watchers := mon_watchers m;
     monitoredPaths := monitoredPaths m |}.

(** The events that chokidar reports. *)
Inductive WatchEvent := EvAdd | EvChange | EvUnlink | EvAddDir | EvUnlinkDir.

(** What a tool returns: the promise rejects ([Throws]), or it resolves to
    [{ success: false, ... }] ([Failed]) or to [{ success: true, ... }]. *)
Inductive Outcome :=
| Throws
| Failed
| ReadOk (content : string) (streamed : bool)
| Written (streamed : bool)
| Appended (streamed : bool)
| Deleted (deleted : bool)
| Copied (streamed : bool)
| Moved (copyDelete : bool)
| DirCreated (alreadyExists : bool)
| DirRemoved.

Definition succeeded (o : Outcome) : bool :=
  match o with Throws | Failed => false | _ => true end.

Section Model.
Context `{PathLib} (cfg : Config).

(** ** The callbacks registered through the pool ([src/tools/watch-tools.js]) *)

(** The object that [chokidar.watch] returns: it has a [close] method, which
    returns a promise. *)
Definition chokidarWatcher : WatcherInstance :=
  {| hasClose := true; closeThrows := false |}.

(** [setFileChangeCallback(filePath, callback, options)].  The callback is a
    function in every call of the repository; [CHANGE_HANDLERS] only serves
    the watchers of [watchPath] and is left out. *)
Definition setFileChangeCallback (filePath : string) (now random : Z) (st : State)
  : option Watcher * State :=
  if bool_decide (filePath = EmptyString) then (None, st)
  else
    match fs st !! filePath with
    | Some (FsFile _) =>
        let '(watcherInfo, pool') :=
          addWatcher filePath (Some chokidarWatcher) file (pid cfg) now random (pool st) in
        match watcherInfo with
        | None => (None, withPool st pool')
        | Some info => (Some {| poolId := Some (w_id info) |}, withPool st pool')
        end
    | _ => (None, st)
    end.

(** [setDirChangeCallback(dirPath, callback, options)] *)
Definition setDirChangeCallback (dirPath : string) (now random : Z) (st : State)
  : option Watcher * State :=
  if bool_decide (dirPath = EmptyString) then (None, st)
  else
    match fs st !! dirPath with
    | Some FsDir =>
        let '(watcherInfo, pool') :=
          addWatcher dirPath (Some chokidarWatcher) directory (pid cfg) now random (pool st) in
        match watcherInfo with
        | None => (None, withPool st pool')
        | Some info => (Some {| poolId := Some (w_id info) |}, withPool st pool')
        end
    | _ => (None, st)
    end.

(** [closeWatcher(watcher)] for a watcher that is not null. *)
Definition closeWatcher (watcher : Watcher) (st : State) : bool * State :=
  match poolId watcher with
  | Some id => (true, withPool st (snd (removeWatcher id (pool st))))
  | None => (true, st)
  end.

(** ** The directory-listing cache ([src/tools/dir-tools.js]) *)

(** [stopMonitoringDirectory(dirPath)] *)
Definition stopMonitoringDirectory (dirPath : string) (st : State) : State :=
  let m := DIR_MONITORS st in
  if negb (mon_enabled m) || negb (bool_decide (dirPath ∈ monitoredPaths m)) then st
  else
    match mon_watchers m !! dirPath with
    | Some watcher =>
        let st := snd (closeWatcher watcher st) in
        withDirMonitors st (monRemove (DIR_MONITORS st) dirPath)
    | None => st
    end.

(** [invalidateDirCache(dirPath)] *)
Definition invalidateDirCache (dirPath : string) (st : State) : State :=
  let c := DIR_CACHE st in
  if negb (dc_enabled c) then st
  else
    let items := dc_items c in
    let items := if mhas dirPath items then mdel dirPath items else items in
    let parentDir := dirname dirPath in
    let items :=
      if negb (bool_decide (parentDir = dirPath)) then
        if mhas parentDir items then mdel parentDir items else items
      else items in
    withDirCache st (dcSetItems c items).

(** The callback that [monitorDirectoryForCache(dirPath)] registers. *)
Definition dirChangeCallback (dirPath : string) (event : WatchEvent)
    (changedPath : string) (st : State) : State :=
  let st := invalidateDirCache dirPath st in
  if negb (bool_decide (changedPath = EmptyString))
     && negb (bool_decide (changedPath = dirPath)) then
    let relativePath := relative dirPath changedPath in
    if negb (startsWithDotDot relativePath) && negb (isAbsolute relativePath) then
      let parentDir := dirname changedPath in
      if negb (bool_decide (parentDir = dirPath)) then invalidateDirCache parentDir st
      else st
    else st
  else st.

(** [monitorDirectoryForCache(dirPath)] *)
Definition monitorDirectoryForCache (dirPath : string) (now random : Z) (st : State)
  : State :=
  if negb (dc_enabled (DIR_CACHE st)) || negb (cacheMonitoring cfg) then st
  else
    let st :=
      if mon_enabled (DIR_MONITORS st) then st
      else withDirMonitors st (monEnable (DIR_MONITORS st)) in
    if bool_decide (dirPath ∈ monitoredPaths (DIR_MONITORS st)) then st
    else
      match setDirChangeCallback dirPath now random st with
      | (Some watcher, st) => withDirMonitors st (monAdd (DIR_MONITORS st) dirPath watcher)
      | (None, st) => st
      end.

(** [getFromDirCache(dirPath)] *)
Definition getFromDirCache (dirPath : string) (now : Z) (st : State)
  : option (list string) * State :=
  let c := DIR_CACHE st in
  if negb (dc_enabled c) then (None, st)
  else
    match mget dirPath (dc_items c) with
    | None => (None, st)
    | Some cacheItem =>
        if now - d_timestamp cacheItem >? dc_maxAge c then
          let st := withDirCache st (dcSetItems c (mdel dirPath (dc_items c))) in
          (None, stopMonitoringDirectory dirPath st)
        else
          let cacheItem' :=
            {| listing := listing cacheItem; d_timestamp := d_timestamp cacheItem;
               lastAccessed := now |} in
          (Some (listing cacheItem),
           withDirCache st
             (dcSet c (mset dirPath cacheItem' (dc_items c))
                (dc_hits c + 1) (dc_misses c) (dc_evictions c)))
    end.

(** [evictFromDirCache()]; [if (oldestPath)] is false for no path and for the
    empty path. *)
Definition evictFromDirCache (now : Z) (st : State) : State :=
  let c := DIR_CACHE st in
  match snd (scanOldest lastAccessed now None (dc_items c)) with
  | Some oldestPath =>
      if bool_decide (oldestPath = EmptyString) then st
      else
        let st := withDirCache st (dcSetItems c (mdel oldestPath (dc_items c))) in
        let st := stopMonitoringDirectory oldestPath st in
        let c := DIR_CACHE st in
        withDirCache st
          (dcSet c (dc_items c) (dc_hits c) (dc_misses c) (dc_evictions c + 1))
  | None => st
  end.

(** [addToDirCache(dirPath, content)] *)
Definition addToDirCache (dirPath : string) (content : list string)
    (now random : Z) (st : State) : State :=
  if negb (dc_enabled (DIR_CACHE st)) then st
  else
    let st :=
      if msize (dc_items (DIR_CACHE st)) >=? dc_maxSize (DIR_CACHE st)
      then evictFromDirCache now st else st in
    let c := DIR_CACHE st in
    let st :=
      withDirCache st
        (dcSetItems c
           (mset dirPath
              {| listing := content; d_timestamp := now; lastAccessed := now |}
              (dc_items c))) in
    monitorDirectoryForCache dirPath now random st.

(** ** The file-content cache ([src/tools/file-tools.js]) *)

(** [stopMonitoringFile(filePath)] *)
Definition stopMonitoringFile (filePath : string) (st : State) : State :=
  let m := CACHE_MONITORS st in
  if negb (mon_enabled m) || negb (bool_decide (filePath ∈ monitoredPaths m)) then st
  else
    match mon_watchers m !! filePath with
    | Some watcher =>
        let st := snd (closeWatcher watcher st) in
        withCacheMonitors st (monRemove (CACHE_MONITORS st) filePath)
    | None => st
    end.

(** The callback that [monitorFileForCache(filePath)] registers. *)
Definition fileChangeCallback (filePath : string) (event : WatchEvent)
    (changedPath : string) (st : State) : State :=
  match event with
  | EvChange | EvUnlink =>
      let c := FILE_CACHE st in
      if mhas filePath (fc_items c) then
        let st := withFileCache st (fcSetItems c (mdel filePath (fc_items c))) in
        invalidateDirCache (dirname filePath) st
      else st
  | _ => st
  end.

(** [monitorFileForCache(filePath)] *)
Definition monitorFileForCache (filePath : string) (now random : Z) (st : State)
  : State :=
  if negb (fc_enabled (FILE_CACHE st)) || negb (cacheMonitoring cfg) then st
  else
    let st :=
      if mon_enabled (CACHE_MONITORS st) then st
      else withCacheMonitors st (monEnable (CACHE_MONITORS st)) in
    if bool_decide (filePath ∈ monitoredPaths (CACHE_MONITORS st)) then st
    else
      match setFileChangeCallback filePath now random st with
      | (Some watcher, st) =>
          withCacheMonitors st (monAdd (CACHE_MONITORS st) filePath watcher)
      | (None, st) => st
      end.

(** [getFromCache(filePath)] *)
Definition getFromCache (filePath : string) (now : Z) (st : State)
  : option string * State :=
  let c := FILE_CACHE st in
  if negb (fc_enabled c) then (None, st)
  else
    match mget filePath (fc_items c) with
    | None =>
        (None,
         withFileCache st
           (fcSet c (fc_items c) (fc_size c) (fc_hits c) (fc_misses c + 1) (fc_evictions c)))
    | Some cacheItem =>
        if now - timestamp cacheItem >? fc_maxAge c then
          let st := if fc_monitoring c then stopMonitoringFile filePath st else st in
          let c := FILE_CACHE st in
          (None,
           withFileCache st
             (fcSet c (mdel filePath (fc_items c))
                (fc_size c - strlen (content cacheItem))
                (fc_hits c) (fc_misses c) (fc_evictions c + 1)))
        else
          let cacheItem' :=
            {| content := content cacheItem; timestamp := timestamp cacheItem;
               lastAccess := now |} in
          (Some (content cacheItem),
           withFileCache st
             (fcSet c (mset filePath cacheItem' (fc_items c))
                (fc_size c) (fc_hits c + 1) (fc_misses c) (fc_evictions c)))
    end.

(** [.sort((a, b) => a[1].lastAccess - b[1].lastAccess)]: ascending and
    stable. *)
Fixpoint insertByLastAccess (e : string * CacheItem) (l : list (string * CacheItem))
  : list (string * CacheItem) :=
  match l with
  | [] => [e]
  | x :: r =>
      if lastAccess (snd e) <=? lastAccess (snd x) then e :: x :: r
      else x :: insertByLastAccess e r
  end.

Definition sortByLastAccess (l : list (string * CacheItem)) : list (string * CacheItem) :=
  foldr insertByLastAccess [] l.

(** The [for] loop of [ensureCacheSpace] over the sorted snapshot. *)
Fixpoint evictLoop (requiredSpace : Z) (cacheItems : list (string * CacheItem))
    (st : State) : State :=
  match cacheItems with
  | [] => st
  | (key, item) :: rest =>
      let st := if fc_monitoring (FILE_CACHE st) then stopMonitoringFile key st else st in
      let c := FILE_CACHE st in
      let st :=
        withFileCache st
          (fcSet c (mdel key (fc_items c)) (fc_size c - strlen (content item))
             (fc_hits c) (fc_misses c) (fc_evictions c + 1)) in
      if fc_size (FILE_CACHE st) + requiredSpace <=? fc_maxSize (FILE_CACHE st) then st
      else evictLoop requiredSpace rest st
  end.

(** [ensureCacheSpace(requiredSpace)] *)
Definition ensureCacheSpace (requiredSpace : Z) (st : State) : State :=
  let c := FILE_CACHE st in
  if fc_size c + requiredSpace <=? fc_maxSize c then st
  else evictLoop requiredSpace (sortByLastAccess (fc_items c)) st.

(** [addToCache(filePath, content)] *)
Definition addToCache (filePath : string) (newContent : string) (now random : Z)
    (st : State) : State :=
  if negb (fc_enabled (FILE_CACHE st)) || bool_decide (newContent = EmptyString) then st
  else if strlen newContent >? LARGE_FILE_THRESHOLD_read then st
  else
    let cacheItem := {| content := newContent; timestamp := now; lastAccess := now |} in
    let c := FILE_CACHE st in
    let st :=
      match mget filePath (fc_items c) with
      | Some oldItem =>
          withFileCache st
            (fcSet c (fc_items c) (fc_size c - strlen (content oldItem))
               (fc_hits c) (fc_misses c) (fc_evictions c))
      | None => st
      end in
    let st := ensureCacheSpace (strlen newContent) st in
    let c := FILE_CACHE st in
    let st :=
      withFileCache st
        (fcSet c (mset filePath cacheItem (fc_items c)) (fc_size c + strlen newContent)
           (fc_hits c) (fc_misses c) (fc_evictions c)) in
    if fc_monitoring (FILE_CACHE st) then monitorFileForCache filePath now random st
    else st.

(** ** The file tools ([src/tools/file-tools.js]) *)

(** [fs.mkdirSync(dir, { recursive: true })]: the directory is created with
    every directory that is missing on the way to it; [None] when the call
    throws, because one of them is a file.  The walk up goes from a path to
    its [dirname] and ends at the root (or at [.]); it takes no more steps
    than [dir] has characters. *)
Fixpoint mkdirp (fuel : nat) (dir : string) (f : gmap string FsNode)
  : option (gmap string FsNode) :=
  match f !! dir with
  | Some FsDir => Some f
  | Some (FsFile _) => None
  | None =>
      match fuel with
      | O => Some (<[dir := FsDir]> f)
      | S n =>
          match mkdirp n (dirname dir) f with
          | Some f' => Some (<[dir := FsDir]> f')
          | None => None
          end
      end
  end.

(** [if (!fs.existsSync(dir)) fs.mkdirSync(dir, { recursive: true })]; a
    file at [dir] exists, so that nothing is created and nothing thrown. *)
Definition ensureDir (dir : string) (f : gmap string FsNode)
  : option (gmap string FsNode) :=
  match f !! dir with
  | Some _ => Some f
  | None => mkdirp (String.length dir) dir f
  end.

(** [fs.writeFileSync(filePath, body)] and [fs.appendFileSync(filePath, body)]:
    [None] when the call throws, because the path is a directory or its
    parent is a file. *)
Definition writeNode (append : bool) (filePath body : string) (f : gmap string FsNode)
  : option (gmap string FsNode) :=
  match f !! dirname filePath with
  | Some (FsFile _) => None
  | _ =>
      match f !! filePath with
      | Some FsDir => None
      | Some (FsFile old) =>
          Some (<[filePath := FsFile (if append then old +:+ body else body)]> f)
      | None => Some (<[filePath := FsFile body]> f)
      end
  end.

(** [FILE_CACHE.hits++] and [FILE_CACHE.misses++] in [readFile] *)
Definition countHit (st : State) : State :=
  let c := FILE_CACHE st in
  withFileCache st
    (fcSet c (fc_items c) (fc_size c) (fc_hits c + 1) (fc_misses c) (fc_evictions c)).

Definition countMiss (st : State) : State :=
  let c := FILE_CACHE st in
  withFileCache st
    (fcSet c (fc_items c) (fc_size c) (fc_hits c) (fc_misses c + 1) (fc_evictions c)).

(** [if (FILE_CACHE.enabled && FILE_CACHE.items.has(filePath))
       FILE_CACHE.items.delete(filePath)] *)
Definition dropCached (filePath : string) (st : State) : State :=
  let c := FILE_CACHE st in
  if fc_enabled c && mhas filePath (fc_items c)
  then withFileCache st (fcSetItems c (mdel filePath (fc_items c)))
  else st.

(** [readFile({ path })].  A cached value is served when it is truthy: a
    string that is not empty.  The two size tests are on [stats.size], the
    size of the file in bytes. *)
Definition readFile (filePath : string) (now random : Z) (st : State) : Outcome * State :=
  if negb (validateToolCall cfg "read_file" [filePath]) then (Throws, st)
  else
    match fs st !! filePath with
    | None => (Failed, st)
    | Some node =>
        let '(served, st) :=
          if fc_enabled (FILE_CACHE st) then
            let '(cachedContent, st) := getFromCache filePath now st in
            match cachedContent with
            | Some c =>
                if bool_decide (c = EmptyString) then (None, countMiss st)
                else (Some c, countHit st)
            | None => (None, countMiss st)
            end
          else (None, st) in
        match served with
        | Some c => (ReadOk c false, st)
        | None =>
            match node with
            | FsDir => (Failed, st)
            | FsFile body =>
                if statSize body >? orElse (thresholdRead cfg) LARGE_FILE_THRESHOLD_read
                then (ReadOk body true, st)
                else
                  let st :=
                    if fc_enabled (FILE_CACHE st) && (statSize body <? 1024 * 1024)
                    then addToCache filePath body now random st else st in
                  (ReadOk body false, st)
            end
        end
    end.

(** [writeFile({ path, content })]; what [mkdirSync] or [writeFileSync]
    throws is thrown again by the [catch]. *)
Definition writeFile (filePath body : string) (now random : Z) (st : State)
  : Outcome * State :=
  if negb (validateToolCall cfg "write_file" [filePath]) then (Throws, st)
  else
    match ensureDir (dirname filePath) (fs st) with
    | None => (Throws, st)
    | Some f =>
        let st := withFs st f in
        if strlen body >? orElse (thresholdWrite cfg) LARGE_FILE_THRESHOLD_write then
          match writeNode false filePath body (fs st) with
          | Some f => (Written true, withFs st f)
          | None => (Failed, st)
          end
        else
          match writeNode false filePath body (fs st) with
          | None => (Throws, st)
          | Some f =>
              let st := withFs st f in
              let c := FILE_CACHE st in
              let st :=
                if fc_enabled c && mhas filePath (fc_items c)
                then addToCache filePath body now random st else st in
              (Written false, st)
          end
    end.

(** [appendFile({ path, content })] *)
Definition appendFile (filePath body : string) (st : State) : Outcome * State :=
  if negb (validateToolCall cfg "append_file" [filePath]) then (Throws, st)
  else
    match ensureDir (dirname filePath) (fs st) with
    | None => (Throws, st)
    | Some f =>
        let st := withFs st f in
        if strlen body >? orElse (thresholdAppend cfg) LARGE_FILE_THRESHOLD_write then
          match writeNode true filePath body (fs st) with
          | Some f => (Appended true, withFs st f)
          | None => (Failed, st)
          end
        else
          match writeNode true filePath body (fs st) with
          | None => (Throws, st)
          | Some f => (Appended false, dropCached filePath (withFs st f))
          end
    end.

(** [deleteFile({ path })]; [fs.unlinkSync] throws on a directory. *)
Definition deleteFile (filePath : string) (st : State) : Outcome * State :=
  if negb (validateToolCall cfg "delete_file" [filePath]) then (Throws, st)
  else
    match fs st !! filePath with
    | None => (Deleted false, st)
    | Some FsDir => (Throws, st)
    | Some (FsFile _) =>
        (Deleted true, dropCached filePath (withFs st (delete filePath (fs st))))
    end.

(** [copyFile({ source, destination, overwrite })]: small files go through
    [fs.copyFile], large ones (by [stats.size]) through [copyLargeFile];
    neither touches a cache.  What [mkdirSync] throws is caught and returned
    as a failure. *)
Definition copyFile (source destination : string) (overwrite : bool) (st : State)
  : Outcome * State :=
  if negb (validateToolCall cfg "copy_file" [source; destination]) then (Throws, st)
  else
    match fs st !! source with
    | None => (Failed, st)
    | Some node =>
        match ensureDir (dirname destination) (fs st) with
        | None => (Failed, st)
        | Some f =>
            let st := withFs st f in
            match node with
            | FsDir => (Failed, st)
            | FsFile body =>
                let streamed :=
                  statSize body >? orElse (thresholdCopy cfg) LARGE_FILE_THRESHOLD_read in
                match fs st !! destination with
                | Some FsDir => (Failed, st)
                | Some (FsFile _) =>
                    if overwrite
                    then (Copied streamed, withFs st (<[destination := FsFile body]> (fs st)))
                    else (Failed, st)
                | None =>
                    match fs st !! dirname destination with
                    | Some (FsFile _) => (Failed, st)
                    | _ =>
                        (Copied streamed, withFs st (<[destination := FsFile body]> (fs st)))
                    end
                end
            end
        end
    end.

(** [fs.renameSync(source, destination)]; [None] when the call throws,
    because the source is missing, the parent of the destination is a file
    or the rename crosses a device. *)
Definition renameSync (source destination : string) (f : gmap string FsNode)
  : option (gmap string FsNode) :=
  match f !! source with
  | Some node =>
      if crossDevice cfg source destination then None
      else
        match f !! dirname destination with
        | Some (FsFile _) => None
        | _ => Some (<[destination := node]> (delete source f))
        end
  | None => None
  end.

(** [moveFile({ source, destination })]: when [fs.mkdirSync] or
    [fs.renameSync] throws, the inner [catch] copies and deletes. *)
Definition moveFile (source destination : string) (st : State) : Outcome * State :=
  if negb (validateToolCall cfg "move_file" [source; destination]) then (Throws, st)
  else
    match fs st !! destination with
    | Some _ => (Failed, st)
    | None =>
        let ensured := ensureDir (dirname destination) (fs st) in
        let st := match ensured with Some f => withFs st f | None => st end in
        let renamed :=
          match ensured with
          | Some f => renameSync source destination f
          | None => None
          end in
        match renamed with
        | Some f =>
            let st := withFs st f in
            let c := FILE_CACHE st in
            let st :=
              if fc_enabled c then
                match mget source (fc_items c) with
                | Some item =>
                    withFileCache st
                      (fcSetItems c (mdel source (mset destination item (fc_items c))))
                | None => st
                end
              else st in
            (Moved false, st)
        | None =>
            let '(copyResult, st) := copyFile source destination true st in
            match copyResult with
            | Throws => (Throws, st)
            | Copied _ =>
                match fs st !! source with
                | Some (FsFile _) =>
                    (Moved true, dropCached source (withFs st (delete source (fs st))))
                | _ => (Throws, st)
                end
            | other => (other, st)
            end
        end
    end.

(** ** The directory tools ([src/tools/dir-tools.js]) *)

(** [pathUtils.sanitizePath(filePath)] for a string *)
Definition sanitizePath (filePath : string) : string :=
  if bool_decide (filePath = EmptyString) then EmptyString else normalize filePath.

(** [directoryExists(dirPath)]: the path exists and is a directory. *)
Definition directoryExists (dirPath : string) (f : gmap string FsNode) : bool :=
  match f !! dirPath with Some FsDir => true | _ => false end.

(** Whether [path] lies below [dirPath] in the file system. *)
Definition below (dirPath path : string) : bool :=
  negb (bool_decide (path = dirPath))
  && negb (startsWithDotDot (relative dirPath path))
  && negb (isAbsolute (relative dirPath path)).

(** [createDirectory(dirPath, { recursive })]; [mkdir] throws when a file is
    in the way, or when the parent is missing and [recursive] is off. *)
Definition createDirectory (dirPath : string) (recursive : bool) (st : State)
  : Outcome * State :=
  let dirPath := sanitizePath dirPath in
  if negb (isPathAllowed cfg dirPath) then (Failed, st)
  else if directoryExists dirPath (fs st) then (DirCreated true, st)
  else
    match fs st !! dirPath with
    | Some _ => (Failed, st)
    | None =>
        let made :=
          if recursive then mkdirp (String.length dirPath) dirPath (fs st)
          else if directoryExists (dirname dirPath) (fs st)
               then Some (<[dirPath := FsDir]> (fs st))
               else None in
        match made with
        | None => (Failed, st)
        | Some f =>
            let st := withFs st f in
            (DirCreated false, invalidateDirCache (dirname dirPath) st)
        end
    end.

(** [deleteDirectory(dirPath, { recursive, force })]; [rmdir] without
    [recursive] throws when the directory is not empty. *)
Definition deleteDirectory (dirPath : string) (recursive : bool) (st : State)
  : Outcome * State :=
  let dirPath := sanitizePath dirPath in
  if negb (isPathAllowed cfg dirPath) then (Failed, st)
  else if negb (directoryExists dirPath (fs st)) then (Failed, st)
  else
    let inside := filter (λ e, below dirPath (fst e) = true) (fs st) in
    if negb recursive && negb (bool_decide (inside = ∅)) then (Failed, st)
    else
      let st :=
        withFs st
          (delete dirPath (filter (λ e, below dirPath (fst e) = false) (fs st))) in
      let st := invalidateDirCache dirPath st in
      let st := invalidateDirCache (dirname dirPath) st in
      let st := stopMonitoringDirectory dirPath st in
      (DirRemoved, st).

(** [clearCache()]: stop every monitor, then empty the cache. *)
Definition clearCache (st : State) : State :=
  let st :=
    foldl (λ st filePath, stopMonitoringFile filePath st) st
      (elements (monitoredPaths (CACHE_MONITORS st))) in
  let c := FILE_CACHE st in
  withFileCache st (fcSet c [] 0 (fc_hits c) (fc_misses c) (fc_evictions c)).

(** [clearDirCache()] *)
Definition clearDirCache (st : State) : State :=
  let st :=
    foldl (λ st dirPath, stopMonitoringDirectory dirPath st) st
      (elements (monitoredPaths (DIR_MONITORS st))) in
  withDirCache st (dcSetItems (DIR_CACHE st) []).

(** The argument of the [setConfig] of the file tools; [None] is a property
    that the object does not have. *)
Record FileToolsConfig := {
  cacheEnabled : option bool;
  maxCacheSize : option Z;
  maxCacheAge : option Z;
  monitoringEnabled : option bool
}.

(** [setConfig(config)] of the file tools.  [random] gives the draw of
    [Math.random] for each path that gets a monitor. *)
Definition fileSetConfig (o : FileToolsConfig) (now : Z) (random : string → Z)
    (st : State) : State :=
  let st :=
    match cacheEnabled o with
    | Some b =>
        let c := FILE_CACHE st in
        let st :=
          withFileCache st
            {| fc_enabled := b; fc_items := fc_items c; fc_size := fc_size c;
               fc_maxSize := fc_maxSize c; fc_maxAge := fc_maxAge c;
               fc_hits := fc_hits c; fc_misses := fc_misses c;
               fc_evictions := fc_evictions c; fc_monitoring := fc_monitoring c |} in
        if b then st else clearCache st
    | None => st
    end in
  let c := FILE_CACHE st in
  let st :=
    withFileCache st
      {| fc_enabled := fc_enabled c; fc_items := fc_items c; fc_size := fc_size c;
         fc_maxSize := orElse (maxCacheSize o) (fc_maxSize c);
         fc_maxAge := orElse (maxCacheAge o) (fc_maxAge c);
         fc_hits := fc_hits c; fc_misses := fc_misses c;
         fc_evictions := fc_evictions c; fc_monitoring := fc_monitoring c |} in
  match monitoringEnabled o with
  | Some b =>
      let c := FILE_CACHE st in
      let st :=
        withFileCache st
          {| fc_enabled := fc_enabled c; fc_items := fc_items c; fc_size := fc_size c;
             fc_maxSize := fc_maxSize c; fc_maxAge := fc_maxAge c;
             fc_hits := fc_hits c; fc_misses := fc_misses c;
             fc_evictions := fc_evictions c; fc_monitoring := b |} in
      if b && fc_enabled c then
        foldl (λ st filePath, monitorFileForCache filePath now (random filePath) st) st
          (mkeys (fc_items c))
      else st
  | None => st
  end.

(** The argument of the [setConfig] of the directory tools. *)
Record DirToolsConfig := {
  dirCacheEnabled : option bool;
  maxDirCacheSize : option Z;
  maxDirCacheAge : option Z
}.

(** [setConfig(config)] of the directory tools *)
Definition dirSetConfig (o : DirToolsConfig) (st : State) : State :=
  let st :=
    match dirCacheEnabled o with
    | Some b =>
        let c := DIR_CACHE st in
        let st :=
          withDirCache st
            {| dc_enabled := b; dc_maxSize := dc_maxSize c; dc_maxAge := dc_maxAge c;
               dc_items := dc_items c; dc_hits := dc_hits c; dc_misses := dc_misses c;
               dc_evictions := dc_evictions c |} in
        if b then st else clearDirCache st
    | None => st
    end in
  let c := DIR_CACHE st in
  withDirCache st
    {| dc_enabled := dc_enabled c;
       dc_maxSize := orElse (maxDirCacheSize o) (dc_maxSize c);
       dc_maxAge := orElse (maxDirCacheAge o) (dc_maxAge c);
       dc_items := dc_items c; dc_hits := dc_hits c; dc_misses := dc_misses c;
       dc_evictions := dc_evictions c |}.

End Model.

(** [setPoolConfig(options)]: a limit is taken when it is a positive number. *)
Definition setPoolConfig (newMaxWatchers newMaxPerPath newMaxPerProcess newMaxIdleTime : option Z)
    (p : MonitorPool) : MonitorPool :=
  let pick (o : option Z) (old : Z) : Z :=
    match o with Some v => if v >? 0 then v else old | None => old end in
  {| watchers := watchers p;
     pathToId := pathToId p;
     maxWatchers := pick newMaxWatchers (maxWatchers p);
     maxPerPath := pick newMaxPerPath (maxPerPath p);
     maxPerProcess := pick newMaxPerProcess (maxPerProcess p);
     created := created p;
     closed := closed p;
     rejected := rejected p;
     activeCount := activeCount p;
     processMap := processMap p;
     maxIdleTime := pick newMaxIdleTime (maxIdleTime p) |}.

(** The pool when the module is loaded: the configuration has no [watchPool]
    section, so the limits are the fallbacks 200, 5 and 50. *)
Definition initialPool : MonitorPool := emptyPool 200 5 50 7200000.

(** The singletons when the modules are loaded, over a file system [f]. *)
Definition initialState (cfg : Config) (f : gmap string FsNode) : State := {|
  pool := initialPool;
  FILE_CACHE :=
    {| fc_enabled := false; fc_items := []; fc_size := 0;
       fc_maxSize := 50 * 1024 * 1024; fc_maxAge := 60 * 1000;
       fc_hits := 0; fc_misses := 0; fc_evictions := 0; fc_monitoring := false |};
  CACHE_MONITORS :=
    {| mon_enabled := cacheMonitoring cfg; mon_watchers := ∅; monitoredPaths := ∅ |};
  DIR_CACHE :=
    {| dc_enabled := false; dc_maxSize := 100; dc_maxAge := 30000; dc_items := [];
       dc_hits := 0; dc_misses := 0; dc_evictions := 0 |};
  DIR_MONITORS :=
    {| mon_enabled := cacheMonitoring cfg; mon_watchers := ∅; monitoredPaths := ∅ |};
  fs := f
|}.

(** A configuration for the examples: every tool call is allowed, the stream
    thresholds are the fallbacks, no rename crosses a device. *)
Definition exampleConfig (monitoring : bool) : Config := {|
  cacheMonitoring := monitoring;
  thresholdRead := None;
  thresholdWrite := None;
  thresholdAppend := None;
  thresholdCopy := None;
  pid := "4242";
  validateToolCall := λ _ _, true;
  isPathAllowed := λ _, true;
  crossDevice := λ _ _, false
|}.

(** Whether [addWatcher] returned a record rather than [null]. *)
Definition admitted (r : option WatcherInfo) : bool :=
  match r with Some _ => true | None => false end.

(** The calls that change the pool. *)
Inductive PoolOp :=
| OpAdd (targetPath : string) (watcher : option WatcherInstance) (type : WatchType)
    (processId : string) (now random : Z)
| OpRemove (watcherId : WatcherId)
| OpUse (watcherId : WatcherId) (now : Z)
| OpCleanup (now : Z)
| OpEvict (now : Z).

Definition runOp `{PathLib} (p : MonitorPool) (op : PoolOp) : MonitorPool :=
  match op with
  | OpAdd targetPath watcher type processId now random =>
      snd (addWatcher targetPath watcher type processId now random p)
  | OpRemove watcherId => snd (removeWatcher watcherId p)
  | OpUse watcherId now => useWatcher watcherId now p
  | OpCleanup now => snd (cleanupIdleWatchers now p)
  | OpEvict now => snd (removeOldestWatcher now p)
  end.

Definition runOps `{PathLib} (p : MonitorPool) (ops : list PoolOp) : MonitorPool :=
  foldl runOp p ops.

(** How many of the calls in [ops], run from [p], are calls of [addWatcher]
    that return [null]. *)
Fixpoint nullReturns `{PathLib} (p : MonitorPool) (ops : list PoolOp) : Z :=
  match ops with
  | [] => 0
  | op :: rest =>
      (match op with
       | OpAdd targetPath watcher type processId now random =>
           if admitted (fst (addWatcher targetPath watcher type processId now random p))
           then 0 else 1
       | _ => 0
       end) + nullReturns (runOp p op) rest
  end.

(** ** States for the examples *)

(** A directory with two files. *)
Definition exampleFs : gmap string FsNode :=
  {[ "/d" := FsDir; "/d/a.txt" := FsFile "hello"; "/d/b.txt" := FsFile "x" ]}.

(** The server after both caches are switched on through the two
    [setConfig]s, with or without monitors for the cached paths. *)
Definition cachingState (monitoring : bool) : State :=
  let cfg := exampleConfig monitoring in
  dirSetConfig
    {| dirCacheEnabled := Some true; maxDirCacheSize := None; maxDirCacheAge := None |}
    (@fileSetConfig posix cfg
       {| cacheEnabled := Some true; maxCacheSize := None; maxCacheAge := None;
          monitoringEnabled := Some monitoring |}
       0 (λ _, 0) (initialState cfg exampleFs)).

(** ** The file-content cache on its own

    What [ensureCacheSpace] and [addToCache] do to [FILE_CACHE], apart from
    the monitors that they stop and start; [FILE_CACHE_evictLoop] and
    [FILE_CACHE_addToCache] relate them to the functions above. *)

Definition evictOne (key : string) (item : CacheItem) (c : FileCache) : FileCache :=
  fcSet c (mdel key (fc_items c)) (fc_size c - strlen (content item))
    (fc_hits c) (fc_misses c) (fc_evictions c + 1).

Fixpoint evictCache (requiredSpace : Z) (cacheItems : list (string * CacheItem))
    (c : FileCache) : FileCache :=
  match cacheItems with
  | [] => c
  | (key, item) :: rest =>
      let c := evictOne key item c in
      if fc_size c + requiredSpace <=? fc_maxSize c then c
      else evictCache requiredSpace rest c
  end.

Definition ensureCache (requiredSpace : Z) (c : FileCache) : FileCache :=
  if fc_size c + requiredSpace <=? fc_maxSize c then c
  else evictCache requiredSpace (sortByLastAccess (fc_items c)) c.

Definition addCache (filePath newContent : string) (now : Z) (c : FileCache) : FileCache :=
  if negb (fc_enabled c) || bool_decide (newContent = EmptyString) then c
  else if strlen newContent >? LARGE_FILE_THRESHOLD_read then c
  else
    let c :=
      match mget filePath (fc_items c) with
      | Some oldItem =>
          fcSet c (fc_items c) (fc_size c - strlen (content oldItem))
            (fc_hits c) (fc_misses c) (fc_evictions c)
      | None => c
      end in
    let c := ensureCache (strlen newContent) c in
    fcSet c
      (mset filePath {| content := newContent; timestamp := now; lastAccess := now |}
         (fc_items c))
      (fc_size c + strlen newContent) (fc_hits c) (fc_misses c) (fc_evictions c).

(** The total length of the contents of some cache entries. *)
Definition totalLength (l : list (string * CacheItem)) : Z :=
  foldr (λ e acc, strlen (content (snd e)) + acc) 0 l.

(** [m] without the keys of [l]. *)
Definition withoutKeys {V : Type} (l : list (string * V)) (m : list (string * V))
  : list (string * V) :=
  foldl (λ m e, mdel (fst e) m) m l.

(** A state in which both caches hold an entry made at time 1000, each with
    its monitor: the file [/d/a.txt] after a read, the listing of [/d] after
    it was stored. *)
Definition bothCached : State :=
  let cfg := exampleConfig true in
  @addToDirCache posix cfg "/d" ["a.txt"; "b.txt"] 1000 8
    (snd (@readFile posix cfg "/d/a.txt" 1000 7 (cachingState true))).

(** A state in which the listings of [/d] and of [/d/sub] are cached. *)
Definition nestedListings : State :=
  let cfg := exampleConfig false in
  @addToDirCache posix cfg "/d/sub" ["x.txt"] 1100 2
    (@addToDirCache posix cfg "/d" ["a.txt"; "b.txt"; "sub"] 1000 1 (cachingState false)).

(** [getFromCache] on [FILE_CACHE] alone. *)
Definition getCache (filePath : string) (now : Z) (c : FileCache)
  : option string * FileCache :=
  if negb (fc_enabled c) then (None, c)
  else
    match mget filePath (fc_items c) with
    | None =>
        (None,
         fcSet c (fc_items c) (fc_size c) (fc_hits c) (fc_misses c + 1) (fc_evictions c))
    | Some cacheItem =>
        if now - timestamp cacheItem >? fc_maxAge c then
          (None,
           fcSet c (mdel filePath (fc_items c)) (fc_size c - strlen (content cacheItem))
             (fc_hits c) (fc_misses c) (fc_evictions c + 1))
        else
          (Some (content cacheItem),
           fcSet c
             (mset filePath
                {| content := content cacheItem; timestamp := timestamp cacheItem;
                   lastAccess := now |}
                (fc_items c))
             (fc_size c) (fc_hits c + 1) (fc_misses c) (fc_evictions c))
    end.

(** [a] was last accessed no later than [b]. *)
Definition accessedNoLater (a b : string * CacheItem) : Prop :=
  lastAccess (snd a) ≤ lastAccess (snd b).

(** ** The directory-listing cache on its own

    What [getFromDirCache], [evictFromDirCache] and [addToDirCache] do to
    [DIR_CACHE], apart from the monitors that they stop and start. *)

Definition getDirCache (dirPath : string) (now : Z) (c : DirCache)
  : option (list string) * DirCache :=
  if negb (dc_enabled c) then (None, c)
  else
    match mget dirPath (dc_items c) with
    | None => (None, c)
    | Some cacheItem =>
        if now - d_timestamp cacheItem >? dc_maxAge c then
          (None, dcSetItems c (mdel dirPath (dc_items c)))
        else
          (Some (listing cacheItem),
           dcSet c
             (mset dirPath
                {| listing := listing cacheItem; d_timestamp := d_timestamp cacheItem;
                   lastAccessed := now |}
                (dc_items c))
             (dc_hits c + 1) (dc_misses c) (dc_evictions c))
    end.

Definition evictDirCache (now : Z) (c : DirCache) : DirCache :=
  match snd (scanOldest lastAccessed now None (dc_items c)) with
  | Some oldestPath =>
      if bool_decide (oldestPath = EmptyString) then c
      else
        dcSet c (mdel oldestPath (dc_items c)) (dc_hits c) (dc_misses c)
          (dc_evictions c + 1)
  | None => c
  end.

Definition addDirCache (dirPath : string) (entries : list string) (now : Z)
    (c : DirCache) : DirCache :=
  if negb (dc_enabled c) then c
  else
    let c := if msize (dc_items c) >=? dc_maxSize c then evictDirCache now c else c in
    dcSetItems c
      (mset dirPath {| listing := entries; d_timestamp := now; lastAccessed := now |}
         (dc_items c)).

(** ** How the properties of eviction are stated *)

(** From the file-content cache [c], [ensureCacheSpace requiredSpace] has
    made [c']: the evicted entries are the first ones in ascending order of
    [lastAccess], each one is counted, and the loop has stopped at the first
    eviction after which the new content fits. *)
Definition evictsInOrder (requiredSpace : Z) (c c' : FileCache) : Prop :=
  ∃ evicted retained,
    sortByLastAccess (fc_items c) = evicted ++ retained
    ∧ (∀ e r, e ∈ evicted → r ∈ retained → accessedNoLater e r)
    ∧ (∀ key, mget key (fc_items c')
              = if bool_decide (key ∈ mkeys evicted) then None
                else mget key (fc_items c))
    ∧ fc_evictions c' = fc_evictions c + Z.of_nat (length evicted)
    ∧ (fc_size c' + requiredSpace ≤ fc_maxSize c ∨ retained = [])
    ∧ (∀ j : nat, (1 ≤ j < length evicted)%nat →
         fc_size c - totalLength (take j evicted) + requiredSpace > fc_maxSize c)
    ∧ (fc_items c ≠ [] → evicted ≠ []).

(** From the directory-listing cache [c], [addToDirCache dirPath entries] at
    time [now] has made [c']: one listing with the least [lastAccessed] has
    been evicted and counted, and the new listing stored. *)
Definition evictsLeastRecent (dirPath : string) (entries : list string) (now : Z)
    (c c' : DirCache) : Prop :=
  ∃ victim item,
    (victim, item) ∈ dc_items c
    ∧ (∀ k i, (k, i) ∈ dc_items c → lastAccessed item ≤ lastAccessed i)
    ∧ dc_items c'
      = mset dirPath {| listing := entries; d_timestamp := now; lastAccessed := now |}
          (mdel victim (dc_items c))
    ∧ dc_evictions c' = dc_evictions c + 1.

(** Both caches switched on, empty, each with room for two entries (of one
    character, for the file-content cache). *)
Definition smallCaches : State :=
  let cfg := exampleConfig false in
  dirSetConfig
    {| dirCacheEnabled := Some true; maxDirCacheSize := Some 2; maxDirCacheAge := None |}
    (@fileSetConfig posix cfg
       {| cacheEnabled := Some true; maxCacheSize := Some 2; maxCacheAge := None;
          monitoringEnabled := None |}
       0 (λ _, 0) (initialState cfg exampleFs)).

(** [smallCaches] after A and B are stored in both caches, at the times 10 and
    20, and A is read from both at the time 30. *)
Definition twoEntries : State :=
  let cfg := exampleConfig false in
  let st := @addToCache posix cfg "A" "a" 10 1 smallCaches in
  let st := @addToCache posix cfg "B" "b" 20 2 st in
  let st := @addToDirCache posix cfg "A" ["a1"] 10 3 st in
  let st := @addToDirCache posix cfg "B" ["b1"] 20 4 st in
  let st := snd (getFromCache "A" 30 st) in
  snd (getFromDirCache "A" 30 st).

(** ** How the properties of the pool are stated *)

(** Closing the watcher of the record does not throw. *)
Definition closes (i : WatcherInfo) : Prop :=
  hasClose (w_instance i) && closeThrows (w_instance i) = false.

(** [victim] is the record that [removeOldestWatcher] looks for: the first
    one, in the order of registration, among those created earliest. *)
Definition earliestCreated (victim : WatcherId) (info : WatcherInfo)
    (m : list (WatcherId * WatcherInfo)) : Prop :=
  ∃ m1 m2,
    m = m1 ++ (victim, info) :: m2
    ∧ Forall (λ e, w_createdAt info < w_createdAt (snd e)) m1
    ∧ Forall (λ e, w_createdAt info ≤ w_createdAt (snd e)) m2.

(** A pool with two records, of [/a] created at time 1 and of [/b] created at
    time 2, with [maxWatchers = 2] and [maxPerPath = 1]. *)
Definition fullPool : MonitorPool :=
  let p := setPoolConfig (Some 2) (Some 1) None None initialPool in
  let p := snd (@addWatcher posix "/a" (Some chokidarWatcher) file "4242" 1 11 p) in
  snd (@addWatcher posix "/b" (Some chokidarWatcher) file "4242" 2 22 p).

(** The records of the pool that watch [path], and those that [processId]
    owns. *)
Definition recordsOfPath (p : MonitorPool) (path : string)
  : list (WatcherId * WatcherInfo) :=
  filter (λ e, w_path (snd e) = path) (watchers p).

Definition recordsOfProcess (p : MonitorPool) (processId : string)
  : list (WatcherId * WatcherInfo) :=
  filter (λ e, w_processId (snd e) = processId) (watchers p).

(** What every call keeps true of the pool: the ids are distinct, every
    record is indexed under its path, the counter of a process is at least
    the number of its records, and the index and the counters are within
    the limits. *)
Record poolInvariant (p : MonitorPool) : Prop := {
  inv_keys : NoDup (mkeys (watchers p));
  inv_indexed :
    ∀ k i, (k, i) ∈ watchers p →
           ∃ ids, pathToId p !! w_path i = Some ids ∧ k ∈ ids;
  inv_counted :
    ∀ processId,
      Z.of_nat (length (recordsOfProcess p processId)) ≤ processWatcherCount p processId;
  inv_perPath : ∀ path, pathWatcherCount p path ≤ maxPerPath p;
  inv_perProcess : ∀ processId, processWatcherCount p processId ≤ maxPerProcess p;
  inv_limits : 0 ≤ maxPerPath p ∧ 0 ≤ maxPerProcess p
}.

(** A state in which the listings of [/d] and of its subdirectory [/d/..sub],
    whose name starts with two dots, are cached. *)
Definition dottedListings : State :=
  let cfg := exampleConfig false in
  @addToDirCache posix cfg "/d/..sub" ["x.txt"] 1100 2
    (@addToDirCache posix cfg "/d" ["a.txt"; "b.txt"; "..sub"] 1000 1 (cachingState false)).

(** ** The rest of the pool ([src/utils/monitor-pool.js]) *)

(** Whether closing the watcher of a record throws can be decided. *)
#[global] Instance closes_dec (i : WatcherInfo) : Decision (closes i).
Proof. unfold closes. apply _. Defined.

(** [closeAllWatchers()] of the pool.  The loop deletes the key that it is
    visiting and no other, so it visits every key that the map held when it
    started.  The index of the paths, the counters of the processes and
    [activeCount] are then reset, whatever the loop has removed. *)
Definition closeAllWatchers (p : MonitorPool) : Z * MonitorPool :=
  let '(closedCount, p) := removeAll (mkeys (watchers p)) 0 p in
  (closedCount,
   {| watchers := watchers p;
      pathToId := ∅;
      maxWatchers := maxWatchers p;
      maxPerPath := maxPerPath p;
      maxPerProcess := maxPerProcess p;
      created := created p;
      closed := closed p;
      rejected := rejected p;
      activeCount := 0;
      processMap := ∅;
      maxIdleTime := maxIdleTime p |}).

(** What [getPoolStatus()] returns; the interval of the cleanup timer, which
    the model leaves out, is not in it. *)
Record PoolStatus := {
  activeWatchers : Z;
  status_maxWatchers : Z;
  status_maxPerPath : Z;
  status_maxPerProcess : Z;
  stats_created : Z;
  stats_closed : Z;
  stats_rejected : Z;
  stats_activeCount : Z;
  stats_processCount : Z;
  stats_uniquePathsCount : Z;
  status_maxIdleTime : Z
}.

(** [getPoolStatus()] *)
Definition getPoolStatus (p : MonitorPool) : PoolStatus := {|
  activeWatchers := msize (watchers p);
  status_maxWatchers := maxWatchers p;
  status_maxPerPath := maxPerPath p;
  status_maxPerProcess := maxPerProcess p;
  stats_created := created p;
  stats_closed := closed p;
  stats_rejected := rejected p;
  stats_activeCount := activeCount p;
  stats_processCount := Z.of_nat (size (processMap p));
  stats_uniquePathsCount := Z.of_nat (size (pathToId p));
  status_maxIdleTime := maxIdleTime p
|}.

(** [getAllWatchers()]: a copy of every record, in the order of the map, with
    the key of the map as its [id]. *)
Definition getAllWatchers (p : MonitorPool) : list WatcherInfo :=
  map (λ e,
         {| w_id := fst e; w_path := w_path (snd e); w_instance := w_instance (snd e);
            w_type := w_type (snd e); w_processId := w_processId (snd e);
            w_createdAt := w_createdAt (snd e); w_lastUsedAt := w_lastUsedAt (snd e);
            w_useCount := w_useCount (snd e) |})
      (watchers p).

#[global] Instance WatchType_eq_dec : EqDecision WatchType.
Proof. solve_decision. Defined.

(** The loop of [findWatchersByPath] over the ids indexed under the path.
    [watchers.get(watcherId)] is [undefined] for an id that has no record:
    with a [type] to compare, reading [watcherInfo.type] then throws, and the
    result is [None]; without one, [undefined] is pushed. *)
Fixpoint findLoop (type : option WatchType) (ids : list WatcherId)
    (m : list (WatcherId * WatcherInfo)) (results : list (option WatcherInfo))
  : option (list (option WatcherInfo)) :=
  match ids with
  | [] => Some results
  | watcherId :: rest =>
      let watcherInfo := mget watcherId m in
      match type, watcherInfo with
      | Some _, None => None
      | Some t, Some i =>
          if bool_decide (w_type i = t) then findLoop type rest m (results ++ [watcherInfo])
          else findLoop type rest m results
      | None, _ => findLoop type rest m (results ++ [watcherInfo])
      end
  end.

(** [findWatchersByPath(targetPath, type)]; [type] is ['file'], ['directory']
    or [null].  The model keeps the ids of a path as a set: the results come
    in the order of [elements], which need not be the order of registration
    that the [Set] of the code has. *)
Definition findWatchersByPath `{PathLib} (targetPath : string) (type : option WatchType)
    (p : MonitorPool) : option (list (option WatcherInfo)) :=
  let targetPath := normalize targetPath in
  match pathToId p !! targetPath with
  | Some ids => findLoop type (elements ids) (watchers p) []
  | None => Some []
  end.

(** ** Pools for the examples of the sweeps *)

(** A watcher whose [close] throws. *)
Definition stubbornWatcher : WatcherInstance :=
  {| hasClose := true; closeThrows := true |}.

(** The initial pool after two registrations: [/a] at time 1, with a watcher
    that closes, and [/b] at time 2, with one whose [close] throws. *)
Definition mixedPool : MonitorPool :=
  let p := snd (@addWatcher posix "/a" (Some chokidarWatcher) file "4242" 1 11 initialPool) in
  snd (@addWatcher posix "/b" (Some stubbornWatcher) directory "4242" 2 22 p).

(** What the counters of the pool say about its records: the ids are
    distinct, [activeCount] is the number of records, and no more records
    are left than were created and not closed. *)
Record poolCounters (p : MonitorPool) : Prop := {
  cnt_keys : NoDup (mkeys (watchers p));
  cnt_active : activeCount p = msize (watchers p);
  cnt_closed : 0 ≤ closed p;
  cnt_size : msize (watchers p) ≤ created p - closed p
}.

(** ** How the size of the file-content cache is stated *)

(** [FILE_CACHE.size] is the total length of the contents that the cache
    holds, and no path is held twice. *)
Definition accounted (c : FileCache) : Prop :=
  NoDup (mkeys (fc_items c)) ∧ fc_size c = totalLength (fc_items c).

(** ** What the tools do to the pool *)

(** One step of the tools on the pool: the registration of a chokidar watcher
    for this process (by [setFileChangeCallback] or [setDirChangeCallback]),
    or the removal of a record (by [closeWatcher] or by the sweep). *)
Inductive toolStep `{PathLib} (cfg : Config) : MonitorPool → MonitorPool → Prop :=
| toolStep_add targetPath type now random p :
    toolStep cfg p
      (snd (addWatcher targetPath (Some chokidarWatcher) type (pid cfg) now random p))
| toolStep_remove watcherId p :
    toolStep cfg p (snd (removeWatcher watcherId p)).

(** The calls that reach the two caches and the pool from the outside: the
    tools, the exported functions of the two caches, the lookup and the store
    of a listing that [listFiles] and [getDirectoryInfo] perform, the events
    that the watchers deliver to the callbacks of the monitors, and the sweep
    of the cleanup timer. *)
Inductive ToolCall :=
| CallReadFile (filePath : string) (now random : Z)
| CallWriteFile (filePath body : string) (now random : Z)
| CallAppendFile (filePath body : string)
| CallDeleteFile (filePath : string)
| CallCopyFile (source destination : string) (overwrite : bool)
| CallMoveFile (source destination : string)
| CallCreateDirectory (dirPath : string) (recursive : bool)
| CallDeleteDirectory (dirPath : string) (recursive : bool)
| CallLookupListing (dirPath : string) (now : Z)
| CallStoreListing (dirPath : string) (entries : list string) (now random : Z)
| CallInvalidateDirCache (dirPath : string)
| CallClearCache
| CallClearDirCache
| CallFileSetConfig (o : FileToolsConfig) (now : Z) (random : string → Z)
| CallDirSetConfig (o : DirToolsConfig)
| CallMonitorFile (filePath : string) (now random : Z)
| CallStopMonitoringFile (filePath : string)
| CallMonitorDirectory (dirPath : string) (now random : Z)
| CallStopMonitoringDirectory (dirPath : string)
| FileEvent (filePath : string) (event : WatchEvent) (changedPath : string)
| DirEvent (dirPath : string) (event : WatchEvent) (changedPath : string)
| Sweep (now : Z).

Definition runTool `{PathLib} (cfg : Config) (st : State) (call : ToolCall) : State :=
  match call with
  | CallReadFile filePath now random => snd (readFile cfg filePath now random st)
  | CallWriteFile filePath body now random => snd (writeFile cfg filePath body now random st)
  | CallAppendFile filePath body => snd (appendFile cfg filePath body st)
  | CallDeleteFile filePath => snd (deleteFile cfg filePath st)
  | CallCopyFile source destination overwrite =>
      snd (copyFile cfg source destination overwrite st)
  | CallMoveFile source destination => snd (moveFile cfg source destination st)
  | CallCreateDirectory dirPath recursive => snd (createDirectory cfg dirPath recursive st)
  | CallDeleteDirectory dirPath recursive => snd (deleteDirectory cfg dirPath recursive st)
  | CallLookupListing dirPath now => snd (getFromDirCache dirPath now st)
  | CallStoreListing dirPath entries now random =>
      addToDirCache cfg dirPath entries now random st
  | CallInvalidateDirCache dirPath => invalidateDirCache dirPath st
  | CallClearCache => clearCache st
  | CallClearDirCache => clearDirCache st
  | CallFileSetConfig o now random => fileSetConfig cfg o now random st
  | CallDirSetConfig o => dirSetConfig o st
  | CallMonitorFile filePath now random => monitorFileForCache cfg filePath now random st
  | CallStopMonitoringFile filePath => stopMonitoringFile filePath st
  | CallMonitorDirectory dirPath now random =>
      monitorDirectoryForCache cfg dirPath now random st
  | CallStopMonitoringDirectory dirPath => stopMonitoringDirectory dirPath st
  | FileEvent filePath event changedPath => fileChangeCallback filePath event changedPath st
  | DirEvent dirPath event changedPath => dirChangeCallback dirPath event changedPath st
  | Sweep now => withPool st (snd (cleanupIdleWatchers now (pool st)))
  end.

Definition runTools `{PathLib} (cfg : Config) (st : State) (calls : list ToolCall) : State :=
  foldl (runTool cfg) st calls.

(** What the tools keep true of the pool: the invariant of the
    registrations, the limits of the initial pool, and on every record the
    id of this process, a chokidar watcher, and the time of use and the count
    of uses that the registration gave it. *)
Record toolPool (cfg : Config) (p : MonitorPool) : Prop := {
  tp_invariant : poolInvariant p;
  tp_limits :
    maxWatchers p = 200 ∧ maxPerPath p = 5 ∧ maxPerProcess p = 50
    ∧ maxIdleTime p = 7200000;
  tp_records :
    ∀ k i, (k, i) ∈ watchers p →
           w_processId i = pid cfg ∧ w_instance i = chokidarWatcher
           ∧ w_lastUsedAt i = w_createdAt i ∧ w_useCount i = 0
}.

(** ** How the properties of the monitor tables are stated *)

(** The two tables of [CACHE_MONITORS] (or of [DIR_MONITORS]) list the same
    paths, and no path is listed before the table is enabled:
    [monitorFileForCache] enables the table before it adds to both, and
    [stopMonitoringFile] deletes from both. *)
Definition monitorsAgree (m : Monitors) : Prop :=
  dom (mon_watchers m) = monitoredPaths m
  ∧ (mon_enabled m = true ∨ monitoredPaths m = ∅).

(** The record [id] of the pool belongs to one of the monitors of [m]. *)
Definition monitorOf (m : Monitors) (id : WatcherId) : Prop :=
  ∃ path w, mon_watchers m !! path = Some w ∧ poolId w = Some id.

(** ** Strings *)

(** The characters of a string stand for UTF-16 code units below 256. *)

(** [s.startsWith(t)] *)
Fixpoint startsWith (s t : string) {struct t} : bool :=
  match t with
  | EmptyString => true
  | String b t' =>
      match s with
      | String a s' => bool_decide (a = b) && startsWith s' t'
      | EmptyString => false
      end
  end.

(** [s.includes(t)] *)
Fixpoint includes (s t : string) {struct s} : bool :=
  startsWith s t
  || match s with
     | String _ s' => includes s' t
     | EmptyString => false
     end.

(** [toLowerCase] on one code unit below 256: the letters A to Z, and the
    capital letters of Latin-1 (U+00C0 to U+00DE without the multiplication
    sign U+00D7), are 32 below their small letters. *)
Definition lowerCode (c : ascii) : ascii :=
  let n := nat_of_ascii c in
  if ((65 <=? n) && (n <=? 90) || (192 <=? n) && (n <=? 222) && negb (n =? 215))%nat
  then ascii_of_nat (n + 32)
  else c.

(** [s.toLowerCase()] *)
Fixpoint toLowerCase (s : string) : string :=
  match s with
  | EmptyString => EmptyString
  | String c r => String (lowerCode c) (toLowerCase r)
  end.

(** [path.extname] of POSIX, for the examples.  The scan runs from the last
    character to the first; [cs] holds the characters at the indices [i],
    [i-1], ..., 0, and the state is [startDot], [startPart], [end],
    [matchedSlash] and [preDotState]. *)
Fixpoint extnameScan (cs : list ascii) (i : Z) (s : Z * Z * Z * bool * Z)
  : Z * Z * Z * bool * Z :=
  let '(startDot, startPart, end_, matchedSlash, preDotState) := s in
  match cs with
  | [] => s
  | code :: r =>
      if Posix.isSlash code then
        if negb matchedSlash then (startDot, i + 1, end_, matchedSlash, preDotState)
        else extnameScan r (i - 1) s
      else
        let '(end_, matchedSlash) :=
          if end_ =? -1 then (i + 1, false) else (end_, matchedSlash) in
        let '(startDot, preDotState) :=
          if bool_decide (code = "."%char) then
            if startDot =? -1 then (i, preDotState)
            else if negb (preDotState =? 1) then (startDot, 1)
            else (startDot, preDotState)
          else if negb (startDot =? -1) then (startDot, -1)
          else (startDot, preDotState) in
        extnameScan r (i - 1) (startDot, startPart, end_, matchedSlash, preDotState)
  end.

Definition posixExtname (p : string) : string :=
  let cs := list_ascii_of_string p in
  let '(startDot, startPart, end_, _, preDotState) :=
    extnameScan (rev cs) (Z.of_nat (length cs) - 1) (-1, 0, -1, true, 0) in
  if (startDot =? -1) || (end_ =? -1) || (preDotState =? 0)
     || ((preDotState =? 1) && (startDot =? end_ - 1) && (startDot =? startPart + 1))
  then EmptyString
  else string_of_list_ascii (drop (Z.to_nat startDot) (take (Z.to_nat end_) cs)).

(** ** The security checks ([src/config/security.js]) *)

Module Security.

(** [securityConfig.pathSecurity] and [securityConfig.operationSecurity];
    the properties that no function of the module reads are left out. *)
Record PathSecurity := {
  checkPathTraversal : bool;
  forbiddenPaths : list string;
  forbiddenExtensions : list string
}.

Record OperationSecurity := {
  allowDelete : bool;
  allowWrite : bool;
  allowCreateDirectory : bool;
  allowDeleteDirectory : bool;
  allowRecursiveDelete : bool;
  maxWriteSize : Z
}.

Record SecurityConfig := {
  pathSecurity : PathSecurity;
  operationSecurity : OperationSecurity
}.

(** The configuration that the module starts with. *)
Definition securityConfig : SecurityConfig := {|
  pathSecurity := {|
    checkPathTraversal := true;
    forbiddenPaths :=
      ["/etc"; "/var"; "/boot"; "/proc"; "/sys"; "/dev";
       "C:\Windows"; "C:\Program Files"; "C:\Program Files (x86)"];
    forbiddenExtensions := [".exe"; ".dll"; ".sys"; ".bat"; ".cmd"; ".sh"]
  |};
  operationSecurity := {|
    allowDelete := true;
    allowWrite := true;
    allowCreateDirectory := true;
    allowDeleteDirectory := true;
    allowRecursiveDelete := true;
    maxWriteSize := 50 * 1024 * 1024
  |}
|}.

(** What [isPathSafe] returns: [{ isValid: true }], or [{ isValid: false,
    reason }] with one of three reasons. *)
Inductive PathCheck :=
| Valid
| EmptyPath
| ForbiddenPath (forbiddenPath : string)
| ForbiddenExtension (extension : string).

Definition isValid (r : PathCheck) : bool :=
  match r with Valid => true | _ => false end.

(** The parameters of a tool call that [validateToolCall] reads.  They are
    strings, and the empty string also stands for a property that the object
    does not have: the code tests them for truthiness only. *)
Record Params := {
  p_path : string;
  p_content : string;
  p_encoding : string;
  p_recursive : bool;
  p_source : string;
  p_destination : string
}.

Section Checks.
Context `{PathLib}.
Variable extname : string → string.            (* path.extname *)
Variable byteLength : string → string → Z.     (* Buffer.byteLength *)
Variable sc : SecurityConfig.

(** The loop of [isPathSafe] over [forbiddenPaths]: the first one that the
    path includes, as it is or with both in lower case. *)
Fixpoint firstForbidden (normalizedPath : string) (paths : list string) : option string :=
  match paths with
  | [] => None
  | forbiddenPath :: rest =>
      if includes normalizedPath forbiddenPath
         || includes (toLowerCase normalizedPath) (toLowerCase forbiddenPath)
      then Some forbiddenPath
      else firstForbidden normalizedPath rest
  end.

(** [isPathSafe(pathToCheck)] *)
Definition isPathSafe (pathToCheck : string) : PathCheck :=
  if bool_decide (pathToCheck = EmptyString) then EmptyPath
  else
    let normalizedPath := normalize pathToCheck in
    let found :=
      if checkPathTraversal (pathSecurity sc)
      then firstForbidden normalizedPath (forbiddenPaths (pathSecurity sc))
      else None in
    match found with
    | Some forbiddenPath => ForbiddenPath forbiddenPath
    | None =>
        let extension := toLowerCase (extname normalizedPath) in
        if negb (bool_decide (extension = EmptyString))
           && bool_decide (extension ∈ forbiddenExtensions (pathSecurity sc))
        then ForbiddenExtension extension
        else Valid
    end.

(** [isPathAllowed(pathToCheck)], once its promise has resolved. *)
Definition isPathAllowed (pathToCheck : string) : bool :=
  isValid (isPathSafe pathToCheck).

(** The names of the first case of the [switch] in [validateToolCall]. *)
Definition readTools : list string :=
  ["read_file"; "read_word_document"; "read_excel_file"; "read_file_lines";
   "count_file_lines"; "search_file_content"; "file_exists"; "file_info"].

(** [if (p) { ... isAllowed = isAllowed && isPathSafe(p).isValid }] *)
Definition andPathSafe (p : string) (isAllowed : bool) : bool :=
  if bool_decide (p = EmptyString) then isAllowed
  else isAllowed && isValid (isPathSafe p).

(** [validateToolCall(toolName, params)] *)
Definition validateToolCall (toolName : string) (params : Params) : bool :=
  let ops := operationSecurity sc in
  if bool_decide (toolName ∈ readTools) then
    if bool_decide (p_path params = EmptyString) then true
    else isValid (isPathSafe (p_path params))
  else if bool_decide (toolName ∈ ["write_file"; "append_file"]) then
    let isAllowed := andPathSafe (p_path params) (allowWrite ops) in
    if bool_decide (p_content params = EmptyString) then isAllowed
    else
      let encoding :=
        if bool_decide (p_encoding params = EmptyString) then "utf8"
        else p_encoding params in
      if byteLength (p_content params) encoding >? maxWriteSize ops then false
      else isAllowed
  else if bool_decide (toolName = "delete_file") then
    andPathSafe (p_path params) (allowDelete ops)
  else if bool_decide (toolName = "create_directory") then
    andPathSafe (p_path params) (allowCreateDirectory ops)
  else if bool_decide (toolName = "delete_directory") then
    let isAllowed := allowDeleteDirectory ops in
    let isAllowed :=
      if p_recursive params then isAllowed && allowRecursiveDelete ops else isAllowed in
    andPathSafe (p_path params) isAllowed
  else if bool_decide (toolName ∈ ["copy_file"; "move_file"]) then
    andPathSafe (p_destination params) (andPathSafe (p_source params) true)
  else true.

End Checks.

End Security.

(** The string [t] occurs in the string [s]. *)
Definition occursIn (t s : string) : Prop :=
  ∃ a b, s = a +:+ t +:+ b.

(** ** The watchers of [watchPath] ([src/tools/watch-tools.js]) *)

#[global] Instance WatchEvent_eq_dec : EqDecision WatchEvent.
Proof. solve_decision. Defined.

Module WatchTools.

(** An entry of the array [events] of a watcher: an event that a handler has
    collected, or an error. *)
Inductive LoggedEvent :=
| Logged (event : WatchEvent) (path : string) (time : Z)
| LoggedError (message : string) (time : Z).

(** The value of [options.events]: an array of strings, or anything else. *)
Inductive EventsOption :=
| EventsArray (names : list string)
| EventsOther.

(** The argument [options] of [watchPath]; [None] is a property that the
    object does not have. *)
Record OptionsArg := {
  arg_recursive : option bool;
  arg_events : option EventsOption
}.

(** The options after [{ ...defaultOptions, ...options }] *)
Record Options := {
  opt_recursive : bool;
  opt_events : EventsOption
}.

Definition defaultEvents : list string := ["add"; "change"; "unlink"].

Definition mergeOptions (options : OptionsArg) : Options := {|
  opt_recursive := default false (arg_recursive options);
  opt_events := default (EventsArray defaultEvents) (arg_events options)
|}.

(** The five names that the filter of [watchPath] lets through. *)
Definition eventOfName (e : string) : option WatchEvent :=
  if bool_decide (e = "add") then Some EvAdd
  else if bool_decide (e = "change") then Some EvChange
  else if bool_decide (e = "unlink") then Some EvUnlink
  else if bool_decide (e = "addDir") then Some EvAddDir
  else if bool_decide (e = "unlinkDir") then Some EvUnlinkDir
  else None.

(** [validEvents] *)
Definition validEventsOf (options : Options) : list WatchEvent :=
  match opt_events options with
  | EventsArray names => omap eventOfName names
  | EventsOther => [EvAdd; EvChange; EvUnlink]
  end.

(** A value of [WATCHERS.items], with the two variables that the handlers of
    the watcher have captured: [validEvents], one handler for each of its
    elements, and [isDirectory]. *)
Record WatchItem := {
  wi_path : string;
  wi_options : Options;
  wi_events : list LoggedEvent;
  wi_created : Z;
  wi_validEvents : list WatchEvent;
  wi_isDirectory : bool
}.

(** A callback saved in [CHANGE_HANDLERS]: the callbacks of the repository
    are those of the two caches, which change the caches only. *)
Definition Callback : Type := WatchEvent → string → State → State.

(** [WATCHERS] and [CHANGE_HANDLERS] *)
Record Registry := {
  items : list (Z * WatchItem);
  idCounter : Z;
  fileCallbacks : gmap string Callback;
  dirCallbacks : gmap string Callback
}.

(** The two objects as the module creates them. *)
Definition initialRegistry : Registry := {|
  items := [];
  idCounter := 1;
  fileCallbacks := ∅;
  dirCallbacks := ∅
|}.

Definition withItems (wt : Registry) (m : list (Z * WatchItem)) : Registry := {|
  items := m;
  idCounter := idCounter wt;
  fileCallbacks := fileCallbacks wt;
  dirCallbacks := dirCallbacks wt
|}.

(** The first argument of [watchPath]: a string, or an object, of which
    [sanitizePath] reads the property [path] ([None] when that is not a
    string). *)
Inductive PathArg :=
| PathString (s : string)
| PathObject (path : option string).

(** A value handed to [stopWatch]. *)
Inductive JsValue :=
| JsNumber (n : Z)
| JsString (s : string)
| JsObject.

Inductive WatchResult :=
| WatchStarted (watcherId : Z) (isDirectory : bool)
| AccessDenied
| NotFound
| WatchFailed.

Inductive StopResult := Stopped | InvalidId.

(** An element of the list that [listWatchers] returns. *)
Record WatcherSummary := {
  ws_id : Z;
  ws_path : string;
  ws_created : Z;
  ws_recursive : bool;
  ws_events : EventsOption;
  ws_eventCount : Z
}.

Section Functions.
Context `{PathLib} (cfg : Config).

(** [pathUtils.sanitizePath(filePath)] for a string or an object; [None] is
    the [TypeError] for an object without a path. *)
Definition sanitizePathArg (filePath : PathArg) : option string :=
  match filePath with
  | PathString s => Some (sanitizePath s)
  | PathObject (Some s) =>
      if bool_decide (s = EmptyString) then None else Some (normalize s)
  | PathObject None => None
  end.

(** [watchPath(path, options)].  The file system is read and not changed. *)
Definition watchPath (path : PathArg) (options : OptionsArg) (now : Z) (st : State)
    (wt : Registry) : WatchResult * Registry :=
  match sanitizePathArg path with
  | None => (WatchFailed, wt)
  | Some path =>
      if negb (isPathAllowed cfg path) then (AccessDenied, wt)
      else
        let options := mergeOptions options in
        match fs st !! path with
        | None => (NotFound, wt)
        | Some node =>
            let isDirectory := match node with FsDir => true | FsFile _ => false end in
            let watcherId := idCounter wt in
            let info :=
              {| wi_path := path; wi_options := options; wi_events := [];
                 wi_created := now; wi_validEvents := validEventsOf options;
                 wi_isDirectory := isDirectory |} in
            (WatchStarted watcherId isDirectory,
             {| items := mset watcherId info (items wt);
                idCounter := watcherId + 1;
                fileCallbacks := fileCallbacks wt;
                dirCallbacks := dirCallbacks wt |})
        end
  end.

(** One handler of a watcher at an event: it appends to [events], keeps the
    last 100 entries, and calls the callback saved for the path of the
    watcher. *)
Definition handleEvent (wt : Registry) (path : string) (isDirectory : bool)
    (eventName : WatchEvent) (changedPath : string) (now : Z)
    (acc : list LoggedEvent * State) : list LoggedEvent * State :=
  let '(events, st) := acc in
  let events := events ++ [Logged eventName changedPath now] in
  let events :=
    if (100 <? length events)%nat then drop (length events - 100) events else events in
  let st :=
    if isDirectory then
      match dirCallbacks wt !! path with
      | Some callback => callback eventName changedPath st
      | None => st
      end
    else
      match fileCallbacks wt !! path with
      | Some callback =>
          match eventName with
          | EvChange | EvUnlink => callback eventName changedPath st
          | _ => st
          end
      | None => st
      end in
  (events, st).

(** The watcher [watcherId] reports [eventName] at [changedPath]: every
    handler registered for that name runs.  A watcher that [stopWatch] has
    closed is no longer in [WATCHERS.items] and reports nothing. *)
Definition watcherEvent (watcherId : Z) (eventName : WatchEvent) (changedPath : string)
    (now : Z) (wt : Registry) (st : State) : Registry * State :=
  match mget watcherId (items wt) with
  | None => (wt, st)
  | Some info =>
      let '(events, st) :=
        foldl (λ acc _,
                 handleEvent wt (wi_path info) (wi_isDirectory info) eventName changedPath
                   now acc)
              (wi_events info, st)
              (filter (λ e, e = eventName) (wi_validEvents info)) in
      let info :=
        {| wi_path := wi_path info; wi_options := wi_options info; wi_events := events;
           wi_created := wi_created info; wi_validEvents := wi_validEvents info;
           wi_isDirectory := wi_isDirectory info |} in
      (withItems wt (mset watcherId info (items wt)), st)
  end.

(** The watcher [watcherId] reports an error: the entry is appended, and
    nothing is dropped. *)
Definition watcherError (watcherId : Z) (message : string) (now : Z) (wt : Registry)
  : Registry :=
  match mget watcherId (items wt) with
  | None => wt
  | Some info =>
      let info :=
        {| wi_path := wi_path info; wi_options := wi_options info;
           wi_events := wi_events info ++ [LoggedError message now];
           wi_created := wi_created info; wi_validEvents := wi_validEvents info;
           wi_isDirectory := wi_isDirectory info |} in
      withItems wt (mset watcherId info (items wt))
  end.

(** [stopWatch(watcherId)].  The keys of [WATCHERS.items] are numbers, and
    [Map.prototype.has] converts nothing: a string or an object is no key.
    Closing a chokidar watcher does not throw. *)
Definition stopWatch (watcherId : JsValue) (wt : Registry) : StopResult * Registry :=
  match watcherId with
  | JsNumber n =>
      match mget n (items wt) with
      | Some info =>
          (Stopped,
           {| items := mdel n (items wt);
              idCounter := idCounter wt;
              fileCallbacks := delete (wi_path info) (fileCallbacks wt);
              dirCallbacks := delete (wi_path info) (dirCallbacks wt) |})
      | None => (InvalidId, wt)
      end
  | _ => (InvalidId, wt)
  end.

(** [listWatchers()] *)
Definition listWatchers (wt : Registry) : list WatcherSummary :=
  map (λ e,
         {| ws_id := fst e; ws_path := wi_path (snd e); ws_created := wi_created (snd e);
            ws_recursive := opt_recursive (wi_options (snd e));
            ws_events := opt_events (wi_options (snd e));
            ws_eventCount := Z.of_nat (length (wi_events (snd e))) |})
      (items wt).

(** The loop of [closeAllWatchers] over the copies that [getAllWatchers]
    returns: [watcher.instance.close()] throws for an instance without a
    [close] method or with one that throws, and the watcher is skipped. *)
Fixpoint closeEach (ws : list WatcherInfo) (closedCount : Z) (p : MonitorPool)
  : Z * MonitorPool :=
  match ws with
  | [] => (closedCount, p)
  | watcher :: rest =>
      if hasClose (w_instance watcher) && negb (closeThrows (w_instance watcher)) then
        closeEach rest (closedCount + 1) (snd (removeWatcher (w_id watcher) p))
      else closeEach rest closedCount p
  end.

(** [closeAllWatchers()] of the watch tools *)
Definition closeAllWatchers (wt : Registry) (st : State) : Z * Registry * State :=
  let '(closedCount, p) := closeEach (getAllWatchers (pool st)) 0 (pool st) in
  (closedCount,
   {| items := items wt; idCounter := idCounter wt; fileCallbacks := ∅;
      dirCallbacks := ∅ |},
   withPool st p).

End Functions.

(** *** The tool registry ([src/tools/index.js]) *)

(** The four tools of the registry whose implementation is a function of the
    watch tools. *)
Inductive WatchToolName := watch_directory | watch_path | stop_watch | list_watchers.

(** The parameters of a call of one of them; [None] is a property that is
    [undefined].  [recursive] and [events] are the two other properties that
    [watch_path] declares. *)
Record ToolParams := {
  param_path : option string;
  param_recursive : option bool;
  param_events : option string;
  param_watcherId : option JsValue
}.

Inductive ToolReturn :=
| MissingParameter (param : string)
| WatchReturn (r : WatchResult)
| StopReturn (r : StopResult)
| ListReturn (watchers : list WatcherSummary).

(** [executeTool(toolName, params)] for these four: the parameters that the
    tool requires are checked, and the implementation is called with the
    object [params] as its only argument. *)
Definition executeTool `{PathLib} (cfg : Config) (toolName : WatchToolName)
    (params : ToolParams) (now : Z) (st : State) (wt : Registry)
  : ToolReturn * Registry :=
  match toolName with
  | watch_directory | watch_path =>
      match param_path params with
      | None => (MissingParameter "path", wt)
      | Some _ =>
          let '(r, wt) :=
            watchPath cfg (PathObject (param_path params))
              {| arg_recursive := None; arg_events := None |} now st wt in
          (WatchReturn r, wt)
      end
  | stop_watch =>
      match param_watcherId params with
      | None => (MissingParameter "watcherId", wt)
      | Some _ =>
          let '(r, wt) := stopWatch JsObject wt in
          (StopReturn r, wt)
      end
  | list_watchers => (ListReturn (listWatchers wt), wt)
  end.

(** What happens to the registry, one call at a time.  Every call comes with
    the state of the caches and of the file system at its time, and a change
    of [CHANGE_HANDLERS] by the monitors of the caches with the new tables. *)
Inductive RegistryCall :=
| CallWatchPath (path : PathArg) (options : OptionsArg) (now : Z) (st : State)
| CallStopWatch (watcherId : JsValue)
| CallExecuteTool (toolName : WatchToolName) (params : ToolParams) (now : Z) (st : State)
| WatcherEvent (watcherId : Z) (eventName : WatchEvent) (changedPath : string) (now : Z)
    (st : State)
| WatcherError (watcherId : Z) (message : string) (now : Z)
| SaveCallbacks (files dirs : gmap string Callback)
| CallCloseAllWatchers (st : State).

Definition runRegistryCall `{PathLib} (cfg : Config) (wt : Registry) (call : RegistryCall)
  : Registry :=
  match call with
  | CallWatchPath path options now st => snd (watchPath cfg path options now st wt)
  | CallStopWatch watcherId => snd (stopWatch watcherId wt)
  | CallExecuteTool toolName params now st => snd (executeTool cfg toolName params now st wt)
  | WatcherEvent watcherId eventName changedPath now st =>
      fst (watcherEvent watcherId eventName changedPath now wt st)
  | WatcherError watcherId message now => watcherError watcherId message now wt
  | SaveCallbacks files dirs =>
      {| items := items wt; idCounter := idCounter wt; fileCallbacks := files;
         dirCallbacks := dirs |}
  | CallCloseAllWatchers st => snd (fst (closeAllWatchers wt st))
  end.

Definition runRegistry `{PathLib} (cfg : Config) (wt : Registry)
    (calls : list RegistryCall) : Registry :=
  foldl (runRegistryCall cfg) wt calls.

(** Every call but the direct ones of [watchPath] and [stopWatch]: the calls
    that go through [executeTool], what the watchers report, and what the
    other modules do to [CHANGE_HANDLERS] and to the pool. *)
Definition throughTheTools (call : RegistryCall) : Prop :=
  match call with
  | CallWatchPath _ _ _ _ | CallStopWatch _ => False
  | _ => True
  end.

(** No id of the registry is used twice: the keys of [WATCHERS.items]
    increase, from 1 on and below [idCounter]. *)
Definition freshIds (wt : Registry) : Prop :=
  StronglySorted Z.lt (mkeys (items wt))
  ∧ 1 ≤ idCounter wt
  ∧ ∀ k, k ∈ mkeys (items wt) → 1 ≤ k < idCounter wt.

(** The last 100 elements of a list. *)
Definition lastHundred {A : Type} (l : list A) : list A :=
  drop (length l - 100) l.

(** Calling [close] on the watcher of a record of the pool works. *)
Definition closable (i : WatcherInfo) : Prop :=
  hasClose (w_instance i) = true ∧ closeThrows (w_instance i) = false.

#[global] Instance closable_dec (i : WatcherInfo) : Decision (closable i).
Proof. unfold closable. apply _. Defined.

End WatchTools.

(** A monitor table is in order: its two parts list the same paths, and
    every watcher in it carries the id of its record in the pool. *)
Definition monitorsInOrder (m : Monitors) : Prop :=
  monitorsAgree m ∧ ∀ path w, mon_watchers m !! path = Some w → is_Some (poolId w).

Definition tablesInOrder (st : State) : Prop :=
  monitorsInOrder (CACHE_MONITORS st) ∧ monitorsInOrder (DIR_MONITORS st).

(** The tables of [st'] are in order when those of [st] are. *)
Definition keepsTables (st st' : State) : Prop :=
  tablesInOrder st → tablesInOrder st'.

(** ** The path checks ([src/utils/path-utils.js]) *)

Module PathUtils.

(** [config.security.pathSecurity], as [validatePath] reads it; a list that
    is missing counts as the empty list. *)
Record PathSecurity := {
  checkPathTraversal : bool;
  preventRelativePaths : bool;
  preventAbsolutePaths : bool;
  allowedPaths : list string;
  forbiddenPaths : list string;
  preventHiddenFiles : bool;
  forbiddenExtensions : list string;
  allowedExtensions : list string
}.

(** The errors that [validatePath] throws. *)
Inductive Refusal :=
| EmptyPath
| PathTraversal
| RelativePath
| AbsolutePath
| NotInWhiteList
| InBlackList
| HiddenFile
| ForbiddenExtension (extension : string)
| ExtensionNotAllowed.

Section Checks.
Context `{PathLib}.
Variable sep : string.                     (* path.sep *)
Variable basename : string → string.       (* path.basename *)
Variable extname : string → string.        (* path.extname *)
Variable ps : PathSecurity.

(** [normalizedPath === p || normalizedPath.startsWith(p + path.sep)] *)
Definition within (normalizedPath p : string) : bool :=
  bool_decide (normalizedPath = p) || startsWith normalizedPath (p +:+ sep).

(** [validatePath(filePath)]: the normalized path, or the error thrown. *)
Definition validatePath (filePath : string) : Refusal + string :=
  if bool_decide (filePath = EmptyString) then inl EmptyPath
  else
    let normalizedPath := normalize filePath in
    if checkPathTraversal ps && includes normalizedPath ".." then inl PathTraversal
    else if preventRelativePaths ps && negb (isAbsolute normalizedPath) then inl RelativePath
    else if preventAbsolutePaths ps && isAbsolute normalizedPath then inl AbsolutePath
    else if negb (bool_decide (allowedPaths ps = []))
            && negb (existsb (within normalizedPath) (allowedPaths ps))
    then inl NotInWhiteList
    else if negb (bool_decide (forbiddenPaths ps = []))
            && existsb (within normalizedPath) (forbiddenPaths ps)
    then inl InBlackList
    else if preventHiddenFiles ps && startsWith (basename normalizedPath) "."
    then inl HiddenFile
    else
      let extension := toLowerCase (extname normalizedPath) in
      if bool_decide (extension = EmptyString) then inr normalizedPath
      else if bool_decide (extension ∈ forbiddenExtensions ps)
      then inl (ForbiddenExtension extension)
      else if negb (bool_decide (allowedExtensions ps = []))
              && negb (bool_decide (extension ∈ allowedExtensions ps))
      then inl ExtensionNotAllowed
      else inr normalizedPath.

End Checks.

End PathUtils.

(* ===================================================================== *)
(** * Part II: properties                                                 *)
(* ===================================================================== *)

(** ** Insertion-ordered maps *)

Section JsMapFacts.
Context {K V : Type} `{EqDecision K}.
Implicit Types (k : K) (v : V) (m : list (K * V)).

Lemma mget_mdel_eq k m : mget k (mdel k m) = None.
Proof.
  induction m as [|[k' v'] m IH]; simpl; [done|].
  destruct (decide (k = k')) as [->|Hne]; [done|].
  simpl. by rewrite decide_False.
Qed.

Lemma mget_mdel_ne k k' m : k ≠ k' → mget k' (mdel k m) = mget k' m.
Proof.
  intros Hne. induction m as [|[k0 v0] m IH]; simpl; [done|].
  destruct (decide (k = k0)) as [->|Hk].
  - rewrite IH. by rewrite decide_False.
  - simpl. by rewrite IH.
Qed.

Lemma mget_mset_eq k v m : mget k (mset k v m) = Some v.
Proof.
  induction m as [|[k' v'] m IH]; simpl.
  - by rewrite decide_True.
  - destruct (decide (k = k')) as [->|Hne]; simpl.
    + by rewrite decide_True.
    + by rewrite decide_False.
Qed.

Lemma mget_mset_ne k k' v m : k ≠ k' → mget k' (mset k v m) = mget k' m.
Proof.
  intros Hne. induction m as [|[k0 v0] m IH]; simpl.
  - by rewrite decide_False.
  - destruct (decide (k = k0)) as [->|Hk]; simpl.
    + by rewrite !decide_False.
    + by rewrite IH.
Qed.

Lemma mhas_true k m : mhas k m = true ↔ is_Some (mget k m).
Proof.
  unfold mhas. destruct (mget k m); split; eauto; try done.
Qed.

Lemma mhas_false k m : mhas k m = false ↔ mget k m = None.
Proof. unfold mhas. by destruct (mget k m). Qed.

Lemma mget_Some_elem k v m : mget k m = Some v → (k, v) ∈ m.
Proof.
  induction m as [|[k' v'] m IH]; simpl; [done|].
  destruct (decide (k = k')) as [->|Hne].
  - intros [= ->]. by left.
  - intros Hg. right. by apply IH.
Qed.

Lemma mget_None_notin k m : mget k m = None ↔ k ∉ mkeys m.
Proof.
  induction m as [|[k' v'] m IH]; simpl.
  - split; [intros _; apply not_elem_of_nil | done].
  - destruct (decide (k = k')) as [->|Hne].
    + split; [done|]. intros Hn. exfalso. apply Hn. by left.
    + rewrite IH. rewrite not_elem_of_cons. split; [by split | by intros [_ ?]].
Qed.

Lemma elem_mget k v m : NoDup (mkeys m) → (k, v) ∈ m → mget k m = Some v.
Proof.
  induction m as [|[k' v'] m IH]; simpl; intros Hnd Hin.
  - by apply elem_of_nil in Hin.
  - apply NoDup_cons in Hnd as [Hnotin Hnd].
    apply elem_of_cons in Hin as [[= -> ->]|Hin].
    + by rewrite decide_True.
    + destruct (decide (k = k')) as [->|Hne]; [|by apply IH].
      exfalso. apply Hnotin. apply (list_elem_of_fmap_2 fst) in Hin. done.
Qed.

(** Deleting a key that is absent changes nothing. *)
Lemma mdel_absent k m : mget k m = None → mdel k m = m.
Proof.
  induction m as [|[k' v'] m IH]; simpl; [done|].
  destruct (decide (k = k')) as [->|Hne]; [done|].
  intros Hg. by rewrite IH.
Qed.

Lemma mkeys_mdel k m : mkeys (mdel k m) = filter (λ x, x ≠ k) (mkeys m).
Proof.
  induction m as [|[k' v'] m IH]; simpl; [done|].
  destruct (decide (k = k')) as [->|Hne].
  - rewrite filter_cons_False; [|naive_solver]. done.
  - rewrite filter_cons_True; [|naive_solver]. simpl. by rewrite <- IH.
Qed.

Lemma NoDup_mkeys_mdel k m : NoDup (mkeys m) → NoDup (mkeys (mdel k m)).
Proof. rewrite mkeys_mdel. apply NoDup_filter. Qed.

(** A present key of a well-formed map occupies exactly one slot. *)
Lemma length_mdel_present k v m :
  NoDup (mkeys m) → mget k m = Some v → S (length (mdel k m)) = length m.
Proof.
  induction m as [|[k' v'] m IH]; simpl; [done|].
  intros Hnd. apply NoDup_cons in Hnd as [Hnotin Hnd].
  destruct (decide (k = k')) as [->|Hne].
  - intros _. rewrite mdel_absent; [done|]. by apply mget_None_notin.
  - intros Hg. simpl. by rewrite (IH Hnd Hg).
Qed.

(** A new key goes to the end. *)
Lemma mset_fresh k v m : mget k m = None → mset k v m = m ++ [(k, v)].
Proof.
  induction m as [|[k' v'] m IH]; simpl; [done|].
  destruct (decide (k = k')) as [->|Hne]; [done|].
  intros Hg. by rewrite IH.
Qed.

Lemma length_mset_present k v m :
  is_Some (mget k m) → length (mset k v m) = length m.
Proof.
  induction m as [|[k' v'] m IH]; simpl; [by intros [? ?]|].
  destruct (decide (k = k')) as [->|Hne]; [done|].
  intros Hg. simpl. by rewrite IH.
Qed.

End JsMapFacts.

(** ** The pool: what the limits bound *)

Section PoolExamples.
Local Existing Instance posix.

(** C1 (the code departs from the claim).  With [maxWatchers = 1], two
    registrations that read the same millisecond from the clock leave two
    records in the pool: [removeOldestWatcher] starts its search from
    [Date.now()] and only takes a record created strictly earlier, so it finds
    no victim, and [addWatcher] goes on to insert. *)
Theorem C1_pool_exceeds_maxWatchers :
  let p0 := setPoolConfig (Some 1) None None None initialPool in
  let p1 := snd (addWatcher "/a" (Some chokidarWatcher) file "main" 5 1 p0) in
  let p2 := snd (addWatcher "/b" (Some chokidarWatcher) file "main" 5 2 p1) in
  maxWatchers p2 = 1 ∧ msize (watchers p1) = 1 ∧ msize (watchers p2) = 2
  ∧ fst (removeOldestWatcher 5 p1) = false.
Proof. vm_compute. repeat split; reflexivity. Qed.

(** C9 (the code departs from the claim).  With [maxWatchers = 1], the second
    of two registrations finds the pool full: [rejected] is incremented, the
    first record is evicted, and the call then returns the new record.  No
    call has returned [null], and [rejected] is 1. *)
Theorem C9_rejected_counts_an_admitted_call :
  let p0 := setPoolConfig (Some 1) None None None initialPool in
  let ops :=
    [OpAdd "/a" (Some chokidarWatcher) file "main" 1 1;
     OpAdd "/b" (Some chokidarWatcher) file "main" 5 2] in
  admitted (fst (addWatcher "/a" (Some chokidarWatcher) file "main" 1 1 p0)) = true
  ∧ admitted (fst (addWatcher "/b" (Some chokidarWatcher) file "main" 5 2
                     (runOps p0 (take 1 ops)))) = true
  ∧ nullReturns p0 ops = 0
  ∧ rejected (runOps p0 ops) = 1.
Proof. vm_compute. repeat split; reflexivity. Qed.

End PoolExamples.

(** ** Which singleton each function writes *)

Section Frames.
Context `{PathLib} (cfg : Config).

Lemma closeWatcher_frame w st :
  let st' := snd (closeWatcher w st) in
  FILE_CACHE st' = FILE_CACHE st ∧ CACHE_MONITORS st' = CACHE_MONITORS st
  ∧ DIR_CACHE st' = DIR_CACHE st ∧ DIR_MONITORS st' = DIR_MONITORS st
  ∧ fs st' = fs st.
Proof. unfold closeWatcher. destruct (poolId w); simpl; done. Qed.

Lemma stopMonitoringFile_frame filePath st :
  let st' := stopMonitoringFile filePath st in
  FILE_CACHE st' = FILE_CACHE st ∧ DIR_CACHE st' = DIR_CACHE st
  ∧ DIR_MONITORS st' = DIR_MONITORS st ∧ fs st' = fs st.
Proof.
  unfold stopMonitoringFile.
  destruct (negb _ || negb _); [done|].
  destruct (mon_watchers _ !! filePath) as [w|]; [|done].
  destruct (closeWatcher_frame w st) as (? & ? & ? & ? & ?). simpl. done.
Qed.

Lemma stopMonitoringDirectory_frame dirPath st :
  let st' := stopMonitoringDirectory dirPath st in
  FILE_CACHE st' = FILE_CACHE st ∧ CACHE_MONITORS st' = CACHE_MONITORS st
  ∧ DIR_CACHE st' = DIR_CACHE st ∧ fs st' = fs st.
Proof.
  unfold stopMonitoringDirectory.
  destruct (negb _ || negb _); [done|].
  destruct (mon_watchers _ !! dirPath) as [w|]; [|done].
  destruct (closeWatcher_frame w st) as (? & ? & ? & ? & ?). simpl. done.
Qed.

Lemma invalidateDirCache_frame dirPath st :
  let st' := invalidateDirCache dirPath st in
  pool st' = pool st ∧ FILE_CACHE st' = FILE_CACHE st
  ∧ CACHE_MONITORS st' = CACHE_MONITORS st ∧ DIR_MONITORS st' = DIR_MONITORS st
  ∧ fs st' = fs st.
Proof. unfold invalidateDirCache. destruct (negb _); simpl; done. Qed.

Lemma setFileChangeCallback_frame filePath now random st :
  let st' := snd (setFileChangeCallback cfg filePath now random st) in
  FILE_CACHE st' = FILE_CACHE st ∧ CACHE_MONITORS st' = CACHE_MONITORS st
  ∧ DIR_CACHE st' = DIR_CACHE st ∧ DIR_MONITORS st' = DIR_MONITORS st
  ∧ fs st' = fs st.
Proof.
  unfold setFileChangeCallback.
  destruct (bool_decide _); [done|].
  destruct (fs st !! filePath) as [[body|]|]; try done.
  destruct (addWatcher _ _ _ _ _ _ _) as [[info|] p']; simpl; done.
Qed.

Lemma monitorFileForCache_frame filePath now random st :
  let st' := monitorFileForCache cfg filePath now random st in
  FILE_CACHE st' = FILE_CACHE st ∧ DIR_CACHE st' = DIR_CACHE st
  ∧ DIR_MONITORS st' = DIR_MONITORS st ∧ fs st' = fs st.
Proof.
  unfold monitorFileForCache.
  destruct (negb _ || negb _); [done|].
  set (st1 := if mon_enabled (CACHE_MONITORS st) then st else _).
  assert (FILE_CACHE st1 = FILE_CACHE st ∧ DIR_CACHE st1 = DIR_CACHE st
          ∧ DIR_MONITORS st1 = DIR_MONITORS st ∧ fs st1 = fs st) as (E1 & E2 & E3 & E4).
  { subst st1. destruct (mon_enabled _); simpl; done. }
  destruct (bool_decide _); [done|].
  pose proof (setFileChangeCallback_frame filePath now random st1) as F.
  destruct (setFileChangeCallback cfg filePath now random st1) as [[w|] st2];
    simpl in *; destruct F as (? & ? & ? & ? & ?); repeat split; congruence.
Qed.

(** The callback of a file monitor leaves the pool and the table of
    monitors as they are. *)
Lemma fileChangeCallback_frame filePath event changedPath st :
  let st' := fileChangeCallback filePath event changedPath st in
  pool st' = pool st ∧ CACHE_MONITORS st' = CACHE_MONITORS st
  ∧ DIR_MONITORS st' = DIR_MONITORS st ∧ fs st' = fs st.
Proof.
  unfold fileChangeCallback.
  destruct event; try done;
    (destruct (mhas _ _); [|done];
     match goal with
     | |- context [invalidateDirCache ?d ?s] =>
         destruct (invalidateDirCache_frame d s) as (? & ? & ? & ? & ?)
     end; simpl in *; repeat split; congruence).
Qed.

End Frames.

(** ** Expiry on read *)

Section Expiry.
Context `{PathLib}.

Lemma getFromCache_returns_fresh filePath now st v :
  fst (getFromCache filePath now st) = Some v →
  ∃ item, mget filePath (fc_items (FILE_CACHE st)) = Some item
          ∧ content item = v
          ∧ now - timestamp item ≤ fc_maxAge (FILE_CACHE st).
Proof.
  unfold getFromCache.
  destruct (negb _); [done|].
  destruct (mget filePath _) as [item|]; [|done].
  destruct (Z.gtb_spec (now - timestamp item) (fc_maxAge (FILE_CACHE st))); [done|].
  simpl. intros [= <-]. eauto.
Qed.

Lemma getFromCache_drops_expired filePath now st item :
  fc_enabled (FILE_CACHE st) = true →
  mget filePath (fc_items (FILE_CACHE st)) = Some item →
  now - timestamp item > fc_maxAge (FILE_CACHE st) →
  fst (getFromCache filePath now st) = None
  ∧ mget filePath (fc_items (FILE_CACHE (snd (getFromCache filePath now st)))) = None
  ∧ fc_evictions (FILE_CACHE (snd (getFromCache filePath now st)))
    = fc_evictions (FILE_CACHE st) + 1.
Proof.
  intros Hen Hget Hold. unfold getFromCache. rewrite Hen, Hget. simpl.
  destruct (Z.gtb_spec (now - timestamp item) (fc_maxAge (FILE_CACHE st))); [|lia].
  simpl.
  assert (FILE_CACHE (if fc_monitoring (FILE_CACHE st)
                      then stopMonitoringFile filePath st else st) = FILE_CACHE st) as ->.
  { destruct (fc_monitoring _); [|done]. apply stopMonitoringFile_frame. }
  repeat split. apply mget_mdel_eq.
Qed.

Lemma getFromDirCache_returns_fresh dirPath now st v :
  fst (getFromDirCache dirPath now st) = Some v →
  ∃ item, mget dirPath (dc_items (DIR_CACHE st)) = Some item
          ∧ listing item = v
          ∧ now - d_timestamp item ≤ dc_maxAge (DIR_CACHE st).
Proof.
  unfold getFromDirCache.
  destruct (negb _); [done|].
  destruct (mget dirPath _) as [item|]; [|done].
  destruct (Z.gtb_spec (now - d_timestamp item) (dc_maxAge (DIR_CACHE st))); [done|].
  simpl. intros [= <-]. eauto.
Qed.

Lemma getFromDirCache_drops_expired dirPath now st item :
  dc_enabled (DIR_CACHE st) = true →
  mget dirPath (dc_items (DIR_CACHE st)) = Some item →
  now - d_timestamp item > dc_maxAge (DIR_CACHE st) →
  fst (getFromDirCache dirPath now st) = None
  ∧ mget dirPath (dc_items (DIR_CACHE (snd (getFromDirCache dirPath now st)))) = None.
Proof.
  intros Hen Hget Hold. unfold getFromDirCache. rewrite Hen, Hget. simpl.
  destruct (Z.gtb_spec (now - d_timestamp item) (dc_maxAge (DIR_CACHE st))); [|lia].
  simpl. split; [done|].
  match goal with
  | |- context [stopMonitoringDirectory ?d ?s] =>
      destruct (stopMonitoringDirectory_frame d s) as (_ & _ & -> & _)
  end.
  simpl. apply mget_mdel_eq.
Qed.

(** C7.  In both caches [get] only returns the content of an entry whose age
    [now - timestamp] is at most [maxAge]; and when the cache is enabled and
    holds an entry for the key that is older than [maxAge], [get] returns a
    miss and the entry is gone from the cache when [get] returns. *)
Theorem C7_get_never_returns_expired filePath dirPath now st :
  (∀ v, fst (getFromCache filePath now st) = Some v →
        ∃ item, mget filePath (fc_items (FILE_CACHE st)) = Some item
                ∧ content item = v
                ∧ now - timestamp item ≤ fc_maxAge (FILE_CACHE st))
  ∧ (∀ v, fst (getFromDirCache dirPath now st) = Some v →
        ∃ item, mget dirPath (dc_items (DIR_CACHE st)) = Some item
                ∧ listing item = v
                ∧ now - d_timestamp item ≤ dc_maxAge (DIR_CACHE st))
  ∧ (∀ item, fc_enabled (FILE_CACHE st) = true →
        mget filePath (fc_items (FILE_CACHE st)) = Some item →
        now - timestamp item > fc_maxAge (FILE_CACHE st) →
        fst (getFromCache filePath now st) = None
        ∧ mget filePath (fc_items (FILE_CACHE (snd (getFromCache filePath now st)))) = None)
  ∧ (∀ item, dc_enabled (DIR_CACHE st) = true →
        mget dirPath (dc_items (DIR_CACHE st)) = Some item →
        now - d_timestamp item > dc_maxAge (DIR_CACHE st) →
        fst (getFromDirCache dirPath now st) = None
        ∧ mget dirPath (dc_items (DIR_CACHE (snd (getFromDirCache dirPath now st)))) = None).
Proof.
  split; [|split; [|split]].
  - intros v. apply getFromCache_returns_fresh.
  - intros v. apply getFromDirCache_returns_fresh.
  - intros item Hen Hget Hold.
    destruct (getFromCache_drops_expired filePath now st item Hen Hget Hold) as (? & ? & _).
    done.
  - intros item. apply getFromDirCache_drops_expired.
Qed.

End Expiry.

Section ExpiryExamples.
Local Existing Instance posix.

(** C7 at a concrete state: both entries are read within their [maxAge] and
    are returned, and an hour later both reads miss and remove them. *)
Lemma C7_witness :
  fst (getFromCache "/d/a.txt" 2000 bothCached) = Some "hello"
  ∧ fst (getFromDirCache "/d" 2000 bothCached) = Some ["a.txt"; "b.txt"]
  ∧ fc_enabled (FILE_CACHE bothCached) = true
  ∧ dc_enabled (DIR_CACHE bothCached) = true
  ∧ 3600000 - 1000 > fc_maxAge (FILE_CACHE bothCached)
  ∧ 3600000 - 1000 > dc_maxAge (DIR_CACHE bothCached)
  ∧ (fst (getFromCache "/d/a.txt" 3600000 bothCached) = None
     ∧ mget "/d/a.txt"
         (fc_items (FILE_CACHE (snd (getFromCache "/d/a.txt" 3600000 bothCached)))) = None)
  ∧ (fst (getFromDirCache "/d" 3600000 bothCached) = None
     ∧ mget "/d"
         (dc_items (DIR_CACHE (snd (getFromDirCache "/d" 3600000 bothCached)))) = None).
Proof.
  destruct (C7_get_never_returns_expired "/d/a.txt" "/d" 3600000 bothCached)
    as (_ & _ & Hfile & Hdir).
  split; [vm_compute; reflexivity|].
  split; [vm_compute; reflexivity|].
  split; [vm_compute; reflexivity|].
  split; [vm_compute; reflexivity|].
  split; [vm_compute; reflexivity|].
  split; [vm_compute; reflexivity|].
  split.
  - apply (Hfile {| content := "hello"; timestamp := 1000; lastAccess := 1000 |});
      vm_compute; reflexivity.
  - apply (Hdir {| listing := ["a.txt"; "b.txt"]; d_timestamp := 1000;
                   lastAccessed := 1000 |});
      vm_compute; reflexivity.
Defined.

End ExpiryExamples.

(** ** The file-content cache on its own *)

Section FileCacheAlone.
Context `{PathLib} (cfg : Config).

Lemma FILE_CACHE_evictLoop requiredSpace cacheItems st :
  FILE_CACHE (evictLoop requiredSpace cacheItems st)
  = evictCache requiredSpace cacheItems (FILE_CACHE st).
Proof.
  revert st. induction cacheItems as [|[key item] rest IH]; intros st; simpl; [done|].
  assert (FILE_CACHE (if fc_monitoring (FILE_CACHE st)
                      then stopMonitoringFile key st else st) = FILE_CACHE st) as E.
  { destruct (fc_monitoring _); [|done]. apply stopMonitoringFile_frame. }
  rewrite E. unfold evictOne.
  destruct (_ <=? _); [done|]. by rewrite IH.
Qed.

Lemma FILE_CACHE_ensureCacheSpace requiredSpace st :
  FILE_CACHE (ensureCacheSpace requiredSpace st)
  = ensureCache requiredSpace (FILE_CACHE st).
Proof.
  unfold ensureCacheSpace, ensureCache.
  destruct (_ <=? _); [done|]. apply FILE_CACHE_evictLoop.
Qed.

Lemma FILE_CACHE_addToCache filePath newContent now random st :
  FILE_CACHE (addToCache cfg filePath newContent now random st)
  = addCache filePath newContent now (FILE_CACHE st).
Proof.
  unfold addToCache, addCache.
  destruct (negb _ || _); [done|].
  destruct (_ >? _); [done|].
  set (st1 := match mget filePath _ with Some _ => _ | None => st end).
  set (c1 := match mget filePath _ with Some _ => _ | None => FILE_CACHE st end).
  assert (FILE_CACHE st1 = c1) as E1.
  { subst st1 c1. destruct (mget filePath _); done. }
  pose proof (FILE_CACHE_ensureCacheSpace (strlen newContent) st1) as E2.
  rewrite E1 in E2.
  match goal with
  | |- FILE_CACHE (if ?b then monitorFileForCache cfg ?p ?n ?r ?s else ?s) = _ =>
      assert (FILE_CACHE (if b then monitorFileForCache cfg p n r s else s)
              = FILE_CACHE s) as ->
  end.
  { destruct (fc_monitoring _); [|done]. apply monitorFileForCache_frame. }
  simpl. by rewrite E2.
Qed.

(** The loop only assigns the items, the size and the eviction count. *)
Lemma evictCache_fields requiredSpace cacheItems c :
  let c' := evictCache requiredSpace cacheItems c in
  fc_enabled c' = fc_enabled c ∧ fc_maxSize c' = fc_maxSize c
  ∧ fc_maxAge c' = fc_maxAge c ∧ fc_hits c' = fc_hits c
  ∧ fc_misses c' = fc_misses c ∧ fc_monitoring c' = fc_monitoring c.
Proof.
  revert c. induction cacheItems as [|[key item] rest IH]; intros c; simpl; [done|].
  destruct (_ <=? _); [done|].
  destruct (IH (evictOne key item c)) as (? & ? & ? & ? & ? & ?). simpl in *. done.
Qed.

End FileCacheAlone.

(** ** What the loop of [ensureCacheSpace] evicts *)

Section EvictionPrefix.


Lemma totalLength_cons e l :
  totalLength (e :: l) = strlen (content (snd e)) + totalLength l.
Proof. done. Qed.

Lemma evictCache_prefix requiredSpace cacheItems c :
  cacheItems ≠ [] →
  ∃ k : nat,
    (1 ≤ k ≤ length cacheItems)%nat
    ∧ let c' := evictCache requiredSpace cacheItems c in
      fc_items c' = withoutKeys (take k cacheItems) (fc_items c)
      ∧ fc_size c' = fc_size c - totalLength (take k cacheItems)
      ∧ fc_evictions c' = fc_evictions c + Z.of_nat k
      ∧ (fc_size c' + requiredSpace ≤ fc_maxSize c ∨ k = length cacheItems)
      ∧ (∀ j : nat, (1 ≤ j < k)%nat →
           fc_size c - totalLength (take j cacheItems) + requiredSpace > fc_maxSize c).
Proof.
  revert c. induction cacheItems as [|[key item] rest IH]; intros c Hne; [done|].
  simpl.
  destruct (Z.leb_spec (fc_size c - strlen (content item) + requiredSpace) (fc_maxSize c))
    as [Hroom|Hfull].
  - exists 1%nat. simpl. repeat split; try lia.
  - destruct rest as [|e rest'].
    + exists 1%nat. simpl. repeat split; try lia.
    + destruct (IH (evictOne key item c)) as (k & Hk & Hitems & Hsize & Hev & Hroom & Hmin);
        [done|].
      exists (S k).
      split; [simpl in *; lia|].
      rewrite Hitems, Hsize, Hev.
      rewrite firstn_cons, totalLength_cons.
      split; [done|].
      split; [simpl; lia|].
      split; [simpl; lia|].
      split.
      * destruct Hroom as [Hroom|Hroom]; [left|right; simpl in *; lia].
        rewrite Hsize in Hroom. simpl in *. lia.
      * intros j Hj. destruct j as [|j]; [lia|].
        rewrite firstn_cons, totalLength_cons.
        destruct (decide (j = 0%nat)) as [->|Hj0].
        -- rewrite take_0. unfold totalLength. simpl. lia.
        -- specialize (Hmin j ltac:(lia)). simpl in *. lia.
Qed.

End EvictionPrefix.

(** ** Change events *)

Section ChangeEvents.
Context `{PathLib} (cfg : Config).

(** After [invalidateDirCache], an enabled cache has no listing for the
    directory. *)
Lemma invalidateDirCache_removes dirPath st :
  dc_enabled (DIR_CACHE st) = true →
  mget dirPath (dc_items (DIR_CACHE (invalidateDirCache dirPath st))) = None.
Proof.
  intros Hen. unfold invalidateDirCache. rewrite Hen. simpl.
  set (items1 := if mhas dirPath _ then _ else _).
  assert (mget dirPath items1 = None) as H1.
  { subst items1. destruct (mhas dirPath _) eqn:Eh.
    - apply mget_mdel_eq.
    - by apply mhas_false. }
  destruct (bool_decide _) eqn:Ep; simpl; [done|].
  apply bool_decide_eq_false in Ep.
  destruct (mhas (dirname dirPath) items1); [|done].
  rewrite mget_mdel_ne; done.
Qed.

(** [invalidateDirCache] only removes listings, and keeps the switch. *)
Lemma invalidateDirCache_shrinks dirPath st key :
  dc_enabled (DIR_CACHE (invalidateDirCache dirPath st)) = dc_enabled (DIR_CACHE st)
  ∧ (mget key (dc_items (DIR_CACHE st)) = None →
     mget key (dc_items (DIR_CACHE (invalidateDirCache dirPath st))) = None).
Proof.
  unfold invalidateDirCache. destruct (dc_enabled (DIR_CACHE st)) eqn:Hen; simpl; [|done].
  split; [done|]. intros Hk.
  assert (∀ d (m : list (string * DirItem)),
            mget key m = None → mget key (if mhas d m then mdel d m else m) = None) as Hdel.
  { intros d m Hm. destruct (mhas d m); [|done].
    destruct (decide (d = key)) as [->|Hne]; [apply mget_mdel_eq|].
    by rewrite mget_mdel_ne. }
  destruct (negb _); [|by apply Hdel]. by apply Hdel, Hdel.
Qed.

(** [invalidateDirCache] also removes the listing of the parent. *)
Lemma invalidateDirCache_removes_parent dirPath st :
  dc_enabled (DIR_CACHE st) = true →
  mget (dirname dirPath) (dc_items (DIR_CACHE (invalidateDirCache dirPath st))) = None.
Proof.
  intros Hen.
  destruct (decide (dirname dirPath = dirPath)) as [E|Hne].
  { rewrite E. by apply invalidateDirCache_removes. }
  unfold invalidateDirCache. rewrite Hen. simpl.
  rewrite bool_decide_eq_false_2 by done. simpl.
  destruct (mhas (dirname dirPath) _) eqn:Eh.
  - apply mget_mdel_eq.
  - by apply mhas_false.
Qed.

(** The callback of the monitor of [dirPath] removes the cached listing of
    [dirPath] at every event, whatever path changed; and when the changed
    path passes the test of the callback for lying inside [dirPath]
    ([path.relative] from [dirPath] neither starts with two dots nor is
    absolute) and its parent directory is not [dirPath] itself, the cached
    listing of that parent directory is removed as well. *)
Lemma dirChangeCallback_invalidates_listings dirPath event changedPath st :
  dc_enabled (DIR_CACHE st) = true →
  let st' := dirChangeCallback dirPath event changedPath st in
  mget dirPath (dc_items (DIR_CACHE st')) = None
  ∧ (changedPath ≠ EmptyString →
     startsWithDotDot (relative dirPath changedPath) = false →
     isAbsolute (relative dirPath changedPath) = false →
     dirname changedPath ≠ dirPath →
     mget (dirname changedPath) (dc_items (DIR_CACHE st')) = None).
Proof.
  intros Hen st'. subst st'. unfold dirChangeCallback.
  pose proof (invalidateDirCache_removes dirPath st Hen) as Hroot.
  pose proof (invalidateDirCache_removes_parent dirPath st Hen) as Hup.
  pose proof (invalidateDirCache_shrinks dirPath st) as Hkeep.
  set (st1 := invalidateDirCache dirPath st) in *.
  assert (dc_enabled (DIR_CACHE st1) = true) as Hen1.
  { destruct (Hkeep dirPath) as [-> _]. done. }
  split.
  - destruct (negb _ && negb _); [|done].
    destruct (negb _ && negb _); [|done].
    destruct (negb _); [|done].
    by apply invalidateDirCache_shrinks.
  - intros Hne Hdots Habs Hparent.
    rewrite (bool_decide_eq_false_2 _ Hne). simpl.
    destruct (decide (changedPath = dirPath)) as [->|Hdiff].
    + rewrite bool_decide_eq_true_2 by done. simpl. done.
    + rewrite (bool_decide_eq_false_2 _ Hdiff). simpl.
      rewrite Hdots, Habs. simpl.
      rewrite (bool_decide_eq_false_2 _ Hparent). simpl.
      by apply invalidateDirCache_removes.
Qed.

End ChangeEvents.

Section FileReads.
Context `{PathLib} (cfg : Config).

Lemma ensureCache_fields requiredSpace c :
  let c' := ensureCache requiredSpace c in
  fc_enabled c' = fc_enabled c ∧ fc_maxSize c' = fc_maxSize c
  ∧ fc_maxAge c' = fc_maxAge c ∧ fc_hits c' = fc_hits c
  ∧ fc_misses c' = fc_misses c ∧ fc_monitoring c' = fc_monitoring c.
Proof.
  unfold ensureCache. destruct (_ <=? _); [done|]. apply evictCache_fields.
Qed.

(** [addToCache] counts neither a hit nor a miss. *)
Lemma addCache_fields filePath newContent now c :
  let c' := addCache filePath newContent now c in
  fc_enabled c' = fc_enabled c ∧ fc_maxSize c' = fc_maxSize c
  ∧ fc_maxAge c' = fc_maxAge c ∧ fc_hits c' = fc_hits c
  ∧ fc_misses c' = fc_misses c ∧ fc_monitoring c' = fc_monitoring c.
Proof.
  unfold addCache.
  destruct (negb _ || _); [done|].
  destruct (_ >? _); [done|].
  match goal with
  | |- context [ensureCache ?r ?c0] =>
      destruct (ensureCache_fields r c0) as (E1 & E2 & E3 & E4 & E5 & E6)
  end.
  simpl in *. rewrite E1, E2, E3, E4, E5, E6.
  destruct (mget filePath (fc_items c)); done.
Qed.

(** A read of a path for which the cache holds no entry returns the content
    of the file, and counts no hit. *)
Lemma readFile_without_entry filePath now random st body :
  validateToolCall cfg "read_file" [filePath] = true →
  fs st !! filePath = Some (FsFile body) →
  mget filePath (fc_items (FILE_CACHE st)) = None →
  fst (readFile cfg filePath now random st)
  = ReadOk body (statSize body >? orElse (thresholdRead cfg) LARGE_FILE_THRESHOLD_read)
  ∧ fc_hits (FILE_CACHE (snd (readFile cfg filePath now random st)))
    = fc_hits (FILE_CACHE st).
Proof.
  intros Hok Hfile Hnone. unfold readFile. rewrite Hok, Hfile. simpl.
  destruct (fc_enabled (FILE_CACHE st)) eqn:Hen.
  - unfold getFromCache. rewrite Hen, Hnone. simpl.
    destruct (_ >? _); simpl; [done|].
    destruct (_ && _); simpl; [|done].
    rewrite FILE_CACHE_addToCache.
    split; [done|].
    match goal with
    | |- context [addCache ?p ?b ?n ?c0] =>
        destruct (addCache_fields p b n c0) as (_ & _ & _ & -> & _)
    end.
    done.
  - simpl. destruct (_ >? _); simpl; [done|].
    rewrite ?Hen. simpl. done.
Qed.

(** A read of a path for which the cache holds no entry goes to the file
    system, whatever is there, and counts no hit. *)
Lemma readFile_goes_to_the_file_system filePath now random st :
  validateToolCall cfg "read_file" [filePath] = true →
  mget filePath (fc_items (FILE_CACHE st)) = None →
  fc_hits (FILE_CACHE (snd (readFile cfg filePath now random st)))
  = fc_hits (FILE_CACHE st)
  ∧ match fs st !! filePath with
    | Some (FsFile body) =>
        ∃ streamed, fst (readFile cfg filePath now random st) = ReadOk body streamed
    | _ => fst (readFile cfg filePath now random st) = Failed
    end.
Proof.
  intros Hok Hnone.
  destruct (fs st !! filePath) as [[body|]|] eqn:Hfile.
  - destruct (readFile_without_entry filePath now random st body Hok Hfile Hnone)
      as [Hres Hhits].
    split; [done|]. rewrite Hres. eauto.
  - unfold readFile. rewrite Hok, Hfile. simpl.
    destruct (fc_enabled (FILE_CACHE st)) eqn:Hen; [|done].
    unfold getFromCache. rewrite Hen, Hnone. simpl. done.
  - unfold readFile. rewrite Hok, Hfile. simpl. done.
Qed.

(** C5.  The callback of the monitor of [filePath], at a [change] or an
    [unlink] event, leaves no entry for [filePath] in the file-content cache:
    the next [getFromCache] for the path is a miss, and the next [readFile]
    counts no hit and goes to the file system: it returns the content that
    the file has there, or fails when the file is gone. *)
Theorem C5_change_event_forces_a_miss filePath event changedPath now random st :
  event = EvChange ∨ event = EvUnlink →
  let st' := fileChangeCallback filePath event changedPath st in
  mget filePath (fc_items (FILE_CACHE st')) = None
  ∧ fst (getFromCache filePath now st') = None
  ∧ (validateToolCall cfg "read_file" [filePath] = true →
     fc_hits (FILE_CACHE (snd (readFile cfg filePath now random st')))
     = fc_hits (FILE_CACHE st')
     ∧ match fs st !! filePath with
       | Some (FsFile body) =>
           ∃ streamed, fst (readFile cfg filePath now random st') = ReadOk body streamed
       | _ => fst (readFile cfg filePath now random st') = Failed
       end).
Proof.
  intros Hev st'.
  assert (mget filePath (fc_items (FILE_CACHE st')) = None) as Hnone.
  { subst st'. unfold fileChangeCallback.
    assert (mget filePath
              (fc_items (FILE_CACHE
                 (if mhas filePath (fc_items (FILE_CACHE st))
                  then invalidateDirCache (dirname filePath)
                         (withFileCache st
                            (fcSetItems (FILE_CACHE st)
                               (mdel filePath (fc_items (FILE_CACHE st)))))
                  else st))) = None) as Hboth.
    { destruct (mhas filePath _) eqn:Eh.
      - match goal with
        | |- context [invalidateDirCache ?d ?s] =>
            destruct (invalidateDirCache_frame d s) as (_ & -> & _)
        end.
        simpl. apply mget_mdel_eq.
      - by apply mhas_false. }
    destruct Hev as [-> | ->]; exact Hboth. }
  split; [done|]. split.
  - unfold getFromCache. destruct (negb _); [done|]. by rewrite Hnone.
  - intros Hok.
    assert (fs st' = fs st) as Hfs by apply fileChangeCallback_frame.
    rewrite <- Hfs.
    by apply readFile_goes_to_the_file_system.
Qed.

End FileReads.

Section ChangeEventExamples.
Local Existing Instance posix.

(** C5 at a concrete state: [/d/a.txt] is cached and monitored, the file is
    then changed on disk, and the [change] event arrives. *)
Lemma C5_witness :
  let cfg := exampleConfig true in
  let changed := withFs bothCached (<["/d/a.txt" := FsFile "bye"]> (fs bothCached)) in
  let st' := fileChangeCallback "/d/a.txt" EvChange "/d/a.txt" changed in
  (EvChange = EvChange ∨ EvChange = EvUnlink)
  ∧ validateToolCall cfg "read_file" ["/d/a.txt"] = true
  ∧ fst (getFromCache "/d/a.txt" 2000 changed) = Some "hello"
  ∧ mget "/d/a.txt" (fc_items (FILE_CACHE st')) = None
  ∧ fst (getFromCache "/d/a.txt" 2000 st') = None
  ∧ fst (readFile cfg "/d/a.txt" 2000 9 st') = ReadOk "bye" false
  ∧ fc_hits (FILE_CACHE (snd (readFile cfg "/d/a.txt" 2000 9 st')))
    = fc_hits (FILE_CACHE st').
Proof.
  intros cfg changed st'.
  destruct (C5_change_event_forces_a_miss cfg "/d/a.txt" EvChange "/d/a.txt" 2000 9
              changed (or_introl eq_refl)) as (Hgone & Hmiss & Hread).
  destruct (Hread eq_refl) as [Hhits _].
  split; [by left|].
  split; [reflexivity|].
  split; [vm_compute; reflexivity|].
  split; [exact Hgone|].
  split; [exact Hmiss|].
  split; [vm_compute; reflexivity | exact Hhits].
Defined.

(** The monitor of [/d] reports a file added in [/d/sub]: both listings
    go. *)
Example nested_change_invalidates_both :
  let st' := dirChangeCallback "/d" EvAdd "/d/sub/new.txt" nestedListings in
  dc_enabled (DIR_CACHE nestedListings) = true
  ∧ "/d/sub/new.txt" ≠ EmptyString
  ∧ startsWithDotDot (relative "/d" "/d/sub/new.txt") = false
  ∧ isAbsolute (relative "/d" "/d/sub/new.txt") = false
  ∧ dirname "/d/sub/new.txt" ≠ "/d"
  ∧ mkeys (dc_items (DIR_CACHE nestedListings)) = ["/d"; "/d/sub"]
  ∧ mget "/d" (dc_items (DIR_CACHE st')) = None
  ∧ mget (dirname "/d/sub/new.txt") (dc_items (DIR_CACHE st')) = None.
Proof.
  intros st'.
  assert (dc_enabled (DIR_CACHE nestedListings) = true) as Hen
    by (vm_compute; reflexivity).
  assert ("/d/sub/new.txt" ≠ EmptyString) as Hne by discriminate.
  assert (startsWithDotDot (relative "/d" "/d/sub/new.txt") = false) as Hdots
    by (vm_compute; reflexivity).
  assert (isAbsolute (relative "/d" "/d/sub/new.txt") = false) as Habs
    by (vm_compute; reflexivity).
  assert (dirname "/d/sub/new.txt" ≠ "/d") as Hparent
    by (vm_compute; discriminate).
  destruct (dirChangeCallback_invalidates_listings "/d" EvAdd "/d/sub/new.txt"
              nestedListings Hen) as [Hroot Hnested].
  split; [exact Hen|].
  split; [exact Hne|].
  split; [exact Hdots|].
  split; [exact Habs|].
  split; [exact Hparent|].
  split; [vm_compute; reflexivity|].
  split; [exact Hroot|].
  exact (Hnested Hne Hdots Habs Hparent).
Defined.

End ChangeEventExamples.

(** ** Watches and the cache entries that depend on them *)

Section WatchLeak.
Local Existing Instance posix.

(** C4 (the code departs from the claim).  [/d/a.txt] is cached and its
    monitor is registered in the pool under the id (1000, 7).  When the
    [change] event removes the cache entry, and also when [deleteFile] or
    [appendFile] removes it, the record stays in the pool and the path stays
    in [CACHE_MONITORS]; only the expiry in [getFromCache] (and the eviction
    in [ensureCacheSpace]) stops the monitor. *)
Theorem C4_invalidation_leaves_the_watch_record :
  let cfg := exampleConfig true in
  let watched (st : State) :=
    (mhas (1000, 7) (watchers (pool st)),
     bool_decide ("/d/a.txt" ∈ monitoredPaths (CACHE_MONITORS st))) in
  let cached (st : State) := mhas "/d/a.txt" (fc_items (FILE_CACHE st)) in
  let afterEvent := fileChangeCallback "/d/a.txt" EvChange "/d/a.txt" bothCached in
  let afterDelete := snd (deleteFile cfg "/d/a.txt" bothCached) in
  let afterAppend := snd (appendFile cfg "/d/a.txt" "!" bothCached) in
  let afterExpiry := snd (getFromCache "/d/a.txt" 3600000 bothCached) in
  cached bothCached = true ∧ watched bothCached = (true, true)
  ∧ cached afterEvent = false ∧ watched afterEvent = (true, true)
  ∧ cached afterDelete = false ∧ watched afterDelete = (true, true)
  ∧ cached afterAppend = false ∧ watched afterAppend = (true, true)
  ∧ cached afterExpiry = false ∧ watched afterExpiry = (false, false).
Proof. vm_compute. repeat split; reflexivity. Qed.

End WatchLeak.

(** ** Empty content and the file-content cache *)

Section EmptyContent.
Context `{PathLib} (cfg : Config).

Lemma addToCache_empty filePath now random st :
  addToCache cfg filePath EmptyString now random st = st.
Proof.
  unfold addToCache. rewrite bool_decide_eq_true_2 by done.
  by rewrite orb_true_r.
Qed.

Lemma mget_mdel_Some {V : Type} (k k' : string) (v : V) (m : list (string * V)) :
  mget k (mdel k' m) = Some v → mget k m = Some v.
Proof.
  destruct (decide (k' = k)) as [->|Hne].
  - by rewrite mget_mdel_eq.
  - by rewrite mget_mdel_ne.
Qed.

Lemma evictCache_keeps requiredSpace cacheItems c key item :
  mget key (fc_items (evictCache requiredSpace cacheItems c)) = Some item →
  mget key (fc_items c) = Some item.
Proof.
  revert c. induction cacheItems as [|[k i] rest IH]; intros c; simpl; [done|].
  destruct (_ <=? _).
  - simpl. apply mget_mdel_Some.
  - intros Hg. apply IH in Hg. simpl in Hg. by apply mget_mdel_Some in Hg.
Qed.

(** Every entry of the cache after [addToCache] was there before, or is the
    new entry, whose content is not empty. *)
Lemma addCache_entries filePath newContent now c key item :
  mget key (fc_items (addCache filePath newContent now c)) = Some item →
  mget key (fc_items c) = Some item
  ∨ (key = filePath ∧ content item = newContent ∧ newContent ≠ EmptyString).
Proof.
  unfold addCache.
  destruct (fc_enabled c); simpl; [|by left].
  destruct (bool_decide (newContent = EmptyString)) eqn:He; [by left|].
  apply bool_decide_eq_false in He.
  destruct (_ >? _); [by left|]. simpl.
  destruct (decide (filePath = key)) as [->|Hne].
  - rewrite mget_mset_eq. intros [= <-]. right. done.
  - rewrite mget_mset_ne by done. intros Hg. left.
    unfold ensureCache in Hg.
    destruct (_ <=? _).
    + destruct (mget filePath (fc_items c)); done.
    + apply evictCache_keeps in Hg. destruct (mget filePath (fc_items c)); done.
Qed.

(** A cached value that is the empty string is not served. *)
Lemma readFile_ignores_empty_entry filePath now random st item body :
  validateToolCall cfg "read_file" [filePath] = true →
  fs st !! filePath = Some (FsFile body) →
  mget filePath (fc_items (FILE_CACHE st)) = Some item →
  content item = EmptyString →
  ∃ streamed, fst (readFile cfg filePath now random st) = ReadOk body streamed.
Proof.
  intros Hok Hfile Hget Hempty. unfold readFile. rewrite Hok, Hfile. simpl.
  destruct (fc_enabled (FILE_CACHE st)) eqn:Hen.
  - unfold getFromCache. rewrite Hen, Hget. simpl.
    destruct (_ >? _); simpl.
    + destruct (_ >? _); simpl; eauto.
    + rewrite Hempty. simpl. destruct (_ >? _); simpl; eauto.
  - destruct (_ >? _); simpl; eauto.
Qed.

(** An empty file that has no cache entry is read from the file system, and
    still has no cache entry afterwards. *)
Lemma readFile_empty_file_stays_uncached filePath now random st :
  validateToolCall cfg "read_file" [filePath] = true →
  fs st !! filePath = Some (FsFile EmptyString) →
  mget filePath (fc_items (FILE_CACHE st)) = None →
  (∃ streamed, fst (readFile cfg filePath now random st) = ReadOk EmptyString streamed)
  ∧ mget filePath (fc_items (FILE_CACHE (snd (readFile cfg filePath now random st)))) = None
  ∧ fs (snd (readFile cfg filePath now random st)) = fs st.
Proof.
  intros Hok Hfile Hnone. unfold readFile. rewrite Hok, Hfile. simpl.
  destruct (fc_enabled (FILE_CACHE st)) eqn:Hen.
  - unfold getFromCache. rewrite Hen, Hnone. simpl.
    destruct (_ >? _); simpl; [eauto|].
    rewrite Hen. simpl. rewrite addToCache_empty. simpl. eauto.
  - simpl. destruct (_ >? _); simpl; [eauto|].
    rewrite Hen. simpl. eauto.
Qed.

(** The empty string is neither stored in the file-content cache nor served
    from it: [addToCache] with empty content changes nothing, every entry
    that [addToCache] creates has a content that is not empty, and [readFile]
    takes a cached value that is empty for a miss and returns the content of
    the file.  A file whose content is the empty string, and for whose path
    the cache holds no entry, is read from the file system by [readFile],
    which leaves the path without an entry. *)
Theorem empty_content_is_never_cached filePath now random st :
  addToCache cfg filePath EmptyString now random st = st
  ∧ (∀ newContent key item,
       mget key (fc_items (FILE_CACHE (addToCache cfg filePath newContent now random st)))
       = Some item →
       mget key (fc_items (FILE_CACHE st)) = Some item ∨ content item ≠ EmptyString)
  ∧ (∀ item body,
       validateToolCall cfg "read_file" [filePath] = true →
       fs st !! filePath = Some (FsFile body) →
       mget filePath (fc_items (FILE_CACHE st)) = Some item →
       content item = EmptyString →
       ∃ streamed, fst (readFile cfg filePath now random st) = ReadOk body streamed)
  ∧ (validateToolCall cfg "read_file" [filePath] = true →
     fs st !! filePath = Some (FsFile EmptyString) →
     mget filePath (fc_items (FILE_CACHE st)) = None →
     (∃ streamed,
        fst (readFile cfg filePath now random st) = ReadOk EmptyString streamed)
     ∧ mget filePath
         (fc_items (FILE_CACHE (snd (readFile cfg filePath now random st)))) = None
     ∧ fs (snd (readFile cfg filePath now random st)) = fs st).
Proof.
  split; [apply addToCache_empty|].
  split.
  { intros newContent key item. rewrite FILE_CACHE_addToCache. intros Hg.
    apply addCache_entries in Hg as [Hold|(_ & -> & Hne)]; [by left | by right]. }
  split.
  { intros item body. apply readFile_ignores_empty_entry. }
  apply readFile_empty_file_stays_uncached.
Qed.

End EmptyContent.

Section EmptyContentExamples.
Local Existing Instance posix.

(** C10 (the code departs from the claim).  [/d/b.txt] is read and cached
    with the content x, then [writeFile] makes it empty.  [writeFile] calls
    [addToCache] to update the entry of the cached path, and [addToCache]
    returns at once for the empty content: the entry is left as it was, and
    the next [readFile] serves x from the cache although the file is empty,
    where the claim has [readFile] read the file system for every file whose
    content is the empty string. *)
Theorem C10_stale_entry_served_for_empty_file :
  let cfg := exampleConfig false in
  let st1 := snd (readFile cfg "/d/b.txt" 1000 7 (cachingState false)) in
  let st2 := snd (writeFile cfg "/d/b.txt" EmptyString 2000 8 st1) in
  fst (writeFile cfg "/d/b.txt" EmptyString 2000 8 st1) = Written false
  ∧ fs st2 !! "/d/b.txt" = Some (FsFile EmptyString)
  ∧ fst (readFile cfg "/d/b.txt" 3000 9 st2) = ReadOk "x" false
  ∧ ¬ (∃ streamed, fst (readFile cfg "/d/b.txt" 3000 9 st2) = ReadOk EmptyString streamed).
Proof.
  intros cfg st1 st2.
  assert (fst (readFile cfg "/d/b.txt" 3000 9 st2) = ReadOk "x" false) as Hread
    by (vm_compute; reflexivity).
  split; [vm_compute; reflexivity|].
  split; [vm_compute; reflexivity|].
  split; [exact Hread|].
  intros [streamed Hres]. rewrite Hread in Hres. discriminate.
Qed.

(** The file [/d/b.txt] is empty before anything is cached: it is read from
    the file system and not cached. *)
Lemma empty_content_is_never_cached_witness :
  let cfg := exampleConfig false in
  let st0 := withFs (cachingState false)
               (<["/d/b.txt" := FsFile EmptyString]> (fs (cachingState false))) in
  let st1 := snd (readFile cfg "/d/b.txt" 1000 7 st0) in
  validateToolCall cfg "read_file" ["/d/b.txt"] = true
  ∧ fs st0 !! "/d/b.txt" = Some (FsFile EmptyString)
  ∧ mget "/d/b.txt" (fc_items (FILE_CACHE st0)) = None
  ∧ (∃ streamed, fst (readFile cfg "/d/b.txt" 1000 7 st0) = ReadOk EmptyString streamed)
  ∧ mget "/d/b.txt" (fc_items (FILE_CACHE st1)) = None
  ∧ fs st1 = fs st0.
Proof.
  intros cfg st0 st1.
  assert (validateToolCall cfg "read_file" ["/d/b.txt"] = true) as Hok by reflexivity.
  assert (fs st0 !! "/d/b.txt" = Some (FsFile EmptyString)) as Hfile
    by (vm_compute; reflexivity).
  assert (mget "/d/b.txt" (fc_items (FILE_CACHE st0)) = None) as Hnone
    by (vm_compute; reflexivity).
  destruct (empty_content_is_never_cached cfg "/d/b.txt" 1000 7 st0)
    as (_ & _ & _ & Hread).
  destruct (Hread Hok Hfile Hnone) as (Hres & Hstill & Hfs).
  split; [exact Hok|].
  split; [exact Hfile|].
  split; [exact Hnone|].
  split; [exact Hres|].
  split; [exact Hstill | exact Hfs].
Defined.

End EmptyContentExamples.

(** ** The caches on their own *)

Section CachesAlone.
Context `{PathLib} (cfg : Config).

Lemma getFromCache_alone filePath now st :
  fst (getFromCache filePath now st) = fst (getCache filePath now (FILE_CACHE st))
  ∧ FILE_CACHE (snd (getFromCache filePath now st))
    = snd (getCache filePath now (FILE_CACHE st)).
Proof.
  unfold getFromCache, getCache.
  destruct (negb _); [done|].
  destruct (mget filePath _) as [item|]; [|done].
  destruct (_ >? _); [|done].
  assert (FILE_CACHE (if fc_monitoring (FILE_CACHE st)
                      then stopMonitoringFile filePath st else st) = FILE_CACHE st) as E.
  { destruct (fc_monitoring _); [|done]. apply stopMonitoringFile_frame. }
  simpl. by rewrite E.
Qed.

Lemma setDirChangeCallback_frame dirPath now random st :
  let st' := snd (setDirChangeCallback cfg dirPath now random st) in
  FILE_CACHE st' = FILE_CACHE st ∧ CACHE_MONITORS st' = CACHE_MONITORS st
  ∧ DIR_CACHE st' = DIR_CACHE st ∧ DIR_MONITORS st' = DIR_MONITORS st
  ∧ fs st' = fs st.
Proof.
  unfold setDirChangeCallback.
  destruct (bool_decide _); [done|].
  destruct (fs st !! dirPath) as [[body|]|]; try done.
  destruct (addWatcher _ _ _ _ _ _ _) as [[info|] p']; simpl; done.
Qed.

Lemma monitorDirectoryForCache_frame dirPath now random st :
  let st' := monitorDirectoryForCache cfg dirPath now random st in
  FILE_CACHE st' = FILE_CACHE st ∧ CACHE_MONITORS st' = CACHE_MONITORS st
  ∧ DIR_CACHE st' = DIR_CACHE st ∧ fs st' = fs st.
Proof.
  unfold monitorDirectoryForCache.
  destruct (negb _ || negb _); [done|].
  set (st1 := if mon_enabled (DIR_MONITORS st) then st else _).
  assert (FILE_CACHE st1 = FILE_CACHE st ∧ CACHE_MONITORS st1 = CACHE_MONITORS st
          ∧ DIR_CACHE st1 = DIR_CACHE st ∧ fs st1 = fs st) as (E1 & E2 & E3 & E4).
  { subst st1. destruct (mon_enabled _); simpl; done. }
  destruct (bool_decide _); [done|].
  pose proof (setDirChangeCallback_frame dirPath now random st1) as F.
  destruct (setDirChangeCallback cfg dirPath now random st1) as [[w|] st2];
    simpl in *; destruct F as (? & ? & ? & ? & ?); repeat split; congruence.
Qed.

Lemma getFromDirCache_alone dirPath now st :
  fst (getFromDirCache dirPath now st) = fst (getDirCache dirPath now (DIR_CACHE st))
  ∧ DIR_CACHE (snd (getFromDirCache dirPath now st))
    = snd (getDirCache dirPath now (DIR_CACHE st)).
Proof.
  unfold getFromDirCache, getDirCache.
  destruct (negb _); [done|].
  destruct (mget dirPath _) as [item|]; [|done].
  destruct (_ >? _); [|done].
  simpl. split; [done|].
  match goal with
  | |- context [stopMonitoringDirectory ?d ?s] =>
      destruct (stopMonitoringDirectory_frame d s) as (_ & _ & -> & _)
  end.
  done.
Qed.

Lemma DIR_CACHE_evictFromDirCache now st :
  DIR_CACHE (evictFromDirCache now st) = evictDirCache now (DIR_CACHE st).
Proof.
  unfold evictFromDirCache, evictDirCache.
  destruct (snd (scanOldest _ _ _ _)) as [oldestPath|]; [|done].
  destruct (bool_decide _); [done|].
  simpl.
  match goal with
  | |- context [stopMonitoringDirectory ?d ?s] =>
      destruct (stopMonitoringDirectory_frame d s) as (_ & _ & -> & _)
  end.
  done.
Qed.

Lemma DIR_CACHE_addToDirCache dirPath entries now random st :
  DIR_CACHE (addToDirCache cfg dirPath entries now random st)
  = addDirCache dirPath entries now (DIR_CACHE st).
Proof.
  unfold addToDirCache, addDirCache.
  destruct (negb _); [done|].
  match goal with
  | |- context [monitorDirectoryForCache cfg ?d ?n ?r ?s] =>
      destruct (monitorDirectoryForCache_frame d n r s) as (_ & _ & -> & _)
  end.
  simpl.
  destruct (_ >=? _); [|done].
  by rewrite DIR_CACHE_evictFromDirCache.
Qed.

End CachesAlone.

(** ** The search for the oldest entry *)

Section ScanOldest.
Context {K V : Type} `{EqDecision K}.
Implicit Types (m : list (K * V)) (stamp : V → Z).

(** The loop either finds no stamp below its starting time, or stops at the
    first entry that carries the least stamp. *)
Lemma scanOldest_spec stamp oldestTime oldestId m :
  (Forall (λ e, oldestTime ≤ stamp (snd e)) m
   ∧ scanOldest stamp oldestTime oldestId m = (oldestTime, oldestId))
  ∨ (∃ m1 k v m2,
       m = m1 ++ (k, v) :: m2
       ∧ scanOldest stamp oldestTime oldestId m = (stamp v, Some k)
       ∧ stamp v < oldestTime
       ∧ Forall (λ e, stamp v < stamp (snd e)) m1
       ∧ Forall (λ e, stamp v ≤ stamp (snd e)) m2).
Proof.
  revert oldestTime oldestId.
  induction m as [|[k v] m IH]; intros oldestTime oldestId; simpl.
  - left. split; [constructor | done].
  - destruct (Z.ltb_spec (stamp v) oldestTime) as [Hlt|Hge].
    + destruct (IH (stamp v) (Some k))
        as [[Hall Hres]|(m1 & k' & v' & m2 & -> & Hres & Hlt' & H1 & H2)].
      * right. exists [], k, v, m. simpl. repeat split; try done.
      * right. exists ((k, v) :: m1), k', v', m2. simpl.
        repeat split; try done; [lia|].
        constructor; [simpl; lia | done].
    + destruct (IH oldestTime oldestId)
        as [[Hall Hres]|(m1 & k' & v' & m2 & -> & Hres & Hlt' & H1 & H2)].
      * left. split; [|done]. constructor; [simpl; lia | done].
      * right. exists ((k, v) :: m1), k', v', m2. simpl.
        repeat split; try done.
        constructor; [simpl; lia | done].
Qed.

(** The entry found carries the least stamp of the map. *)
Lemma scanOldest_least stamp oldestTime oldestId m k t :
  scanOldest stamp oldestTime oldestId m = (t, Some k) →
  oldestId = None →
  ∃ v, (k, v) ∈ m ∧ stamp v = t ∧ t < oldestTime
       ∧ ∀ k' v', (k', v') ∈ m → t ≤ stamp v'.
Proof.
  intros Hres ->.
  destruct (scanOldest_spec stamp oldestTime None m)
    as [[_ Hnone]|(m1 & k0 & v0 & m2 & -> & Hsome & Hlt & H1 & H2)].
  - rewrite Hnone in Hres. done.
  - rewrite Hsome in Hres. injection Hres as <- <-.
    exists v0. split; [apply elem_of_app; right; by left|].
    split; [done|]. split; [done|].
    intros k' v' Hin. apply elem_of_app in Hin as [Hin|Hin].
    + rewrite Forall_forall in H1. specialize (H1 _ Hin). simpl in H1. lia.
    + apply elem_of_cons in Hin as [[= -> ->]|Hin]; [lia|].
      rewrite Forall_forall in H2. by specialize (H2 _ Hin).
Qed.

(** The loop finds an entry as soon as one stamp lies below its starting
    time. *)
Lemma scanOldest_finds stamp oldestTime m k v :
  (k, v) ∈ m → stamp v < oldestTime →
  ∃ t k', scanOldest stamp oldestTime None m = (t, Some k').
Proof.
  intros Hin Hlt.
  destruct (scanOldest_spec stamp oldestTime None m)
    as [[Hall _]|(m1 & k0 & v0 & m2 & _ & Hsome & _)].
  - rewrite Forall_forall in Hall. specialize (Hall _ Hin). simpl in Hall. lia.
  - eauto.
Qed.

End ScanOldest.

(** ** The order of eviction of the file-content cache *)

Section EvictionOrder.

Lemma insertByLastAccess_perm e l : insertByLastAccess e l ≡ₚ e :: l.
Proof.
  induction l as [|x l IH]; simpl; [done|].
  destruct (_ <=? _); [done|].
  rewrite IH. apply Permutation_swap.
Qed.

Lemma sortByLastAccess_perm l : sortByLastAccess l ≡ₚ l.
Proof.
  induction l as [|x l IH]; simpl; [done|].
  rewrite insertByLastAccess_perm. by rewrite IH.
Qed.

Lemma insertByLastAccess_sorted e l :
  StronglySorted accessedNoLater l →
  StronglySorted accessedNoLater (insertByLastAccess e l).
Proof.
  induction 1 as [|x l Hsorted IH Hall]; simpl.
  - repeat constructor.
  - destruct (Z.leb_spec (lastAccess (snd e)) (lastAccess (snd x))) as [Hle|Hgt].
    + constructor; [by constructor|].
      constructor; [done|].
      eapply Forall_impl; [exact Hall|]. unfold accessedNoLater. intros y Hy. lia.
    + constructor; [done|].
      rewrite insertByLastAccess_perm.
      constructor; [unfold accessedNoLater; lia | done].
Qed.

Lemma sortByLastAccess_sorted l : StronglySorted accessedNoLater (sortByLastAccess l).
Proof.
  induction l as [|x l IH]; simpl; [constructor|].
  by apply insertByLastAccess_sorted.
Qed.

Lemma sortByLastAccess_nil l : sortByLastAccess l = [] → l = [].
Proof.
  intros Hs. apply Permutation_nil_r. rewrite <- Hs. by rewrite sortByLastAccess_perm.
Qed.

(** Looking a key up after a series of deletions. *)
Lemma mget_withoutKeys {V : Type} (l m : list (string * V)) key :
  mget key (withoutKeys l m) = if bool_decide (key ∈ mkeys l) then None else mget key m.
Proof.
  revert m. induction l as [|[k v] l IH]; intros m.
  - unfold withoutKeys, mkeys. cbn [foldl map].
    case_bool_decide as Hin; [by apply elem_of_nil in Hin | done].
  - unfold withoutKeys, mkeys in *. cbn [foldl map fst]. rewrite IH.
    destruct (decide (key ∈ map fst l)) as [Hin|Hnin].
    + rewrite !bool_decide_eq_true_2; [done| |done]. by right.
    + rewrite (bool_decide_eq_false_2 _ Hnin).
      destruct (decide (k = key)) as [->|Hne].
      * rewrite bool_decide_eq_true_2 by (by left). apply mget_mdel_eq.
      * rewrite bool_decide_eq_false_2.
        -- by apply mget_mdel_ne.
        -- rewrite not_elem_of_cons. done.
Qed.

End EvictionOrder.

(** ** The scenario of the three inserts *)

Section Scenario.

Lemma gtb_false a b : a ≤ b → (a >? b) = false.
Proof. intros Hle. rewrite Z.gtb_ltb. by apply Z.ltb_ge. Qed.

(** In the file-content cache, with room for two one-character contents. *)
Lemma scenario_file c0 t1 t2 t3 t4 :
  fc_enabled c0 = true → fc_items c0 = [] → fc_size c0 = 0 → fc_maxSize c0 = 2 →
  t2 < t3 → t3 - t1 ≤ fc_maxAge c0 →
  let c1 := addCache "A" "a" t1 c0 in
  let c2 := addCache "B" "b" t2 c1 in
  let c3 := snd (getCache "A" t3 c2) in
  let c4 := addCache "C" "c" t4 c3 in
  fst (getCache "A" t3 c2) = Some "a"
  ∧ fc_items c4 =
      [("A", {| content := "a"; timestamp := t1; lastAccess := t3 |});
       ("C", {| content := "c"; timestamp := t4; lastAccess := t4 |})]
  ∧ fc_evictions c4 = fc_evictions c0 + 1.
Proof.
  intros Hen Hitems Hsize Hmax Hlt Hage c1 c2 c3 c4.
  destruct c0 as [en items size maxSize maxAge hits misses evictions monitoring].
  simpl in Hen, Hitems, Hsize, Hmax, Hage. subst en items size maxSize.
  assert (c2 =
    {| fc_enabled := true;
       fc_items :=
         [("A", {| content := "a"; timestamp := t1; lastAccess := t1 |});
          ("B", {| content := "b"; timestamp := t2; lastAccess := t2 |})];
       fc_size := 2; fc_maxSize := 2; fc_maxAge := maxAge; fc_hits := hits;
       fc_misses := misses; fc_evictions := evictions;
       fc_monitoring := monitoring |}) as E2 by reflexivity.
  assert (getCache "A" t3 c2 =
    (Some "a",
     {| fc_enabled := true;
        fc_items :=
          [("A", {| content := "a"; timestamp := t1; lastAccess := t3 |});
           ("B", {| content := "b"; timestamp := t2; lastAccess := t2 |})];
        fc_size := 2; fc_maxSize := 2; fc_maxAge := maxAge; fc_hits := hits + 1;
        fc_misses := misses; fc_evictions := evictions;
        fc_monitoring := monitoring |})) as E3.
  { rewrite E2. unfold getCache. simpl. rewrite (gtb_false _ _ Hage). reflexivity. }
  subst c4 c3. rewrite E3. simpl.
  split; [done|].
  unfold addCache, ensureCache. simpl.
  assert ((t3 <=? t2) = false) as -> by (apply Z.leb_gt; lia).
  simpl. split; reflexivity.
Qed.

(** In the directory-listing cache, with room for two listings. *)
Lemma scenario_dir c0 t1 t2 t3 t4 la lb lc :
  dc_enabled c0 = true → dc_items c0 = [] → dc_maxSize c0 = 2 →
  t2 < t3 → t3 ≤ t4 → t3 - t1 ≤ dc_maxAge c0 →
  let c1 := addDirCache "A" la t1 c0 in
  let c2 := addDirCache "B" lb t2 c1 in
  let c3 := snd (getDirCache "A" t3 c2) in
  let c4 := addDirCache "C" lc t4 c3 in
  fst (getDirCache "A" t3 c2) = Some la
  ∧ dc_items c4 =
      [("A", {| listing := la; d_timestamp := t1; lastAccessed := t3 |});
       ("C", {| listing := lc; d_timestamp := t4; lastAccessed := t4 |})]
  ∧ dc_evictions c4 = dc_evictions c0 + 1.
Proof.
  intros Hen Hitems Hmax Hlt Hle Hage c1 c2 c3 c4.
  destruct c0 as [en maxSize maxAge items hits misses evictions].
  simpl in Hen, Hitems, Hmax, Hage. subst en items maxSize.
  assert (c2 =
    {| dc_enabled := true; dc_maxSize := 2; dc_maxAge := maxAge;
       dc_items :=
         [("A", {| listing := la; d_timestamp := t1; lastAccessed := t1 |});
          ("B", {| listing := lb; d_timestamp := t2; lastAccessed := t2 |})];
       dc_hits := hits; dc_misses := misses; dc_evictions := evictions |}) as E2
    by reflexivity.
  assert (getDirCache "A" t3 c2 =
    (Some la,
     {| dc_enabled := true; dc_maxSize := 2; dc_maxAge := maxAge;
        dc_items :=
          [("A", {| listing := la; d_timestamp := t1; lastAccessed := t3 |});
           ("B", {| listing := lb; d_timestamp := t2; lastAccessed := t2 |})];
        dc_hits := hits + 1; dc_misses := misses; dc_evictions := evictions |})) as E3.
  { rewrite E2. unfold getDirCache. simpl. rewrite (gtb_false _ _ Hage). reflexivity. }
  subst c4 c3. rewrite E3. simpl.
  split; [done|].
  unfold addDirCache, evictDirCache. simpl.
  destruct (Z.ltb_spec t3 t4) as [Hlt34|Hge34].
  - assert ((t2 <? t3) = true) as -> by (apply Z.ltb_lt; lia).
    simpl. split; reflexivity.
  - assert ((t2 <? t4) = true) as -> by (apply Z.ltb_lt; lia).
    simpl. split; reflexivity.
Qed.

End Scenario.

(** ** Eviction when a cache is full *)

Section Eviction.
Context `{PathLib} (cfg : Config).

(** [ensureCacheSpace] on a cache without room: the entries go in ascending
    order of [lastAccess], one eviction counted for each, until the new
    content fits or nothing is left. *)
Lemma ensureCacheSpace_order requiredSpace st :
  let c := FILE_CACHE st in
  let c' := FILE_CACHE (ensureCacheSpace requiredSpace st) in
  fc_size c + requiredSpace > fc_maxSize c →
  ∃ evicted retained,
    sortByLastAccess (fc_items c) = evicted ++ retained
    ∧ (∀ e r, e ∈ evicted → r ∈ retained → accessedNoLater e r)
    ∧ (∀ key, mget key (fc_items c')
              = if bool_decide (key ∈ mkeys evicted) then None
                else mget key (fc_items c))
    ∧ fc_evictions c' = fc_evictions c + Z.of_nat (length evicted)
    ∧ fc_size c' = fc_size c - totalLength evicted
    ∧ (fc_size c' + requiredSpace ≤ fc_maxSize c ∨ retained = [])
    ∧ (∀ j : nat, (1 ≤ j < length evicted)%nat →
         fc_size c - totalLength (take j evicted) + requiredSpace > fc_maxSize c)
    ∧ (fc_items c ≠ [] → evicted ≠ []).
Proof.
  intros c c' Hfull. subst c'. rewrite FILE_CACHE_ensureCacheSpace. fold c.
  unfold ensureCache.
  destruct (Z.leb_spec (fc_size c + requiredSpace) (fc_maxSize c)) as [Hroom|_]; [lia|].
  pose proof (sortByLastAccess_sorted (fc_items c)) as Hsorted.
  destruct (sortByLastAccess (fc_items c)) as [|e0 sorted'] eqn:Es.
  { exists [], []. simpl. repeat split; try done.
    - intros ? ? Hin. by apply elem_of_nil in Hin.
    - lia.
    - unfold totalLength. simpl. lia.
    - by right.
    - intros j Hj. lia.
    - intros Hne _. apply Hne. by apply sortByLastAccess_nil. }
  destruct (evictCache_prefix requiredSpace (e0 :: sorted') c)
    as (k & Hk & Hitems & Hsize & Hev & Hroom & Hmin); [done|].
  exists (take k (e0 :: sorted')), (drop k (e0 :: sorted')).
  split; [by rewrite take_drop|].
  split.
  { intros e r He Hr.
    eapply (StronglySorted_app_1_elem_of accessedNoLater); [|exact He|exact Hr].
    by rewrite take_drop. }
  split.
  { intros key. rewrite Hitems. apply mget_withoutKeys. }
  assert (length (take k (e0 :: sorted')) = k) as Hlen
    by (rewrite length_take; lia).
  split; [by rewrite Hlen|].
  split; [done|].
  split.
  { destruct Hroom as [Hroom| ->]; [by left|right].
    by rewrite drop_all. }
  split.
  { intros j Hj. rewrite Hlen in Hj. rewrite take_take.
    replace (j `min` k)%nat with j by lia. apply Hmin. lia. }
  intros _ Hnil. rewrite Hnil in Hlen. simpl in Hlen. lia.
Qed.

(** [evictFromDirCache]: the listing that goes is one with the least
    [lastAccessed], and it does go when some listing was accessed before
    [now]. *)
Lemma evictDirCache_least now c :
  (∃ k i, (k, i) ∈ dc_items c ∧ lastAccessed i < now) →
  EmptyString ∉ mkeys (dc_items c) →
  ∃ victim item,
    (victim, item) ∈ dc_items c
    ∧ lastAccessed item < now
    ∧ (∀ k i, (k, i) ∈ dc_items c → lastAccessed item ≤ lastAccessed i)
    ∧ dc_items (evictDirCache now c) = mdel victim (dc_items c)
    ∧ dc_evictions (evictDirCache now c) = dc_evictions c + 1
    ∧ dc_enabled (evictDirCache now c) = dc_enabled c
    ∧ dc_maxSize (evictDirCache now c) = dc_maxSize c.
Proof.
  intros (k & i & Hin & Hlt) Hnamed.
  destruct (scanOldest_finds lastAccessed now (dc_items c) k i Hin Hlt) as (t & victim & Hscan).
  destruct (scanOldest_least lastAccessed now None (dc_items c) victim t Hscan eq_refl)
    as (item & Hvin & Hstamp & Hbelow & Hleast).
  exists victim, item. unfold evictDirCache. rewrite Hscan. simpl.
  rewrite bool_decide_eq_false_2.
  - simpl. subst t. repeat split; try done.
  - intros ->. apply Hnamed. apply (list_elem_of_fmap_2 fst) in Hvin. done.
Qed.

(** [addToDirCache]: no eviction below [maxSize]; at [maxSize], one eviction,
    of a listing with the least [lastAccessed]. *)
Lemma addToDirCache_eviction dirPath entries now random st :
  let c := DIR_CACHE st in
  let c' := DIR_CACHE (addToDirCache cfg dirPath entries now random st) in
  let new := {| listing := entries; d_timestamp := now; lastAccessed := now |} in
  dc_enabled c = true →
  (msize (dc_items c) < dc_maxSize c →
   dc_items c' = mset dirPath new (dc_items c) ∧ dc_evictions c' = dc_evictions c)
  ∧ (dc_maxSize c ≤ msize (dc_items c) →
     (∃ k i, (k, i) ∈ dc_items c ∧ lastAccessed i < now) →
     EmptyString ∉ mkeys (dc_items c) →
     ∃ victim item,
       (victim, item) ∈ dc_items c
       ∧ (∀ k i, (k, i) ∈ dc_items c → lastAccessed item ≤ lastAccessed i)
       ∧ dc_items c' = mset dirPath new (mdel victim (dc_items c))
       ∧ dc_evictions c' = dc_evictions c + 1).
Proof.
  intros c c' new Hen. subst c'. rewrite DIR_CACHE_addToDirCache. fold c.
  unfold addDirCache. rewrite Hen. simpl.
  split.
  - intros Hbelow.
    destruct (msize (dc_items c) >=? dc_maxSize c) eqn:E; [|done].
    rewrite Z.geb_leb in E. apply Z.leb_le in E. lia.
  - intros Hfull Hold Hnamed.
    destruct (msize (dc_items c) >=? dc_maxSize c) eqn:E.
    2:{ rewrite Z.geb_leb in E. apply Z.leb_gt in E. lia. }
    destruct (evictDirCache_least now c Hold Hnamed)
      as (victim & item & Hin & _ & Hleast & Hitems & Hev & _).
    exists victim, item. simpl. rewrite Hitems, Hev. done.
Qed.


End Eviction.

Section EvictionExamples.
Local Existing Instance posix.


End EvictionExamples.

(** ** Registration in a full pool *)

Section FullPool.
Context `{PathLib}.

(** Removing a record that is there and whose watcher closes. *)
Lemma removeWatcher_present watcherId info p :
  mget watcherId (watchers p) = Some info →
  closes info →
  let p' := snd (removeWatcher watcherId p) in
  fst (removeWatcher watcherId p) = true
  ∧ watchers p' = mdel watcherId (watchers p)
  ∧ closed p' = closed p + 1
  ∧ rejected p' = rejected p
  ∧ created p' = created p
  ∧ maxWatchers p' = maxWatchers p
  ∧ maxPerPath p' = maxPerPath p
  ∧ maxPerProcess p' = maxPerProcess p.
Proof.
  intros Hget Hcloses. unfold removeWatcher. rewrite Hget.
  unfold closes in Hcloses. rewrite Hcloses. simpl. done.
Qed.

(** [removeOldestWatcher] removes the earliest-created record when some
    record is older than [now]. *)
Lemma removeOldestWatcher_evicts now p :
  NoDup (mkeys (watchers p)) →
  (∃ k i, (k, i) ∈ watchers p ∧ w_createdAt i < now) →
  (∀ k i, (k, i) ∈ watchers p → closes i) →
  ∃ victim info,
    mget victim (watchers p) = Some info
    ∧ earliestCreated victim info (watchers p)
    ∧ w_createdAt info < now
    ∧ removeOldestWatcher now p = removeWatcher victim p
    ∧ closes info.
Proof.
  intros Hnd (k & i & Hin & Hlt) Hclose.
  destruct (scanOldest_spec w_createdAt now None (watchers p))
    as [[Hall _]|(m1 & victim & info & m2 & Hsplit & Hscan & Hbelow & H1 & H2)].
  { rewrite Forall_forall in Hall. specialize (Hall _ Hin). simpl in Hall. lia. }
  assert ((victim, info) ∈ watchers p) as Hvin.
  { rewrite Hsplit. apply elem_of_app. right. by left. }
  exists victim, info.
  split; [by apply elem_mget|].
  split; [by exists m1, m2|].
  split; [done|].
  split; [|by eapply Hclose].
  unfold removeOldestWatcher. rewrite Hscan. simpl.
  rewrite bool_decide_eq_false_2; [done|].
  unfold msize. rewrite Hsplit, length_app. simpl. lia.
Qed.

(** C2 (amended).  When [addWatcher] is called with a path and a watcher
    while the pool holds exactly [maxWatchers] records, one of them created
    before the call, when the watcher of every record closes without
    throwing, and when the id made for the new record is not the id of a
    record of the pool, exactly one record is evicted, and it is the
    earliest-created one (the first registered among those created at the
    same time).  The new record is then admitted, and the pool holds
    [maxWatchers] records again, unless the path or the process is at its
    limit after the eviction: then the call returns [null] and the pool is
    left with [maxWatchers - 1] records.  ([watchers] is a [Map]: no id
    occurs twice in it.) *)
Theorem C2_full_pool_evicts_earliest_created
    targetPath instance type processId now random p :
  targetPath ≠ EmptyString →
  NoDup (mkeys (watchers p)) →
  msize (watchers p) = maxWatchers p →
  (∃ k i, (k, i) ∈ watchers p ∧ w_createdAt i < now) →
  (∀ k i, (k, i) ∈ watchers p → closes i) →
  generateWatcherId now random ∉ mkeys (watchers p) →
  let result := addWatcher targetPath (Some instance) type processId now random p in
  ∃ victim info,
    mget victim (watchers p) = Some info
    ∧ earliestCreated victim info (watchers p)
    ∧ closed (snd result) = closed p + 1
    ∧ let evicted := snd (removeWatcher victim (countRejected p)) in
      if (pathWatcherCount evicted (normalize targetPath) >=? maxPerPath p)
         || (processWatcherCount evicted processId >=? maxPerProcess p)
      then
        fst result = None
        ∧ watchers (snd result) = mdel victim (watchers p)
        ∧ msize (watchers (snd result)) = maxWatchers p - 1
      else
        (∃ new,
           fst result = Some new
           ∧ w_id new = generateWatcherId now random
           ∧ w_path new = normalize targetPath
           ∧ w_createdAt new = now
           ∧ watchers (snd result) = mdel victim (watchers p) ++ [(w_id new, new)])
        ∧ msize (watchers (snd result)) = maxWatchers p.
Proof.
  intros Hpath Hnd Hsize Hold Hclose Hfresh result.
  destruct (removeOldestWatcher_evicts now (countRejected p) Hnd Hold Hclose)
    as (victim & info & Hget & Hearliest & _ & Hevict & Hcloses).
  simpl in Hget, Hearliest.
  destruct (removeWatcher_present victim info (countRejected p) Hget Hcloses)
    as (_ & Hw & Hclosed & _ & _ & HmaxW & HmaxPath & HmaxProc).
  simpl in Hw, Hclosed, HmaxW, HmaxPath, HmaxProc.
  exists victim, info.
  split; [done|]. split; [done|].
  assert (S (length (mdel victim (watchers p))) = length (watchers p)) as Hlen
    by (by eapply length_mdel_present).
  assert (mget (generateWatcherId now random) (mdel victim (watchers p)) = None) as Hnew.
  { apply mget_None_notin in Hfresh.
    destruct (decide (victim = generateWatcherId now random)) as [->|Hne].
    - apply mget_mdel_eq.
    - by rewrite mget_mdel_ne. }
  subst result. unfold addWatcher.
  rewrite (bool_decide_eq_false_2 _ Hpath).
  assert ((msize (watchers p) >=? maxWatchers p) = true) as ->.
  { rewrite Hsize, Z.geb_leb. apply Z.leb_refl. }
  rewrite Hevict.
  set (evicted := snd (removeWatcher victim (countRejected p))) in *.
  rewrite HmaxPath, HmaxProc.
  destruct (pathWatcherCount evicted (normalize targetPath) >=? maxPerPath p); simpl.
  { rewrite Hclosed, Hw. repeat split; try done. unfold msize in *. lia. }
  destruct (processWatcherCount evicted processId >=? maxPerProcess p); simpl.
  { rewrite Hclosed, Hw. repeat split; try done. unfold msize in *. lia. }
  rewrite Hclosed, Hw.
  split; [done|].
  rewrite (mset_fresh _ _ _ Hnew).
  split.
  - eexists. repeat split; done.
  - unfold msize in *. rewrite length_app. simpl. lia.
Qed.

End FullPool.

Section FullPoolExamples.
Local Existing Instance posix.

(** C2 as stated fails: [fullPool] holds [maxWatchers] records, and a
    third registration, for [/b] again, evicts the record of [/a] and is then
    refused, because [/b] is at [maxPerPath]: nothing is admitted, and the
    pool is left with one record. *)
Lemma C2_eviction_without_admission :
  let result := addWatcher "/b" (Some chokidarWatcher) file "4242" 10 33 fullPool in
  msize (watchers fullPool) = maxWatchers fullPool
  ∧ mkeys (watchers fullPool) = [(1, 11); (2, 22)]
  ∧ fst result = None
  ∧ mkeys (watchers (snd result)) = [(2, 22)]
  ∧ ¬ (admitted (fst result) = true
       ∧ msize (watchers (snd result)) = maxWatchers fullPool).
Proof.
  intros result.
  assert (fst result = None) as Hnone by (vm_compute; reflexivity).
  split; [vm_compute; reflexivity|].
  split; [vm_compute; reflexivity|].
  split; [exact Hnone|].
  split; [vm_compute; reflexivity|].
  intros [Hadmitted _]. rewrite Hnone in Hadmitted. discriminate.
Qed.

(** C2 (amended) at concrete inputs: a registration for [/c] in [fullPool]
    evicts the record of [/a] and is admitted. *)
Lemma C2_witness :
  let result := addWatcher "/c" (Some chokidarWatcher) file "4242" 10 33 fullPool in
  "/c" ≠ EmptyString
  ∧ NoDup (mkeys (watchers fullPool))
  ∧ msize (watchers fullPool) = maxWatchers fullPool
  ∧ (∃ k i, (k, i) ∈ watchers fullPool ∧ (w_createdAt i < 10))
  ∧ (∀ k i, (k, i) ∈ watchers fullPool → closes i)
  ∧ (generateWatcherId 10 33 ∉ mkeys (watchers fullPool))
  ∧ ∃ victim info,
      mget victim (watchers fullPool) = Some info
      ∧ earliestCreated victim info (watchers fullPool)
      ∧ closed (snd result) = closed fullPool + 1
      ∧ admitted (fst result) = true
      ∧ mkeys (watchers (snd result)) = [(2, 22); (10, 33)].
Proof.
  intros result.
  assert ("/c" ≠ EmptyString) as H1 by discriminate.
  assert (NoDup (mkeys (watchers fullPool))) as H2.
  { apply (bool_decide_unpack _). vm_compute. exact I. }
  assert (msize (watchers fullPool) = maxWatchers fullPool) as H3
    by (vm_compute; reflexivity).
  assert (∃ k i, (k, i) ∈ watchers fullPool ∧ (w_createdAt i < 10)) as H4.
  { eexists (1, 11), _. split; [vm_compute; left|]. simpl. lia. }
  assert (∀ k i, (k, i) ∈ watchers fullPool → closes i) as H5.
  { intros k i Hin. vm_compute in Hin.
    repeat (apply elem_of_cons in Hin as [[= -> ->]|Hin]; [reflexivity|]).
    by apply elem_of_nil in Hin. }
  assert (generateWatcherId 10 33 ∉ mkeys (watchers fullPool)) as H6.
  { apply (bool_decide_unpack _). vm_compute. exact I. }
  destruct (C2_full_pool_evicts_earliest_created "/c" chokidarWatcher file "4242" 10 33
              fullPool H1 H2 H3 H4 H5 H6)
    as (victim & info & Hget & Hearliest & Hclosed & _).
  repeat (split; [assumption|]).
  exists victim, info.
  split; [exact Hget|]. split; [exact Hearliest|]. split; [exact Hclosed|].
  split; vm_compute; reflexivity.
Defined.

End FullPoolExamples.

(** ** Writes and the caches *)

Section Writes.
Context `{PathLib} (cfg : Config).

(** [mkdirSync] with [recursive] only adds directories: every path is left
    as it was, or was missing and is a directory afterwards. *)
Lemma mkdirp_lookup fuel dir f f' p :
  mkdirp fuel dir f = Some f' →
  f' !! p = f !! p ∨ (f !! p = None ∧ f' !! p = Some FsDir).
Proof.
  revert dir f'. induction fuel as [|n IH]; intros dir f'; simpl.
  - destruct (f !! dir) as [[?|]|] eqn:E; intros [= <-]; [by left|].
    destruct (decide (p = dir)) as [->|Hne].
    + right. by rewrite lookup_insert_eq.
    + left. by rewrite lookup_insert_ne.
  - destruct (f !! dir) as [[?|]|] eqn:E; [done|intros [= <-]; by left|].
    destruct (mkdirp n (dirname dir) f) as [f''|] eqn:Em; [|done].
    intros [= <-].
    destruct (decide (p = dir)) as [->|Hne].
    + right. by rewrite lookup_insert_eq.
    + rewrite lookup_insert_ne by done. by eapply IH.
Qed.

Lemma ensureDir_lookup dir f f' p :
  ensureDir dir f = Some f' →
  f' !! p = f !! p ∨ (f !! p = None ∧ f' !! p = Some FsDir).
Proof.
  unfold ensureDir. destruct (f !! dir).
  - intros [= <-]. by left.
  - apply mkdirp_lookup.
Qed.

(** The directory is there after [mkdirSync]. *)
Lemma mkdirp_creates fuel dir f f' :
  mkdirp fuel dir f = Some f' → f' !! dir = Some FsDir.
Proof.
  destruct fuel as [|n]; simpl.
  - destruct (f !! dir) as [[?|]|] eqn:E; intros [= <-]; [done|].
    by rewrite lookup_insert_eq.
  - destruct (f !! dir) as [[?|]|] eqn:E; [done|by intros [= <-]|].
    destruct (mkdirp n (dirname dir) f) as [f''|]; [|done].
    intros [= <-]. by rewrite lookup_insert_eq.
Qed.

(** What is there before [ensureDir] is there afterwards. *)
Lemma ensureDir_keeps dir f f' p node :
  ensureDir dir f = Some f' → f !! p = Some node → f' !! p = Some node.
Proof.
  intros He Hp. destruct (ensureDir_lookup dir f f' p He) as [->|[E _]]; congruence.
Qed.

(** A file that is there after [ensureDir] was there before. *)
Lemma ensureDir_files dir f f' p body :
  ensureDir dir f = Some f' → f' !! p = Some (FsFile body) → f !! p = Some (FsFile body).
Proof.
  intros He Hp. destruct (ensureDir_lookup dir f f' p He) as [<-|[_ E]]; congruence.
Qed.

(** [dropCached] leaves no entry for the path in an enabled cache. *)
Lemma dropCached_removes filePath st :
  fc_enabled (FILE_CACHE st) = true →
  mget filePath (fc_items (FILE_CACHE (dropCached filePath st))) = None.
Proof.
  intros Hen. unfold dropCached. rewrite Hen. simpl.
  destruct (mhas filePath _) eqn:Eh; simpl.
  - apply mget_mdel_eq.
  - by apply mhas_false.
Qed.

Lemma dropCached_frame filePath st :
  DIR_CACHE (dropCached filePath st) = DIR_CACHE st
  ∧ fs (dropCached filePath st) = fs st.
Proof. unfold dropCached. destruct (_ && _); done. Qed.

Lemma addToCache_frame filePath body now random st :
  DIR_CACHE (addToCache cfg filePath body now random st) = DIR_CACHE st
  ∧ fs (addToCache cfg filePath body now random st) = fs st.
Proof.
  unfold addToCache.
  destruct (negb _ || _); [done|].
  destruct (_ >? _); [done|].
  set (st1 := match mget filePath _ with Some _ => _ | None => st end).
  assert (DIR_CACHE st1 = DIR_CACHE st ∧ fs st1 = fs st) as [E1 E1'].
  { subst st1. destruct (mget filePath _); done. }
  assert (∀ r s, DIR_CACHE (ensureCacheSpace r s) = DIR_CACHE s
                 ∧ fs (ensureCacheSpace r s) = fs s) as Hens.
  { intros r s. unfold ensureCacheSpace. destruct (_ <=? _); [done|].
    generalize (sortByLastAccess (fc_items (FILE_CACHE s))). intros l.
    revert s. induction l as [|[k i] l IH]; intros s; simpl; [done|].
    set (s1 := if fc_monitoring (FILE_CACHE s) then stopMonitoringFile k s else s).
    assert (DIR_CACHE s1 = DIR_CACHE s ∧ fs s1 = fs s) as [E E'].
    { subst s1. destruct (fc_monitoring _); [|done].
      destruct (stopMonitoringFile_frame k s) as (_ & ? & _ & ?). done. }
    destruct (_ <=? _); simpl; [done|].
    destruct (IH (withFileCache s1
                    (fcSet (FILE_CACHE s1) (mdel k (fc_items (FILE_CACHE s1)))
                       (fc_size (FILE_CACHE s1) - strlen (content i))
                       (fc_hits (FILE_CACHE s1)) (fc_misses (FILE_CACHE s1))
                       (fc_evictions (FILE_CACHE s1) + 1)))) as [-> ->].
    done. }
  destruct (Hens (strlen body) st1) as [E2 E2'].
  match goal with
  | |- context [if ?b then monitorFileForCache cfg ?p ?n ?r ?s else ?s] =>
      assert (DIR_CACHE (if b then monitorFileForCache cfg p n r s else s) = DIR_CACHE s
              ∧ fs (if b then monitorFileForCache cfg p n r s else s) = fs s) as [-> ->]
  end.
  { destruct (fc_monitoring _); [|done].
    match goal with
    | |- context [monitorFileForCache cfg ?p ?n ?r ?s] =>
        destruct (monitorFileForCache_frame cfg p n r s) as (_ & ? & _ & ?)
    end. done. }
  simpl. rewrite E2, E2'. done.
Qed.

(** The entry that [addToCache] leaves for the path. *)
Lemma addCache_stores filePath body now c :
  fc_enabled c = true → body ≠ EmptyString → strlen body ≤ LARGE_FILE_THRESHOLD_read →
  mget filePath (fc_items (addCache filePath body now c))
  = Some {| content := body; timestamp := now; lastAccess := now |}.
Proof.
  intros Hen Hne Hsmall. unfold addCache. rewrite Hen. simpl.
  rewrite (bool_decide_eq_false_2 _ Hne).
  rewrite (gtb_false _ _ Hsmall). simpl. apply mget_mset_eq.
Qed.

Lemma appendFile_invalidates filePath body st :
  fc_enabled (FILE_CACHE st) = true →
  fst (appendFile cfg filePath body st) = Appended false →
  mget filePath (fc_items (FILE_CACHE (snd (appendFile cfg filePath body st)))) = None.
Proof.
  intros Hen. unfold appendFile.
  destruct (negb _); [done|].
  destruct (ensureDir _ _) as [f0|]; [|done].
  destruct (_ >? _).
  - destruct (writeNode _ _ _ _); done.
  - destruct (writeNode _ _ _ _); [|done]. simpl. intros _.
    by apply dropCached_removes.
Qed.

Lemma deleteFile_invalidates filePath st :
  fc_enabled (FILE_CACHE st) = true →
  fst (deleteFile cfg filePath st) = Deleted true →
  mget filePath (fc_items (FILE_CACHE (snd (deleteFile cfg filePath st)))) = None.
Proof.
  intros Hen. unfold deleteFile.
  destruct (negb _); [done|].
  destruct (fs st !! filePath) as [[body|]|]; try done.
  simpl. intros _. by apply dropCached_removes.
Qed.

Lemma copyFile_frame source destination overwrite st :
  FILE_CACHE (snd (copyFile cfg source destination overwrite st)) = FILE_CACHE st
  ∧ DIR_CACHE (snd (copyFile cfg source destination overwrite st)) = DIR_CACHE st.
Proof.
  unfold copyFile.
  destruct (negb _); [done|].
  destruct (fs st !! source) as [node|]; [|done].
  destruct (ensureDir _ _) as [f0|]; [|done].
  destruct node as [body|]; [|done]. simpl.
  destruct (f0 !! destination) as [[old|]|]; simpl; try done.
  - destruct overwrite; done.
  - destruct (f0 !! dirname destination) as [[?|]|]; done.
Qed.

Lemma copyFile_outcome source destination overwrite st :
  fst (copyFile cfg source destination overwrite st) = Throws
  ∨ fst (copyFile cfg source destination overwrite st) = Failed
  ∨ ∃ streamed, fst (copyFile cfg source destination overwrite st) = Copied streamed.
Proof.
  unfold copyFile.
  destruct (negb _); [by left|].
  destruct (fs st !! source) as [node|]; [|by right; left].
  destruct (ensureDir _ _) as [f0|]; [|by right; left].
  destruct node as [body|]; [|by right; left]. simpl.
  destruct (f0 !! destination) as [[old|]|]; simpl; try (by right; left).
  - destruct overwrite; simpl; [right; right; eauto | by right; left].
  - destruct (f0 !! dirname destination) as [[?|]|]; simpl;
      try (by right; left); right; right; eauto.
Qed.

Lemma moveFile_invalidates source destination st :
  fc_enabled (FILE_CACHE st) = true →
  succeeded (fst (moveFile cfg source destination st)) = true →
  mget source (fc_items (FILE_CACHE (snd (moveFile cfg source destination st)))) = None.
Proof.
  intros Hen. unfold moveFile.
  destruct (negb _); [done|].
  destruct (fs st !! destination); [done|].
  set (st1 := match ensureDir (dirname destination) (fs st) with
              | Some f => withFs st f
              | None => st
              end).
  assert (FILE_CACHE st1 = FILE_CACHE st) as E1
    by (subst st1; by destruct (ensureDir _ _)).
  destruct (match ensureDir (dirname destination) (fs st) with
            | Some f => renameSync cfg source destination f
            | None => None
            end) as [f|].
  - simpl. rewrite E1, Hen. intros _.
    destruct (mget source (fc_items (FILE_CACHE st))) eqn:Eg; simpl.
    + apply mget_mdel_eq.
    + by rewrite E1.
  - pose proof (copyFile_frame source destination true st1) as [Ec _].
    pose proof (copyFile_outcome source destination true st1) as Ho.
    destruct (copyFile cfg source destination true st1) as [copyResult st2].
    simpl in Ec, Ho.
    destruct Ho as [-> | [-> | [streamed ->]]]; try done.
    destruct (fs st2 !! source) as [[body|]|]; try done.
    simpl. intros _. apply dropCached_removes. simpl in *. congruence.
Qed.

Lemma writeFile_refreshes filePath body now random st :
  fc_enabled (FILE_CACHE st) = true →
  body ≠ EmptyString →
  strlen body ≤ LARGE_FILE_THRESHOLD_read →
  fst (writeFile cfg filePath body now random st) = Written false →
  mget filePath (fc_items (FILE_CACHE (snd (writeFile cfg filePath body now random st))))
  = if mhas filePath (fc_items (FILE_CACHE st))
    then Some {| content := body; timestamp := now; lastAccess := now |}
    else None.
Proof.
  intros Hen Hne Hsmall. unfold writeFile.
  destruct (negb _); [done|].
  destruct (ensureDir _ _) as [f0|]; [|done].
  destruct (_ >? _).
  - destruct (writeNode _ _ _ _); done.
  - destruct (writeNode _ _ _ _); [|done]. simpl. intros _.
    rewrite Hen. simpl.
    destruct (mhas filePath (fc_items (FILE_CACHE st))) eqn:Eh.
    + rewrite FILE_CACHE_addToCache. simpl. by apply addCache_stores.
    + simpl. by apply mhas_false.
Qed.

(** None of the five file tools writes to the directory-listing cache. *)
Lemma file_tools_leave_DIR_CACHE filePath destination body overwrite now random st :
  DIR_CACHE (snd (writeFile cfg filePath body now random st)) = DIR_CACHE st
  ∧ DIR_CACHE (snd (appendFile cfg filePath body st)) = DIR_CACHE st
  ∧ DIR_CACHE (snd (deleteFile cfg filePath st)) = DIR_CACHE st
  ∧ DIR_CACHE (snd (copyFile cfg filePath destination overwrite st)) = DIR_CACHE st
  ∧ DIR_CACHE (snd (moveFile cfg filePath destination st)) = DIR_CACHE st.
Proof.
  split.
  { unfold writeFile. destruct (negb _); [done|].
    destruct (ensureDir _ _) as [f0|]; [|done].
    destruct (_ >? _); destruct (writeNode _ _ _ _); simpl; try done.
    destruct (_ && _); [|done].
    match goal with
    | |- context [addToCache cfg ?p ?b ?n ?r ?s] =>
        destruct (addToCache_frame p b n r s) as [-> _]
    end. done. }
  split.
  { unfold appendFile. destruct (negb _); [done|].
    destruct (ensureDir _ _) as [f0|]; [|done].
    destruct (_ >? _); destruct (writeNode _ _ _ _); simpl; try done.
    match goal with
    | |- context [dropCached ?p ?s] => destruct (dropCached_frame p s) as [-> _]
    end. done. }
  split.
  { unfold deleteFile. destruct (negb _); [done|].
    destruct (fs st !! filePath) as [[?|]|]; simpl; try done.
    match goal with
    | |- context [dropCached ?p ?s] => destruct (dropCached_frame p s) as [-> _]
    end. done. }
  split; [apply copyFile_frame|].
  unfold moveFile. destruct (negb _); [done|].
  destruct (fs st !! destination); [done|].
  set (st1 := match ensureDir (dirname destination) (fs st) with
              | Some f => withFs st f
              | None => st
              end).
  assert (DIR_CACHE st1 = DIR_CACHE st) as E1
    by (subst st1; by destruct (ensureDir _ _)).
  destruct (match ensureDir (dirname destination) (fs st) with
            | Some f => renameSync cfg filePath destination f
            | None => None
            end) as [f|].
  - simpl. destruct (fc_enabled _); [|done].
    destruct (mget filePath _); done.
  - pose proof (copyFile_frame filePath destination true st1) as [_ Ec].
    destruct (copyFile cfg filePath destination true st1) as [copyResult st2].
    simpl in Ec. rewrite E1 in Ec.
    destruct copyResult; try done.
    destruct (fs st2 !! filePath) as [[?|]|]; try done. simpl.
    match goal with
    | |- context [dropCached ?p ?s] => destruct (dropCached_frame p s) as [-> _]
    end. simpl. done.
Qed.

Lemma createDirectory_invalidates dirPath recursive st :
  dc_enabled (DIR_CACHE st) = true →
  fst (createDirectory cfg dirPath recursive st) = DirCreated false →
  mget (dirname (sanitizePath dirPath))
    (dc_items (DIR_CACHE (snd (createDirectory cfg dirPath recursive st)))) = None.
Proof.
  intros Hen. unfold createDirectory.
  destruct (negb _); [done|].
  destruct (directoryExists _ _); [done|].
  destruct (fs st !! sanitizePath dirPath); [done|].
  destruct (if recursive then _ else _) as [f|]; [|done].
  simpl. intros _. by apply invalidateDirCache_removes.
Qed.

Lemma deleteDirectory_invalidates dirPath recursive st :
  dc_enabled (DIR_CACHE st) = true →
  fst (deleteDirectory cfg dirPath recursive st) = DirRemoved →
  let st' := snd (deleteDirectory cfg dirPath recursive st) in
  mget (sanitizePath dirPath) (dc_items (DIR_CACHE st')) = None
  ∧ mget (dirname (sanitizePath dirPath)) (dc_items (DIR_CACHE st')) = None.
Proof.
  intros Hen. unfold deleteDirectory.
  destruct (negb _); [done|].
  destruct (negb (directoryExists _ _)); [done|].
  destruct (negb recursive && _); [done|]. simpl. intros _.
  set (dp := sanitizePath dirPath).
  set (st1 := withFs st _).
  assert (dc_enabled (DIR_CACHE st1) = true) as Hen1 by done.
  pose proof (invalidateDirCache_removes dp st1 Hen1) as Hgone.
  destruct (invalidateDirCache_shrinks dp st1 dp) as [Hen2 _].
  rewrite Hen1 in Hen2.
  set (st2 := invalidateDirCache dp st1) in *.
  destruct (stopMonitoringDirectory_frame dp (invalidateDirCache (dirname dp) st2))
    as (_ & _ & -> & _).
  split.
  - by apply invalidateDirCache_shrinks.
  - by apply invalidateDirCache_removes.
Qed.

(** What the writes do to the caches.  Before it returns its success, a
    write that is not streamed does this to the file-content cache, when the
    cache is enabled:
    [appendFile], [deleteFile] (of a file that was there) and [moveFile]
    remove the entry of the path they change (the source, for a move), and
    [writeFile] of a content that is not empty replaces the entry of a cached
    path by the written content, and creates none for a path that is not
    cached.  None of the five file tools touches the directory-listing cache.
    Of the directory tools, [createDirectory] removes the listing of the
    parent of the directory it creates, and [deleteDirectory] the listings of
    the directory and of its parent, before returning their success. *)
Theorem writes_and_the_caches
    filePath destination body overwrite recursive now random st :
  (fc_enabled (FILE_CACHE st) = true →
   (fst (appendFile cfg filePath body st) = Appended false →
    mget filePath (fc_items (FILE_CACHE (snd (appendFile cfg filePath body st)))) = None)
   ∧ (fst (deleteFile cfg filePath st) = Deleted true →
      mget filePath (fc_items (FILE_CACHE (snd (deleteFile cfg filePath st)))) = None)
   ∧ (succeeded (fst (moveFile cfg filePath destination st)) = true →
      mget filePath
        (fc_items (FILE_CACHE (snd (moveFile cfg filePath destination st)))) = None)
   ∧ (body ≠ EmptyString →
      strlen body ≤ LARGE_FILE_THRESHOLD_read →
      fst (writeFile cfg filePath body now random st) = Written false →
      mget filePath
        (fc_items (FILE_CACHE (snd (writeFile cfg filePath body now random st))))
      = if mhas filePath (fc_items (FILE_CACHE st))
        then Some {| content := body; timestamp := now; lastAccess := now |}
        else None))
  ∧ (DIR_CACHE (snd (writeFile cfg filePath body now random st)) = DIR_CACHE st
     ∧ DIR_CACHE (snd (appendFile cfg filePath body st)) = DIR_CACHE st
     ∧ DIR_CACHE (snd (deleteFile cfg filePath st)) = DIR_CACHE st
     ∧ DIR_CACHE (snd (copyFile cfg filePath destination overwrite st)) = DIR_CACHE st
     ∧ DIR_CACHE (snd (moveFile cfg filePath destination st)) = DIR_CACHE st)
  ∧ (dc_enabled (DIR_CACHE st) = true →
     (fst (createDirectory cfg filePath recursive st) = DirCreated false →
      mget (dirname (sanitizePath filePath))
        (dc_items (DIR_CACHE (snd (createDirectory cfg filePath recursive st)))) = None)
     ∧ (fst (deleteDirectory cfg filePath recursive st) = DirRemoved →
        mget (sanitizePath filePath)
          (dc_items (DIR_CACHE (snd (deleteDirectory cfg filePath recursive st)))) = None
        ∧ mget (dirname (sanitizePath filePath))
            (dc_items (DIR_CACHE (snd (deleteDirectory cfg filePath recursive st))))
          = None)).
Proof.
  split.
  { intros Hen. split; [by apply appendFile_invalidates|].
    split; [by apply deleteFile_invalidates|].
    split; [by apply moveFile_invalidates|].
    intros Hne Hsmall. by apply writeFile_refreshes. }
  split; [apply file_tools_leave_DIR_CACHE|].
  intros Hen. split; [by apply createDirectory_invalidates|].
  intros Hok. by apply deleteDirectory_invalidates.
Qed.

End Writes.

Section WritesExamples.
Local Existing Instance posix.

(** [ensureDir] in the example file system: the missing directories are
    created one after the other, nothing is created where the path exists,
    and the call throws below a file, which [writeFile] throws again and
    [copyFile] returns as a failure.  A letter with an accent takes two
    bytes. *)
Lemma ensureDir_examples :
  let cfg := exampleConfig false in
  let made := ensureDir "/e/x/y" exampleFs in
  (made ≫= (λ f, f !! "/e/x/y")) = Some FsDir
  ∧ (made ≫= (λ f, f !! "/e/x")) = Some FsDir
  ∧ (made ≫= (λ f, f !! "/e")) = Some FsDir
  ∧ (made ≫= (λ f, f !! "/d/a.txt")) = Some (FsFile "hello")
  ∧ ensureDir "/d" exampleFs = Some exampleFs
  ∧ ensureDir "/d/a.txt" exampleFs = Some exampleFs
  ∧ ensureDir "/d/a.txt/z" exampleFs = None
  ∧ writeFile cfg "/d/a.txt/z/f.txt" "new" 2000 9 (cachingState false)
    = (Throws, cachingState false)
  ∧ fst (writeFile cfg "/d/a.txt/f.txt" "new" 2000 9 (cachingState false)) = Throws
  ∧ copyFile cfg "/d/a.txt" "/d/b.txt/z/c.txt" true (cachingState false)
    = (Failed, cachingState false)
  ∧ fst (moveFile cfg "/d/a.txt" "/d/b.txt/c.txt" (cachingState false)) = Failed
  ∧ fst (createDirectory cfg "/d/b.txt/z/w" true (cachingState false)) = Failed
  ∧ statSize "hello" = 5
  ∧ statSize (String (ascii_of_nat 233) "t" +:+ String (ascii_of_nat 233) EmptyString) = 5.
Proof.
  intros cfg made.
  repeat (split; [vm_compute; reflexivity|]).
  vm_compute; reflexivity.
Qed.

(** C3 (the code departs from the claim).  In [bothCached] the file
    [/d/a.txt] is cached with the content hello, and the listing of its
    directory [/d] with the names [a.txt] and [b.txt].  [deleteFile] removes
    [/d/a.txt] and returns its success, and [writeFile] creates [/d/c.txt]
    and returns its success: in both cases the listing of [/d] is still in
    the cache, and [getFromDirCache] goes on serving the two names.
    [copyFile] onto [/d/a.txt] returns its success and leaves the entry of
    [/d/a.txt], so that [readFile] serves the content that the file had
    before the copy.  None of the file tools calls [invalidateDirCache], as
    [createDirectory], [deleteDirectory] and the callback of the file
    monitors do, and [copyFile] touches no cache. *)
Theorem C3_file_tools_leave_stale_entries :
  let cfg := exampleConfig true in
  let deleted := deleteFile cfg "/d/a.txt" bothCached in
  let written := writeFile cfg "/d/c.txt" "new" 2000 9 bothCached in
  let copied := copyFile cfg "/d/b.txt" "/d/a.txt" true bothCached in
  fst (getFromDirCache "/d" 2000 bothCached) = Some ["a.txt"; "b.txt"]
  ∧ fst deleted = Deleted true
  ∧ fs (snd deleted) !! "/d/a.txt" = None
  ∧ fst (getFromDirCache "/d" 2000 (snd deleted)) = Some ["a.txt"; "b.txt"]
  ∧ fst written = Written false
  ∧ fs (snd written) !! "/d/c.txt" = Some (FsFile "new")
  ∧ fst (getFromDirCache "/d" 2000 (snd written)) = Some ["a.txt"; "b.txt"]
  ∧ fst copied = Copied false
  ∧ fs (snd copied) !! "/d/a.txt" = Some (FsFile "x")
  ∧ fst (readFile cfg "/d/a.txt" 2000 9 (snd copied)) = ReadOk "hello" false.
Proof.
  intros cfg deleted written copied.
  repeat (split; [vm_compute; reflexivity|]).
  vm_compute; reflexivity.
Qed.

(** The writes and the caches at a concrete state: [bothCached], with the
    cached file [/d/a.txt], the new directory [/d/new] and the directory
    [/d]. *)
Lemma writes_and_the_caches_witness :
  let cfg := exampleConfig true in
  let item := {| content := "new"; timestamp := 2000; lastAccess := 2000 |} in
  fc_enabled (FILE_CACHE bothCached) = true
  ∧ dc_enabled (DIR_CACHE bothCached) = true
  ∧ mhas "/d/a.txt" (fc_items (FILE_CACHE bothCached)) = true
  ∧ fst (appendFile cfg "/d/a.txt" "new" bothCached) = Appended false
  ∧ mget "/d/a.txt"
      (fc_items (FILE_CACHE (snd (appendFile cfg "/d/a.txt" "new" bothCached)))) = None
  ∧ fst (deleteFile cfg "/d/a.txt" bothCached) = Deleted true
  ∧ mget "/d/a.txt"
      (fc_items (FILE_CACHE (snd (deleteFile cfg "/d/a.txt" bothCached)))) = None
  ∧ succeeded (fst (moveFile cfg "/d/a.txt" "/d/c.txt" bothCached)) = true
  ∧ mget "/d/a.txt"
      (fc_items (FILE_CACHE (snd (moveFile cfg "/d/a.txt" "/d/c.txt" bothCached)))) = None
  ∧ "new" ≠ EmptyString
  ∧ strlen "new" ≤ LARGE_FILE_THRESHOLD_read
  ∧ fst (writeFile cfg "/d/a.txt" "new" 2000 9 bothCached) = Written false
  ∧ mget "/d/a.txt"
      (fc_items (FILE_CACHE (snd (writeFile cfg "/d/a.txt" "new" 2000 9 bothCached))))
    = Some item
  ∧ fst (createDirectory cfg "/d/new" true bothCached) = DirCreated false
  ∧ mget "/d"
      (dc_items (DIR_CACHE (snd (createDirectory cfg "/d/new" true bothCached)))) = None
  ∧ fst (deleteDirectory cfg "/d" true bothCached) = DirRemoved
  ∧ mget "/d"
      (dc_items (DIR_CACHE (snd (deleteDirectory cfg "/d" true bothCached)))) = None.
Proof.
  intros cfg item.
  assert (fc_enabled (FILE_CACHE bothCached) = true) as Hf by (vm_compute; reflexivity).
  assert (dc_enabled (DIR_CACHE bothCached) = true) as Hd by (vm_compute; reflexivity).
  assert (mhas "/d/a.txt" (fc_items (FILE_CACHE bothCached)) = true) as Hhas
    by (vm_compute; reflexivity).
  destruct (writes_and_the_caches cfg "/d/a.txt" "/d/c.txt" "new" true true 2000 9
              bothCached) as (Hfile & _ & _).
  destruct (Hfile Hf) as (Happend & Hdelete & Hmove & Hwrite).
  destruct (writes_and_the_caches cfg "/d/new" "/d/c.txt" "new" true true 2000 9
              bothCached) as (_ & _ & Hnew).
  destruct (Hnew Hd) as (Hcreate & _).
  destruct (writes_and_the_caches cfg "/d" "/d/c.txt" "new" true true 2000 9
              bothCached) as (_ & _ & Hdir).
  destruct (Hdir Hd) as (_ & Hremove).
  assert (fst (appendFile cfg "/d/a.txt" "new" bothCached) = Appended false) as H1
    by (vm_compute; reflexivity).
  assert (fst (deleteFile cfg "/d/a.txt" bothCached) = Deleted true) as H2
    by (vm_compute; reflexivity).
  assert (succeeded (fst (moveFile cfg "/d/a.txt" "/d/c.txt" bothCached)) = true) as H3
    by (vm_compute; reflexivity).
  assert ("new" ≠ EmptyString) as H4 by discriminate.
  assert (strlen "new" ≤ LARGE_FILE_THRESHOLD_read) as H5 by (vm_compute; discriminate).
  assert (fst (writeFile cfg "/d/a.txt" "new" 2000 9 bothCached) = Written false) as H6
    by (vm_compute; reflexivity).
  assert (fst (createDirectory cfg "/d/new" true bothCached) = DirCreated false) as H7
    by (vm_compute; reflexivity).
  assert (fst (deleteDirectory cfg "/d" true bothCached) = DirRemoved) as H8
    by (vm_compute; reflexivity).
  split; [exact Hf|]. split; [exact Hd|]. split; [exact Hhas|].
  split; [exact H1|]. split; [exact (Happend H1)|].
  split; [exact H2|]. split; [exact (Hdelete H2)|].
  split; [exact H3|]. split; [exact (Hmove H3)|].
  split; [exact H4|]. split; [exact H5|]. split; [exact H6|].
  split.
  { rewrite (Hwrite H4 H5 H6). rewrite Hhas. reflexivity. }
  split; [exact H7|].
  split.
  { pose proof (Hcreate H7) as Hc.
    replace (dirname (sanitizePath "/d/new")) with "/d" in Hc by (vm_compute; reflexivity).
    exact Hc. }
  split; [exact H8|].
  destruct (Hremove H8) as [Hr _].
  replace (sanitizePath "/d") with "/d" in Hr by (vm_compute; reflexivity).
  exact Hr.
Defined.

End WritesExamples.

(** ** The limits per path and per process *)

Section MapCounting.
Context {K V : Type} `{EqDecision K}.
Context (P : K * V → Prop) `{∀ x, Decision (P x)}.
Implicit Types (k : K) (v : V) (m : list (K * V)).

Lemma elem_of_mdel k k' v' m : (k', v') ∈ mdel k m → (k', v') ∈ m ∧ k' ≠ k.
Proof.
  induction m as [|[k0 v0] m IH]; simpl; [by intros ?%elem_of_nil|].
  destruct (decide (k = k0)) as [->|Hne].
  - intros [? ?]%IH. split; [by right | done].
  - intros [[= -> ->]|Hin]%elem_of_cons.
    + split; [by left | done].
    + destruct (IH Hin). split; [by right | done].
Qed.

Lemma elem_of_mdel_2 k k' v' m : (k', v') ∈ m → k' ≠ k → (k', v') ∈ mdel k m.
Proof.
  intros Hin Hne. induction m as [|[k0 v0] m IH]; simpl; [done|].
  apply elem_of_cons in Hin as [[= <- <-]|Hin].
  - rewrite decide_False by done. by left.
  - destruct (decide (k = k0)); [by apply IH|]. right. by apply IH.
Qed.

Lemma elem_of_mset k v k' v' m :
  (k', v') ∈ mset k v m → (k' = k ∧ v' = v) ∨ ((k', v') ∈ m ∧ k' ≠ k) ∨ (k', v') ∈ m.
Proof.
  induction m as [|[k0 v0] m IH]; simpl.
  - intros [[= -> ->]|?%elem_of_nil]%elem_of_cons; [by left | done].
  - destruct (decide (k = k0)) as [->|Hne].
    + intros [[= -> ->]|Hin]%elem_of_cons; [by left|].
      right. right. by right.
    + intros [[= -> ->]|Hin]%elem_of_cons.
      * right. right. by left.
      * destruct (IH Hin) as [?|[[? ?]|?]]; [by left | |].
        -- right. left. split; [by right | done].
        -- right. right. by right.
Qed.

Lemma mkeys_mset_present k v m : is_Some (mget k m) → mkeys (mset k v m) = mkeys m.
Proof.
  induction m as [|[k0 v0] m IH]; simpl; [by intros [? ?]|].
  destruct (decide (k = k0)) as [->|Hne]; [done|].
  intros Hs. simpl. by rewrite IH.
Qed.

Lemma NoDup_mkeys_mset k v m : NoDup (mkeys m) → NoDup (mkeys (mset k v m)).
Proof.
  intros Hnd. destruct (mget k m) as [v0|] eqn:Hg.
  - rewrite mkeys_mset_present; [done | by eexists].
  - rewrite mset_fresh by done. unfold mkeys. rewrite map_app. simpl.
    apply NoDup_app. split; [done|]. split.
    + intros x Hx [->|?%elem_of_nil]%elem_of_cons; [|done].
      by apply mget_None_notin in Hg.
    + apply NoDup_singleton.
Qed.

(** The entry that [mset] replaces, when it replaces one, is the only one
    with its key. *)
Lemma elem_of_mset_NoDup k v k' v' m :
  NoDup (mkeys m) → (k', v') ∈ mset k v m →
  (k' = k ∧ v' = v) ∨ ((k', v') ∈ m ∧ k' ≠ k).
Proof.
  intros Hnd Hin.
  pose proof (NoDup_mkeys_mset k v m Hnd) as Hnd'.
  destruct (decide (k' = k)) as [->|Hne].
  - left. split; [done|].
    apply (elem_mget _ _ _ Hnd') in Hin. rewrite mget_mset_eq in Hin. congruence.
  - right. split; [|done].
    destruct (elem_of_mset _ _ _ _ _ Hin) as [[? ?]|[[? ?]|?]]; done.
Qed.

Lemma length_filter_mdel k v m :
  NoDup (mkeys m) → mget k m = Some v →
  (length (filter P (mdel k m)) + (if decide (P (k, v)) then 1 else 0)
   = length (filter P m))%nat.
Proof.
  induction m as [|[k0 v0] m IH]; simpl; [done|].
  intros [Hnotin Hnd]%NoDup_cons.
  destruct (decide (k = k0)) as [->|Hne].
  - intros [= ->]. rewrite mdel_absent by (by apply mget_None_notin).
    rewrite filter_cons. destruct (decide (P (k0, v))); simpl; lia.
  - intros Hg. specialize (IH Hnd Hg).
    rewrite !filter_cons. destruct (decide (P (k0, v0))); simpl; lia.
Qed.

Lemma length_filter_mset k v m :
  (length (filter P (mset k v m))
   ≤ length (filter P m) + (if decide (P (k, v)) then 1 else 0))%nat.
Proof.
  induction m as [|[k0 v0] m IH]; simpl.
  - rewrite filter_cons, filter_nil. destruct (decide (P (k, v))); simpl; lia.
  - destruct (decide (k = k0)) as [->|Hne].
    + rewrite !filter_cons.
      destruct (decide (P (k0, v))), (decide (P (k0, v0))); simpl; lia.
    + rewrite !filter_cons. destruct (decide (P (k0, v0))); simpl; lia.
Qed.

End MapCounting.

Section PoolInvariant.
Context `{PathLib}.

(** The records of a path are no more than the ids indexed under it. *)
Lemma recordsOfPath_indexed p path :
  poolInvariant p →
  Z.of_nat (length (recordsOfPath p path)) ≤ pathWatcherCount p path.
Proof.
  intros Hinv. unfold recordsOfPath, pathWatcherCount.
  destruct (filter _ (watchers p)) as [|[k0 i0] rest] eqn:Ef.
  { simpl. destruct (pathToId p !! path); lia. }
  assert ((k0, i0) ∈ filter (λ e, w_path e.2 = path) (watchers p)) as Hin0
    by (rewrite Ef; by left).
  apply list_elem_of_filter in Hin0 as [Hp0 Hin0]. simpl in Hp0.
  destruct (inv_indexed p Hinv k0 i0 Hin0) as (ids & Hids & _).
  rewrite Hp0 in Hids. rewrite Hids. rewrite <- Ef.
  set (l := filter (λ e, w_path e.2 = path) (watchers p)).
  assert (NoDup (map fst l)) as Hnd.
  { subst l. eapply sublist_NoDup; [exact (inv_keys p Hinv)|].
    apply (fmap_sublist fst). apply sublist_filter. }
  assert (list_to_set (map fst l) ⊆ ids) as Hsub.
  { intros k Hk. apply elem_of_list_to_set in Hk.
    apply list_elem_of_fmap in Hk as ([k' i'] & -> & Hin).
    subst l. apply list_elem_of_filter in Hin as [Hp Hin]. simpl in *.
    destruct (inv_indexed p Hinv k' i' Hin) as (ids' & Hids' & Hk').
    rewrite Hp, Hids in Hids'. by injection Hids' as <-. }
  apply subseteq_size in Hsub.
  rewrite size_list_to_set in Hsub by done.
  rewrite length_map in Hsub. lia.
Qed.

Lemma poolInvariant_countRejected p : poolInvariant p → poolInvariant (countRejected p).
Proof. intros [? ? ? ? ? ?]. by constructor. Qed.

Lemma poolInvariant_removeWatcher watcherId p :
  poolInvariant p → poolInvariant (snd (removeWatcher watcherId p)).
Proof.
  intros Hinv. unfold removeWatcher.
  destruct (mget watcherId (watchers p)) as [info|] eqn:Hget; [|done].
  destruct (hasClose _ && closeThrows _); [done|]. simpl.
  destruct Hinv as [Hkeys Hindexed Hcounted HperPath HperProcess [Hl1 Hl2]].
  constructor; simpl.
  - by apply NoDup_mkeys_mdel.
  - intros k i [Hin Hne]%elem_of_mdel.
    destruct (Hindexed k i Hin) as (ids & Hids & Hk).
    destruct (pathToId p !! w_path info) as [ids0|] eqn:Hp0; [|eauto].
    destruct (decide (w_path i = w_path info)) as [Heq|Hdiff].
    + rewrite Heq in Hids. rewrite Hp0 in Hids. injection Hids as ->.
      assert (k ∈ ids ∖ {[watcherId]}) as Hk'.
      { apply elem_of_difference. split; [done|]. by apply not_elem_of_singleton. }
      rewrite bool_decide_eq_false_2.
      * rewrite Heq, lookup_insert_eq. eauto.
      * intros Hsize. apply size_empty_inv in Hsize.
        apply (not_elem_of_empty (C:=gset WatcherId) k). by rewrite <- Hsize.
    + destruct (bool_decide _).
      * rewrite lookup_delete_ne by done. eauto.
      * rewrite lookup_insert_ne by done. eauto.
  - intros processId. unfold recordsOfProcess, processWatcherCount in *. simpl.
    pose proof (length_filter_mdel (λ e, w_processId e.2 = processId)
                  watcherId info (watchers p) Hkeys Hget) as Hlen.
    specialize (Hcounted processId). simpl in Hlen.
    destruct (decide (w_processId info = processId)) as [<-|Hne].
    + destruct (Z.gtb_spec (default 0 (processMap p !! w_processId info)) 1).
      * rewrite lookup_insert_eq. simpl. lia.
      * rewrite lookup_delete_eq. simpl. lia.
    + destruct (_ >? _).
      * rewrite lookup_insert_ne by done. lia.
      * rewrite lookup_delete_ne by done. lia.
  - intros path. unfold pathWatcherCount in *. simpl.
    specialize (HperPath path).
    destruct (pathToId p !! w_path info) as [ids0|] eqn:Hp0; [|done].
    destruct (decide (w_path info = path)) as [<-|Hne].
    + rewrite Hp0 in HperPath.
      destruct (bool_decide _).
      * by rewrite lookup_delete_eq.
      * rewrite lookup_insert_eq.
        assert (size (ids0 ∖ {[watcherId]}) ≤ size ids0)%nat
          by (apply subseteq_size, subseteq_difference_l; reflexivity).
        lia.
    + destruct (bool_decide _).
      * by rewrite lookup_delete_ne.
      * by rewrite lookup_insert_ne.
  - intros processId. unfold processWatcherCount in *. simpl.
    specialize (HperProcess processId).
    destruct (decide (w_processId info = processId)) as [<-|Hne].
    + destruct (Z.gtb_spec (default 0 (processMap p !! w_processId info)) 1).
      * rewrite lookup_insert_eq. simpl. lia.
      * rewrite lookup_delete_eq. simpl. lia.
    + destruct (_ >? _).
      * by rewrite lookup_insert_ne.
      * by rewrite lookup_delete_ne.
  - done.
Qed.

Lemma poolInvariant_removeOldestWatcher now p :
  poolInvariant p → poolInvariant (snd (removeOldestWatcher now p)).
Proof.
  intros Hinv. unfold removeOldestWatcher.
  destruct (bool_decide _); [done|].
  destruct (snd (scanOldest _ _ _ _)); [|done].
  by apply poolInvariant_removeWatcher.
Qed.

Lemma poolInvariant_removeAll ids count p :
  poolInvariant p → poolInvariant (snd (removeAll ids count p)).
Proof.
  revert count p. induction ids as [|k ids IH]; intros count p Hinv; simpl; [done|].
  pose proof (poolInvariant_removeWatcher k p Hinv) as Hinv'.
  destruct (removeWatcher k p) as [removed p']. by apply IH.
Qed.

Lemma poolInvariant_useWatcher watcherId now p :
  poolInvariant p → poolInvariant (useWatcher watcherId now p).
Proof.
  intros Hinv. unfold useWatcher.
  destruct (mget watcherId (watchers p)) as [info|] eqn:Hget; [|done].
  destruct Hinv as [Hkeys Hindexed Hcounted HperPath HperProcess Hlimits].
  set (info' := {| w_id := w_id info; w_path := w_path info;
                   w_instance := w_instance info; w_type := w_type info;
                   w_processId := w_processId info; w_createdAt := w_createdAt info;
                   w_lastUsedAt := now; w_useCount := w_useCount info + 1 |}).
  constructor; simpl; try done.
  - by apply NoDup_mkeys_mset.
  - intros k i Hin.
    apply elem_of_mset_NoDup in Hin as [[-> ->]|[Hin _]]; [|by apply Hindexed|done].
    apply (Hindexed watcherId info). by apply mget_Some_elem.
  - intros processId. unfold recordsOfProcess, processWatcherCount in *. simpl.
    specialize (Hcounted processId).
    pose proof (length_filter_mdel (λ e, w_processId e.2 = processId)
                  watcherId info (watchers p) Hkeys Hget) as Hdel.
    assert (mdel watcherId (mset watcherId info' (watchers p))
            = mdel watcherId (watchers p)) as Hsame.
    { clear. induction (watchers p) as [|[k0 v0] m IH]; simpl.
      - by rewrite decide_True.
      - destruct (decide (watcherId = k0)) as [->|Hne]; simpl.
        + by rewrite decide_True.
        + rewrite decide_False by done. by rewrite IH. }
    pose proof (length_filter_mdel (λ e, w_processId e.2 = processId)
                  watcherId info' (mset watcherId info' (watchers p))
                  (NoDup_mkeys_mset _ _ _ Hkeys) (mget_mset_eq _ _ _)) as Hset.
    rewrite Hsame in Hset. simpl in Hdel, Hset.
    destruct (decide (w_processId info = processId)); lia.
Qed.

(** Every call keeps the invariant of the pool. *)
Lemma poolInvariant_addWatcher targetPath watcher type processId now random p :
  poolInvariant p →
  poolInvariant (snd (addWatcher targetPath watcher type processId now random p)).
Proof.
  intros Hinv. unfold addWatcher.
  destruct watcher as [instance|]; [|done].
  destruct (bool_decide _); [done|].
  set (p1 := if msize (watchers p) >=? maxWatchers p
             then snd (removeOldestWatcher now (countRejected p)) else p).
  assert (poolInvariant p1) as Hinv1.
  { subst p1. destruct (_ >=? _); [|done].
    by apply poolInvariant_removeOldestWatcher, poolInvariant_countRejected. }
  clearbody p1. clear Hinv p.
  destruct (Z.geb_spec (pathWatcherCount p1 (normalize targetPath)) (maxPerPath p1))
    as [Hfull|Hroom]; [by apply poolInvariant_countRejected|].
  destruct (Z.geb_spec (processWatcherCount p1 processId) (maxPerProcess p1))
    as [Hfull'|Hroom']; [by apply poolInvariant_countRejected|].
  simpl.
  destruct Hinv1 as [Hkeys Hindexed Hcounted HperPath HperProcess [Hl1 Hl2]].
  set (newId := generateWatcherId now random).
  set (newInfo := {| w_id := newId; w_path := normalize targetPath;
                     w_instance := instance; w_type := type;
                     w_processId := processId; w_createdAt := now;
                     w_lastUsedAt := now; w_useCount := 0 |}).
  constructor; simpl.
  - by apply NoDup_mkeys_mset.
  - intros k i Hin.
    apply elem_of_mset_NoDup in Hin as [[-> ->]|[Hin _]]; [| |done].
    + simpl. rewrite lookup_insert_eq. eexists. split; [done|]. set_solver.
    + destruct (Hindexed k i Hin) as (ids & Hids & Hk).
      destruct (decide (normalize targetPath = w_path i)) as [Heq|Hne].
      * rewrite <- Heq in *. rewrite lookup_insert_eq. rewrite Hids. simpl.
        eexists. split; [done|]. set_solver.
      * rewrite lookup_insert_ne by done. eauto.
  - intros pid. unfold recordsOfProcess, processWatcherCount in *. simpl.
    specialize (Hcounted pid).
    pose proof (length_filter_mset (λ e, w_processId e.2 = pid) newId newInfo
                  (watchers p1)) as Hlen.
    simpl in Hlen.
    destruct (decide (processId = pid)) as [<-|Hne].
    + rewrite lookup_insert_eq. simpl. lia.
    + rewrite lookup_insert_ne by done. lia.
  - intros path. unfold pathWatcherCount in *. simpl.
    destruct (decide (normalize targetPath = path)) as [<-|Hne].
    + rewrite lookup_insert_eq.
      destruct (pathToId p1 !! normalize targetPath) as [ids|] eqn:E.
      * change (default ∅ (Some ids)) with ids.
        rewrite size_union_alt.
        assert (size ({[newId]} ∖ ids) ≤ 1)%nat; [|lia].
        etrans; [apply subseteq_size, subseteq_difference_l; reflexivity|].
        by rewrite size_singleton.
      * change (default ∅ None) with (∅ : gset WatcherId).
        rewrite (left_id_L ∅ (∪)), size_singleton. lia.
    + rewrite lookup_insert_ne by done. apply HperPath.
  - intros pid. unfold processWatcherCount in *. simpl.
    destruct (decide (processId = pid)) as [<-|Hne].
    + rewrite lookup_insert_eq. simpl. lia.
    + rewrite lookup_insert_ne by done. apply HperProcess.
  - done.
Qed.

Lemma poolInvariant_runOps ops p : poolInvariant p → poolInvariant (runOps p ops).
Proof.
  revert p. induction ops as [|op ops IH]; intros p Hinv; [done|].
  unfold runOps. simpl. apply IH.
  destruct op; simpl.
  - by apply poolInvariant_addWatcher.
  - by apply poolInvariant_removeWatcher.
  - by apply poolInvariant_useWatcher.
  - unfold cleanupIdleWatchers. by apply poolInvariant_removeAll.
  - by apply poolInvariant_removeOldestWatcher.
Qed.

(** The pool that [setPoolConfig] makes from the initial one satisfies the
    invariant: it is empty, and the limits it takes are positive. *)
Lemma poolInvariant_empty maxW maxPath maxProc maxIdle :
  0 ≤ maxPath → 0 ≤ maxProc → poolInvariant (emptyPool maxW maxPath maxProc maxIdle).
Proof.
  intros Hp Hq. constructor; simpl; try done.
  - constructor.
  - intros k i Hin. by apply elem_of_nil in Hin.
Qed.

Lemma removeWatcher_limits watcherId p :
  let p' := snd (removeWatcher watcherId p) in
  maxWatchers p' = maxWatchers p ∧ maxPerPath p' = maxPerPath p
  ∧ maxPerProcess p' = maxPerProcess p.
Proof.
  unfold removeWatcher. destruct (mget _ _); [|done].
  destruct (_ && _); done.
Qed.

Lemma removeOldestWatcher_limits now p :
  let p' := snd (removeOldestWatcher now p) in
  maxWatchers p' = maxWatchers p ∧ maxPerPath p' = maxPerPath p
  ∧ maxPerProcess p' = maxPerProcess p.
Proof.
  unfold removeOldestWatcher. destruct (bool_decide _); [done|].
  destruct (snd (scanOldest _ _ _ _)); [|done]. apply removeWatcher_limits.
Qed.

Lemma removeAll_limits ids count p :
  let p' := snd (removeAll ids count p) in
  maxWatchers p' = maxWatchers p ∧ maxPerPath p' = maxPerPath p
  ∧ maxPerProcess p' = maxPerProcess p.
Proof.
  revert count p. induction ids as [|k ids IH]; intros count p; simpl; [done|].
  pose proof (removeWatcher_limits k p) as (E1 & E2 & E3).
  destruct (removeWatcher k p) as [removed p']. simpl in *.
  destruct (IH (if removed then count + 1 else count) p') as (? & ? & ?).
  repeat split; congruence.
Qed.

Lemma addWatcher_limits targetPath watcher type processId now random p :
  let p' := snd (addWatcher targetPath watcher type processId now random p) in
  maxWatchers p' = maxWatchers p ∧ maxPerPath p' = maxPerPath p
  ∧ maxPerProcess p' = maxPerProcess p.
Proof.
  unfold addWatcher. destruct watcher; [|done].
  destruct (bool_decide _); [done|].
  set (p1 := if msize (watchers p) >=? maxWatchers p
             then snd (removeOldestWatcher now (countRejected p)) else p).
  assert (maxWatchers p1 = maxWatchers p ∧ maxPerPath p1 = maxPerPath p
          ∧ maxPerProcess p1 = maxPerProcess p) as (E1 & E2 & E3).
  { subst p1. destruct (_ >=? _); [|done].
    apply (removeOldestWatcher_limits now (countRejected p)). }
  clearbody p1.
  destruct (_ >=? _); [done|]. destruct (_ >=? _); done.
Qed.

Lemma runOps_limits ops p :
  maxWatchers (runOps p ops) = maxWatchers p
  ∧ maxPerPath (runOps p ops) = maxPerPath p
  ∧ maxPerProcess (runOps p ops) = maxPerProcess p.
Proof.
  revert p. induction ops as [|op ops IH]; intros p; [done|].
  unfold runOps. simpl.
  destruct (IH (runOp p op)) as (E1 & E2 & E3). unfold runOps in *.
  rewrite E1, E2, E3.
  destruct op; simpl.
  - apply addWatcher_limits.
  - apply removeWatcher_limits.
  - unfold useWatcher. destruct (mget _ _); done.
  - apply removeAll_limits.
  - apply removeOldestWatcher_limits.
Qed.

(** X28.  The part of C1 that the code keeps.  Over every sequence of
    registrations, removals, uses, sweeps and evictions from an empty pool,
    the number of records of a path stays within [maxPerPath], and the
    number of records of a process within [maxPerProcess]. *)
Theorem pool_limits_per_path_and_process
    ops maxW maxPath maxProc maxIdle path processId :
  0 ≤ maxPath → 0 ≤ maxProc →
  let p := runOps (emptyPool maxW maxPath maxProc maxIdle) ops in
  Z.of_nat (length (recordsOfPath p path)) ≤ maxPath
  ∧ Z.of_nat (length (recordsOfProcess p processId)) ≤ maxProc.
Proof.
  intros Hp Hq p.
  assert (poolInvariant p) as Hinv
    by (apply poolInvariant_runOps, poolInvariant_empty; done).
  destruct (runOps_limits ops (emptyPool maxW maxPath maxProc maxIdle)) as (_ & E1 & E2).
  fold p in E1, E2. simpl in E1, E2.
  split.
  - rewrite <- E1. etrans; [by apply recordsOfPath_indexed|]. by apply inv_perPath.
  - rewrite <- E2. etrans; [by apply inv_counted|]. by apply inv_perProcess.
Qed.

(** A call of [addWatcher] that returns [null] has inserted no record. *)
Lemma addWatcher_null_inserts_nothing targetPath watcher type processId now random p k i :
  fst (addWatcher targetPath watcher type processId now random p) = None →
  (k, i) ∈ watchers (snd (addWatcher targetPath watcher type processId now random p)) →
  (k, i) ∈ watchers p.
Proof.
  unfold addWatcher. destruct watcher; [|done].
  destruct (bool_decide _); [done|].
  set (p1 := if msize (watchers p) >=? maxWatchers p
             then snd (removeOldestWatcher now (countRejected p)) else p).
  assert ((k, i) ∈ watchers p1 → (k, i) ∈ watchers p) as Hsub.
  { subst p1. destruct (_ >=? _); [|done].
    unfold removeOldestWatcher. destruct (bool_decide _); [done|].
    destruct (snd (scanOldest _ _ _ _)) as [oldestId|]; [|done].
    unfold removeWatcher. simpl. destruct (mget _ _); [|done].
    destruct (_ && _); [done|]. simpl. by intros [? _]%elem_of_mdel. }
  clearbody p1.
  destruct (_ >=? _); [simpl; intros _; exact Hsub|].
  destruct (_ >=? _); [simpl; intros _; exact Hsub|]. done.
Qed.

(** At the limit of the path or of the process, [addWatcher] returns [null],
    whatever the eviction before the test has done. *)
Lemma addWatcher_at_a_limit targetPath instance type processId now random p :
  targetPath ≠ EmptyString →
  let p1 := if msize (watchers p) >=? maxWatchers p
            then snd (removeOldestWatcher now (countRejected p)) else p in
  maxPerPath p ≤ pathWatcherCount p1 (normalize targetPath)
  ∨ maxPerProcess p ≤ processWatcherCount p1 processId →
  fst (addWatcher targetPath (Some instance) type processId now random p) = None
  ∧ watchers (snd (addWatcher targetPath (Some instance) type processId now random p))
    = watchers p1.
Proof.
  intros Hne p1 Hlimit. unfold addWatcher.
  rewrite (bool_decide_eq_false_2 _ Hne). fold p1.
  assert (maxPerPath p1 = maxPerPath p ∧ maxPerProcess p1 = maxPerProcess p) as [E1 E2].
  { subst p1. destruct (_ >=? _); [|done].
    destruct (removeOldestWatcher_limits now (countRejected p)) as (_ & ? & ?). done. }
  clearbody p1. rewrite E1, E2.
  destruct (Z.geb_spec (pathWatcherCount p1 (normalize targetPath)) (maxPerPath p));
    [done|].
  destruct (Z.geb_spec (processWatcherCount p1 processId) (maxPerProcess p)); [done|].
  lia.
Qed.

End PoolInvariant.

Section DottedNames.
Local Existing Instance posix.

(** C6 (the code departs from the claim).  The listings of [/d] and of
    [/d/..sub] are cached, and the monitor of [/d] reports a file added in
    [/d/..sub].  The callback takes the changed path for one outside [/d],
    because its relative path [..sub/x.txt] starts with two dots: the listing
    of [/d] is removed, and the listing of the parent [/d/..sub] of the
    changed path stays.  For a nested change that passes that test the
    listing of the parent is removed
    ([dirChangeCallback_invalidates_listings]). *)
Theorem C6_nested_change_under_dotted_name :
  let st' := dirChangeCallback "/d" EvAdd "/d/..sub/x.txt" dottedListings in
  mkeys (dc_items (DIR_CACHE dottedListings)) = ["/d"; "/d/..sub"]
  ∧ dirname "/d/..sub/x.txt" = "/d/..sub"
  ∧ relative "/d" "/d/..sub/x.txt" = "..sub/x.txt"
  ∧ mhas "/d" (dc_items (DIR_CACHE st')) = false
  ∧ mhas "/d/..sub" (dc_items (DIR_CACHE st')) = true.
Proof. vm_compute. repeat split; reflexivity. Qed.

End DottedNames.

Section SameMillisecond.
Local Existing Instance posix.


End SameMillisecond.

(** ** The pool: sweeps and shutdown *)

Section FilterFacts.
Context {A : Type}.

Lemma filter_ext_elem (P Q : A → Prop) `{∀ x, Decision (P x)} `{∀ x, Decision (Q x)}
    (l : list A) :
  (∀ x, x ∈ l → P x ↔ Q x) → filter P l = filter Q l.
Proof.
  induction l as [|x l IH]; intros Hext; [done|].
  assert (filter P l = filter Q l) as IH'.
  { apply IH. intros y Hy. apply Hext. by right. }
  destruct (decide (P x)) as [HP|HP].
  - rewrite filter_cons_True by done.
    rewrite (filter_cons_True Q) by (apply Hext; [by left|done]).
    by rewrite IH'.
  - rewrite filter_cons_False by done.
    rewrite (filter_cons_False Q); [done|].
    intros HQ. apply HP. apply Hext; [by left|done].
Qed.

Lemma filter_all (P : A → Prop) `{∀ x, Decision (P x)} (l : list A) :
  (∀ x, x ∈ l → P x) → filter P l = l.
Proof.
  induction l as [|x l IH]; intros Hall; [done|].
  rewrite filter_cons_True by (apply Hall; by left).
  rewrite IH; [done|]. intros y Hy. apply Hall. by right.
Qed.

Lemma filter_none (P : A → Prop) `{∀ x, Decision (P x)} (l : list A) :
  (∀ x, x ∈ l → ¬ P x) → filter P l = [].
Proof.
  induction l as [|x l IH]; intros Hall; [done|].
  rewrite filter_cons_False by (apply Hall; by left).
  apply IH. intros y Hy. apply Hall. by right.
Qed.

End FilterFacts.

Section JsMapFilter.
Context {K V : Type} `{EqDecision K}.
Implicit Types (k : K) (v : V) (m : list (K * V)).

(** [delete] keeps the entries of the other keys, in their order. *)
Lemma mdel_filter k m : mdel k m = filter (λ e, fst e ≠ k) m.
Proof.
  induction m as [|[k' v'] m IH]; simpl; [done|].
  destruct (decide (k = k')) as [->|Hne].
  - rewrite filter_cons_False by (simpl; naive_solver). done.
  - rewrite filter_cons_True by (simpl; naive_solver). by rewrite IH.
Qed.

Lemma NoDup_mkeys_filter (P : K * V → Prop) `{∀ x, Decision (P x)} m :
  NoDup (mkeys m) → NoDup (mkeys (filter P m)).
Proof.
  intros Hnd. eapply sublist_NoDup; [exact Hnd|].
  apply (fmap_sublist fst). apply sublist_filter.
Qed.

(** Looking a key up in a filtered map. *)
Lemma mget_filter (P : K * V → Prop) `{∀ x, Decision (P x)} k m :
  NoDup (mkeys m) →
  mget k (filter P m)
  = match mget k m with
    | Some v => if decide (P (k, v)) then Some v else None
    | None => None
    end.
Proof.
  intros Hnd.
  destruct (mget k m) as [v|] eqn:Hget.
  - destruct (decide (P (k, v))) as [HP|HP].
    + apply elem_mget; [by apply NoDup_mkeys_filter|].
      apply list_elem_of_filter. split; [done|]. by apply mget_Some_elem.
    + destruct (mget k (filter P m)) as [v'|] eqn:Hget'; [|done].
      apply mget_Some_elem in Hget'. apply list_elem_of_filter in Hget' as [HP' Hin].
      apply (elem_mget _ _ _ Hnd) in Hin. rewrite Hget in Hin.
      injection Hin as ->. done.
  - destruct (mget k (filter P m)) as [v'|] eqn:Hget'; [|done].
    apply mget_Some_elem in Hget'. apply list_elem_of_filter in Hget' as [_ Hin].
    apply (elem_mget _ _ _ Hnd) in Hin. congruence.
Qed.

End JsMapFilter.

Section PoolSweeps.

(** The three ways in which [removeWatcher] ends. *)
Lemma removeWatcher_cases watcherId p :
  (fst (removeWatcher watcherId p) = false
   ∧ snd (removeWatcher watcherId p) = p
   ∧ (mget watcherId (watchers p) = None
      ∨ ∃ i, mget watcherId (watchers p) = Some i ∧ ¬ closes i))
  ∨ (∃ i, mget watcherId (watchers p) = Some i ∧ closes i
          ∧ fst (removeWatcher watcherId p) = true
          ∧ watchers (snd (removeWatcher watcherId p)) = mdel watcherId (watchers p)
          ∧ closed (snd (removeWatcher watcherId p)) = closed p + 1
          ∧ created (snd (removeWatcher watcherId p)) = created p
          ∧ rejected (snd (removeWatcher watcherId p)) = rejected p
          ∧ maxIdleTime (snd (removeWatcher watcherId p)) = maxIdleTime p
          ∧ activeCount (snd (removeWatcher watcherId p))
            = msize (mdel watcherId (watchers p))).
Proof.
  unfold removeWatcher.
  destruct (mget watcherId (watchers p)) as [i|] eqn:Hget.
  - destruct (hasClose (w_instance i) && closeThrows (w_instance i)) eqn:Hc.
    + left. repeat split; try done. right. exists i. split; [done|].
      unfold closes. rewrite Hc. done.
    + right. exists i. unfold closes. simpl. done.
  - left. repeat split; try done. by left.
Qed.

(** The loop that [cleanupIdleWatchers] and [closeAllWatchers] share removes,
    among the records that it is given, those whose watcher closes, leaves the
    other records in their order, and counts what it has removed. *)
Lemma removeAll_spec ids count p :
  NoDup (mkeys (watchers p)) →
  let r := removeAll ids count p in
  watchers (snd r)
  = filter (λ e, ¬ (fst e ∈ ids ∧ closes (snd e))) (watchers p)
  ∧ fst r = count + (msize (watchers p) - msize (watchers (snd r)))
  ∧ closed (snd r) = closed p + (msize (watchers p) - msize (watchers (snd r)))
  ∧ created (snd r) = created p
  ∧ rejected (snd r) = rejected p
  ∧ maxIdleTime (snd r) = maxIdleTime p
  ∧ (activeCount p = msize (watchers p)
     → activeCount (snd r) = msize (watchers (snd r))).
Proof.
  revert count p. induction ids as [|watcherId rest IH]; intros count p Hnd; simpl.
  { split; [|repeat split; try done; lia].
    symmetry. apply filter_all. intros e _ [Hin _]. by apply elem_of_nil in Hin. }
  destruct (removeWatcher_cases watcherId p)
    as [(Hfalse & Hsame & Hwhy)|(i & Hget & Hcloses & Htrue & Hw & Hclosed & Hcr & Hrej
                                 & Hidle & Hactive)].
  - destruct (removeWatcher watcherId p) as [removed p1]. simpl in *. subst removed p1.
    destruct (IH count p Hnd) as (Ew & Ec & Ecl & Ecr & Erej & Eidle & Eact).
    split; [|done].
    rewrite Ew. apply filter_ext_elem. intros [k i] Hin. simpl.
    split; intros Hkeep [Hk Hc]; apply Hkeep; (split; [|done]).
    + apply elem_of_cons in Hk as [->|Hk]; [|done]. exfalso.
      apply (elem_mget _ _ _ Hnd) in Hin.
      destruct Hwhy as [Hnone|(i' & Hsome & Hno)]; [congruence|].
      rewrite Hin in Hsome. injection Hsome as <-. done.
    + by right.
  - destruct (removeWatcher watcherId p) as [removed p1]. simpl in *. subst removed.
    assert (NoDup (mkeys (watchers p1))) as Hnd1.
    { rewrite Hw. by apply NoDup_mkeys_mdel. }
    destruct (IH (count + 1) p1 Hnd1) as (Ew & Ec & Ecl & Ecr & Erej & Eidle & Eact).
    assert (msize (watchers p1) = msize (watchers p) - 1) as Hsize.
    { rewrite Hw. unfold msize.
      pose proof (length_mdel_present _ _ _ Hnd Hget). lia. }
    split.
    + rewrite Ew, Hw, mdel_filter, list_filter_filter.
      apply filter_ext_elem. intros [k i'] Hin. simpl.
      split.
      * intros [Hkeep Hne] [Hk Hc]. apply Hkeep. split; [|done].
        apply elem_of_cons in Hk as [->|Hk]; done.
      * intros Hkeep. split.
        -- intros [Hk Hc]. apply Hkeep. split; [by right|done].
        -- intros ->. apply Hkeep. split; [by left|].
           apply (elem_mget _ _ _ Hnd) in Hin. rewrite Hin in Hget.
           by injection Hget as ->.
    + split; [lia|]. split; [lia|]. split; [congruence|]. split; [congruence|].
      split; [congruence|].
      intros _. apply Eact. by rewrite Hactive, Hw.
Qed.

End PoolSweeps.

Section PoolShutdown.

Lemma cleanupIdleWatchers_watchers now p :
  NoDup (mkeys (watchers p)) →
  watchers (snd (cleanupIdleWatchers now p))
  = filter (λ e, ¬ (w_lastUsedAt (snd e) < now - maxIdleTime p ∧ closes (snd e)))
      (watchers p).
Proof.
  intros Hnd. unfold cleanupIdleWatchers.
  destruct (removeAll_spec
              (mkeys (filter (λ e, w_lastUsedAt (snd e) < now - maxIdleTime p) (watchers p)))
              0 p Hnd) as (Hw & _).
  rewrite Hw. apply filter_ext_elem. intros [k i] Hin. simpl.
  split; intros Hkeep [Hidle Hc]; apply Hkeep; (split; [|done]).
  - apply list_elem_of_fmap. exists (k, i). split; [done|].
    by apply list_elem_of_filter.
  - apply list_elem_of_fmap in Hidle as ([k' i'] & Hk & Hin').
    simpl in Hk. subst k'.
    apply list_elem_of_filter in Hin' as [Hidle Hin']. simpl in Hidle.
    apply (elem_mget _ _ _ Hnd) in Hin, Hin'. congruence.
Qed.

(** X1.  [closeAllWatchers] of the pool removes every record whose watcher
    closes and returns their number.  A record whose [close] throws stays in
    [watchers], although the index of the paths and the counters of the
    processes are emptied and [activeCount] is set to 0.  When every watcher
    closes, the pool is left without a record. *)
Theorem closeAllWatchers_keeps_what_fails_to_close p :
  NoDup (mkeys (watchers p)) →
  let r := closeAllWatchers p in
  watchers (snd r) = filter (λ e, ¬ closes (snd e)) (watchers p)
  ∧ fst r = msize (watchers p) - msize (watchers (snd r))
  ∧ closed (snd r) = closed p + fst r
  ∧ created (snd r) = created p
  ∧ pathToId (snd r) = ∅
  ∧ processMap (snd r) = ∅
  ∧ activeCount (snd r) = 0
  ∧ ((∀ k i, (k, i) ∈ watchers p → closes i) →
     watchers (snd r) = [] ∧ fst r = msize (watchers p)).
Proof.
  intros Hnd. unfold closeAllWatchers.
  destruct (removeAll_spec (mkeys (watchers p)) 0 p Hnd)
    as (Hw & Hc & Hcl & Hcr & _).
  destruct (removeAll (mkeys (watchers p)) 0 p) as [closedCount p1]. simpl in *.
  assert (watchers p1 = filter (λ e, ¬ closes (snd e)) (watchers p)) as Hw'.
  { rewrite Hw. apply filter_ext_elem. intros [k i] Hin. simpl.
    split.
    - intros Hkeep Hcloses. apply Hkeep. split; [|done].
      apply list_elem_of_fmap. by exists (k, i).
    - intros Hno [_ Hcloses]. done. }
  split; [done|]. split; [lia|]. split; [lia|]. split; [done|].
  split; [done|]. split; [done|]. split; [done|].
  intros Hall.
  assert (watchers p1 = []) as Hnil.
  { rewrite Hw'. apply filter_none. intros [k i] Hin Hno. apply Hno. by eapply Hall. }
  split; [done|]. rewrite Hc, Hnil. unfold msize. simpl. lia.
Qed.

(** X2.  [cleanupIdleWatchers] removes the records that were last used
    before [now - maxIdleTime] and whose watcher closes, leaves every other
    record in its place, and returns the number of records that it has
    removed, which it adds to [closed]. *)
Theorem cleanupIdleWatchers_removes_the_idle now p :
  NoDup (mkeys (watchers p)) →
  let r := cleanupIdleWatchers now p in
  watchers (snd r)
  = filter (λ e, ¬ (w_lastUsedAt (snd e) < now - maxIdleTime p ∧ closes (snd e)))
      (watchers p)
  ∧ fst r = msize (watchers p) - msize (watchers (snd r))
  ∧ closed (snd r) = closed p + fst r
  ∧ created (snd r) = created p
  ∧ rejected (snd r) = rejected p.
Proof.
  intros Hnd r.
  split; [by apply cleanupIdleWatchers_watchers|].
  subst r. unfold cleanupIdleWatchers.
  destruct (removeAll_spec
              (mkeys (filter (λ e, w_lastUsedAt (snd e) < now - maxIdleTime p) (watchers p)))
              0 p Hnd) as (_ & Hc & Hcl & Hcr & Hrej & _).
  split; [lia|]. split; [lia|]. done.
Qed.

(** X3.  A record that [useWatcher] has touched at time [t] is still in the
    pool after a sweep at any time [now] with [now - maxIdleTime <= t]; the
    call has set its [lastUsedAt] to [t] and incremented its [useCount]. *)
Theorem useWatcher_postpones_the_sweep watcherId t now p i :
  NoDup (mkeys (watchers p)) →
  mget watcherId (watchers p) = Some i →
  now - maxIdleTime p ≤ t →
  ∃ i',
    mget watcherId (watchers (snd (cleanupIdleWatchers now (useWatcher watcherId t p))))
    = Some i'
    ∧ w_lastUsedAt i' = t
    ∧ w_useCount i' = w_useCount i + 1
    ∧ w_path i' = w_path i
    ∧ w_createdAt i' = w_createdAt i.
Proof.
  intros Hnd Hget Hfresh.
  assert (NoDup (mkeys (watchers (useWatcher watcherId t p)))) as Hnd'.
  { unfold useWatcher. rewrite Hget. simpl. by apply NoDup_mkeys_mset. }
  rewrite cleanupIdleWatchers_watchers by done.
  rewrite mget_filter by done.
  unfold useWatcher. rewrite Hget. simpl. rewrite mget_mset_eq.
  rewrite decide_True.
  - eexists. split; [done|]. simpl. done.
  - simpl. intros [Hidle _]. lia.
Qed.

End PoolShutdown.

Section PoolShutdownExamples.
Local Existing Instance posix.

Lemma closeAllWatchers_witness :
  NoDup (mkeys (watchers mixedPool))
  ∧ mkeys (watchers mixedPool) = [(1, 11); (2, 22)]
  ∧ mkeys (watchers (snd (closeAllWatchers mixedPool))) = [(2, 22)]
  ∧ fst (closeAllWatchers mixedPool) = 1
  ∧ watchers (snd (closeAllWatchers mixedPool))
    = filter (λ e, ¬ closes (snd e)) (watchers mixedPool)
  ∧ pathToId (snd (closeAllWatchers mixedPool)) = ∅
  ∧ activeCount (snd (closeAllWatchers mixedPool)) = 0.
Proof.
  assert (NoDup (mkeys (watchers mixedPool))) as Hnd
    by (apply (bool_decide_unpack _); vm_compute; exact I).
  destruct (closeAllWatchers_keeps_what_fails_to_close mixedPool Hnd)
    as (Hw & _ & _ & _ & Hidx & _ & Hact & _).
  split; [exact Hnd|].
  split; [vm_compute; reflexivity|].
  split; [vm_compute; reflexivity|].
  split; [vm_compute; reflexivity|].
  split; [exact Hw|].
  split; [exact Hidx|exact Hact].
Defined.

(** The sweep at time 7200002 finds [/a], last used at time 1, idle, and
    [/b], last used at time 2, not. *)
Lemma cleanupIdleWatchers_witness :
  NoDup (mkeys (watchers fullPool))
  ∧ mkeys (watchers fullPool) = [(1, 11); (2, 22)]
  ∧ maxIdleTime fullPool = 7200000
  ∧ mkeys (watchers (snd (cleanupIdleWatchers 7200002 fullPool))) = [(2, 22)]
  ∧ fst (cleanupIdleWatchers 7200002 fullPool)
    = msize (watchers fullPool)
      - msize (watchers (snd (cleanupIdleWatchers 7200002 fullPool)))
  ∧ fst (cleanupIdleWatchers 7200002 fullPool) = 1.
Proof.
  assert (NoDup (mkeys (watchers fullPool))) as Hnd
    by (apply (bool_decide_unpack _); vm_compute; exact I).
  destruct (cleanupIdleWatchers_removes_the_idle 7200002 fullPool Hnd)
    as (_ & Hcount & _).
  split; [exact Hnd|].
  split; [vm_compute; reflexivity|].
  split; [vm_compute; reflexivity|].
  split; [vm_compute; reflexivity|].
  split; [exact Hcount|vm_compute; reflexivity].
Defined.

(** The record of [/a], used at time 5000, outlives the sweep at time
    7200002 that would otherwise remove it. *)
Lemma useWatcher_witness :
  NoDup (mkeys (watchers fullPool))
  ∧ 7200002 - maxIdleTime fullPool ≤ 5000
  ∧ mget (1, 11) (watchers (snd (cleanupIdleWatchers 7200002 fullPool))) = None
  ∧ ∃ i',
      mget (1, 11)
        (watchers (snd (cleanupIdleWatchers 7200002 (useWatcher (1, 11) 5000 fullPool))))
      = Some i'
      ∧ w_lastUsedAt i' = 5000
      ∧ w_useCount i' = 1.
Proof.
  assert (NoDup (mkeys (watchers fullPool))) as Hnd
    by (apply (bool_decide_unpack _); vm_compute; exact I).
  assert (7200002 - maxIdleTime fullPool ≤ 5000) as Hfresh by (vm_compute; discriminate).
  destruct (useWatcher_postpones_the_sweep (1, 11) 5000 7200002 fullPool
              {| w_id := (1, 11); w_path := "/a"; w_instance := chokidarWatcher;
                 w_type := file; w_processId := "4242"; w_createdAt := 1;
                 w_lastUsedAt := 1; w_useCount := 0 |}
              Hnd ltac:(vm_compute; reflexivity) Hfresh)
    as (i' & Hget & Hused & Hcount & _).
  split; [exact Hnd|].
  split; [exact Hfresh|].
  split; [vm_compute; reflexivity|].
  exists i'. split; [exact Hget|]. split; [exact Hused|exact Hcount].
Defined.

End PoolShutdownExamples.

(** ** The counters of the pool *)

Section PoolCounters.
Context `{PathLib}.

Lemma poolCounters_countRejected p : poolCounters p → poolCounters (countRejected p).
Proof. intros [? ? ? ?]. by constructor. Qed.

Lemma poolCounters_removeWatcher watcherId p :
  poolCounters p → poolCounters (snd (removeWatcher watcherId p)).
Proof.
  intros [Hnd Hact Hcl Hsize].
  destruct (removeWatcher_cases watcherId p)
    as [(_ & -> & _)|(i & Hget & _ & _ & Hw & Hclosed & Hcr & _ & _ & Hactive)];
    [by constructor|].
  pose proof (length_mdel_present _ _ _ Hnd Hget) as Hlen.
  constructor.
  - rewrite Hw. by apply NoDup_mkeys_mdel.
  - by rewrite Hactive, Hw.
  - lia.
  - rewrite Hw, Hclosed, Hcr. unfold msize in *. lia.
Qed.

Lemma poolCounters_removeOldestWatcher now p :
  poolCounters p → poolCounters (snd (removeOldestWatcher now p)).
Proof.
  intros Hc. unfold removeOldestWatcher.
  destruct (bool_decide _); [done|].
  destruct (snd (scanOldest _ _ _ _)); [|done].
  by apply poolCounters_removeWatcher.
Qed.

Lemma poolCounters_removeAll ids count p :
  poolCounters p → poolCounters (snd (removeAll ids count p)).
Proof.
  revert count p. induction ids as [|k ids IH]; intros count p Hc; simpl; [done|].
  pose proof (poolCounters_removeWatcher k p Hc) as Hc'.
  destruct (removeWatcher k p) as [removed p']. by apply IH.
Qed.

Lemma poolCounters_useWatcher watcherId now p :
  poolCounters p → poolCounters (useWatcher watcherId now p).
Proof.
  intros [Hnd Hact Hcl Hsize]. unfold useWatcher.
  destruct (mget watcherId (watchers p)) as [i|] eqn:Hget; [|by constructor].
  assert (msize (mset watcherId
                   {| w_id := w_id i; w_path := w_path i; w_instance := w_instance i;
                      w_type := w_type i; w_processId := w_processId i;
                      w_createdAt := w_createdAt i; w_lastUsedAt := now;
                      w_useCount := w_useCount i + 1 |} (watchers p))
          = msize (watchers p)) as Hlen.
  { unfold msize. by rewrite length_mset_present. }
  constructor; simpl.
  - by apply NoDup_mkeys_mset.
  - by rewrite Hlen.
  - done.
  - by rewrite Hlen.
Qed.

Lemma msize_mset {K V : Type} `{EqDecision K} (k : K) (v : V) (m : list (K * V)) :
  msize m ≤ msize (mset k v m) ≤ msize m + 1.
Proof.
  unfold msize. destruct (mget k m) as [v'|] eqn:Hget.
  - rewrite length_mset_present by done. lia.
  - rewrite mset_fresh by done. rewrite length_app. simpl. lia.
Qed.

Lemma poolCounters_addWatcher targetPath watcher type processId now random p :
  poolCounters p →
  poolCounters (snd (addWatcher targetPath watcher type processId now random p)).
Proof.
  intros Hc. unfold addWatcher. destruct watcher as [instance|]; [|done].
  destruct (bool_decide _); [done|].
  set (p1 := if msize (watchers p) >=? maxWatchers p
             then snd (removeOldestWatcher now (countRejected p)) else p).
  assert (poolCounters p1) as [Hnd Hact Hcl Hsize].
  { subst p1. destruct (_ >=? _); [|done].
    by apply poolCounters_removeOldestWatcher, poolCounters_countRejected. }
  clearbody p1.
  destruct (_ >=? _); [by constructor|].
  destruct (_ >=? _); [by constructor|].
  simpl.
  match goal with
  | |- poolCounters {| watchers := mset ?k ?v _ |} =>
      pose proof (msize_mset k v (watchers p1)) as Hlen
  end.
  constructor; simpl.
  - by apply NoDup_mkeys_mset.
  - done.
  - done.
  - lia.
Qed.

Lemma poolCounters_runOps ops p : poolCounters p → poolCounters (runOps p ops).
Proof.
  revert p. induction ops as [|op ops IH]; intros p Hc; [done|].
  unfold runOps. simpl. apply IH.
  destruct op; simpl.
  - by apply poolCounters_addWatcher.
  - by apply poolCounters_removeWatcher.
  - by apply poolCounters_useWatcher.
  - unfold cleanupIdleWatchers. by apply poolCounters_removeAll.
  - by apply poolCounters_removeOldestWatcher.
Qed.

Lemma poolCounters_empty maxW maxPath maxProc maxIdle :
  poolCounters (emptyPool maxW maxPath maxProc maxIdle).
Proof. constructor; simpl; try done. constructor. Qed.

(** X4.  After every sequence of registrations, removals, uses, sweeps and
    evictions from an empty pool, the status that [getPoolStatus] reports is
    consistent: [stats.activeCount] is the number of records
    ([activeWatchers]), [closed] is at most [created], and no more records
    are left than were created and not closed. *)
Theorem getPoolStatus_counts_the_records ops maxW maxPath maxProc maxIdle :
  let s := getPoolStatus (runOps (emptyPool maxW maxPath maxProc maxIdle) ops) in
  stats_activeCount s = activeWatchers s
  ∧ 0 ≤ stats_closed s
  ∧ stats_closed s ≤ stats_created s
  ∧ activeWatchers s ≤ stats_created s - stats_closed s
  ∧ status_maxWatchers s = maxW
  ∧ status_maxPerPath s = maxPath
  ∧ status_maxPerProcess s = maxProc.
Proof.
  intros s.
  destruct (poolCounters_runOps ops _ (poolCounters_empty maxW maxPath maxProc maxIdle))
    as [_ Hact Hcl Hsize].
  destruct (runOps_limits ops (emptyPool maxW maxPath maxProc maxIdle)) as (E1 & E2 & E3).
  subst s. simpl in *.
  assert (0 ≤ msize (watchers (runOps (emptyPool maxW maxPath maxProc maxIdle) ops)))
    by (unfold msize; lia).
  repeat split; try done; lia.
Qed.

End PoolCounters.

(** ** Registering and unregistering *)

Section RoundTrip.
Context `{PathLib}.

Lemma mdel_mset_fresh {K V : Type} `{EqDecision K} (k : K) (v : V) (m : list (K * V)) :
  mget k m = None → mdel k (mset k v m) = m.
Proof.
  induction m as [|[k' v'] m IH]; simpl.
  - by rewrite decide_True.
  - destruct (decide (k = k')) as [->|Hne]; [done|].
    intros Hg. simpl. rewrite decide_False by done. by rewrite IH.
Qed.

(** X5.  Registering and then unregistering.  When the pool is below
    [maxWatchers], [addWatcher] returns a record under a fresh id, and the
    watcher closes, [removeWatcher] of that id returns [true] and leaves the
    records, the count of every path and the count of every process as they
    were before the registration; [created] and [closed] have both grown by
    one. *)
Theorem removeWatcher_undoes_addWatcher
    targetPath instance type processId now random p info :
  msize (watchers p) < maxWatchers p →
  fst (addWatcher targetPath (Some instance) type processId now random p) = Some info →
  mget (now, random) (watchers p) = None →
  (∀ ids, pathToId p !! normalize targetPath = Some ids → (now, random) ∉ ids) →
  0 ≤ processWatcherCount p processId →
  hasClose instance && closeThrows instance = false →
  let p1 := snd (addWatcher targetPath (Some instance) type processId now random p) in
  let r := removeWatcher (w_id info) p1 in
  w_id info = (now, random)
  ∧ mget (w_id info) (watchers p1) = Some info
  ∧ fst r = true
  ∧ watchers (snd r) = watchers p
  ∧ (∀ path, pathWatcherCount (snd r) path = pathWatcherCount p path)
  ∧ (∀ pid, processWatcherCount (snd r) pid = processWatcherCount p pid)
  ∧ created (snd r) = created p + 1
  ∧ closed (snd r) = closed p + 1
  ∧ rejected (snd r) = rejected p.
Proof.
  intros Hroom Hadd Hfresh Hidx Hcount Hcloses.
  unfold addWatcher in *.
  destruct (bool_decide (targetPath = EmptyString)); [done|].
  destruct (Z.geb_spec (msize (watchers p)) (maxWatchers p)) as [?|_]; [lia|].
  destruct (pathWatcherCount p (normalize targetPath) >=? maxPerPath p); [done|].
  destruct (processWatcherCount p processId >=? maxPerProcess p); [done|].
  simpl in Hadd. injection Hadd as <-. simpl.
  unfold generateWatcherId.
  split; [done|]. split; [apply mget_mset_eq|].
  unfold removeWatcher. simpl. rewrite mget_mset_eq. simpl. rewrite Hcloses. simpl.
  split; [done|]. split; [by apply mdel_mset_fresh|].
  rewrite lookup_insert_eq.
  split; [|split; [|done]].
  - intros path. unfold pathWatcherCount. simpl.
    destruct (pathToId p !! normalize targetPath) as [ids|] eqn:Eids.
    + change (default ∅ (Some ids)) with ids.
      match goal with
      | |- context [bool_decide (size ?s = 0%nat)] => assert (s = ids) as ->
      end.
      { apply set_eq. intros x.
        rewrite elem_of_difference, elem_of_union, elem_of_singleton.
        split; [by intros [[?|?] ?]|].
        intros Hx. split; [by left|]. intros ->. by apply (Hidx ids). }
      case_bool_decide as Hsz.
      * destruct (decide (path = normalize targetPath)) as [->|Hne].
        -- rewrite lookup_delete_eq, Eids, Hsz. done.
        -- rewrite lookup_delete_ne by done. by rewrite lookup_insert_ne.
      * destruct (decide (path = normalize targetPath)) as [->|Hne].
        -- by rewrite lookup_insert_eq, Eids.
        -- by rewrite !lookup_insert_ne.
    + change (default ∅ None) with (∅ : gset WatcherId).
      match goal with
      | |- context [bool_decide (size ?s = 0%nat)] =>
          assert (s = (∅ : gset WatcherId)) as ->
      end.
      { apply set_eq. intros x.
        rewrite elem_of_difference, elem_of_union, elem_of_singleton.
        split; [by intros [[?|?] ?]|]. intros Hx. by apply elem_of_empty in Hx. }
      rewrite size_empty. rewrite bool_decide_eq_true_2 by done.
      destruct (decide (path = normalize targetPath)) as [->|Hne].
      * by rewrite lookup_delete_eq, Eids.
      * rewrite lookup_delete_ne by done. by rewrite lookup_insert_ne.
  - intros pid. unfold processWatcherCount in *. simpl.
    set (c := default 0 (processMap p !! processId)) in *.
    rewrite (lookup_insert_eq (processMap p) processId).
    change (default 0 (Some (c + 1))) with (c + 1).
    destruct (Z.gtb_spec (c + 1) 1) as [Hgt|Hle].
    + destruct (decide (pid = processId)) as [->|Hne].
      * rewrite lookup_insert_eq. fold c. simpl. lia.
      * rewrite !lookup_insert_ne by done. done.
    + destruct (decide (pid = processId)) as [->|Hne].
      * rewrite lookup_delete_eq. fold c. simpl. lia.
      * rewrite lookup_delete_ne by done. by rewrite lookup_insert_ne.
Qed.

End RoundTrip.

Section RoundTripExamples.
Local Existing Instance posix.

Lemma removeWatcher_undoes_addWatcher_witness :
  let info :=
    {| w_id := (1, 11); w_path := "/a"; w_instance := chokidarWatcher; w_type := file;
       w_processId := "4242"; w_createdAt := 1; w_lastUsedAt := 1; w_useCount := 0 |} in
  let p1 := snd (addWatcher "/a//" (Some chokidarWatcher) file "4242" 1 11 initialPool) in
  msize (watchers initialPool) < maxWatchers initialPool
  ∧ fst (addWatcher "/a//" (Some chokidarWatcher) file "4242" 1 11 initialPool) = Some
      {| w_id := (1, 11); w_path := "/a/"; w_instance := chokidarWatcher; w_type := file;
         w_processId := "4242"; w_createdAt := 1; w_lastUsedAt := 1; w_useCount := 0 |}
  ∧ pathWatcherCount p1 "/a/" = 1
  ∧ fst (removeWatcher (1, 11) p1) = true
  ∧ watchers (snd (removeWatcher (1, 11) p1)) = watchers initialPool
  ∧ (∀ path, pathWatcherCount (snd (removeWatcher (1, 11) p1)) path
             = pathWatcherCount initialPool path)
  ∧ closed (snd (removeWatcher (1, 11) p1)) = closed initialPool + 1.
Proof.
  intros info p1.
  destruct (removeWatcher_undoes_addWatcher "/a//" chokidarWatcher file "4242" 1 11
              initialPool
              {| w_id := (1, 11); w_path := "/a/"; w_instance := chokidarWatcher;
                 w_type := file; w_processId := "4242"; w_createdAt := 1;
                 w_lastUsedAt := 1; w_useCount := 0 |})
    as (_ & _ & Hr & Hw & Hpaths & _ & _ & Hclosed & _).
  - vm_compute. reflexivity.
  - vm_compute. reflexivity.
  - vm_compute. reflexivity.
  - intros ids Hids. vm_compute in Hids. discriminate.
  - vm_compute. discriminate.
  - vm_compute. reflexivity.
  - split; [vm_compute; reflexivity|].
    split; [vm_compute; reflexivity|].
    split; [vm_compute; reflexivity|].
    split; [exact Hr|].
    split; [exact Hw|].
    split; [exact Hpaths|exact Hclosed].
Defined.

End RoundTripExamples.

(** ** Finding the records of a path *)

Section FindWatchers.
Context `{PathLib}.

(** Whether a record passes the filter of [findWatchersByPath]. *)
Lemma findLoop_complete type ids m results out :
  findLoop type ids m results = Some out →
  (∀ x, x ∈ results → x ∈ out)
  ∧ (∀ k i, k ∈ ids → mget k m = Some i →
            (∀ t, type = Some t → w_type i = t) → Some i ∈ out).
Proof.
  revert results. induction ids as [|watcherId rest IH]; intros results; simpl.
  { intros [= <-]. split; [done|]. intros k i Hk. by apply elem_of_nil in Hk. }
  destruct type as [t|].
  - destruct (mget watcherId m) as [i0|] eqn:Hget; [|done].
    case_bool_decide as Ht.
    + intros Hout. destruct (IH _ Hout) as [Hres Hall].
      split.
      * intros x Hx. apply Hres. apply elem_of_app. by left.
      * intros k i Hk Hgk Htype.
        apply elem_of_cons in Hk as [->|Hk]; [|by eapply Hall].
        rewrite Hget in Hgk. injection Hgk as ->.
        apply Hres. apply elem_of_app. right. by left.
    + intros Hout. destruct (IH _ Hout) as [Hres Hall].
      split; [done|].
      intros k i Hk Hgk Htype.
      apply elem_of_cons in Hk as [->|Hk]; [|by eapply Hall].
      rewrite Hget in Hgk. injection Hgk as ->.
      exfalso. apply Ht. by apply Htype.
  - intros Hout. destruct (IH _ Hout) as [Hres Hall].
    split.
    + intros x Hx. apply Hres. apply elem_of_app. by left.
    + intros k i Hk Hgk Htype.
      apply elem_of_cons in Hk as [->|Hk]; [|by eapply Hall].
      apply Hres. apply elem_of_app. right. rewrite Hgk. by left.
Qed.

(** Every result is a record indexed under the path, or [undefined]; with a
    [type], every result is a record of that type. *)
Lemma findLoop_sound type ids m results out :
  findLoop type ids m results = Some out →
  ∀ x, x ∈ out →
       x ∈ results
       ∨ (∃ k, k ∈ ids ∧ x = mget k m
               ∧ ∀ t, type = Some t → ∃ i, x = Some i ∧ w_type i = t).
Proof.
  revert results. induction ids as [|watcherId rest IH]; intros results; simpl.
  { intros [= <-] x Hx. by left. }
  destruct type as [t|].
  - destruct (mget watcherId m) as [i0|] eqn:Hget; [|done].
    case_bool_decide as Ht.
    + intros Hout x Hx. destruct (IH _ Hout x Hx) as [Hin|(k & Hk & -> & Hty)].
      * apply elem_of_app in Hin as [Hin|Hin]; [by left|].
        apply list_elem_of_singleton in Hin as ->. right.
        exists watcherId. split; [by left|]. split; [done|].
        intros t' [= <-]. by exists i0.
      * right. exists k. split; [by right|]. done.
    + intros Hout x Hx. destruct (IH _ Hout x Hx) as [Hin|(k & Hk & -> & Hty)].
      * by left.
      * right. exists k. split; [by right|]. done.
  - intros Hout x Hx. destruct (IH _ Hout x Hx) as [Hin|(k & Hk & -> & Hty)].
    + apply elem_of_app in Hin as [Hin|Hin]; [by left|].
      apply list_elem_of_singleton in Hin as ->. right.
      exists watcherId. split; [by left|]. split; [done|]. done.
    + right. exists k. split; [by right|]. done.
Qed.

Lemma findLoop_without_type ids m results :
  is_Some (findLoop None ids m results).
Proof.
  revert results. induction ids as [|watcherId rest IH]; intros results; simpl; [done|].
  apply IH.
Qed.

(** X6.  In a pool that satisfies the invariant of the registrations,
    [findWatchersByPath] misses no record: whenever it returns, its results
    hold every record whose path is the normalized [targetPath] and whose
    type is the one asked for, if one is.  With a type, every result is a
    record of the pool that has this type.  Without a type it always returns,
    and for a path that the index does not hold it returns the empty list. *)
Theorem findWatchersByPath_finds_every_record targetPath type p :
  poolInvariant p →
  (∀ results k i,
     findWatchersByPath targetPath type p = Some results →
     (k, i) ∈ watchers p →
     w_path i = normalize targetPath →
     (∀ t, type = Some t → w_type i = t) →
     Some i ∈ results)
  ∧ (∀ results t x,
       findWatchersByPath targetPath (Some t) p = Some results →
       x ∈ results →
       ∃ k i, x = Some i ∧ mget k (watchers p) = Some i ∧ w_type i = t)
  ∧ is_Some (findWatchersByPath targetPath None p)
  ∧ (pathToId p !! normalize targetPath = None →
     findWatchersByPath targetPath type p = Some []).
Proof.
  intros Hinv. split; [|split; [|split]].
  - intros results k i Hfind Hin Hpath Htype.
    unfold findWatchersByPath in Hfind.
    destruct (inv_indexed p Hinv k i Hin) as (ids & Hids & Hk).
    rewrite Hpath in Hids. rewrite Hids in Hfind.
    destruct (findLoop_complete _ _ _ _ _ Hfind) as [_ Hall].
    apply (Hall k i); [by apply elem_of_elements| |done].
    apply elem_mget; [apply (inv_keys p Hinv)|done].
  - intros results t x Hfind Hx. unfold findWatchersByPath in Hfind.
    destruct (pathToId p !! normalize targetPath) as [ids|].
    + destruct (findLoop_sound _ _ _ _ _ Hfind x Hx) as [Hin|(k & _ & Hget & Hty)].
      { by apply elem_of_nil in Hin. }
      destruct (Hty t eq_refl) as (i & -> & Hti).
      exists k, i. done.
    + injection Hfind as <-. by apply elem_of_nil in Hx.
  - unfold findWatchersByPath.
    destruct (pathToId p !! normalize targetPath); [|done].
    apply findLoop_without_type.
  - intros Hnone. unfold findWatchersByPath. by rewrite Hnone.
Qed.

End FindWatchers.

Section FindWatchersExamples.
Local Existing Instance posix.

Lemma fullPool_invariant : poolInvariant fullPool.
Proof.
  change fullPool
    with (runOps (emptyPool 2 1 50 7200000)
            [OpAdd "/a" (Some chokidarWatcher) file "4242" 1 11;
             OpAdd "/b" (Some chokidarWatcher) file "4242" 2 22]).
  apply poolInvariant_runOps, poolInvariant_empty; lia.
Defined.

Lemma findWatchersByPath_witness :
  poolInvariant fullPool
  ∧ findWatchersByPath "/b/." (Some file) fullPool
    = Some [Some {| w_id := (2, 22); w_path := "/b"; w_instance := chokidarWatcher;
                    w_type := file; w_processId := "4242"; w_createdAt := 2;
                    w_lastUsedAt := 2; w_useCount := 0 |}]
  ∧ findWatchersByPath "/b" (Some directory) fullPool = Some []
  ∧ is_Some (findWatchersByPath "/b/." None fullPool)
  ∧ findWatchersByPath "/c" None fullPool = Some [].
Proof.
  destruct (findWatchersByPath_finds_every_record "/b/." None fullPool fullPool_invariant)
    as (_ & _ & Hsome & _).
  split; [exact fullPool_invariant|].
  split; [vm_compute; reflexivity|].
  split; [vm_compute; reflexivity|].
  split; [exact Hsome|].
  vm_compute. reflexivity.
Defined.

End FindWatchersExamples.

(** ** Storing and looking up *)

Section CacheRoundTrip.
Context `{PathLib} (cfg : Config).

(** X7.  What [addToCache] has stored, [getFromCache] returns: for an
    enabled cache and a content that is not empty and not longer than 10 MB,
    a lookup of the path at most [maxAge] after the insert is a hit that
    returns the content, whatever the cache held before and however small
    [maxSize] is. *)
Theorem getFromCache_after_addToCache filePath body now now' random st :
  fc_enabled (FILE_CACHE st) = true →
  body ≠ EmptyString →
  strlen body ≤ LARGE_FILE_THRESHOLD_read →
  now' - now ≤ fc_maxAge (FILE_CACHE st) →
  let st1 := addToCache cfg filePath body now random st in
  fst (getFromCache filePath now' st1) = Some body
  ∧ fc_hits (FILE_CACHE (snd (getFromCache filePath now' st1)))
    = fc_hits (FILE_CACHE st) + 1
  ∧ fc_misses (FILE_CACHE (snd (getFromCache filePath now' st1)))
    = fc_misses (FILE_CACHE st).
Proof.
  intros Hen Hne Hsmall Hage st1.
  destruct (getFromCache_alone filePath now' st1) as [-> ->].
  subst st1. rewrite FILE_CACHE_addToCache.
  pose proof (addCache_stores filePath body now (FILE_CACHE st) Hen Hne Hsmall) as Hget.
  destruct (addCache_fields filePath body now (FILE_CACHE st))
    as (Een & _ & Eage & Ehits & Emiss & _).
  unfold getCache. rewrite Een, Hen, Hget. simpl.
  rewrite Eage. rewrite (gtb_false _ _ Hage). simpl.
  rewrite Ehits, Emiss. done.
Qed.

(** X8.  What [addToDirCache] has stored, [getFromDirCache] returns: in an
    enabled cache a lookup of the directory at most [maxAge] after the
    insert is a hit that returns the listing, the empty listing included. *)
Theorem getFromDirCache_after_addToDirCache dirPath entries now now' random st :
  dc_enabled (DIR_CACHE st) = true →
  now' - now ≤ dc_maxAge (DIR_CACHE st) →
  let st1 := addToDirCache cfg dirPath entries now random st in
  fst (getFromDirCache dirPath now' st1) = Some entries
  ∧ dc_hits (DIR_CACHE (snd (getFromDirCache dirPath now' st1)))
    = dc_hits (DIR_CACHE st) + 1.
Proof.
  intros Hen Hage st1.
  destruct (getFromDirCache_alone dirPath now' st1) as [-> ->].
  subst st1. rewrite DIR_CACHE_addToDirCache.
  unfold addDirCache. rewrite Hen. simpl.
  set (c1 := if msize (dc_items (DIR_CACHE st)) >=? dc_maxSize (DIR_CACHE st)
             then evictDirCache now (DIR_CACHE st) else DIR_CACHE st).
  assert (dc_enabled c1 = true ∧ dc_maxAge c1 = dc_maxAge (DIR_CACHE st)
          ∧ dc_hits c1 = dc_hits (DIR_CACHE st)) as (E1 & E2 & E3).
  { subst c1. destruct (_ >=? _); [|done].
    unfold evictDirCache. destruct (snd (scanOldest _ _ _ _)); [|done].
    destruct (bool_decide _); done. }
  clearbody c1.
  unfold getDirCache. simpl. rewrite E1. simpl. rewrite mget_mset_eq. simpl.
  rewrite E2, (gtb_false _ _ Hage). simpl. rewrite E3. done.
Qed.

End CacheRoundTrip.

Section CacheRoundTripExamples.
Local Existing Instance posix.

Lemma getFromCache_after_addToCache_witness :
  let cfg := exampleConfig false in
  let st1 := addToCache cfg "A" "abc" 10 1 smallCaches in
  fc_enabled (FILE_CACHE smallCaches) = true
  ∧ fc_maxSize (FILE_CACHE smallCaches) = 2
  ∧ 20 - 10 ≤ fc_maxAge (FILE_CACHE smallCaches)
  ∧ fst (getFromCache "A" 20 st1) = Some "abc"
  ∧ fc_size (FILE_CACHE st1) = 3.
Proof.
  intros cfg st1.
  destruct (getFromCache_after_addToCache cfg "A" "abc" 10 20 1 smallCaches)
    as (Hhit & _).
  - vm_compute. reflexivity.
  - discriminate.
  - vm_compute. discriminate.
  - vm_compute. discriminate.
  - split; [vm_compute; reflexivity|].
    split; [vm_compute; reflexivity|].
    split; [vm_compute; discriminate|].
    split; [exact Hhit|vm_compute; reflexivity].
Defined.

Lemma getFromDirCache_after_addToDirCache_witness :
  let cfg := exampleConfig false in
  let st1 := addToDirCache cfg "/d" [] 10 1 smallCaches in
  dc_enabled (DIR_CACHE smallCaches) = true
  ∧ 20 - 10 ≤ dc_maxAge (DIR_CACHE smallCaches)
  ∧ fst (getFromDirCache "/d" 20 st1) = Some []
  ∧ dc_hits (DIR_CACHE (snd (getFromDirCache "/d" 20 st1))) = 1.
Proof.
  intros cfg st1.
  destruct (getFromDirCache_after_addToDirCache cfg "/d" [] 10 20 1 smallCaches)
    as (Hhit & Hhits).
  - vm_compute. reflexivity.
  - vm_compute. discriminate.
  - split; [vm_compute; reflexivity|].
    split; [vm_compute; discriminate|].
    split; [exact Hhit|exact Hhits].
Defined.

End CacheRoundTripExamples.

(** ** What a read returns *)

Section Reads.
Context `{PathLib} (cfg : Config).

(** A read of a path whose entry is fresh and not empty is served from the
    cache; the hit is counted by [getFromCache] and again by [readFile]. *)
Lemma readFile_hit filePath now random st node item :
  validateToolCall cfg "read_file" [filePath] = true →
  fs st !! filePath = Some node →
  fc_enabled (FILE_CACHE st) = true →
  mget filePath (fc_items (FILE_CACHE st)) = Some item →
  now - timestamp item ≤ fc_maxAge (FILE_CACHE st) →
  content item ≠ EmptyString →
  fst (readFile cfg filePath now random st) = ReadOk (content item) false
  ∧ fc_hits (FILE_CACHE (snd (readFile cfg filePath now random st)))
    = fc_hits (FILE_CACHE st) + 2
  ∧ fc_misses (FILE_CACHE (snd (readFile cfg filePath now random st)))
    = fc_misses (FILE_CACHE st)
  ∧ fs (snd (readFile cfg filePath now random st)) = fs st
  ∧ pool (snd (readFile cfg filePath now random st)) = pool st.
Proof.
  intros Hok Hfile Hen Hget Hage Hne. unfold readFile. rewrite Hok, Hfile. simpl.
  rewrite Hen. unfold getFromCache. rewrite Hen, Hget. simpl.
  rewrite (gtb_false _ _ Hage). simpl.
  rewrite (bool_decide_eq_false_2 _ Hne). simpl.
  repeat split; lia.
Qed.

(** A text has at least as many bytes as characters, and at most twice as
    many. *)
Lemma strlen_statSize s : strlen s ≤ statSize s ≤ 2 * strlen s.
Proof.
  induction s as [|c r IH]; [done|].
  unfold strlen in *. cbn [statSize String.length]. rewrite Nat2Z.inj_succ.
  destruct (_ <? _)%nat; lia.
Qed.

(** A read of a file for whose path the cache holds no entry: the content
    comes from the file system, the miss is counted by [getFromCache] and
    again by [readFile], and the content of a file that is not empty and
    smaller than 1 MB is stored. *)
Lemma readFile_miss filePath now random st body :
  validateToolCall cfg "read_file" [filePath] = true →
  fs st !! filePath = Some (FsFile body) →
  fc_enabled (FILE_CACHE st) = true →
  mget filePath (fc_items (FILE_CACHE st)) = None →
  statSize body ≤ orElse (thresholdRead cfg) LARGE_FILE_THRESHOLD_read →
  statSize body < 1024 * 1024 →
  body ≠ EmptyString →
  let st1 := snd (readFile cfg filePath now random st) in
  fst (readFile cfg filePath now random st) = ReadOk body false
  ∧ mget filePath (fc_items (FILE_CACHE st1))
    = Some {| content := body; timestamp := now; lastAccess := now |}
  ∧ fc_enabled (FILE_CACHE st1) = true
  ∧ fc_maxAge (FILE_CACHE st1) = fc_maxAge (FILE_CACHE st)
  ∧ fc_hits (FILE_CACHE st1) = fc_hits (FILE_CACHE st)
  ∧ fc_misses (FILE_CACHE st1) = fc_misses (FILE_CACHE st) + 2
  ∧ fs st1 = fs st.
Proof.
  intros Hok Hfile Hen Hnone Hthr Hsmall Hne. unfold readFile.
  rewrite Hok, Hfile. simpl. rewrite Hen.
  unfold getFromCache. rewrite Hen, Hnone. simpl.
  rewrite (gtb_false _ _ Hthr). simpl. rewrite Hen. simpl.
  assert ((statSize body <? 1024 * 1024) = true) as -> by (apply Z.ltb_lt; lia).
  simpl.
  rewrite FILE_CACHE_addToCache.
  match goal with
  | |- context [addCache ?p ?b ?n ?c0] =>
      destruct (addCache_fields p b n c0) as (Een & _ & Eage & Ehits & Emiss & _);
      pose proof (addCache_stores p b n c0) as Hstore
  end.
  simpl in *.
  split; [done|].
  split.
  { apply Hstore; [done|done|].
    pose proof (strlen_statSize body). unfold LARGE_FILE_THRESHOLD_read. lia. }
  split; [congruence|]. split; [done|]. split; [done|]. split; [lia|].
  match goal with
  | |- fs (addToCache cfg ?p ?b ?n ?r ?s) = _ =>
      destruct (addToCache_frame cfg p b n r s) as [_ ->]
  end.
  done.
Qed.

(** X9.  What [readFile] returns for a file that exists is the content that
    the file has now, or the content, not empty, of the entry that the
    enabled cache holds for the path and that is at most [maxAge] old. *)
Theorem readFile_returns_disk_or_fresh_entry filePath now random st body :
  validateToolCall cfg "read_file" [filePath] = true →
  fs st !! filePath = Some (FsFile body) →
  (∃ streamed, fst (readFile cfg filePath now random st) = ReadOk body streamed)
  ∨ (∃ item,
       fc_enabled (FILE_CACHE st) = true
       ∧ mget filePath (fc_items (FILE_CACHE st)) = Some item
       ∧ content item ≠ EmptyString
       ∧ now - timestamp item ≤ fc_maxAge (FILE_CACHE st)
       ∧ fst (readFile cfg filePath now random st) = ReadOk (content item) false).
Proof.
  intros Hok Hfile.
  destruct (fc_enabled (FILE_CACHE st)) eqn:Hen.
  - destruct (mget filePath (fc_items (FILE_CACHE st))) as [item|] eqn:Hget.
    + destruct (Z.gtb_spec (now - timestamp item) (fc_maxAge (FILE_CACHE st)))
        as [Hold|Hfresh].
      * left. unfold readFile. rewrite Hok, Hfile. simpl. rewrite Hen.
        unfold getFromCache. rewrite Hen, Hget. simpl.
        rewrite (proj2 (Z.gtb_lt _ _)) by lia. simpl.
        destruct (_ >? _); simpl; eauto.
      * destruct (decide (content item = EmptyString)) as [Hempty|Hne].
        -- left. by eapply readFile_ignores_empty_entry.
        -- right. exists item.
           destruct (readFile_hit filePath now random st _ item Hok Hfile Hen Hget Hfresh Hne)
             as (Hres & _).
           done.
    + left. destruct (readFile_without_entry cfg filePath now random st body Hok Hfile Hget)
        as [Hres _]. eauto.
  - left. unfold readFile. rewrite Hok, Hfile. simpl. rewrite Hen. simpl.
    destruct (_ >? _); simpl; eauto.
Qed.

(** X10.  Reading twice.  The first read of a file that is not empty, is
    smaller than 1 MB (in bytes, as [fs.statSync] reports it) and not above
    the stream threshold, and is not in the enabled cache, returns the
    content of the file and stores it; the second read, at most [maxAge]
    later, returns the same content from the cache, whatever the file holds
    by then, as long as the path still exists.  [readFile] counts the miss
    of the first read twice, and the hit of the second read twice. *)
Theorem readFile_twice filePath body now now' random random' st f' node :
  validateToolCall cfg "read_file" [filePath] = true →
  fc_enabled (FILE_CACHE st) = true →
  fs st !! filePath = Some (FsFile body) →
  mget filePath (fc_items (FILE_CACHE st)) = None →
  body ≠ EmptyString →
  statSize body < 1024 * 1024 →
  statSize body ≤ orElse (thresholdRead cfg) LARGE_FILE_THRESHOLD_read →
  now' - now ≤ fc_maxAge (FILE_CACHE st) →
  f' !! filePath = Some node →
  let r1 := readFile cfg filePath now random st in
  let r2 := readFile cfg filePath now' random' (withFs (snd r1) f') in
  fst r1 = ReadOk body false
  ∧ fc_misses (FILE_CACHE (snd r1)) = fc_misses (FILE_CACHE st) + 2
  ∧ fst r2 = ReadOk body false
  ∧ fc_hits (FILE_CACHE (snd r2)) = fc_hits (FILE_CACHE st) + 2
  ∧ fc_misses (FILE_CACHE (snd r2)) = fc_misses (FILE_CACHE st) + 2.
Proof.
  intros Hok Hen Hfile Hnone Hne Hsmall Hthr Hage Hnode r1 r2.
  destruct (readFile_miss filePath now random st body Hok Hfile Hen Hnone Hthr Hsmall Hne)
    as (Hres1 & Hstored & Hen1 & Hage1 & Hhits1 & Hmiss1 & _).
  fold r1 in Hres1, Hstored, Hen1, Hage1, Hhits1, Hmiss1.
  destruct (readFile_hit filePath now' random' (withFs (snd r1) f') node
              {| content := body; timestamp := now; lastAccess := now |})
    as (Hres2 & Hhits2 & Hmiss2 & _); try done.
  { simpl. rewrite Hage1. done. }
  fold r2 in Hres2, Hhits2, Hmiss2. simpl in *.
  repeat split; try done; lia.
Qed.

End Reads.

Section ReadsExamples.
Local Existing Instance posix.

(** The file [/d/a.txt] was cached with the content hello at time 1000 and
    has been changed on disk since: the read at time 2000 returns the cached
    content, the read at time 3600000 the content of the file. *)
Lemma readFile_returns_disk_or_fresh_entry_witness :
  let cfg := exampleConfig true in
  let changed := withFs bothCached (<["/d/a.txt" := FsFile "bye"]> (fs bothCached)) in
  validateToolCall cfg "read_file" ["/d/a.txt"] = true
  ∧ fs changed !! "/d/a.txt" = Some (FsFile "bye")
  ∧ ((∃ streamed, fst (readFile cfg "/d/a.txt" 2000 9 changed) = ReadOk "bye" streamed)
     ∨ (∃ item,
          fc_enabled (FILE_CACHE changed) = true
          ∧ mget "/d/a.txt" (fc_items (FILE_CACHE changed)) = Some item
          ∧ content item ≠ EmptyString
          ∧ 2000 - timestamp item ≤ fc_maxAge (FILE_CACHE changed)
          ∧ fst (readFile cfg "/d/a.txt" 2000 9 changed) = ReadOk (content item) false))
  ∧ fst (readFile cfg "/d/a.txt" 2000 9 changed) = ReadOk "hello" false
  ∧ fst (readFile cfg "/d/a.txt" 3600000 9 changed) = ReadOk "bye" false.
Proof.
  intros cfg changed.
  split; [reflexivity|].
  split; [vm_compute; reflexivity|].
  split.
  - apply (readFile_returns_disk_or_fresh_entry cfg "/d/a.txt" 2000 9 changed "bye");
      vm_compute; reflexivity.
  - split; vm_compute; reflexivity.
Defined.

Lemma readFile_twice_witness :
  let cfg := exampleConfig false in
  let st := cachingState false in
  let f' := <["/d/a.txt" := FsFile "bye"]> exampleFs in
  let r1 := readFile cfg "/d/a.txt" 1000 7 st in
  let r2 := readFile cfg "/d/a.txt" 2000 8 (withFs (snd r1) f') in
  fs st !! "/d/a.txt" = Some (FsFile "hello")
  ∧ f' !! "/d/a.txt" = Some (FsFile "bye")
  ∧ 2000 - 1000 ≤ fc_maxAge (FILE_CACHE st)
  ∧ fst r1 = ReadOk "hello" false
  ∧ fc_misses (FILE_CACHE (snd r1)) = fc_misses (FILE_CACHE st) + 2
  ∧ fst r2 = ReadOk "hello" false
  ∧ fc_hits (FILE_CACHE (snd r2)) = fc_hits (FILE_CACHE st) + 2
  ∧ fc_misses (FILE_CACHE (snd r2)) = fc_misses (FILE_CACHE st) + 2.
Proof.
  intros cfg st f' r1 r2.
  assert (fs st !! "/d/a.txt" = Some (FsFile "hello")) as Hfile by (vm_compute; reflexivity).
  assert (f' !! "/d/a.txt" = Some (FsFile "bye")) as Hnode by (vm_compute; reflexivity).
  assert (2000 - 1000 ≤ fc_maxAge (FILE_CACHE st)) as Hage by (vm_compute; discriminate).
  assert (fc_enabled (FILE_CACHE st) = true) as Hen by (vm_compute; reflexivity).
  assert (mget "/d/a.txt" (fc_items (FILE_CACHE st)) = None) as Hnone by (vm_compute; reflexivity).
  assert (statSize "hello" < 1024 * 1024) as Hsmall by (vm_compute; reflexivity).
  assert (statSize "hello" ≤ orElse (thresholdRead cfg) LARGE_FILE_THRESHOLD_read) as Hthr
    by (vm_compute; discriminate).
  pose proof (readFile_twice cfg "/d/a.txt" "hello" 1000 2000 7 8 st f' (FsFile "bye")
                eq_refl Hen Hfile Hnone ltac:(discriminate) Hsmall Hthr Hage Hnode) as Hthm.
  split; [exact Hfile|].
  split; [exact Hnode|].
  split; [exact Hage|].
  exact Hthm.
Defined.

End ReadsExamples.

(** ** Reads after writes *)

Section ReadsAfterWrites.
Context `{PathLib} (cfg : Config).

(** A read of a file whose entry has expired comes from the file system. *)
Lemma readFile_expired filePath now random st body item :
  validateToolCall cfg "read_file" [filePath] = true →
  fs st !! filePath = Some (FsFile body) →
  fc_enabled (FILE_CACHE st) = true →
  mget filePath (fc_items (FILE_CACHE st)) = Some item →
  now - timestamp item > fc_maxAge (FILE_CACHE st) →
  ∃ streamed, fst (readFile cfg filePath now random st) = ReadOk body streamed.
Proof.
  intros Hok Hfile Hen Hget Hold. unfold readFile. rewrite Hok, Hfile. simpl.
  rewrite Hen. unfold getFromCache. rewrite Hen, Hget. simpl.
  rewrite (proj2 (Z.gtb_lt _ _)) by lia. simpl.
  destruct (_ >? _); simpl; eauto.
Qed.

(** A read with the cache switched off comes from the file system. *)
Lemma readFile_disabled filePath now random st body :
  validateToolCall cfg "read_file" [filePath] = true →
  fs st !! filePath = Some (FsFile body) →
  fc_enabled (FILE_CACHE st) = false →
  ∃ streamed, fst (readFile cfg filePath now random st) = ReadOk body streamed.
Proof.
  intros Hok Hfile Hen. unfold readFile. rewrite Hok, Hfile. simpl.
  rewrite Hen. simpl. destruct (_ >? _); simpl; eauto.
Qed.

Lemma writeNode_stores append filePath body f f' :
  writeNode append filePath body f = Some f' →
  f' !! filePath
  = Some (FsFile (match f !! filePath with
                  | Some (FsFile old) => if append then old +:+ body else body
                  | _ => body
                  end)).
Proof.
  unfold writeNode.
  destruct (f !! dirname filePath) as [[c|]|];
    destruct (f !! filePath) as [[old|]|]; try done;
    intros [= <-]; by rewrite lookup_insert_eq.
Qed.

(** What a write that is not streamed leaves behind. *)
Lemma writeFile_effect filePath body now random st :
  fst (writeFile cfg filePath body now random st) = Written false →
  let st' := snd (writeFile cfg filePath body now random st) in
  fs st' !! filePath = Some (FsFile body)
  ∧ fc_enabled (FILE_CACHE st') = fc_enabled (FILE_CACHE st)
  ∧ fc_maxAge (FILE_CACHE st') = fc_maxAge (FILE_CACHE st).
Proof.
  unfold writeFile.
  destruct (negb _); [done|].
  destruct (ensureDir _ _) as [f0|]; [|done].
  destruct (_ >? _).
  { destruct (writeNode _ _ _ _); done. }
  destruct (writeNode false filePath body _) as [f|] eqn:Hw; [|done].
  simpl. intros _.
  apply writeNode_stores in Hw.
  assert (f !! filePath = Some (FsFile body)) as Hf.
  { rewrite Hw.
    match goal with
    | |- context [match ?x with _ => _ end] => by destruct x as [[old|]|]
    end. }
  destruct (_ && _); simpl; [|done].
  match goal with
  | |- context [addToCache cfg ?p ?b ?n ?r ?s] =>
      destruct (addToCache_frame cfg p b n r s) as [_ ->];
      rewrite (FILE_CACHE_addToCache cfg p b n r s);
      destruct (addCache_fields p b n (FILE_CACHE s)) as (-> & _ & -> & _)
  end.
  done.
Qed.

(** X11.  Reading one's own write.  After a [writeFile] that succeeded
    without streaming, with a content that is not empty and not longer than
    10 MB, the next [readFile] of the path returns the written content,
    whether the path was cached before the write or not and whenever the
    read takes place. *)
Theorem readFile_after_writeFile filePath body now now' random random' st :
  validateToolCall cfg "read_file" [filePath] = true →
  fst (writeFile cfg filePath body now random st) = Written false →
  body ≠ EmptyString →
  strlen body ≤ LARGE_FILE_THRESHOLD_read →
  ∃ streamed,
    fst (readFile cfg filePath now' random'
           (snd (writeFile cfg filePath body now random st)))
    = ReadOk body streamed.
Proof.
  intros Hok Hwritten Hne Hsmall.
  destruct (writeFile_effect filePath body now random st Hwritten) as (Hfile & Hen & Hage).
  destruct (fc_enabled (FILE_CACHE st)) eqn:Hen0.
  - pose proof (writeFile_refreshes cfg filePath body now random st Hen0 Hne Hsmall Hwritten)
      as Hentry.
    destruct (mhas filePath (fc_items (FILE_CACHE st))).
    + destruct (Z.gtb_spec (now' - now)
                  (fc_maxAge (FILE_CACHE (snd (writeFile cfg filePath body now random st)))))
        as [Hold|Hfresh].
      * eapply readFile_expired; try done. simpl. lia.
      * exists false.
        destruct (readFile_hit cfg filePath now' random' _ _ _ Hok Hfile Hen Hentry)
          as (Hres & _); done.
    + destruct (readFile_without_entry cfg filePath now' random' _ body Hok Hfile Hentry)
        as [Hres _]. eauto.
  - by eapply readFile_disabled.
Qed.

(** What an append that is not streamed leaves behind. *)
Lemma appendFile_effect filePath body st :
  fst (appendFile cfg filePath body st) = Appended false →
  let st' := snd (appendFile cfg filePath body st) in
  fs st' !! filePath
  = Some (FsFile (match fs st !! filePath with
                  | Some (FsFile old) => old +:+ body
                  | _ => body
                  end))
  ∧ (fc_enabled (FILE_CACHE st') = true →
     mget filePath (fc_items (FILE_CACHE st')) = None).
Proof.
  unfold appendFile.
  destruct (negb _); [done|].
  destruct (ensureDir (dirname filePath) (fs st)) as [f0|] eqn:He; [|done].
  destruct (_ >? _).
  { destruct (writeNode _ _ _ _); done. }
  destruct (writeNode true filePath body _) as [f|] eqn:Hw; [|done].
  simpl. intros _.
  pose proof Hw as Hdir. unfold writeNode in Hdir.
  apply writeNode_stores in Hw. simpl in Hw, Hdir.
  destruct (dropCached_frame filePath (withFs (withFs st f0) f)) as [_ ->].
  simpl. split.
  - rewrite Hw.
    destruct (ensureDir_lookup _ _ _ filePath He) as [->|[_ Hd]]; [done|].
    exfalso. rewrite Hd in Hdir. by destruct (f0 !! dirname filePath) as [[?|]|].
  - intros Hen. apply dropCached_removes. simpl.
    unfold dropCached in Hen. simpl in Hen.
    destruct (fc_enabled (FILE_CACHE st)) eqn:E0; [done|].
    simpl in Hen. congruence.
Qed.

(** X12.  After an [appendFile] that succeeded without streaming, the next
    [readFile] returns the content that the file had, followed by what was
    appended: the append has removed the entry of the path from the cache.
    After a [deleteFile] that succeeded, the next [readFile] fails, whatever
    the cache holds. *)
Theorem readFile_after_appendFile_and_deleteFile filePath body now random st :
  validateToolCall cfg "read_file" [filePath] = true →
  (fst (appendFile cfg filePath body st) = Appended false →
   ∃ streamed,
     fst (readFile cfg filePath now random (snd (appendFile cfg filePath body st)))
     = ReadOk (match fs st !! filePath with
               | Some (FsFile old) => old +:+ body
               | _ => body
               end) streamed)
  ∧ (succeeded (fst (deleteFile cfg filePath st)) = true →
     fst (readFile cfg filePath now random (snd (deleteFile cfg filePath st))) = Failed).
Proof.
  intros Hok. split.
  - intros Happ.
    destruct (appendFile_effect filePath body st Happ) as [Hfile Hgone].
    destruct (fc_enabled (FILE_CACHE (snd (appendFile cfg filePath body st)))) eqn:Hen.
    + destruct (readFile_without_entry cfg filePath now random _ _ Hok Hfile (Hgone eq_refl))
        as [Hres _]. eauto.
    + by eapply readFile_disabled.
  - unfold deleteFile.
    destruct (negb _); [done|].
    destruct (fs st !! filePath) as [[old|]|] eqn:Hfile; simpl; try done.
    + intros _. unfold readFile. rewrite Hok. simpl.
      destruct (dropCached_frame filePath (withFs st (delete filePath (fs st)))) as [_ ->].
      simpl. by rewrite lookup_delete_eq.
    + intros _. unfold readFile. rewrite Hok. simpl. by rewrite Hfile.
Qed.

(** X13.  A [moveFile] that renames takes the cache entry of the source
    along: the destination is then cached with the very entry that the
    source had, content and timestamps, the source has no entry, and [size]
    is as before. *)
Theorem moveFile_moves_the_cache_entry source destination st item node :
  fc_enabled (FILE_CACHE st) = true →
  fst (moveFile cfg source destination st) = Moved false →
  source ≠ destination →
  fs st !! source = Some node →
  mget source (fc_items (FILE_CACHE st)) = Some item →
  let st' := snd (moveFile cfg source destination st) in
  mget destination (fc_items (FILE_CACHE st')) = Some item
  ∧ mget source (fc_items (FILE_CACHE st')) = None
  ∧ fc_size (FILE_CACHE st') = fc_size (FILE_CACHE st)
  ∧ fs st' !! source = None
  ∧ fs st' !! destination = Some node.
Proof.
  intros Hen Hmoved Hne Hsrc Hget. unfold moveFile in *.
  destruct (negb _); [done|].
  destruct (fs st !! destination) eqn:Hdest; [done|].
  assert (∀ s, fst (let '(copyResult, st0) := copyFile cfg source destination true s in
                    match copyResult with
                    | Throws => (Throws, st0)
                    | Copied _ =>
                        match fs st0 !! source with
                        | Some (FsFile _) =>
                            (Moved true,
                             dropCached source (withFs st0 (delete source (fs st0))))
                        | _ => (Throws, st0)
                        end
                    | other => (other, st0)
                    end) ≠ Moved false) as Hcopy.
  { intros s.
    pose proof (copyFile_outcome cfg source destination true s) as Ho.
    destruct (copyFile cfg source destination true s) as [copyResult st2].
    simpl in Ho. destruct Ho as [-> | [-> | [streamed ->]]]; try done.
    destruct (fs st2 !! source) as [[body|]|]; done. }
  destruct (ensureDir (dirname destination) (fs st)) as [f0|] eqn:He;
    [|by apply Hcopy in Hmoved].
  pose proof (ensureDir_keeps _ _ _ _ _ He Hsrc) as Hsrc1.
  destruct (renameSync cfg source destination f0) as [f|] eqn:Hr;
    [|by apply Hcopy in Hmoved].
  unfold renameSync in Hr. rewrite Hsrc1 in Hr.
  destruct (crossDevice cfg source destination); [done|].
  assert (f = <[destination := node]> (delete source f0)) as ->
    by (destruct (f0 !! dirname destination) as [[?|]|]; congruence).
  - simpl in *. rewrite Hen, Hget. simpl.
    split; [rewrite mget_mdel_ne by done; apply mget_mset_eq|].
    split; [apply mget_mdel_eq|].
    split; [done|].
    split.
    + rewrite lookup_insert_ne by done. apply lookup_delete_eq.
    + apply lookup_insert_eq.
Qed.

End ReadsAfterWrites.

Section ReadsAfterWritesExamples.
Local Existing Instance posix.

(** [/d/a.txt] is cached with the content hello; it is overwritten, and
    read an hour later and at once. *)
Lemma readFile_after_writeFile_witness :
  let cfg := exampleConfig true in
  let w := writeFile cfg "/d/a.txt" "bye" 2000 9 bothCached in
  validateToolCall cfg "read_file" ["/d/a.txt"] = true
  ∧ fst (getFromCache "/d/a.txt" 2000 bothCached) = Some "hello"
  ∧ fst w = Written false
  ∧ strlen "bye" ≤ LARGE_FILE_THRESHOLD_read
  ∧ (∃ streamed, fst (readFile cfg "/d/a.txt" 3600000 5 (snd w)) = ReadOk "bye" streamed)
  ∧ fst (readFile cfg "/d/a.txt" 2001 5 (snd w)) = ReadOk "bye" false.
Proof.
  intros cfg w.
  assert (fst w = Written false) as Hw by (vm_compute; reflexivity).
  assert (strlen "bye" ≤ LARGE_FILE_THRESHOLD_read) as Hsmall by (vm_compute; discriminate).
  pose proof (readFile_after_writeFile cfg "/d/a.txt" "bye" 2000 3600000 9 5 bothCached
                eq_refl Hw ltac:(discriminate) Hsmall) as Hread.
  split; [reflexivity|].
  split; [vm_compute; reflexivity|].
  split; [exact Hw|].
  split; [exact Hsmall|].
  split; [exact Hread|].
  vm_compute. reflexivity.
Defined.

Lemma readFile_after_appendFile_and_deleteFile_witness :
  let cfg := exampleConfig true in
  let a := appendFile cfg "/d/a.txt" "!" bothCached in
  let d := deleteFile cfg "/d/a.txt" bothCached in
  validateToolCall cfg "read_file" ["/d/a.txt"] = true
  ∧ fst (getFromCache "/d/a.txt" 2000 bothCached) = Some "hello"
  ∧ fst a = Appended false
  ∧ succeeded (fst d) = true
  ∧ (∃ streamed, fst (readFile cfg "/d/a.txt" 2000 5 (snd a)) = ReadOk "hello!" streamed)
  ∧ fst (readFile cfg "/d/a.txt" 2000 5 (snd d)) = Failed.
Proof.
  intros cfg a d.
  assert (fst a = Appended false) as Ha by (vm_compute; reflexivity).
  assert (succeeded (fst d) = true) as Hd by (vm_compute; reflexivity).
  destruct (readFile_after_appendFile_and_deleteFile cfg "/d/a.txt" "!" 2000 5 bothCached
              eq_refl) as [Happ Hdel].
  split; [reflexivity|].
  split; [vm_compute; reflexivity|].
  split; [exact Ha|].
  split; [exact Hd|].
  split; [exact (Happ Ha)|exact (Hdel Hd)].
Defined.

Lemma moveFile_moves_the_cache_entry_witness :
  let cfg := exampleConfig true in
  let m := moveFile cfg "/d/a.txt" "/d/c.txt" bothCached in
  let item := {| content := "hello"; timestamp := 1000; lastAccess := 1000 |} in
  fc_enabled (FILE_CACHE bothCached) = true
  ∧ fst m = Moved false
  ∧ fs bothCached !! "/d/a.txt" = Some (FsFile "hello")
  ∧ mget "/d/a.txt" (fc_items (FILE_CACHE bothCached)) = Some item
  ∧ mget "/d/c.txt" (fc_items (FILE_CACHE (snd m))) = Some item
  ∧ mget "/d/a.txt" (fc_items (FILE_CACHE (snd m))) = None
  ∧ fs (snd m) !! "/d/c.txt" = Some (FsFile "hello")
  ∧ fst (getFromCache "/d/c.txt" 2000 (snd m)) = Some "hello".
Proof.
  intros cfg m item.
  assert (fc_enabled (FILE_CACHE bothCached) = true) as Hen by (vm_compute; reflexivity).
  assert (fst m = Moved false) as Hm by (vm_compute; reflexivity).
  assert (fs bothCached !! "/d/a.txt" = Some (FsFile "hello")) as Hsrc
    by (vm_compute; reflexivity).
  assert (mget "/d/a.txt" (fc_items (FILE_CACHE bothCached)) = Some item) as Hget
    by (vm_compute; reflexivity).
  destruct (moveFile_moves_the_cache_entry cfg "/d/a.txt" "/d/c.txt" bothCached item
              (FsFile "hello") Hen Hm ltac:(discriminate) Hsrc Hget)
    as (Hdst & Hgone & _ & _ & Hfs).
  split; [exact Hen|].
  split; [exact Hm|].
  split; [exact Hsrc|].
  split; [exact Hget|].
  split; [exact Hdst|].
  split; [exact Hgone|].
  split; [exact Hfs|].
  vm_compute. reflexivity.
Defined.

End ReadsAfterWritesExamples.

(** ** The size of the file-content cache *)

Section Accounting.
Context `{PathLib} (cfg : Config).

Lemma totalLength_app l1 l2 : totalLength (l1 ++ l2) = totalLength l1 + totalLength l2.
Proof.
  induction l1 as [|e l1 IH]; [done|].
  rewrite <- app_comm_cons, !totalLength_cons, IH. lia.
Qed.

Lemma totalLength_perm l1 l2 : l1 ≡ₚ l2 → totalLength l1 = totalLength l2.
Proof.
  induction 1 as [|e l1 l2 _ IH|e1 e2 l|l1 l2 l3 _ IH1 _ IH2].
  - done.
  - by rewrite !totalLength_cons, IH.
  - rewrite !totalLength_cons. lia.
  - congruence.
Qed.

Lemma totalLength_nonneg l : 0 ≤ totalLength l.
Proof.
  induction l as [|e l IH]; [done|].
  rewrite totalLength_cons. unfold strlen. lia.
Qed.

Lemma totalLength_mdel k v (m : list (string * CacheItem)) :
  NoDup (mkeys m) → mget k m = Some v →
  totalLength (mdel k m) = totalLength m - strlen (content v).
Proof.
  unfold totalLength.
  induction m as [|[k' v'] m IH]; simpl; [done|].
  intros Hnd. apply NoDup_cons in Hnd as [Hnotin Hnd].
  destruct (decide (k = k')) as [->|Hne].
  - intros [= ->]. rewrite mdel_absent by (by apply mget_None_notin). lia.
  - intros Hg. simpl. rewrite IH by done. lia.
Qed.

Lemma totalLength_mset_present k v v' (m : list (string * CacheItem)) :
  mget k m = Some v → strlen (content v') = strlen (content v) →
  totalLength (mset k v' m) = totalLength m.
Proof.
  unfold totalLength.
  induction m as [|[k0 v0] m IH]; simpl; [done|].
  destruct (decide (k = k0)) as [->|Hne].
  - intros [= ->] Hlen. simpl. lia.
  - intros Hg Hlen. simpl. rewrite IH by done. done.
Qed.

(** Evicting some of the entries. *)
Lemma withoutKeys_accounting (l m : list (string * CacheItem)) :
  NoDup (mkeys m) → NoDup (mkeys l) → (∀ e, e ∈ l → e ∈ m) →
  NoDup (mkeys (withoutKeys l m))
  ∧ totalLength (withoutKeys l m) = totalLength m - totalLength l.
Proof.
  revert m. induction l as [|[k v] l IH]; intros m Hnd Hndl Hsub.
  { split; [done|]. unfold withoutKeys, totalLength. simpl. lia. }
  simpl in Hndl. apply NoDup_cons in Hndl as [Hnotin Hndl].
  assert (mget k m = Some v) as Hget.
  { apply elem_mget; [done|]. apply Hsub. by left. }
  destruct (IH (mdel k m)) as [Hnd' Hlen].
  - by apply NoDup_mkeys_mdel.
  - done.
  - intros [k' v'] Hin. apply elem_of_mdel_2.
    + apply Hsub. by right.
    + intros ->. apply Hnotin. apply list_elem_of_fmap. by exists (k, v').
  - change (withoutKeys ((k, v) :: l) m) with (withoutKeys l (mdel k m)).
    split; [done|].
    rewrite Hlen, totalLength_cons, (totalLength_mdel k v) by done. simpl. lia.
Qed.

Lemma ensureCache_accounted requiredSpace c :
  accounted c →
  accounted (ensureCache requiredSpace c)
  ∧ (0 ≤ requiredSpace ≤ fc_maxSize c →
     fc_size (ensureCache requiredSpace c) + requiredSpace ≤ fc_maxSize c)
  ∧ (∀ k, mget k (fc_items c) = None →
          mget k (fc_items (ensureCache requiredSpace c)) = None).
Proof.
  intros [Hnd Hsize]. unfold ensureCache.
  destruct (Z.leb_spec (fc_size c + requiredSpace) (fc_maxSize c)) as [Hroom|Hfull].
  { split; [done|]. split; [done|]. done. }
  destruct (decide (sortByLastAccess (fc_items c) = [])) as [Hnil|Hne].
  { rewrite Hnil. simpl. apply sortByLastAccess_nil in Hnil.
    split; [done|]. split; [|done].
    rewrite Hsize, Hnil. unfold totalLength. simpl. lia. }
  destruct (evictCache_prefix requiredSpace _ c Hne)
    as (k & Hk & Hitems & Hsz & _ & Hstop & _).
  set (evicted := take k (sortByLastAccess (fc_items c))) in *.
  assert (∀ e, e ∈ evicted → e ∈ fc_items c) as Hsub.
  { intros e He. rewrite <- (sortByLastAccess_perm (fc_items c)).
    subst evicted. eapply elem_of_sublist; [exact He|apply sublist_take]. }
  assert (NoDup (mkeys evicted)) as Hnde.
  { eapply sublist_NoDup.
    - assert (mkeys (sortByLastAccess (fc_items c)) ≡ₚ mkeys (fc_items c)) as Hp
        by (apply fmap_Permutation, sortByLastAccess_perm).
      rewrite <- Hp in Hnd. exact Hnd.
    - apply (fmap_sublist fst). subst evicted. apply sublist_take. }
  destruct (withoutKeys_accounting evicted (fc_items c) Hnd Hnde Hsub) as [Hnd' Hlen].
  split; [|split].
  - split; [by rewrite Hitems|]. rewrite Hsz, Hitems, Hlen. lia.
  - intros Hr. destruct Hstop as [Hok| ->]; [done|].
    rewrite Hsz. subst evicted. rewrite take_ge by lia.
    rewrite (totalLength_perm _ _ (sortByLastAccess_perm (fc_items c))). lia.
  - intros key Hnone. rewrite Hitems.
    clear -Hnone. revert Hnone. generalize (fc_items c). 
    induction evicted as [|[k' v'] l IH]; intros m Hnone; [done|].
    change (withoutKeys ((k', v') :: l) m) with (withoutKeys l (mdel k' m)).
    apply IH. destruct (decide (k' = key)) as [->|Hne].
    + apply mget_mdel_eq.
    + by rewrite mget_mdel_ne.
Qed.

Lemma addCache_accounted filePath body now c :
  accounted c →
  mget filePath (fc_items c) = None →
  accounted (addCache filePath body now c)
  ∧ (fc_enabled c = true → body ≠ EmptyString →
     strlen body ≤ LARGE_FILE_THRESHOLD_read → strlen body ≤ fc_maxSize c →
     fc_size (addCache filePath body now c) ≤ fc_maxSize c).
Proof.
  intros Hacc Hnone. unfold addCache.
  destruct (fc_enabled c) eqn:Hen; simpl; [|by split].
  case_bool_decide as Hempty; [by split|].
  destruct (Z.gtb_spec (strlen body) LARGE_FILE_THRESHOLD_read) as [Hbig|Hsmall].
  { split; [done|]. intros _ _ ?. lia. }
  rewrite Hnone.
  destruct (ensureCache_accounted (strlen body) c Hacc) as ([Hnd Hsize] & Hroom & Hkeep).
  destruct (ensureCache_fields (strlen body) c) as (_ & Emax & _).
  specialize (Hkeep filePath Hnone).
  split.
  - split; simpl.
    + by apply NoDup_mkeys_mset.
    + rewrite mset_fresh by done. rewrite totalLength_app, totalLength_cons, Hsize.
      change (totalLength []) with 0. simpl. lia.
  - intros _ _ _ Hfits. simpl. apply Hroom. unfold strlen in *. lia.
Qed.

Lemma getCache_accounted filePath now c :
  accounted c → accounted (snd (getCache filePath now c)).
Proof.
  intros [Hnd Hsize]. unfold getCache.
  destruct (negb _); [done|].
  destruct (mget filePath (fc_items c)) as [item|] eqn:Hget; [|done].
  destruct (_ >? _); simpl.
  - split; simpl.
    + by apply NoDup_mkeys_mdel.
    + rewrite (totalLength_mdel filePath item) by done. lia.
  - split; simpl.
    + by apply NoDup_mkeys_mset.
    + rewrite (totalLength_mset_present filePath item) by done. done.
Qed.

(** X14.  The size of the cache stays exact and bounded across lookups and
    inserts of new paths.  When [FILE_CACHE.size] is the total length of the
    cached contents, it still is after [getFromCache], and after
    [addToCache] of a path that the cache does not hold; and when that
    insert stores a content no longer than [maxSize], the size is at most
    [maxSize] afterwards. *)
Theorem cache_size_exact_and_bounded filePath body now random st :
  accounted (FILE_CACHE st) →
  accounted (FILE_CACHE (snd (getFromCache filePath now st)))
  ∧ (mget filePath (fc_items (FILE_CACHE st)) = None →
     accounted (FILE_CACHE (addToCache cfg filePath body now random st))
     ∧ (fc_enabled (FILE_CACHE st) = true → body ≠ EmptyString →
        strlen body ≤ LARGE_FILE_THRESHOLD_read →
        strlen body ≤ fc_maxSize (FILE_CACHE st) →
        fc_size (FILE_CACHE (addToCache cfg filePath body now random st))
        ≤ fc_maxSize (FILE_CACHE st))).
Proof.
  intros Hacc. split.
  - destruct (getFromCache_alone filePath now st) as [_ ->].
    by apply getCache_accounted.
  - intros Hnone. rewrite FILE_CACHE_addToCache. by apply addCache_accounted.
Qed.

(** X15.  The removals that forget the size.  When the callback of a file
    monitor (at a [change] or [unlink] event), [appendFile] (not streamed)
    or [deleteFile] removes the entry of a path from a cache whose size was
    exact, [FILE_CACHE.size] is left as it was: it then exceeds the total
    length of the cached contents by the length of the removed content. *)
Theorem removals_that_forget_the_size filePath event changedPath body st item :
  accounted (FILE_CACHE st) →
  fc_enabled (FILE_CACHE st) = true →
  mget filePath (fc_items (FILE_CACHE st)) = Some item →
  let leak c' :=
    mget filePath (fc_items c') = None
    ∧ fc_size c' = fc_size (FILE_CACHE st)
    ∧ fc_size c' = totalLength (fc_items c') + strlen (content item) in
  (event = EvChange ∨ event = EvUnlink →
   leak (FILE_CACHE (fileChangeCallback filePath event changedPath st)))
  ∧ (fst (appendFile cfg filePath body st) = Appended false →
     leak (FILE_CACHE (snd (appendFile cfg filePath body st))))
  ∧ (fst (deleteFile cfg filePath st) = Deleted true →
     leak (FILE_CACHE (snd (deleteFile cfg filePath st)))).
Proof.
  intros [Hnd Hsize] Hen Hget leak.
  assert (leak (fcSetItems (FILE_CACHE st) (mdel filePath (fc_items (FILE_CACHE st)))))
    as Hleak.
  { subst leak. simpl. split; [apply mget_mdel_eq|]. split; [done|].
    rewrite (totalLength_mdel filePath item) by done. lia. }
  assert (mhas filePath (fc_items (FILE_CACHE st)) = true) as Hhas
    by (apply mhas_true; eauto).
  split; [|split].
  - intros Hev. unfold fileChangeCallback.
    assert (FILE_CACHE
              (if mhas filePath (fc_items (FILE_CACHE st))
               then invalidateDirCache (dirname filePath)
                      (withFileCache st
                         (fcSetItems (FILE_CACHE st)
                            (mdel filePath (fc_items (FILE_CACHE st)))))
               else st)
            = fcSetItems (FILE_CACHE st) (mdel filePath (fc_items (FILE_CACHE st))))
      as Hc.
    { rewrite Hhas.
      match goal with
      | |- context [invalidateDirCache ?d ?s] =>
          destruct (invalidateDirCache_frame d s) as (_ & -> & _)
      end. done. }
    destruct Hev as [-> | ->]; rewrite Hc; exact Hleak.
  - unfold appendFile.
    destruct (negb _); [done|].
    destruct (ensureDir _ _) as [f0|]; [|done].
    destruct (_ >? _).
    { destruct (writeNode _ _ _ _); done. }
    destruct (writeNode true filePath body _) as [f|]; [|done].
    simpl. intros _. unfold dropCached. simpl. rewrite Hen, Hhas. simpl. exact Hleak.
  - unfold deleteFile.
    destruct (negb _); [done|].
    destruct (fs st !! filePath) as [[old|]|]; try done.
    simpl. intros _. unfold dropCached. simpl. rewrite Hen, Hhas. simpl. exact Hleak.
Qed.

End Accounting.

Section AccountingExamples.
Local Existing Instance posix.

Lemma bothCached_accounted : accounted (FILE_CACHE bothCached).
Proof.
  split.
  - apply (bool_decide_unpack _). vm_compute. exact I.
  - vm_compute. reflexivity.
Defined.

Lemma cache_size_exact_and_bounded_witness :
  let cfg := exampleConfig true in
  let st1 := addToCache cfg "/d/b.txt" "x" 1500 3 bothCached in
  accounted (FILE_CACHE bothCached)
  ∧ mget "/d/b.txt" (fc_items (FILE_CACHE bothCached)) = None
  ∧ fc_size (FILE_CACHE bothCached) = 5
  ∧ accounted (FILE_CACHE st1)
  ∧ fc_size (FILE_CACHE st1) = 6
  ∧ fc_size (FILE_CACHE st1) ≤ fc_maxSize (FILE_CACHE bothCached).
Proof.
  intros cfg st1.
  assert (mget "/d/b.txt" (fc_items (FILE_CACHE bothCached)) = None) as Hnone
    by (vm_compute; reflexivity).
  destruct (cache_size_exact_and_bounded cfg "/d/b.txt" "x" 1500 3 bothCached
              bothCached_accounted) as [_ Hadd].
  destruct (Hadd Hnone) as [Hacc Hbound].
  split; [exact bothCached_accounted|].
  split; [exact Hnone|].
  split; [vm_compute; reflexivity|].
  split; [exact Hacc|].
  split; [vm_compute; reflexivity|].
  apply Hbound.
  - vm_compute. reflexivity.
  - discriminate.
  - vm_compute. discriminate.
  - vm_compute. discriminate.
Defined.

Lemma removals_that_forget_the_size_witness :
  let cfg := exampleConfig true in
  let item := {| content := "hello"; timestamp := 1000; lastAccess := 1000 |} in
  let c' := FILE_CACHE (fileChangeCallback "/d/a.txt" EvChange "/d/a.txt" bothCached) in
  accounted (FILE_CACHE bothCached)
  ∧ fc_enabled (FILE_CACHE bothCached) = true
  ∧ mget "/d/a.txt" (fc_items (FILE_CACHE bothCached)) = Some item
  ∧ fc_items c' = []
  ∧ fc_size c' = 5
  ∧ (mget "/d/a.txt" (fc_items c') = None
     ∧ fc_size c' = fc_size (FILE_CACHE bothCached)
     ∧ fc_size c' = totalLength (fc_items c') + strlen (content item)).
Proof.
  intros cfg item c'.
  assert (fc_enabled (FILE_CACHE bothCached) = true) as Hen by (vm_compute; reflexivity).
  assert (mget "/d/a.txt" (fc_items (FILE_CACHE bothCached)) = Some item) as Hget
    by (vm_compute; reflexivity).
  destruct (removals_that_forget_the_size cfg "/d/a.txt" EvChange "/d/a.txt" "!" bothCached
              item bothCached_accounted Hen Hget) as (Hevent & _ & _).
  split; [exact bothCached_accounted|].
  split; [exact Hen|].
  split; [exact Hget|].
  split; [vm_compute; reflexivity|].
  split; [vm_compute; reflexivity|].
  exact (Hevent (or_introl eq_refl)).
Defined.

End AccountingExamples.

(** ** The pool under the tools *)

Section ToolSteps.
Context `{PathLib} (cfg : Config).

Local Abbreviation reach := (rtc (toolStep cfg)).

Lemma reach_removeWatcher watcherId p : reach p (snd (removeWatcher watcherId p)).
Proof. apply rtc_once. constructor. Qed.

Lemma reach_removeAll ids count p : reach p (snd (removeAll ids count p)).
Proof.
  revert count p. induction ids as [|k ids IH]; intros count p; simpl; [reflexivity|].
  pose proof (reach_removeWatcher k p) as Hstep.
  destruct (removeWatcher k p) as [removed p1]. simpl in Hstep.
  etrans; [exact Hstep|apply IH].
Qed.

Lemma reach_closeWatcher w st : reach (pool st) (pool (snd (closeWatcher w st))).
Proof.
  unfold closeWatcher. destruct (poolId w); simpl; [apply reach_removeWatcher|reflexivity].
Qed.

Lemma reach_stopMonitoringFile filePath st :
  reach (pool st) (pool (stopMonitoringFile filePath st)).
Proof.
  unfold stopMonitoringFile.
  destruct (negb _ || negb _); [reflexivity|].
  destruct (mon_watchers _ !! filePath) as [w|]; [|reflexivity].
  simpl. apply reach_closeWatcher.
Qed.

Lemma reach_stopMonitoringDirectory dirPath st :
  reach (pool st) (pool (stopMonitoringDirectory dirPath st)).
Proof.
  unfold stopMonitoringDirectory.
  destruct (negb _ || negb _); [reflexivity|].
  destruct (mon_watchers _ !! dirPath) as [w|]; [|reflexivity].
  simpl. apply reach_closeWatcher.
Qed.

Lemma reach_setFileChangeCallback filePath now random st :
  reach (pool st) (pool (snd (setFileChangeCallback cfg filePath now random st))).
Proof.
  unfold setFileChangeCallback.
  destruct (bool_decide _); [reflexivity|].
  destruct (fs st !! filePath) as [[body|]|]; try reflexivity.
  pose proof (toolStep_add cfg filePath file now random (pool st)) as Hstep.
  destruct (addWatcher _ _ _ _ _ _ _) as [[info|] p']; simpl in *; by apply rtc_once.
Qed.

Lemma reach_setDirChangeCallback dirPath now random st :
  reach (pool st) (pool (snd (setDirChangeCallback cfg dirPath now random st))).
Proof.
  unfold setDirChangeCallback.
  destruct (bool_decide _); [reflexivity|].
  destruct (fs st !! dirPath) as [[body|]|]; try reflexivity.
  pose proof (toolStep_add cfg dirPath directory now random (pool st)) as Hstep.
  destruct (addWatcher _ _ _ _ _ _ _) as [[info|] p']; simpl in *; by apply rtc_once.
Qed.

Lemma reach_monitorFileForCache filePath now random st :
  reach (pool st) (pool (monitorFileForCache cfg filePath now random st)).
Proof.
  unfold monitorFileForCache.
  destruct (negb _ || negb _); [reflexivity|].
  set (st1 := if mon_enabled (CACHE_MONITORS st) then st else _).
  assert (pool st1 = pool st) as E by (subst st1; by destruct (mon_enabled _)).
  rewrite <- E. clearbody st1.
  destruct (bool_decide _); [reflexivity|].
  pose proof (reach_setFileChangeCallback filePath now random st1) as Hstep.
  destruct (setFileChangeCallback cfg filePath now random st1) as [[w|] st2]; simpl in *; done.
Qed.

Lemma reach_monitorDirectoryForCache dirPath now random st :
  reach (pool st) (pool (monitorDirectoryForCache cfg dirPath now random st)).
Proof.
  unfold monitorDirectoryForCache.
  destruct (negb _ || negb _); [reflexivity|].
  set (st1 := if mon_enabled (DIR_MONITORS st) then st else _).
  assert (pool st1 = pool st) as E by (subst st1; by destruct (mon_enabled _)).
  rewrite <- E. clearbody st1.
  destruct (bool_decide _); [reflexivity|].
  pose proof (reach_setDirChangeCallback dirPath now random st1) as Hstep.
  destruct (setDirChangeCallback cfg dirPath now random st1) as [[w|] st2]; simpl in *; done.
Qed.

Lemma reach_getFromCache filePath now st :
  reach (pool st) (pool (snd (getFromCache filePath now st))).
Proof.
  unfold getFromCache.
  destruct (negb _); [reflexivity|].
  destruct (mget filePath _) as [item|]; [|reflexivity].
  destruct (_ >? _); [|reflexivity].
  simpl. destruct (fc_monitoring _); [apply reach_stopMonitoringFile|reflexivity].
Qed.

Lemma reach_getFromDirCache dirPath now st :
  reach (pool st) (pool (snd (getFromDirCache dirPath now st))).
Proof.
  unfold getFromDirCache.
  destruct (negb _); [reflexivity|].
  destruct (mget dirPath _) as [item|]; [|reflexivity].
  destruct (_ >? _); [|reflexivity].
  simpl.
  match goal with
  | |- reach _ (pool (stopMonitoringDirectory ?d ?s)) =>
      apply (reach_stopMonitoringDirectory d s)
  end.
Qed.

Lemma reach_evictLoop requiredSpace cacheItems st :
  reach (pool st) (pool (evictLoop requiredSpace cacheItems st)).
Proof.
  revert st. induction cacheItems as [|[key item] rest IH]; intros st; simpl; [reflexivity|].
  set (st1 := if fc_monitoring (FILE_CACHE st) then stopMonitoringFile key st else st).
  assert (reach (pool st) (pool st1)) as Hstep.
  { subst st1. destruct (fc_monitoring _); [apply reach_stopMonitoringFile|reflexivity]. }
  clearbody st1.
  destruct (_ <=? _); [done|].
  etrans; [exact Hstep|]. etrans; [|apply IH]. reflexivity.
Qed.

Lemma reach_ensureCacheSpace requiredSpace st :
  reach (pool st) (pool (ensureCacheSpace requiredSpace st)).
Proof.
  unfold ensureCacheSpace. destruct (_ <=? _); [reflexivity|]. apply reach_evictLoop.
Qed.

Lemma reach_addToCache filePath body now random st :
  reach (pool st) (pool (addToCache cfg filePath body now random st)).
Proof.
  unfold addToCache.
  destruct (negb _ || _); [reflexivity|].
  destruct (_ >? _); [reflexivity|].
  set (st1 := match mget filePath _ with Some _ => _ | None => st end).
  assert (pool st1 = pool st) as E by (subst st1; by destruct (mget filePath _)).
  rewrite <- E. clearbody st1.
  etrans; [apply (reach_ensureCacheSpace (strlen body) st1)|].
  match goal with
  | |- reach _ (pool (if ?b then monitorFileForCache cfg ?p ?n ?r ?s else ?s)) =>
      destruct b; [apply (reach_monitorFileForCache p n r s)|reflexivity]
  end.
Qed.

Lemma reach_evictFromDirCache now st :
  reach (pool st) (pool (evictFromDirCache now st)).
Proof.
  unfold evictFromDirCache.
  destruct (snd (scanOldest _ _ _ _)) as [oldestPath|]; [|reflexivity].
  destruct (bool_decide _); [reflexivity|]. simpl.
  match goal with
  | |- reach _ (pool (stopMonitoringDirectory ?d ?s)) =>
      apply (reach_stopMonitoringDirectory d s)
  end.
Qed.

Lemma reach_addToDirCache dirPath entries now random st :
  reach (pool st) (pool (addToDirCache cfg dirPath entries now random st)).
Proof.
  unfold addToDirCache.
  destruct (negb _); [reflexivity|].
  set (st1 := if msize _ >=? _ then evictFromDirCache now st else st).
  assert (reach (pool st) (pool st1)) as Hstep.
  { subst st1. destruct (_ >=? _); [apply reach_evictFromDirCache|reflexivity]. }
  clearbody st1.
  etrans; [exact Hstep|].
  match goal with
  | |- reach _ (pool (monitorDirectoryForCache cfg ?d ?n ?r ?s)) =>
      apply (reach_monitorDirectoryForCache d n r s)
  end.
Qed.

Lemma pool_dropCached filePath st : pool (dropCached filePath st) = pool st.
Proof. unfold dropCached. by destruct (_ && _). Qed.

Lemma pool_dirChangeCallback dirPath event changedPath st :
  pool (dirChangeCallback dirPath event changedPath st) = pool st.
Proof.
  unfold dirChangeCallback.
  destruct (invalidateDirCache_frame dirPath st) as (E & _).
  destruct (_ && _); [|done].
  destruct (_ && _); [|done].
  destruct (negb _); [|done].
  match goal with
  | |- pool (invalidateDirCache ?d ?s) = _ =>
      destruct (invalidateDirCache_frame d s) as (-> & _)
  end.
  done.
Qed.

Lemma reach_readFile filePath now random st :
  reach (pool st) (pool (snd (readFile cfg filePath now random st))).
Proof.
  unfold readFile.
  destruct (negb _); [reflexivity|].
  destruct (fs st !! filePath) as [node|]; [|reflexivity].
  set (r := if fc_enabled (FILE_CACHE st) then _ else (None, st)).
  assert (reach (pool st) (pool (snd r))) as Hstep.
  { subst r. destruct (fc_enabled _); [|reflexivity].
    pose proof (reach_getFromCache filePath now st) as Hget.
    destruct (getFromCache filePath now st) as [[c|] st1]; simpl in *.
    - destruct (bool_decide _); exact Hget.
    - exact Hget. }
  destruct r as [[c|] st1]; simpl in *; [done|].
  destruct node as [body|]; [|done].
  destruct (_ >? _); [done|]. simpl.
  destruct (_ && _); [|done].
  etrans; [exact Hstep|]. apply reach_addToCache.
Qed.

Lemma reach_writeFile filePath body now random st :
  reach (pool st) (pool (snd (writeFile cfg filePath body now random st))).
Proof.
  unfold writeFile.
  destruct (negb _); [reflexivity|].
  destruct (ensureDir _ _) as [f0|]; [|reflexivity].
  destruct (_ >? _).
  { destruct (writeNode _ _ _ _); reflexivity. }
  destruct (writeNode _ _ _ _) as [f|]; [|reflexivity].
  simpl. destruct (_ && _); [|reflexivity].
  match goal with
  | |- reach _ (pool (addToCache cfg ?p ?b ?n ?r ?s)) =>
      apply (reach_addToCache p b n r s)
  end.
Qed.

Lemma pool_appendFile filePath body st :
  pool (snd (appendFile cfg filePath body st)) = pool st.
Proof.
  unfold appendFile.
  destruct (negb _); [done|].
  destruct (ensureDir _ _) as [f0|]; [|done].
  destruct (_ >? _).
  { by destruct (writeNode _ _ _ _). }
  destruct (writeNode _ _ _ _) as [f|]; [|done].
  simpl. by rewrite pool_dropCached.
Qed.

Lemma pool_deleteFile filePath st : pool (snd (deleteFile cfg filePath st)) = pool st.
Proof.
  unfold deleteFile.
  destruct (negb _); [done|].
  destruct (fs st !! filePath) as [[old|]|]; try done.
  simpl. by rewrite pool_dropCached.
Qed.

Lemma pool_copyFile source destination overwrite st :
  pool (snd (copyFile cfg source destination overwrite st)) = pool st.
Proof.
  unfold copyFile.
  destruct (negb _); [done|].
  destruct (fs st !! source) as [node|]; [|done].
  destruct (ensureDir _ _) as [f0|]; [|done].
  destruct node as [body|]; [|done]. simpl.
  destruct (f0 !! destination) as [[old|]|]; try done.
  - by destruct overwrite.
  - by destruct (f0 !! dirname destination) as [[c|]|].
Qed.

Lemma pool_moveFile source destination st :
  pool (snd (moveFile cfg source destination st)) = pool st.
Proof.
  unfold moveFile.
  destruct (negb _); [done|].
  destruct (fs st !! destination); [done|].
  set (st1 := match ensureDir (dirname destination) (fs st) with
              | Some f => withFs st f
              | None => st
              end).
  assert (pool st1 = pool st) as E1 by (subst st1; by destruct (ensureDir _ _)).
  destruct (match ensureDir (dirname destination) (fs st) with
            | Some f => renameSync cfg source destination f
            | None => None
            end) as [f|].
  - simpl. destruct (fc_enabled _); [|done].
    by destruct (mget source _).
  - pose proof (pool_copyFile source destination true st1) as Ec.
    destruct (copyFile cfg source destination true st1) as [copyResult st2].
    simpl in Ec. rewrite E1 in Ec.
    destruct copyResult; try done.
    destruct (fs st2 !! source) as [[body|]|]; try done.
    simpl. by rewrite pool_dropCached.
Qed.

Lemma pool_createDirectory dirPath recursive st :
  pool (snd (createDirectory cfg dirPath recursive st)) = pool st.
Proof.
  unfold createDirectory.
  destruct (negb _); [done|].
  destruct (directoryExists _ _); [done|].
  destruct (fs st !! sanitizePath dirPath); [done|].
  destruct (if recursive then _ else _) as [f|]; [|done]. simpl.
  match goal with
  | |- pool (invalidateDirCache ?d ?s) = _ =>
      by destruct (invalidateDirCache_frame d s) as (-> & _)
  end.
Qed.

Lemma reach_deleteDirectory dirPath recursive st :
  reach (pool st) (pool (snd (deleteDirectory cfg dirPath recursive st))).
Proof.
  unfold deleteDirectory.
  destruct (negb _); [reflexivity|].
  destruct (negb _); [reflexivity|].
  destruct (_ && _); [reflexivity|]. simpl.
  match goal with
  | |- reach _ (pool (stopMonitoringDirectory ?d ?s)) =>
      etrans; [|apply (reach_stopMonitoringDirectory d s)]
  end.
  match goal with
  | |- reach _ (pool (invalidateDirCache ?d ?s)) =>
      destruct (invalidateDirCache_frame d s) as (-> & _)
  end.
  match goal with
  | |- reach _ (pool (invalidateDirCache ?d ?s)) =>
      destruct (invalidateDirCache_frame d s) as (-> & _)
  end.
  reflexivity.
Qed.

Lemma reach_foldl {A : Type} (f : State → A → State) (l : list A) st :
  (∀ s a, reach (pool s) (pool (f s a))) →
  reach (pool st) (pool (foldl f st l)).
Proof.
  intros Hf. revert st. induction l as [|a l IH]; intros st; simpl; [reflexivity|].
  etrans; [apply (Hf st a)|apply IH].
Qed.

Lemma reach_clearCache st : reach (pool st) (pool (clearCache st)).
Proof.
  unfold clearCache. simpl.
  apply reach_foldl. intros s a. apply reach_stopMonitoringFile.
Qed.

Lemma reach_clearDirCache st : reach (pool st) (pool (clearDirCache st)).
Proof.
  unfold clearDirCache. simpl.
  apply reach_foldl. intros s a. apply reach_stopMonitoringDirectory.
Qed.

Lemma reach_fileSetConfig o now random st :
  reach (pool st) (pool (fileSetConfig cfg o now random st)).
Proof.
  unfold fileSetConfig.
  set (st1 := match cacheEnabled o with Some b => _ | None => st end).
  assert (reach (pool st) (pool st1)) as Hstep.
  { subst st1. destruct (cacheEnabled o) as [[]|]; try reflexivity.
    match goal with
    | |- reach _ (pool (clearCache ?s)) => apply (reach_clearCache s)
    end. }
  clearbody st1.
  etrans; [exact Hstep|].
  destruct (monitoringEnabled o) as [b|]; [|reflexivity].
  destruct (_ && _); [|reflexivity].
  match goal with
  | |- reach _ (pool (foldl ?f ?s ?l)) => apply (reach_foldl f l s)
  end.
  intros s a. apply reach_monitorFileForCache.
Qed.

Lemma reach_dirSetConfig o st : reach (pool st) (pool (dirSetConfig o st)).
Proof.
  unfold dirSetConfig. simpl.
  destruct (dirCacheEnabled o) as [[]|]; try reflexivity.
  match goal with
  | |- reach _ (pool (clearDirCache ?s)) => apply (reach_clearDirCache s)
  end.
Qed.

(** Every call moves the pool by registrations of chokidar watchers for this
    process and by removals. *)
Lemma reach_runTool st call : reach (pool st) (pool (runTool cfg st call)).
Proof.
  destruct call; simpl.
  - apply reach_readFile.
  - apply reach_writeFile.
  - by rewrite pool_appendFile.
  - by rewrite pool_deleteFile.
  - by rewrite pool_copyFile.
  - by rewrite pool_moveFile.
  - by rewrite pool_createDirectory.
  - apply reach_deleteDirectory.
  - apply reach_getFromDirCache.
  - apply reach_addToDirCache.
  - by destruct (invalidateDirCache_frame dirPath st) as (-> & _).
  - apply reach_clearCache.
  - apply reach_clearDirCache.
  - apply reach_fileSetConfig.
  - apply reach_dirSetConfig.
  - apply reach_monitorFileForCache.
  - apply reach_stopMonitoringFile.
  - apply reach_monitorDirectoryForCache.
  - apply reach_stopMonitoringDirectory.
  - by destruct (fileChangeCallback_frame filePath event changedPath st) as (-> & _).
  - by rewrite pool_dirChangeCallback.
  - apply reach_removeAll.
Qed.

Lemma reach_runTools st calls : reach (pool st) (pool (runTools cfg st calls)).
Proof.
  revert st. induction calls as [|call calls IH]; intros st; [reflexivity|].
  unfold runTools. simpl.
  etrans; [apply (reach_runTool st call)|apply IH].
Qed.

End ToolSteps.

Section ToolPool.
Context `{PathLib} (cfg : Config).

(** The records after a registration are those of before and the new one. *)
Lemma addWatcher_records targetPath instance type processId now random p k i :
  (k, i) ∈ watchers (snd (addWatcher targetPath (Some instance) type processId now random p)) →
  (k, i) ∈ watchers p
  ∨ (k = (now, random) ∧ w_processId i = processId ∧ w_instance i = instance
     ∧ w_createdAt i = now ∧ w_lastUsedAt i = now ∧ w_useCount i = 0
     ∧ w_type i = type ∧ w_path i = normalize targetPath).
Proof.
  unfold addWatcher.
  destruct (bool_decide _); [by left|].
  set (p1 := if msize (watchers p) >=? maxWatchers p
             then snd (removeOldestWatcher now (countRejected p)) else p).
  assert (∀ e, e ∈ watchers p1 → e ∈ watchers p) as Hsub.
  { subst p1. destruct (_ >=? _); [|done].
    unfold removeOldestWatcher. destruct (bool_decide _); [done|].
    destruct (snd (scanOldest _ _ _ _)) as [oldestId|]; [|done].
    destruct (removeWatcher_cases oldestId (countRejected p))
      as [(_ & -> & _)|(i0 & _ & _ & _ & -> & _)]; [done|].
    intros [k0 v0] Hin. by apply elem_of_mdel in Hin as [? _]. }
  clearbody p1.
  destruct (_ >=? _); [simpl; intros Hin; left; by apply Hsub|].
  destruct (_ >=? _); [simpl; intros Hin; left; by apply Hsub|].
  simpl. intros Hin.
  apply elem_of_mset in Hin as [[-> ->]|[[Hin _]|Hin]].
  - right. done.
  - left. by apply Hsub.
  - left. by apply Hsub.
Qed.

Lemma addWatcher_maxIdleTime targetPath watcher type processId now random p :
  maxIdleTime (snd (addWatcher targetPath watcher type processId now random p))
  = maxIdleTime p.
Proof.
  unfold addWatcher. destruct watcher; [|done].
  destruct (bool_decide _); [done|].
  set (p1 := if msize (watchers p) >=? maxWatchers p
             then snd (removeOldestWatcher now (countRejected p)) else p).
  assert (maxIdleTime p1 = maxIdleTime p) as E.
  { subst p1. destruct (_ >=? _); [|done].
    unfold removeOldestWatcher. destruct (bool_decide _); [done|].
    destruct (snd (scanOldest _ _ _ _)) as [oldestId|]; [|done].
    destruct (removeWatcher_cases oldestId (countRejected p))
      as [(_ & -> & _)|(i0 & _ & _ & _ & _ & _ & _ & _ & -> & _)]; done. }
  clearbody p1.
  destruct (_ >=? _); [done|]. destruct (_ >=? _); done.
Qed.

Lemma toolPool_step p p' : toolStep cfg p p' → toolPool cfg p → toolPool cfg p'.
Proof.
  intros Hstep [Hinv (L1 & L2 & L3 & L4) Hrec].
  destruct Hstep as [targetPath type now random p|watcherId p].
  - destruct (addWatcher_limits targetPath (Some chokidarWatcher) type (pid cfg) now random p)
      as (E1 & E2 & E3).
    constructor.
    + by apply poolInvariant_addWatcher.
    + rewrite E1, E2, E3, addWatcher_maxIdleTime. done.
    + intros k i Hin.
      apply addWatcher_records in Hin as [Hin|(_ & ? & ? & ? & ? & ? & _)].
      * by eapply Hrec.
      * repeat split; congruence.
  - destruct (removeWatcher_limits watcherId p) as (E1 & E2 & E3).
    constructor.
    + by apply poolInvariant_removeWatcher.
    + rewrite E1, E2, E3.
      destruct (removeWatcher_cases watcherId p)
        as [(_ & -> & _)|(i0 & _ & _ & _ & _ & _ & _ & _ & -> & _)]; done.
    + intros k i Hin.
      destruct (removeWatcher_cases watcherId p)
        as [(_ & E & _)|(i0 & _ & _ & _ & E & _)]; rewrite E in Hin.
      * by eapply Hrec.
      * apply elem_of_mdel in Hin as [Hin _]. by eapply Hrec.
Qed.

Lemma toolPool_steps p p' : rtc (toolStep cfg) p p' → toolPool cfg p → toolPool cfg p'.
Proof. induction 1 as [|p p1 p2 Hstep _ IH]; [done|]. intros Hp. by eapply IH, toolPool_step. Qed.

Lemma toolPool_initial : toolPool cfg initialPool.
Proof.
  constructor.
  - apply poolInvariant_empty; lia.
  - done.
  - intros k i Hin. by apply elem_of_nil in Hin.
Qed.

(** In a pool of the tools every record belongs to this process, so the
    records are as many as the records of this process. *)
Lemma toolPool_size p : toolPool cfg p → msize (watchers p) ≤ maxPerProcess p.
Proof.
  intros [Hinv _ Hrec].
  etrans; [|apply (inv_perProcess p Hinv (pid cfg))].
  etrans; [|apply (inv_counted p Hinv (pid cfg))].
  unfold recordsOfProcess, msize.
  rewrite filter_all; [done|].
  intros [k i] Hin. simpl. by destruct (Hrec k i Hin) as (? & _).
Qed.



End ToolPool.

Section ToolPoolExamples.
Local Existing Instance posix.


End ToolPoolExamples.


(** ** Clearing the file cache *)

Section ClearCache.

Lemma stopMonitoringFile_listed filePath w st :
  mon_enabled (CACHE_MONITORS st) = true →
  filePath ∈ monitoredPaths (CACHE_MONITORS st) →
  mon_watchers (CACHE_MONITORS st) !! filePath = Some w →
  stopMonitoringFile filePath st
  = withCacheMonitors (snd (closeWatcher w st)) (monRemove (CACHE_MONITORS st) filePath).
Proof.
  intros Hen Hin Hw. unfold stopMonitoringFile.
  rewrite Hen, Hw. rewrite bool_decide_eq_true_2 by done. simpl.
  destruct (closeWatcher_frame w st) as (_ & -> & _). done.
Qed.

Lemma closeWatcher_records w st id :
  (mget id (watchers (pool (snd (closeWatcher w st)))) = None
   ∨ mget id (watchers (pool (snd (closeWatcher w st)))) = mget id (watchers (pool st)))
  ∧ (poolId w ≠ Some id →
     mget id (watchers (pool (snd (closeWatcher w st)))) = mget id (watchers (pool st)))
  ∧ (∀ i, poolId w = Some id → mget id (watchers (pool st)) = Some i → closes i →
          mget id (watchers (pool (snd (closeWatcher w st)))) = None).
Proof.
  unfold closeWatcher. destruct (poolId w) as [k|]; simpl;
    [|split; [by right|]; split; [done|]; intros ? [=]].
  destruct (removeWatcher_cases k (pool st))
    as [(_ & -> & Hwhy)|(i & Hget & Hc & _ & -> & _)].
  - split; [by right|]. split; [done|].
    intros i [= ->] Hget Hc. exfalso.
    destruct Hwhy as [Hnone|(i' & Hget' & Hnc)]; [congruence|].
    rewrite Hget in Hget'. injection Hget' as <-. done.
  - destruct (decide (k = id)) as [->|Hne].
    + rewrite mget_mdel_eq. split; [by left|]. split; [congruence|done].
    + rewrite mget_mdel_ne by done. split; [by right|]. split; [done|].
      intros ? [= ?]. done.
Qed.

(** The loop of [clearCache] over the monitored paths. *)
Lemma stopMonitoringFile_all l : ∀ st,
  NoDup l →
  mon_enabled (CACHE_MONITORS st) = true →
  (∀ path, path ∈ l →
           path ∈ monitoredPaths (CACHE_MONITORS st)
           ∧ is_Some (mon_watchers (CACHE_MONITORS st) !! path)) →
  let st' := foldl (λ st filePath, stopMonitoringFile filePath st) st l in
  monitoredPaths (CACHE_MONITORS st') = monitoredPaths (CACHE_MONITORS st) ∖ list_to_set l
  ∧ dom (mon_watchers (CACHE_MONITORS st'))
    = dom (mon_watchers (CACHE_MONITORS st)) ∖ list_to_set l
  ∧ mon_enabled (CACHE_MONITORS st') = true
  ∧ FILE_CACHE st' = FILE_CACHE st ∧ DIR_CACHE st' = DIR_CACHE st
  ∧ DIR_MONITORS st' = DIR_MONITORS st ∧ fs st' = fs st
  ∧ (∀ id, mget id (watchers (pool st')) = None
           ∨ mget id (watchers (pool st')) = mget id (watchers (pool st)))
  ∧ (∀ id, (∀ path w, path ∈ l → mon_watchers (CACHE_MONITORS st) !! path = Some w →
                      poolId w ≠ Some id) →
           mget id (watchers (pool st')) = mget id (watchers (pool st)))
  ∧ (∀ id i path w, path ∈ l → mon_watchers (CACHE_MONITORS st) !! path = Some w →
                    poolId w = Some id →
                    mget id (watchers (pool st)) = Some i → closes i →
                    mget id (watchers (pool st')) = None).
Proof.
  induction l as [|filePath rest IH]; intros st Hnd Hen Hl; simpl.
  { rewrite !difference_empty_L.
    repeat split; try done; try (by right).
    intros ???? Hin. by apply elem_of_nil in Hin. }
  apply NoDup_cons in Hnd as [Hfresh Hnd].
  destruct (Hl filePath) as [Hin [w Hw]]; [by left|].
  rewrite (stopMonitoringFile_listed filePath w st Hen Hin Hw).
  set (st1 := withCacheMonitors _ _).
  destruct (closeWatcher_frame w st) as (Hfc & _ & Hdc & Hdm & Hfs).
  assert (∀ path, path ≠ filePath →
                  mon_watchers (CACHE_MONITORS st1) !! path
                  = mon_watchers (CACHE_MONITORS st) !! path) as Hother.
  { intros path Hne. subst st1. simpl. by rewrite lookup_delete_ne. }
  assert (∀ path, path ∈ rest → path ≠ filePath) as Hrest.
  { intros path Hp ->. done. }
  destruct (IH st1 Hnd) as (E1 & E2 & E3 & E4 & E5 & E6 & E7 & M & K & R).
  { done. }
  { intros path Hp. destruct (Hl path) as [? ?]; [by right|].
    split.
    - subst st1. simpl. apply elem_of_difference. split; [done|].
      rewrite elem_of_singleton. by apply Hrest.
    - rewrite Hother by (by apply Hrest). done. }
  assert (∀ id, mget id (watchers (pool st1))
                = mget id (watchers (pool (snd (closeWatcher w st))))) as Hpool by done.
  split.
  { rewrite E1. subst st1. simpl. apply set_eq. intros x.
    rewrite !elem_of_difference, elem_of_union, elem_of_singleton. tauto. }
  split.
  { rewrite E2. subst st1. simpl. rewrite dom_delete_L. apply set_eq. intros x.
    rewrite !elem_of_difference, elem_of_union, elem_of_singleton. tauto. }
  split; [done|].
  split; [by rewrite E4|]. split; [by rewrite E5|]. split; [by rewrite E6|].
  split; [by rewrite E7|].
  split.
  { intros id. destruct (M id) as [Hn|He]; [by left|].
    rewrite He, Hpool.
    destruct (closeWatcher_records w st id) as ([?|?] & _); [by left|by right]. }
  split.
  { intros id Hno. rewrite K.
    - rewrite Hpool. destruct (closeWatcher_records w st id) as (_ & Hkeep & _).
      apply Hkeep. apply (Hno filePath w); [by left|done].
    - intros path w' Hp Hw'. rewrite Hother in Hw' by (by apply Hrest).
      apply (Hno path w'); [by right|done]. }
  intros id i path w' Hp Hw' Hid Hget Hc.
  apply elem_of_cons in Hp as [->|Hp].
  - assert (w' = w) as -> by congruence.
    destruct (closeWatcher_records w st id) as (_ & _ & Hgone).
    destruct (M id) as [Hn|He]; [done|].
    rewrite He, Hpool. by apply (Hgone i).
  - destruct (closeWatcher_records w st id) as ([Hn|Hs] & _).
    + destruct (M id) as [?|He]; [done|]. by rewrite He, Hpool.
    + apply (R id i path w'); try done.
      * rewrite Hother by (by apply Hrest). done.
      * by rewrite Hpool, Hs.
Qed.

(** X18.  [clearCache] stops every monitor of the file cache.  When the two
    tables of [CACHE_MONITORS] agree, [clearCache] leaves both empty, and
    the cache without an entry and with [size] 0, so that the size is exact
    again; the counters of hits, misses and evictions stay.  Of the pool it
    removes every record of a monitor whose watcher closes, and no record of
    anything else: the records of the directory monitors stay. *)
Theorem clearCache_stops_every_monitor st :
  monitorsAgree (CACHE_MONITORS st) →
  let st' := clearCache st in
  (fc_items (FILE_CACHE st') = [] ∧ fc_size (FILE_CACHE st') = 0
   ∧ accounted (FILE_CACHE st')
   ∧ fc_hits (FILE_CACHE st') = fc_hits (FILE_CACHE st)
   ∧ fc_misses (FILE_CACHE st') = fc_misses (FILE_CACHE st)
   ∧ fc_evictions (FILE_CACHE st') = fc_evictions (FILE_CACHE st)
   ∧ fc_enabled (FILE_CACHE st') = fc_enabled (FILE_CACHE st))
  ∧ (monitoredPaths (CACHE_MONITORS st') = ∅ ∧ mon_watchers (CACHE_MONITORS st') = ∅)
  ∧ (∀ id i, monitorOf (CACHE_MONITORS st) id →
             mget id (watchers (pool st)) = Some i → closes i →
             mget id (watchers (pool st')) = None)
  ∧ (∀ id, ¬ monitorOf (CACHE_MONITORS st) id →
           mget id (watchers (pool st')) = mget id (watchers (pool st)))
  ∧ DIR_CACHE st' = DIR_CACHE st ∧ DIR_MONITORS st' = DIR_MONITORS st
  ∧ fs st' = fs st.
Proof.
  intros [Hdom Hen] st'. subst st'. unfold clearCache.
  set (l := elements (monitoredPaths (CACHE_MONITORS st))).
  set (st1 := foldl _ st l).
  assert (monitoredPaths (CACHE_MONITORS st1) = ∅
          ∧ mon_watchers (CACHE_MONITORS st1) = ∅
          ∧ FILE_CACHE st1 = FILE_CACHE st ∧ DIR_CACHE st1 = DIR_CACHE st
          ∧ DIR_MONITORS st1 = DIR_MONITORS st ∧ fs st1 = fs st
          ∧ (∀ id, ¬ monitorOf (CACHE_MONITORS st) id →
                   mget id (watchers (pool st1)) = mget id (watchers (pool st)))
          ∧ (∀ id i, monitorOf (CACHE_MONITORS st) id →
                     mget id (watchers (pool st)) = Some i → closes i →
                     mget id (watchers (pool st1)) = None))
    as (M1 & M2 & F1 & F2 & F3 & F4 & K & R).
  { destruct Hen as [Hen|Hnone].
    - destruct (stopMonitoringFile_all l st) as (E1 & E2 & _ & E4 & E5 & E6 & E7 & _ & K & R).
      + apply NoDup_elements.
      + done.
      + intros path Hp. apply elem_of_elements in Hp. split; [done|].
        apply elem_of_dom. by rewrite Hdom.
      + fold st1 in E1, E2, E4, E5, E6, E7, K, R.
        assert (list_to_set l = monitoredPaths (CACHE_MONITORS st)) as Hl.
        { apply set_eq. intros x. subst l.
          by rewrite elem_of_list_to_set, elem_of_elements. }
        rewrite Hl in E1, E2.
        split; [rewrite E1; apply set_eq; intros x;
                rewrite elem_of_difference, elem_of_empty; tauto|].
        split.
        { apply dom_empty_inv_L. rewrite E2, Hdom. apply set_eq. intros x.
          rewrite elem_of_difference, elem_of_empty. tauto. }
        repeat (split; [done|]).
        split.
        * intros id Hno. apply K. intros path w _ Hw Hid. apply Hno. by exists path, w.
        * intros id i (path & w & Hw & Hid) Hget Hc.
          apply (R id i path w); try done.
          subst l. apply elem_of_elements. rewrite <- Hdom. apply elem_of_dom. eauto.
    - assert (l = []) as Hl by (subst l; rewrite Hnone; apply elements_empty).
      subst st1. rewrite Hl. simpl.
      assert (mon_watchers (CACHE_MONITORS st) = ∅) as Hw
        by (apply dom_empty_inv_L; by rewrite Hdom).
      repeat (split; [done|]).
      intros id i (path & w & Hw' & _). rewrite Hw in Hw'. done. }
  clearbody st1. simpl.
  split.
  { repeat split; try (by rewrite F1). apply NoDup_nil_2. }
  done.
Qed.

End ClearCache.

Section ClearCacheExamples.
Local Existing Instance posix.

(** After the scenario of [bothCached] the file [/d/a.txt] and the directory
    [/d] each have a monitor; [clearCache] removes the record of the first
    and keeps the record of the second. *)
Lemma clearCache_stops_every_monitor_witness :
  let st := bothCached in
  let st' := clearCache st in
  monitorsAgree (CACHE_MONITORS st)
  ∧ mkeys (watchers (pool st)) = [(1000, 7); (1000, 8)]
  ∧ monitorOf (CACHE_MONITORS st) (1000, 7)
  ∧ mkeys (watchers (pool st')) = [(1000, 8)]
  ∧ fc_items (FILE_CACHE st') = []
  ∧ monitoredPaths (CACHE_MONITORS st') = ∅.
Proof.
  intros st st'.
  assert (monitorsAgree (CACHE_MONITORS st)) as Hagree.
  { split; [|left]; vm_compute; reflexivity. }
  assert (monitorOf (CACHE_MONITORS st) (1000, 7)) as Hmon.
  { exists "/d/a.txt", {| poolId := Some (1000, 7) |}. split; vm_compute; reflexivity. }
  destruct (clearCache_stops_every_monitor st Hagree)
    as ((Hitems & _) & (Hpaths & _) & _).
  split; [exact Hagree|].
  split; [vm_compute; reflexivity|].
  split; [exact Hmon|].
  split; [vm_compute; reflexivity|].
  split; [exact Hitems | exact Hpaths].
Defined.

End ClearCacheExamples.


(** ** The security checks *)

Section StringFacts.

Lemma startsWith_spec s t : startsWith s t = true ↔ ∃ b, s = t +:+ b.
Proof.
  revert s. induction t as [|c t IH]; intros s; simpl.
  { split; [intros _; by exists s|done]. }
  destruct s as [|a s]; simpl.
  { split; [done|]. intros [b Hb]. done. }
  rewrite andb_true_iff, bool_decide_eq_true, IH. split.
  - intros [-> [b ->]]. by exists b.
  - intros [b Hb]. injection Hb as -> ->. split; [done|by exists b].
Qed.

Lemma includes_spec s t : includes s t = true ↔ occursIn t s.
Proof.
  unfold occursIn. induction s as [|c s IH]; simpl.
  - rewrite orb_false_r, startsWith_spec. split.
    + intros [b Hb]. by exists EmptyString, b.
    + intros (a & b & Hab). destruct a as [|? a]; [by exists b|done].
  - rewrite orb_true_iff, IH.
    change (startsWith (String c s) t) with (startsWith (String c s) t).
    rewrite (startsWith_spec (String c s) t). split.
    + intros [[b Hb]|(a & b & ->)].
      * by exists EmptyString, b.
      * by exists (String c a), b.
    + intros (a & b & Hab). destruct a as [|c' a]; simpl in Hab.
      * left. by exists b.
      * right. injection Hab as -> ->. by exists a, b.
Qed.

Lemma includes_false s t : includes s t = false ↔ ¬ occursIn t s.
Proof. rewrite <- includes_spec. by destruct (includes s t). Qed.

End StringFacts.

Section SecurityChecks.
Context `{PathLib}.
Variable extname : string → string.
Variable byteLength : string → string → Z.
Variable sc : Security.SecurityConfig.

Import Security.

Lemma firstForbidden_None normalizedPath paths :
  firstForbidden normalizedPath paths = None
  ↔ ∀ f, f ∈ paths →
         ¬ occursIn f normalizedPath
         ∧ ¬ occursIn (toLowerCase f) (toLowerCase normalizedPath).
Proof.
  induction paths as [|forbiddenPath rest IH]; simpl.
  { split; [|done]. intros _ f Hf. by apply elem_of_nil in Hf. }
  destruct (includes normalizedPath forbiddenPath) eqn:E1; simpl.
  { split; [done|]. intros Hall. exfalso.
    destruct (Hall forbiddenPath) as [Hno _]; [by left|].
    by apply includes_false in Hno; congruence. }
  destruct (includes (toLowerCase normalizedPath) (toLowerCase forbiddenPath)) eqn:E2.
  { split; [done|]. intros Hall. exfalso.
    destruct (Hall forbiddenPath) as [_ Hno]; [by left|].
    by apply includes_false in Hno; congruence. }
  rewrite IH. split.
  - intros Hall f Hf. apply elem_of_cons in Hf as [->|Hf]; [|by apply Hall].
    by rewrite <- !includes_false.
  - intros Hall f Hf. apply Hall. by right.
Qed.

(** X19.  The black list of [isPathSafe] is a test for substrings.  A path is
    safe exactly when it is not empty, none of the forbidden paths occurs
    anywhere in its normal form, neither as it is written nor with both in
    lower case (when [checkPathTraversal] is set), and the extension of the
    normal form, in lower case, is empty or not a forbidden one. *)
Theorem isPathSafe_is_a_substring_test pathToCheck :
  isValid (isPathSafe extname sc pathToCheck) = true
  ↔ pathToCheck ≠ EmptyString
    ∧ (checkPathTraversal (pathSecurity sc) = true →
       ∀ f, f ∈ forbiddenPaths (pathSecurity sc) →
            ¬ occursIn f (normalize pathToCheck)
            ∧ ¬ occursIn (toLowerCase f) (toLowerCase (normalize pathToCheck)))
    ∧ (toLowerCase (extname (normalize pathToCheck)) = EmptyString
       ∨ toLowerCase (extname (normalize pathToCheck))
         ∉ forbiddenExtensions (pathSecurity sc)).
Proof.
  unfold isPathSafe. case_bool_decide as Hempty; simpl.
  { split; [done|]. by intros [? _]. }
  destruct (checkPathTraversal (pathSecurity sc)).
  - destruct (firstForbidden _ _) as [f|] eqn:Hfirst; simpl.
    + split; [done|]. intros (_ & Hall & _). exfalso.
      specialize (Hall eq_refl).
      pose proof (proj2 (firstForbidden_None _ _) Hall). congruence.
    + pose proof (proj1 (firstForbidden_None _ _) Hfirst) as Hall.
      repeat case_bool_decide; simpl; split; try done; try tauto.
      all: intros (_ & _ & [?|?]); done.
  - repeat case_bool_decide; simpl; split; try done; try tauto.
    all: try (intros (_ & _ & [?|?]); done).
    all: intros _; split; [done|]; split; [done|]; tauto.
Qed.

Lemma andPathSafe_true p isAllowed :
  andPathSafe extname sc p isAllowed = true
  ↔ isAllowed = true ∧ (p = EmptyString ∨ isValid (isPathSafe extname sc p) = true).
Proof.
  unfold andPathSafe. case_bool_decide as Hp.
  - split; [by auto|by intros [? _]].
  - rewrite andb_true_iff. split; [by intros [? ?]; auto|].
    intros [? [?|?]]; done.
Qed.

(** X20.  What [validateToolCall] checks.  A call of one of the eight reading
    tools is allowed exactly when its path is empty or safe, and a call of a
    copy or a move exactly when each of its two paths is; an allowed call of
    a writing, deleting or directory tool has an empty or safe path, and an
    allowed write or append is also allowed as a read, under a switch
    [allowWrite] that is on and with a content within [maxWriteSize].  A
    call under any other name is allowed whatever its parameters are; these
    include the names under which [getFileInfo], [countFileLines] and
    [searchFileContent] ask. *)
Theorem validateToolCall_checks_the_paths toolName params :
  let allowed name := validateToolCall extname byteLength sc name params = true in
  let safe p := p = EmptyString ∨ isValid (isPathSafe extname sc p) = true in
  (toolName ∈ readTools → allowed toolName ↔ safe (p_path params))
  ∧ (toolName ∈ ["copy_file"; "move_file"] →
     allowed toolName ↔ safe (p_source params) ∧ safe (p_destination params))
  ∧ (toolName ∈ ["write_file"; "append_file"; "delete_file"; "create_directory";
                 "delete_directory"] →
     allowed toolName → safe (p_path params))
  ∧ (toolName ∈ ["write_file"; "append_file"] → allowed toolName →
     allowed "read_file"
     ∧ allowWrite (operationSecurity sc) = true
     ∧ (p_content params ≠ EmptyString →
        byteLength (p_content params)
          (if bool_decide (p_encoding params = EmptyString) then "utf8"
           else p_encoding params)
        ≤ maxWriteSize (operationSecurity sc)))
  ∧ (toolName ∉ readTools ++ ["write_file"; "append_file"; "delete_file";
                              "create_directory"; "delete_directory"; "copy_file";
                              "move_file"] →
     allowed toolName)
  ∧ (toolName ∈ ["get_file_info"; "count_lines"; "search_file"] → allowed toolName).
Proof.
  intros allowed safe.
  assert (∀ name, name ∈ readTools → allowed name ↔ safe (p_path params)) as Hread.
  { intros name Hin. subst allowed safe. simpl. unfold validateToolCall.
    rewrite (bool_decide_eq_true_2 _ Hin).
    case_bool_decide; [by split; auto|]. split; [by auto|]. by intros [?|?]. }
  assert (∀ name, name ∈ ["write_file"; "append_file"; "delete_file"; "create_directory";
                          "delete_directory"] →
                  allowed name → safe (p_path params)) as Hpath.
  { intros name Hin. subst allowed safe. simpl. unfold validateToolCall.
    repeat (apply elem_of_cons in Hin as [->|Hin]); [..|by apply elem_of_nil in Hin];
      simpl; intros Hallowed.
    - destruct (bool_decide (p_content params = EmptyString));
        [|destruct (_ >? _); [done|]];
        by apply andPathSafe_true in Hallowed as [_ ?].
    - destruct (bool_decide (p_content params = EmptyString));
        [|destruct (_ >? _); [done|]];
        by apply andPathSafe_true in Hallowed as [_ ?].
    - by apply andPathSafe_true in Hallowed as [_ ?].
    - by apply andPathSafe_true in Hallowed as [_ ?].
    - by apply andPathSafe_true in Hallowed as [_ ?]. }
  split; [exact (Hread toolName)|].
  split.
  { intros Hin. subst allowed safe. simpl. unfold validateToolCall.
    repeat (apply elem_of_cons in Hin as [->|Hin]); [..|by apply elem_of_nil in Hin];
      simpl; rewrite !andPathSafe_true; tauto. }
  split; [exact (Hpath toolName)|].
  split.
  { intros Hin Hallowed. split.
    - apply (Hread "read_file"); [by left|]. apply (Hpath toolName); [|done].
      repeat (apply elem_of_cons in Hin as [->|Hin]); [..|by apply elem_of_nil in Hin].
      + by left.
      + right. by left.
    - revert Hallowed. subst allowed. simpl. unfold validateToolCall.
      repeat (apply elem_of_cons in Hin as [->|Hin]); [..|by apply elem_of_nil in Hin];
        simpl; case_bool_decide as Hc;
        try (intros [? _]%andPathSafe_true; by split);
        destruct (Z.gtb_spec (byteLength (p_content params)
                                (if bool_decide (p_encoding params = EmptyString)
                                 then "utf8" else p_encoding params))
                    (maxWriteSize (operationSecurity sc))); try done;
        intros [? _]%andPathSafe_true; split; try done; intros _; lia. }
  assert (∀ name,
            name ∉ readTools ++ ["write_file"; "append_file"; "delete_file";
                                 "create_directory"; "delete_directory"; "copy_file";
                                 "move_file"] →
            allowed name) as Hother.
  { intros name Hout. subst allowed. simpl. unfold validateToolCall.
    apply not_elem_of_app in Hout as [Hread' Hrest].
    rewrite !not_elem_of_cons in Hrest.
    destruct Hrest as (N1 & N2 & N3 & N4 & N5 & N6 & N7 & _).
    rewrite (bool_decide_eq_false_2 (name ∈ readTools)) by done.
    rewrite (bool_decide_eq_false_2 (name ∈ ["write_file"; "append_file"]))
      by (rewrite !not_elem_of_cons; repeat split; try done; apply not_elem_of_nil).
    rewrite (bool_decide_eq_false_2 (name = "delete_file")) by done.
    rewrite (bool_decide_eq_false_2 (name = "create_directory")) by done.
    rewrite (bool_decide_eq_false_2 (name = "delete_directory")) by done.
    rewrite (bool_decide_eq_false_2 (name ∈ ["copy_file"; "move_file"]))
      by (rewrite !not_elem_of_cons; repeat split; try done; apply not_elem_of_nil).
    done. }
  split; [exact (Hother toolName)|].
  intros Hin. apply Hother.
  repeat (apply elem_of_cons in Hin as [->|Hin]); [..|by apply elem_of_nil in Hin];
    apply (bool_decide_unpack _); vm_compute; exact I.
Qed.

End SecurityChecks.

Section SecurityExamples.
Local Existing Instance posix.
Import Security.

(** With the configuration that the module starts with: a directory whose
    name only begins like a forbidden one is refused, and so is a forbidden
    directory in capital letters; the relative path [etc/passwd] and a path
    through a forbidden directory that normalisation removes are accepted. *)
Example isPathSafe_examples :
  isPathSafe posixExtname securityConfig "/home/me/etcetera/notes.txt" = ForbiddenPath "/etc"
  ∧ isPathSafe posixExtname securityConfig "/ETC/passwd" = ForbiddenPath "/etc"
  ∧ isPathSafe posixExtname securityConfig "etc/passwd" = Valid
  ∧ isPathSafe posixExtname securityConfig "/var/../home/me/a.txt" = Valid
  ∧ isPathSafe posixExtname securityConfig "/home/me/run.SH" = ForbiddenExtension ".sh".
Proof. vm_compute. done. Qed.

End SecurityExamples.


(** ** The watchers of [watchPath] *)

Section RegistryFacts.
Context `{PathLib} (cfg : Config).

Import WatchTools.

Lemma StronglySorted_snoc_lt (l : list Z) (x : Z) :
  StronglySorted Z.lt l → (∀ k, k ∈ l → k < x) → StronglySorted Z.lt (l ++ [x]).
Proof.
  induction 1 as [|a l Hs IH Hall]; intros Hlt; simpl.
  - repeat constructor.
  - constructor.
    + apply IH. intros k Hk. apply Hlt. by right.
    + apply Forall_app. split; [done|]. constructor; [|done]. apply Hlt. by left.
Qed.

Lemma StronglySorted_filter_lt (P : Z → Prop) `{∀ x, Decision (P x)} (l : list Z) :
  StronglySorted Z.lt l → StronglySorted Z.lt (filter P l).
Proof.
  induction 1 as [|a l Hs IH Hall]; [constructor|].
  rewrite filter_cons. destruct (decide (P a)); [|done].
  constructor; [done|]. apply Forall_forall. intros x Hx.
  apply list_elem_of_filter in Hx as [_ Hx].
  by apply (proj1 (Forall_forall _ _) Hall).
Qed.

Lemma watchPath_cases path options now st wt :
  (snd (watchPath cfg path options now st wt) = wt
   ∧ ∀ id d, fst (watchPath cfg path options now st wt) ≠ WatchStarted id d)
  ∨ ∃ p node,
      sanitizePathArg path = Some p ∧ fs st !! p = Some node
      ∧ fst (watchPath cfg path options now st wt)
        = WatchStarted (idCounter wt) (match node with FsDir => true | FsFile _ => false end)
      ∧ snd (watchPath cfg path options now st wt)
        = {| items :=
               mset (idCounter wt)
                 {| wi_path := p; wi_options := mergeOptions options; wi_events := [];
                    wi_created := now;
                    wi_validEvents := validEventsOf (mergeOptions options);
                    wi_isDirectory :=
                      match node with FsDir => true | FsFile _ => false end |}
                 (items wt);
             idCounter := idCounter wt + 1;
             fileCallbacks := fileCallbacks wt;
             dirCallbacks := dirCallbacks wt |}.
Proof.
  unfold watchPath.
  destruct (sanitizePathArg path) as [p|]; [|by left].
  destruct (negb (isPathAllowed cfg p)); [by left|].
  destruct (fs st !! p) as [node|] eqn:Hnode; [|by left].
  right. exists p, node. done.
Qed.

Lemma freshIds_absent wt : freshIds wt → mget (idCounter wt) (items wt) = None.
Proof.
  intros (_ & _ & Hlt). apply mget_None_notin. intros Hin. apply Hlt in Hin. lia.
Qed.

Lemma freshIds_watchPath path options now st wt :
  freshIds wt → freshIds (snd (watchPath cfg path options now st wt)).
Proof.
  intros Hfresh.
  destruct (watchPath_cases path options now st wt)
    as [[-> _]|(p & node & _ & _ & _ & ->)]; [done|].
  pose proof (freshIds_absent wt Hfresh) as Habsent.
  destruct Hfresh as (Hsorted & Hone & Hlt). unfold freshIds. simpl.
  rewrite (mset_fresh _ _ _ Habsent). unfold mkeys. rewrite map_app. simpl.
  split; [|split; [lia|]].
  - apply StronglySorted_snoc_lt; [done|]. intros k Hk. apply Hlt in Hk. lia.
  - intros k Hk. apply elem_of_app in Hk as [Hk|Hk].
    + apply Hlt in Hk. lia.
    + apply list_elem_of_singleton in Hk as ->. lia.
Qed.

Lemma freshIds_stopWatch watcherId wt :
  freshIds wt → freshIds (snd (stopWatch watcherId wt)).
Proof.
  intros (Hsorted & Hone & Hlt). unfold stopWatch.
  destruct watcherId as [n| |]; try done.
  destruct (mget n (items wt)) as [info|]; [|done].
  unfold freshIds. simpl. rewrite mkeys_mdel.
  split; [by apply StronglySorted_filter_lt|]. split; [done|].
  intros k Hk. apply list_elem_of_filter in Hk as [_ Hk]. by apply Hlt.
Qed.

Lemma watcherEvent_items watcherId eventName changedPath now wt st :
  let r := watcherEvent watcherId eventName changedPath now wt st in
  idCounter (fst r) = idCounter wt
  ∧ fileCallbacks (fst r) = fileCallbacks wt
  ∧ dirCallbacks (fst r) = dirCallbacks wt
  ∧ match mget watcherId (items wt) with
    | None => items (fst r) = items wt
    | Some info =>
        ∃ events,
          events
          = fst (foldl (λ acc _,
                          handleEvent wt (wi_path info) (wi_isDirectory info) eventName
                            changedPath now acc)
                   (wi_events info, st)
                   (filter (λ e, e = eventName) (wi_validEvents info)))
          ∧ items (fst r)
            = mset watcherId
                {| wi_path := wi_path info; wi_options := wi_options info;
                   wi_events := events; wi_created := wi_created info;
                   wi_validEvents := wi_validEvents info;
                   wi_isDirectory := wi_isDirectory info |}
                (items wt)
    end.
Proof.
  unfold watcherEvent. destruct (mget watcherId (items wt)) as [info|]; [|done].
  destruct (foldl _ _ _) as [events st']. simpl. repeat split. by exists events.
Qed.

Lemma freshIds_mset_present watcherId info info' wt :
  mget watcherId (items wt) = Some info →
  freshIds wt → freshIds (withItems wt (mset watcherId info' (items wt))).
Proof.
  intros Hget Hfresh. unfold freshIds. simpl.
  rewrite mkeys_mset_present by eauto. done.
Qed.

Lemma freshIds_watcherEvent watcherId eventName changedPath now wt st :
  freshIds wt → freshIds (fst (watcherEvent watcherId eventName changedPath now wt st)).
Proof.
  intros Hfresh.
  destruct (watcherEvent_items watcherId eventName changedPath now wt st)
    as (E1 & _ & _ & E2).
  destruct (mget watcherId (items wt)) as [info|] eqn:Hget.
  - destruct E2 as (events & _ & E2).
    pose proof (freshIds_mset_present watcherId info
                  {| wi_path := wi_path info; wi_options := wi_options info;
                     wi_events := events; wi_created := wi_created info;
                     wi_validEvents := wi_validEvents info;
                     wi_isDirectory := wi_isDirectory info |} wt Hget Hfresh) as Hf.
    unfold freshIds in *. simpl in Hf. by rewrite E1, E2.
  - unfold freshIds in *. by rewrite E1, E2.
Qed.

Lemma freshIds_watcherError watcherId message now wt :
  freshIds wt → freshIds (watcherError watcherId message now wt).
Proof.
  intros Hfresh. unfold watcherError.
  destruct (mget watcherId (items wt)) as [info|] eqn:Hget; [|done].
  by apply (freshIds_mset_present watcherId info).
Qed.

Lemma executeTool_cases toolName params now st wt :
  snd (executeTool cfg toolName params now st wt) = wt
  ∨ snd (executeTool cfg toolName params now st wt)
    = snd (watchPath cfg (PathObject (param_path params))
             {| arg_recursive := None; arg_events := None |} now st wt).
Proof.
  unfold executeTool. destruct toolName.
  - destruct (param_path params); [|by left]. right. by destruct (watchPath _ _ _ _ _ _).
  - destruct (param_path params); [|by left]. right. by destruct (watchPath _ _ _ _ _ _).
  - destruct (param_watcherId params); by left.
  - by left.
Qed.

Lemma closeAllWatchers_registry wt st :
  let wt' := snd (fst (closeAllWatchers wt st)) in
  items wt' = items wt ∧ idCounter wt' = idCounter wt
  ∧ fileCallbacks wt' = ∅ ∧ dirCallbacks wt' = ∅.
Proof. unfold closeAllWatchers. by destruct (closeEach _ _ _). Qed.

Lemma freshIds_runRegistryCall wt call :
  freshIds wt → freshIds (runRegistryCall cfg wt call).
Proof.
  intros Hfresh.
  destruct call as
    [path options now st|watcherId|toolName params now st|watcherId eventName changedPath now st|watcherId message now|files dirs|st];
    simpl.
  - by apply freshIds_watchPath.
  - by apply freshIds_stopWatch.
  - destruct (executeTool_cases toolName params now st wt) as [->| ->]; [done|].
    by apply freshIds_watchPath.
  - by apply freshIds_watcherEvent.
  - by apply freshIds_watcherError.
  - done.
  - destruct (closeAllWatchers_registry wt st) as (E1 & E2 & _).
    unfold freshIds in *. by rewrite E1, E2.
Qed.

Lemma freshIds_runRegistry calls wt :
  freshIds wt → freshIds (runRegistry cfg wt calls).
Proof.
  revert wt. induction calls as [|call calls IH]; intros wt Hfresh; [done|].
  apply IH. by apply freshIds_runRegistryCall.
Qed.

Lemma freshIds_initial : freshIds initialRegistry.
Proof. split; [constructor|]. split; [done|]. intros k Hk. by apply elem_of_nil in Hk. Qed.

(** X21.  [watchPath] never uses an id twice.  After any sequence of calls of
    [watchPath], [stopWatch] and [executeTool], of events and errors of the
    watchers and of [closeAllWatchers], the ids in [WATCHERS.items] increase
    and lie below [idCounter]; so a call of [watchPath] that starts a watch
    returns an id that no watcher has, larger than the ids of all of them,
    and adds its watcher after them without touching another one; a call
    that fails leaves the registry as it is. *)
Theorem watchPath_never_reuses_an_id calls path options now st :
  let wt := runRegistry cfg initialRegistry calls in
  let r := watchPath cfg path options now st wt in
  freshIds wt
  ∧ (∀ id isDirectory,
       fst r = WatchStarted id isDirectory →
       id = idCounter wt
       ∧ mget id (items wt) = None
       ∧ (∀ k, k ∈ mkeys (items wt) → k < id)
       ∧ mkeys (items (snd r)) = mkeys (items wt) ++ [id]
       ∧ (∀ k, k ≠ id → mget k (items (snd r)) = mget k (items wt))
       ∧ idCounter (snd r) = id + 1)
  ∧ ((∀ id isDirectory, fst r ≠ WatchStarted id isDirectory) → snd r = wt).
Proof.
  intros wt r.
  assert (freshIds wt) as Hfresh by apply freshIds_runRegistry, freshIds_initial.
  split; [done|].
  pose proof (freshIds_absent wt Hfresh) as Habsent.
  destruct (watchPath_cases path options now st wt)
    as [[Hsame Hno]|(p & node & _ & _ & Hfst & Hsnd)]; fold r in Hsame, Hno || fold r in Hfst, Hsnd.
  - split; [|done]. intros id d Hstarted. by destruct (Hno id d).
  - split.
    + intros id d Hstarted. rewrite Hfst in Hstarted. injection Hstarted as <- _.
      split; [done|]. split; [done|].
      split; [intros k Hk; destruct Hfresh as (_ & _ & Hlt); apply Hlt in Hk; lia|].
      rewrite Hsnd. simpl. rewrite (mset_fresh _ _ _ Habsent).
      split; [unfold mkeys; by rewrite map_app|].
      split; [|done].
      intros k Hk. rewrite <- (mset_fresh _ _ _ Habsent). by apply mget_mset_ne.
    + intros Hno. exfalso. by eapply Hno.
Qed.

(** The registry after calls that all go through [executeTool]. *)
Lemma throughTheTools_run calls : ∀ wt,
  Forall throughTheTools calls →
  freshIds wt →
  mkeys (items wt) = map Z.of_nat (seq 1 (length (items wt))) →
  idCounter wt = msize (items wt) + 1 →
  (∀ id info, (id, info) ∈ items wt →
              wi_options info
              = {| opt_recursive := false; opt_events := EventsArray defaultEvents |}
              ∧ wi_validEvents info = [EvAdd; EvChange; EvUnlink]) →
  let wt' := runRegistry cfg wt calls in
  mkeys (items wt') = map Z.of_nat (seq 1 (length (items wt')))
  ∧ idCounter wt' = msize (items wt') + 1
  ∧ (∀ id info, (id, info) ∈ items wt' →
                wi_options info
                = {| opt_recursive := false; opt_events := EventsArray defaultEvents |}
                ∧ wi_validEvents info = [EvAdd; EvChange; EvUnlink]).
Proof.
  induction calls as [|call calls IH]; intros wt Hall Hfresh Hkeys Hcount Hopts; [done|].
  apply Forall_cons in Hall as [Hcall Hall].
  pose proof (freshIds_runRegistryCall wt call Hfresh) as Hfresh'.
  unfold runRegistry. simpl. apply IH; [done|done|..]; clear IH Hfresh'.
  all: destruct call as
    [path options now st|watcherId|toolName params now st|watcherId eventName changedPath now st|watcherId message now|files dirs|st];
    simpl in Hcall; try done; simpl; try done.
  all: try (destruct (closeAllWatchers_registry wt st) as (E1 & E2 & _);
            rewrite ?E1, ?E2; done).
  all: try (destruct (executeTool_cases toolName params now st wt) as [->| ->]; [done|];
            destruct (watchPath_cases (PathObject (param_path params))
                        {| arg_recursive := None; arg_events := None |} now st wt)
              as [[-> _]|(p & node & _ & _ & _ & ->)]; [done|]; simpl;
            rewrite (mset_fresh _ _ _ (freshIds_absent wt Hfresh))).
  all: try (destruct (watcherEvent_items watcherId eventName changedPath now wt st)
              as (Ec & _ & _ & E); rewrite ?Ec;
            destruct (mget watcherId (items wt)) as [info|] eqn:Hget; [|by rewrite E];
            destruct E as (events & _ & ->)).
  all: try (unfold watcherError;
            destruct (mget watcherId (items wt)) as [info|] eqn:Hget; [|done]; simpl).
  - unfold mkeys. rewrite map_app, length_app. simpl.
    rewrite Nat.add_1_r, seq_S, map_app. simpl. unfold mkeys in Hkeys. rewrite <- Hkeys.
    f_equal. f_equal. rewrite Hcount. unfold msize. lia.
  - rewrite mkeys_mset_present, length_mset_present by eauto. done.
  - rewrite mkeys_mset_present, length_mset_present by eauto. done.
  - unfold msize. rewrite length_app. simpl. rewrite Hcount. unfold msize. lia.
  - unfold msize. rewrite length_mset_present by eauto. done.
  - unfold msize. rewrite length_mset_present by eauto. done.
  - intros id info Hin. apply elem_of_app in Hin as [Hin|Hin]; [by apply (Hopts id)|].
    apply list_elem_of_singleton in Hin. injection Hin as -> ->. done.
  - intros id info' Hin. apply elem_of_mset in Hin as [[-> ->]|[[Hin _]|Hin]];
      try (by apply (Hopts id)).
    simpl. apply (Hopts watcherId). by apply mget_Some_elem.
  - intros id info' Hin.
    apply elem_of_mset in Hin as [[-> ->]|[[Hin _]|Hin]]; try (by apply (Hopts id)).
    simpl. apply (Hopts watcherId). by apply mget_Some_elem.
Qed.

(** X22.  Through the tool registry no watch is ever stopped.  [executeTool]
    hands the object of the parameters to [stopWatch], which looks it up as a
    key of [WATCHERS.items] and finds none: the call answers with an invalid
    id (or with the missing parameter) and changes nothing.  So after any
    sequence of calls of the four watch tools and of events, [WATCHERS.items]
    holds a watcher under each of the ids 1, 2, ..., [idCounter] - 1; and
    each of them has the default options, whatever [recursive] and [events]
    its call of [watch_path] asked for. *)
Theorem executeTool_never_stops_a_watch calls :
  Forall throughTheTools calls →
  let wt := runRegistry cfg initialRegistry calls in
  mkeys (items wt) = map Z.of_nat (seq 1 (length (items wt)))
  ∧ idCounter wt = msize (items wt) + 1
  ∧ (∀ id info, (id, info) ∈ items wt →
                wi_options info
                = {| opt_recursive := false; opt_events := EventsArray defaultEvents |}
                ∧ wi_validEvents info = [EvAdd; EvChange; EvUnlink])
  ∧ (∀ params now st,
       snd (executeTool cfg stop_watch params now st wt) = wt
       ∧ (fst (executeTool cfg stop_watch params now st wt) = StopReturn InvalidId
          ∨ fst (executeTool cfg stop_watch params now st wt)
            = MissingParameter "watcherId")).
Proof.
  intros Hall wt.
  destruct (throughTheTools_run calls initialRegistry Hall freshIds_initial)
    as (E1 & E2 & E3); try done.
  { intros id info Hin. by apply elem_of_nil in Hin. }
  split; [done|]. split; [done|]. split; [done|].
  intros params now st. unfold executeTool.
  destruct (param_watcherId params); simpl; [split; [done|by left]|split; [done|by right]].
Qed.

(** *** The events that a watcher collects *)

Lemma lastHundred_app {A : Type} (a b : list A) :
  lastHundred (lastHundred a ++ b) = lastHundred (a ++ b).
Proof.
  unfold lastHundred.
  rewrite <- (drop_app_le a b (length a - 100)) by lia.
  rewrite drop_drop. f_equal.
  rewrite length_drop, !length_app. lia.
Qed.

Lemma lastHundred_length {A : Type} (l : list A) : (length (lastHundred l) ≤ 100)%nat.
Proof. unfold lastHundred. rewrite length_drop. lia. Qed.

Lemma last_lastHundred_snoc {A : Type} (l : list A) (x : A) :
  last (lastHundred (l ++ [x])) = Some x.
Proof.
  unfold lastHundred. rewrite last_lookup, lookup_drop, length_drop, length_app. simpl.
  replace (length l + 1 - 100 + pred (length l + 1 - (length l + 1 - 100)))%nat
    with (length l + 0)%nat by lia.
  by rewrite lookup_app_r, Nat.add_0_r, Nat.sub_diag by lia.
Qed.

Lemma handleEvent_events wt path isDirectory eventName changedPath now events st :
  fst (handleEvent wt path isDirectory eventName changedPath now (events, st))
  = lastHundred (events ++ [Logged eventName changedPath now]).
Proof.
  unfold handleEvent, lastHundred. simpl.
  destruct (Nat.ltb_spec 100 (length (events ++ [Logged eventName changedPath now])))
    as [Hlt|Hge]; [done|].
  replace (length (events ++ [Logged eventName changedPath now]) - 100)%nat with 0%nat
    by lia.
  done.
Qed.

Lemma handlers_events {B : Type} wt path isDirectory eventName changedPath now
    (l : list B) : ∀ events st,
  fst (foldl (λ acc _, handleEvent wt path isDirectory eventName changedPath now acc)
         (events, st) l)
  = match l with
    | [] => events
    | _ => lastHundred (events ++ replicate (length l) (Logged eventName changedPath now))
    end.
Proof.
  induction l as [|x l IH]; intros events st; [done|].
  cbn [foldl].
  destruct (handleEvent wt path isDirectory eventName changedPath now (events, st))
    as [events1 st1] eqn:Ehandle.
  pose proof (handleEvent_events wt path isDirectory eventName changedPath now events st)
    as Hfst.
  rewrite Ehandle in Hfst. simpl in Hfst. subst events1.
  rewrite IH. destruct l as [|y l]; [done|].
  rewrite lastHundred_app, <- app_assoc. simpl. done.
Qed.

(** X23.  A watcher keeps the last 100 of the events it collects.  At an
    event that the watcher subscribes to, every handler registered for its
    name appends an entry, and the array [events] is then the last 100
    entries of the old ones followed by the new ones: it has at most 100
    entries and ends with the new entry.  At an event it does not subscribe
    to the array stays.  An error is appended without dropping anything, so
    with errors the array grows beyond 100.  No other watcher is touched. *)
Theorem events_keep_the_last_hundred wt st watcherId info eventName changedPath now
    message :
  mget watcherId (items wt) = Some info →
  let entry := Logged eventName changedPath now in
  let handlers := filter (λ e, e = eventName) (wi_validEvents info) in
  let wt' := fst (watcherEvent watcherId eventName changedPath now wt st) in
  (∃ info',
     mget watcherId (items wt') = Some info'
     ∧ (eventName ∈ wi_validEvents info →
        wi_events info'
        = lastHundred (wi_events info ++ replicate (length handlers) entry)
        ∧ (length (wi_events info') ≤ 100)%nat
        ∧ last (wi_events info') = Some entry)
     ∧ (eventName ∉ wi_validEvents info → wi_events info' = wi_events info))
  ∧ (∀ k, k ≠ watcherId → mget k (items wt') = mget k (items wt))
  ∧ (∃ info',
       mget watcherId (items (watcherError watcherId message now wt)) = Some info'
       ∧ wi_events info' = wi_events info ++ [LoggedError message now]).
Proof.
  intros Hget entry handlers wt'.
  destruct (watcherEvent_items watcherId eventName changedPath now wt st)
    as (_ & _ & _ & E). fold wt' in E. rewrite Hget in E.
  destruct E as (events & Hevents & Hitems).
  rewrite handlers_events in Hevents. fold handlers entry in Hevents.
  split; [|split].
  - eexists. rewrite Hitems. split; [apply mget_mset_eq|]. simpl. split.
    + intros Hsub.
      assert (handlers ≠ []) as Hne.
      { intros Hnil. assert (eventName ∈ handlers) as Hin
          by (apply list_elem_of_filter; done).
        rewrite Hnil in Hin. by apply elem_of_nil in Hin. }
      destruct handlers as [|h hs] eqn:Eh; [done|].
      split; [done|]. rewrite Hevents. split; [apply lastHundred_length|].
      change (length (h :: hs)) with (S (length hs)).
      rewrite replicate_S_end, app_assoc. apply last_lastHundred_snoc.
    + intros Hnot.
      assert (handlers = []) as Hnil.
      { apply filter_none. intros x Hx ->. done. }
      rewrite Hnil in Hevents. done.
  - intros k Hk. rewrite Hitems. by apply mget_mset_ne.
  - unfold watcherError. rewrite Hget. simpl. eexists. split; [apply mget_mset_eq|done].
Qed.


(** *** Closing the watchers of the pool from the watch tools *)

Lemma closeEach_spec ws : ∀ closedCount p,
  NoDup (map w_id ws) →
  NoDup (mkeys (watchers p)) →
  (∀ w, w ∈ ws → ∃ i, mget (w_id w) (watchers p) = Some i
                      ∧ w_instance i = w_instance w) →
  let r := closeEach ws closedCount p in
  watchers (snd r)
  = filter (λ e, ¬ (fst e ∈ map w_id ws ∧ closable (snd e))) (watchers p)
  ∧ fst r = closedCount + (msize (watchers p) - msize (watchers (snd r))).
Proof.
  induction ws as [|w rest IH]; intros closedCount p Hids Hnd Hrec; simpl.
  { split; [|lia]. symmetry. apply filter_all. intros e _ [Hin _].
    by apply elem_of_nil in Hin. }
  apply NoDup_cons in Hids as [Hfresh Hids].
  destruct (Hrec w) as (i & Hget & Hinst); [by left|].
  destruct (hasClose (w_instance w) && negb (closeThrows (w_instance w))) eqn:Hc.
  - apply andb_true_iff in Hc as [Hhas Hthrows]. apply negb_true_iff in Hthrows.
    destruct (removeWatcher_cases (w_id w) p)
      as [(_ & _ & [Hnone|(i' & Hget' & Hnc)])
         |(i' & _ & _ & _ & Hw & _)].
    { congruence. }
    { exfalso. apply Hnc. unfold closes. rewrite Hget in Hget'. injection Hget' as <-.
      by rewrite Hinst, Hthrows, andb_false_r. }
    destruct (IH (closedCount + 1) (snd (removeWatcher (w_id w) p))) as [E1 E2].
    + done.
    + rewrite Hw. by apply NoDup_mkeys_mdel.
    + intros w' Hw'. destruct (Hrec w') as (j & Hj & Hji); [by right|].
      exists j. split; [|done]. rewrite Hw, mget_mdel_ne; [done|].
      intros Heq. apply Hfresh. rewrite Heq. apply list_elem_of_fmap_2. done.
    + split.
      * rewrite E1, Hw, mdel_filter, list_filter_filter.
        apply filter_ext_elem. intros [k j] Hin. simpl. split.
        -- intros [Hkeep Hne] [Hk Hcl]. apply elem_of_cons in Hk as [->|Hk]; [done|].
           by apply Hkeep.
        -- intros Hkeep. split.
           ++ intros [Hk Hcl]. apply Hkeep. split; [by right|done].
           ++ intros ->. apply Hkeep. split; [by left|].
              apply (elem_mget _ _ _ Hnd) in Hin. rewrite Hget in Hin.
              injection Hin as <-. unfold closable. by rewrite Hinst.
      * rewrite E2, Hw. unfold msize.
        pose proof (length_mdel_present (w_id w) i (watchers p) Hnd Hget). lia.
  - destruct (IH closedCount p) as [E1 E2]; [done|done| |].
    { intros w' Hw'. apply Hrec. by right. }
    split; [|done].
    rewrite E1. apply filter_ext_elem. intros [k j] Hin. simpl. split.
    + intros Hkeep [Hk Hcl]. apply elem_of_cons in Hk as [->|Hk]; [|by apply Hkeep].
      apply (elem_mget _ _ _ Hnd) in Hin. rewrite Hget in Hin. injection Hin as <-.
      destruct Hcl as [Hhas Hthrows]. rewrite Hinst in Hhas, Hthrows.
      by rewrite Hhas, Hthrows in Hc.
    + intros Hkeep [Hk Hcl]. apply Hkeep. split; [by right|done].
Qed.

(** X24.  [closeAllWatchers] of the watch tools closes the watchers of the
    pool, and not those of [watchPath].  It removes from the pool every
    record whose watcher has a [close] that does not throw and returns their
    number, and it empties [CHANGE_HANDLERS].  It leaves [WATCHERS.items]
    and [idCounter] as they are, and also the caches and the two tables of
    their monitors, which go on listing the paths whose watchers are
    closed.  A pool of chokidar watchers is left without a record. *)
Theorem closeAllWatchers_leaves_the_watches wt st :
  NoDup (mkeys (watchers (pool st))) →
  let closedCount := fst (fst (closeAllWatchers wt st)) in
  let wt' := snd (fst (closeAllWatchers wt st)) in
  let st' := snd (closeAllWatchers wt st) in
  watchers (pool st') = filter (λ e, ¬ closable (snd e)) (watchers (pool st))
  ∧ closedCount = msize (watchers (pool st)) - msize (watchers (pool st'))
  ∧ ((∀ k i, (k, i) ∈ watchers (pool st) → w_instance i = chokidarWatcher) →
     watchers (pool st') = [])
  ∧ items wt' = items wt ∧ idCounter wt' = idCounter wt
  ∧ fileCallbacks wt' = ∅ ∧ dirCallbacks wt' = ∅
  ∧ FILE_CACHE st' = FILE_CACHE st ∧ CACHE_MONITORS st' = CACHE_MONITORS st
  ∧ DIR_CACHE st' = DIR_CACHE st ∧ DIR_MONITORS st' = DIR_MONITORS st
  ∧ fs st' = fs st.
Proof.
  intros Hnd closedCount wt' st'.
  destruct (closeEach_spec (getAllWatchers (pool st)) 0 (pool st)) as [E1 E2].
  { unfold getAllWatchers. rewrite map_map. simpl. exact Hnd. }
  { done. }
  { intros w Hw. unfold getAllWatchers in Hw. apply list_elem_of_fmap in Hw
      as ([k i] & -> & Hin). simpl. exists i. split; [by apply elem_mget|done]. }
  assert (watchers (pool st') = filter (λ e, ¬ closable (snd e)) (watchers (pool st)))
    as Hw.
  { subst st'. unfold closeAllWatchers.
    destruct (closeEach _ _ _) as [n p]. simpl in *. rewrite E1.
    apply filter_ext_elem. intros [k i] Hin. simpl. split.
    - intros Hkeep Hcl. apply Hkeep. split; [|done].
      unfold getAllWatchers. rewrite map_map. simpl.
      apply list_elem_of_fmap. exists (k, i). done.
    - intros Hkeep [_ Hcl]. done. }
  split; [done|].
  split.
  { subst closedCount st'. unfold closeAllWatchers.
    destruct (closeEach _ _ _) as [n p]. simpl in *. lia. }
  split.
  { intros Hall. rewrite Hw. apply filter_none. intros [k i] Hin Hkeep. apply Hkeep.
    simpl. unfold closable. by rewrite (Hall k i Hin). }
  subst wt' st'. unfold closeAllWatchers. destruct (closeEach _ _ _) as [n p]. done.
Qed.

End RegistryFacts.

Section RegistryExamples.
Local Existing Instance posix.
Import WatchTools.

(** Two watches are started through the registry, the second one with
    [recursive] and [events] of its own; the first one reports a change and
    is then asked to stop.  Both are still registered, with the default
    options. *)
Lemma executeTool_never_stops_a_watch_witness :
  let cfg := exampleConfig true in
  let st := initialState cfg exampleFs in
  let calls :=
    [CallExecuteTool watch_path
       {| param_path := Some "/d/a.txt"; param_recursive := None; param_events := None;
          param_watcherId := None |} 10 st;
     CallExecuteTool watch_directory
       {| param_path := Some "/d"; param_recursive := Some true;
          param_events := Some "addDir,unlinkDir"; param_watcherId := None |} 20 st;
     WatcherEvent 1 EvChange "/d/a.txt" 30 st;
     CallExecuteTool stop_watch
       {| param_path := None; param_recursive := None; param_events := None;
          param_watcherId := Some (JsNumber 1) |} 40 st] in
  let wt := runRegistry cfg initialRegistry calls in
  Forall throughTheTools calls
  ∧ mkeys (items wt) = [1; 2]
  ∧ idCounter wt = 3
  ∧ fst (stopWatch (JsNumber 1) wt) = Stopped.
Proof.
  intros cfg st calls wt.
  assert (Forall throughTheTools calls) as Hall by (repeat constructor).
  destruct (executeTool_never_stops_a_watch cfg calls Hall) as (Hkeys & Hcount & _).
  split; [exact Hall|].
  split; [exact Hkeys|].
  split; [exact Hcount|].
  vm_compute. reflexivity.
Defined.

(** A watcher whose array holds 100 entries collects one more: the oldest
    entry goes.  With [events: ['change', 'change']] two handlers run. *)
Lemma events_keep_the_last_hundred_witness :
  let cfg := exampleConfig true in
  let st := initialState cfg exampleFs in
  let info :=
    {| wi_path := "/d/a.txt";
       wi_options :=
         {| opt_recursive := false; opt_events := EventsArray ["change"; "change"] |};
       wi_events := replicate 100 (Logged EvAdd "/d/a.txt" 5);
       wi_created := 1; wi_validEvents := [EvChange; EvChange];
       wi_isDirectory := false |} in
  let wt :=
    {| items := [(1, info)]; idCounter := 2; fileCallbacks := ∅; dirCallbacks := ∅ |} in
  let wt' := fst (watcherEvent 1 EvChange "/d/a.txt" 30 wt st) in
  mget 1 (items wt) = Some info
  ∧ ∃ info',
      mget 1 (items wt') = Some info'
      ∧ wi_events info'
        = replicate 98 (Logged EvAdd "/d/a.txt" 5)
          ++ [Logged EvChange "/d/a.txt" 30; Logged EvChange "/d/a.txt" 30].
Proof.
  intros cfg st info wt wt'.
  assert (mget 1 (items wt) = Some info) as Hget by reflexivity.
  destruct (events_keep_the_last_hundred wt st 1 info EvChange "/d/a.txt" 30 EmptyString Hget)
    as ((info' & Hget' & Hsub & _) & _).
  split; [exact Hget|].
  exists info'. split; [exact Hget'|].
  destruct Hsub as (-> & _); [by left|].
  vm_compute. reflexivity.
Defined.

(** In the state of [bothCached] the pool holds the watchers of the two
    monitors; [closeAllWatchers] removes both, and the monitor of the cached
    file is still listed. *)
Lemma closeAllWatchers_leaves_the_watches_witness :
  let st := bothCached in
  let wt :=
    snd (watchPath (exampleConfig true) (PathString "/d/b.txt")
           {| arg_recursive := None; arg_events := None |} 1500 st initialRegistry) in
  let r := closeAllWatchers wt st in
  NoDup (mkeys (watchers (pool st)))
  ∧ fst (fst r) = 2
  ∧ watchers (pool (snd r)) = []
  ∧ mkeys (items (snd (fst r))) = [1]
  ∧ "/d/a.txt" ∈ monitoredPaths (CACHE_MONITORS (snd r))
  ∧ mhas "/d/a.txt" (fc_items (FILE_CACHE (snd r))) = true.
Proof.
  intros st wt r.
  assert (NoDup (mkeys (watchers (pool st)))) as Hnd.
  { apply (bool_decide_unpack _). vm_compute. exact I. }
  destruct (closeAllWatchers_leaves_the_watches wt st Hnd)
    as (_ & Hcount & Hall & Hitems & _ & _ & _ & Hfc & Hmon & _).
  subst r.
  split; [exact Hnd|].
  split; [rewrite Hcount; vm_compute; reflexivity|].
  split.
  { apply Hall. intros k i Hin.
    assert (watchers (pool st)
            = [((1000, 7),
                {| w_id := (1000, 7); w_path := "/d/a.txt"; w_instance := chokidarWatcher;
                   w_type := file; w_processId := "4242"; w_createdAt := 1000;
                   w_lastUsedAt := 1000; w_useCount := 0 |});
               ((1000, 8),
                {| w_id := (1000, 8); w_path := "/d"; w_instance := chokidarWatcher;
                   w_type := directory; w_processId := "4242"; w_createdAt := 1000;
                   w_lastUsedAt := 1000; w_useCount := 0 |})]) as Hw
      by (vm_compute; reflexivity).
    rewrite Hw in Hin.
    repeat (apply elem_of_cons in Hin as [Hin|Hin]; [by injection Hin as _ ->|]).
    apply elem_of_nil in Hin. destruct Hin. }
  split; [rewrite Hitems; vm_compute; reflexivity|].
  split.
  - rewrite Hmon. apply (bool_decide_unpack _). vm_compute. exact I.
  - rewrite Hfc. vm_compute. reflexivity.
Defined.

End RegistryExamples.


(** ** Storing a path that the cache holds *)

Section Readding.
Context `{PathLib} (cfg : Config).

Lemma totalLength_mset_replace k v v' (m : list (string * CacheItem)) :
  mget k m = Some v →
  totalLength (mset k v' m) = totalLength m - strlen (content v) + strlen (content v').
Proof.
  unfold totalLength.
  induction m as [|[k0 v0] m IH]; simpl; [done|].
  destruct (decide (k = k0)) as [->|Hne].
  - intros [= ->]. simpl. lia.
  - intros Hg. simpl. rewrite IH by done. lia.
Qed.

(** X25.  Storing a path that the cache already holds.  [addToCache] takes
    the length of the old content off [FILE_CACHE.size] before it makes
    room, and the old entry is still there to be evicted.  When no eviction
    is needed the entry is replaced and the size stays exact.  Otherwise the
    size is exact afterwards, or it is short by the length of the old
    content, which has then been taken off twice; the new content is cached
    in either case. *)
Theorem addToCache_of_a_cached_path filePath body now random st old :
  accounted (FILE_CACHE st) →
  mget filePath (fc_items (FILE_CACHE st)) = Some old →
  fc_enabled (FILE_CACHE st) = true →
  body ≠ EmptyString →
  strlen body ≤ LARGE_FILE_THRESHOLD_read →
  let c := FILE_CACHE st in
  let c' := FILE_CACHE (addToCache cfg filePath body now random st) in
  let item := {| content := body; timestamp := now; lastAccess := now |} in
  NoDup (mkeys (fc_items c'))
  ∧ mget filePath (fc_items c') = Some item
  ∧ (fc_size c' = totalLength (fc_items c')
     ∨ fc_size c' = totalLength (fc_items c') - strlen (content old))
  ∧ (fc_size c - strlen (content old) + strlen body ≤ fc_maxSize c →
     fc_items c' = mset filePath item (fc_items c)
     ∧ fc_size c' = totalLength (fc_items c')).
Proof.
  intros [Hnd Hsize] Hget Hen Hbody Hsmall c c' item.
  subst c'. rewrite FILE_CACHE_addToCache. fold c in Hnd, Hsize, Hget, Hen |- *.
  unfold addCache. rewrite Hen. simpl.
  rewrite (bool_decide_eq_false_2 _ Hbody).
  destruct (Z.gtb_spec (strlen body) LARGE_FILE_THRESHOLD_read) as [|_]; [lia|].
  rewrite Hget.
  set (c1 := fcSet c (fc_items c) (fc_size c - strlen (content old)) (fc_hits c)
               (fc_misses c) (fc_evictions c)).
  unfold ensureCache.
  change (fc_size c1) with (fc_size c - strlen (content old)).
  change (fc_maxSize c1) with (fc_maxSize c).
  change (fc_items c1) with (fc_items c).
  destruct (Z.leb_spec (fc_size c - strlen (content old) + strlen body) (fc_maxSize c))
    as [Hroom|Hfull].
  { simpl. split; [by apply NoDup_mkeys_mset|]. split; [apply mget_mset_eq|].
    rewrite (totalLength_mset_replace filePath old item) by done. simpl.
    split; [left; lia|]. intros _. split; [done|lia]. }
  assert (sortByLastAccess (fc_items c) ≠ []) as Hne.
  { intros Hnil. apply sortByLastAccess_nil in Hnil. rewrite Hnil in Hget. done. }
  destruct (evictCache_prefix (strlen body) _ c1 Hne) as (k & Hk & Hitems & Hsz & _).
  set (evicted := take k (sortByLastAccess (fc_items c))) in *.
  set (c2 := evictCache (strlen body) (sortByLastAccess (fc_items c)) c1) in *.
  change (fc_items c1) with (fc_items c) in Hitems.
  change (fc_size c1) with (fc_size c - strlen (content old)) in Hsz.
  assert (∀ e, e ∈ evicted → e ∈ fc_items c) as Hsub.
  { intros e He. rewrite <- (sortByLastAccess_perm (fc_items c)).
    subst evicted. eapply elem_of_sublist; [exact He|apply sublist_take]. }
  assert (NoDup (mkeys evicted)) as Hnde.
  { eapply sublist_NoDup.
    - assert (mkeys (sortByLastAccess (fc_items c)) ≡ₚ mkeys (fc_items c)) as Hp
        by (apply fmap_Permutation, sortByLastAccess_perm).
      rewrite <- Hp in Hnd. exact Hnd.
    - apply (fmap_sublist fst). subst evicted. apply sublist_take. }
  destruct (withoutKeys_accounting evicted (fc_items c) Hnd Hnde Hsub) as [Hnd' Hlen].
  rewrite <- Hitems in Hnd', Hlen.
  simpl. split; [by apply NoDup_mkeys_mset|]. split; [apply mget_mset_eq|].
  split; [|intros; lia].
  destruct (mget filePath (fc_items c2)) as [old'|] eqn:Hget2.
  - left. rewrite (totalLength_mset_replace filePath old' item) by done. simpl.
    assert (old' = old) as ->.
    { rewrite Hitems, mget_withoutKeys in Hget2.
      case_bool_decide; [done|]. congruence. }
    lia.
  - right. rewrite (mset_fresh _ _ _ Hget2), totalLength_app, totalLength_cons.
    change (totalLength []) with 0. simpl. lia.
Qed.

End Readding.

Section ReaddingExamples.
Local Existing Instance posix.

(** The cache of [twoEntries] has room for two characters and holds A and B,
    of one character each.  Storing two characters under B evicts the old
    entry of B, the one accessed longest ago: the size comes out as 2, and
    the cache holds 3 characters. *)
Lemma addToCache_of_a_cached_path_witness :
  let cfg := exampleConfig false in
  let old := {| content := "b"; timestamp := 20; lastAccess := 20 |} in
  let c' := FILE_CACHE (addToCache cfg "B" "bb" 40 5 twoEntries) in
  accounted (FILE_CACHE twoEntries)
  ∧ mget "B" (fc_items (FILE_CACHE twoEntries)) = Some old
  ∧ mget "B" (fc_items c') = Some {| content := "bb"; timestamp := 40; lastAccess := 40 |}
  ∧ fc_maxSize c' = 2 ∧ fc_size c' = 2 ∧ totalLength (fc_items c') = 3.
Proof.
  intros cfg old c'.
  assert (accounted (FILE_CACHE twoEntries)) as Hacc.
  { split; [apply (bool_decide_unpack _); vm_compute; exact I|vm_compute; reflexivity]. }
  assert (mget "B" (fc_items (FILE_CACHE twoEntries)) = Some old) as Hget
    by (vm_compute; reflexivity).
  assert (fc_enabled (FILE_CACHE twoEntries) = true) as Hen by (vm_compute; reflexivity).
  assert ("bb" ≠ EmptyString) as Hbody by discriminate.
  assert (strlen "bb" ≤ LARGE_FILE_THRESHOLD_read) as Hsmall by (vm_compute; discriminate).
  pose proof (addToCache_of_a_cached_path cfg "B" "bb" 40 5 twoEntries old
                Hacc Hget Hen Hbody Hsmall) as (_ & Hnew & _).
  split; [exact Hacc|].
  split; [exact Hget|].
  split; [exact Hnew|].
  vm_compute. split; [reflexivity|]. split; reflexivity.
Defined.

End ReaddingExamples.


(** ** Switching a cache off *)

Section SwitchingOff.
Context `{PathLib} (cfg : Config).

(** The loop of [clearCache] stops the monitor of every listed path. *)
Lemma stopMonitoringFile_every st :
  monitorsAgree (CACHE_MONITORS st) →
  let st1 :=
    foldl (λ st filePath, stopMonitoringFile filePath st) st
      (elements (monitoredPaths (CACHE_MONITORS st))) in
  monitoredPaths (CACHE_MONITORS st1) = ∅
  ∧ mon_watchers (CACHE_MONITORS st1) = ∅
  ∧ FILE_CACHE st1 = FILE_CACHE st ∧ DIR_CACHE st1 = DIR_CACHE st
  ∧ DIR_MONITORS st1 = DIR_MONITORS st ∧ fs st1 = fs st
  ∧ (∀ id, ¬ monitorOf (CACHE_MONITORS st) id →
           mget id (watchers (pool st1)) = mget id (watchers (pool st)))
  ∧ (∀ id i, monitorOf (CACHE_MONITORS st) id →
             mget id (watchers (pool st)) = Some i → closes i →
             mget id (watchers (pool st1)) = None).
Proof.
  intros [Hdom Hen].
  set (l := elements (monitoredPaths (CACHE_MONITORS st))). intros st1.
  destruct Hen as [Hen|Hnone].
  - destruct (stopMonitoringFile_all l st) as (E1 & E2 & _ & E4 & E5 & E6 & E7 & _ & K & R).
    + apply NoDup_elements.
    + done.
    + intros path Hp. apply elem_of_elements in Hp. split; [done|].
      apply elem_of_dom. by rewrite Hdom.
    + fold st1 in E1, E2, E4, E5, E6, E7, K, R.
      assert (list_to_set l = monitoredPaths (CACHE_MONITORS st)) as Hl.
      { apply set_eq. intros x. subst l.
        by rewrite elem_of_list_to_set, elem_of_elements. }
      rewrite Hl in E1, E2.
      split; [rewrite E1; apply set_eq; intros x;
              rewrite elem_of_difference, elem_of_empty; tauto|].
      split.
      { apply dom_empty_inv_L. rewrite E2, Hdom. apply set_eq. intros x.
        rewrite elem_of_difference, elem_of_empty. tauto. }
      repeat (split; [done|]).
      split.
      * intros id Hno. apply K. intros path w _ Hw Hid. apply Hno. by exists path, w.
      * intros id i (path & w & Hw & Hid) Hget Hc.
        apply (R id i path w); try done.
        subst l. apply elem_of_elements. rewrite <- Hdom. apply elem_of_dom. eauto.
  - assert (l = []) as Hl by (subst l; rewrite Hnone; apply elements_empty).
    subst st1. rewrite Hl. simpl.
    assert (mon_watchers (CACHE_MONITORS st) = ∅) as Hw
      by (apply dom_empty_inv_L; by rewrite Hdom).
    repeat (split; [done|]).
    intros id i (path & w & Hw' & _). rewrite Hw in Hw'. done.
Qed.

(** X26.  Switching the file cache off.  [setConfig] with [cacheEnabled]
    false empties the cache, sets its size to 0 and stops every monitor of
    it, whatever else the configuration asks for: the records of the
    monitors leave the pool, and no new monitor is made.  From then on
    [readFile] changes nothing and returns what the file system holds, and
    [addToCache] stores nothing. *)
Theorem fileSetConfig_switches_the_cache_off o now random st :
  monitorsAgree (CACHE_MONITORS st) →
  cacheEnabled o = Some false →
  let st' := fileSetConfig cfg o now random st in
  (fc_enabled (FILE_CACHE st') = false ∧ fc_items (FILE_CACHE st') = []
   ∧ fc_size (FILE_CACHE st') = 0)
  ∧ (monitoredPaths (CACHE_MONITORS st') = ∅ ∧ mon_watchers (CACHE_MONITORS st') = ∅)
  ∧ (∀ id i, monitorOf (CACHE_MONITORS st) id →
             mget id (watchers (pool st)) = Some i → closes i →
             mget id (watchers (pool st')) = None)
  ∧ (∀ id, ¬ monitorOf (CACHE_MONITORS st) id →
           mget id (watchers (pool st')) = mget id (watchers (pool st)))
  ∧ (fs st' = fs st ∧ DIR_CACHE st' = DIR_CACHE st ∧ DIR_MONITORS st' = DIR_MONITORS st)
  ∧ (∀ filePath now' random',
       snd (readFile cfg filePath now' random' st') = st'
       ∧ (validateToolCall cfg "read_file" [filePath] = true →
          match fs st !! filePath with
          | Some (FsFile body) =>
              ∃ streamed,
                fst (readFile cfg filePath now' random' st') = ReadOk body streamed
          | _ => fst (readFile cfg filePath now' random' st') = Failed
          end))
  ∧ (∀ filePath body now' random', addToCache cfg filePath body now' random' st' = st').
Proof.
  intros Hagree Hoff st'.
  set (c0 := {| fc_enabled := false; fc_items := fc_items (FILE_CACHE st);
                fc_size := fc_size (FILE_CACHE st);
                fc_maxSize := fc_maxSize (FILE_CACHE st);
                fc_maxAge := fc_maxAge (FILE_CACHE st);
                fc_hits := fc_hits (FILE_CACHE st);
                fc_misses := fc_misses (FILE_CACHE st);
                fc_evictions := fc_evictions (FILE_CACHE st);
                fc_monitoring := fc_monitoring (FILE_CACHE st) |}).
  destruct (stopMonitoringFile_every (withFileCache st c0) Hagree)
    as (M1 & M2 & F1 & F2 & F3 & F4 & K & R).
  change (CACHE_MONITORS (withFileCache st c0)) with (CACHE_MONITORS st) in *.
  set (st1 := foldl (λ st filePath, stopMonitoringFile filePath st) (withFileCache st c0)
                (elements (monitoredPaths (CACHE_MONITORS st)))) in *.
  simpl in F1, F2, F3, F4, K, R.
  assert (fc_enabled (FILE_CACHE st') = false ∧ fc_items (FILE_CACHE st') = []
          ∧ fc_size (FILE_CACHE st') = 0
          ∧ CACHE_MONITORS st' = CACHE_MONITORS st1 ∧ pool st' = pool st1
          ∧ fs st' = fs st1 ∧ DIR_CACHE st' = DIR_CACHE st1
          ∧ DIR_MONITORS st' = DIR_MONITORS st1) as (Hen & Hitems & Hsize & E1 & E2 & E3 & E4 & E5).
  { subst st'. unfold fileSetConfig. rewrite Hoff. unfold clearCache. fold c0.
    change (CACHE_MONITORS (withFileCache st c0)) with (CACHE_MONITORS st).
    fold st1.
    destruct (monitoringEnabled o) as [[]|]; simpl; rewrite F1; simpl; done. }
  split; [done|].
  split; [by rewrite E1|].
  split; [intros id i ???; rewrite E2; by apply (R id i)|].
  split; [intros id ?; rewrite E2; by apply K|].
  split; [by rewrite E3, E4, E5|].
  split.
  - intros filePath now' random'.
    assert (snd (readFile cfg filePath now' random' st') = st'
            ∧ (validateToolCall cfg "read_file" [filePath] = true →
               match fs st' !! filePath with
               | Some (FsFile body) =>
                   ∃ streamed,
                     fst (readFile cfg filePath now' random' st') = ReadOk body streamed
               | _ => fst (readFile cfg filePath now' random' st') = Failed
               end)) as Hread.
    { unfold readFile.
      destruct (validateToolCall cfg "read_file" [filePath]); simpl; [|done].
      destruct (fs st' !! filePath) as [[body|]|]; rewrite ?Hen; simpl; try done.
      destruct (_ >? _); simpl; split; eauto. }
    rewrite E3, F4 in Hread. exact Hread.
  - intros filePath body now' random'. unfold addToCache. by rewrite Hen.
Qed.

(** The loop of [clearDirCache] over the monitored directories. *)
Lemma stopMonitoringDirectory_listed dirPath w st :
  mon_enabled (DIR_MONITORS st) = true →
  dirPath ∈ monitoredPaths (DIR_MONITORS st) →
  mon_watchers (DIR_MONITORS st) !! dirPath = Some w →
  stopMonitoringDirectory dirPath st
  = withDirMonitors (snd (closeWatcher w st)) (monRemove (DIR_MONITORS st) dirPath).
Proof.
  intros Hen Hin Hw. unfold stopMonitoringDirectory.
  rewrite Hen, Hw. rewrite bool_decide_eq_true_2 by done. simpl.
  destruct (closeWatcher_frame w st) as (_ & _ & _ & -> & _). done.
Qed.

Lemma stopMonitoringDirectory_all l : ∀ st,
  NoDup l →
  mon_enabled (DIR_MONITORS st) = true →
  (∀ path, path ∈ l →
           path ∈ monitoredPaths (DIR_MONITORS st)
           ∧ is_Some (mon_watchers (DIR_MONITORS st) !! path)) →
  let st' := foldl (λ st dirPath, stopMonitoringDirectory dirPath st) st l in
  monitoredPaths (DIR_MONITORS st') = monitoredPaths (DIR_MONITORS st) ∖ list_to_set l
  ∧ dom (mon_watchers (DIR_MONITORS st'))
    = dom (mon_watchers (DIR_MONITORS st)) ∖ list_to_set l
  ∧ mon_enabled (DIR_MONITORS st') = true
  ∧ FILE_CACHE st' = FILE_CACHE st ∧ DIR_CACHE st' = DIR_CACHE st
  ∧ CACHE_MONITORS st' = CACHE_MONITORS st ∧ fs st' = fs st
  ∧ (∀ id, mget id (watchers (pool st')) = None
           ∨ mget id (watchers (pool st')) = mget id (watchers (pool st)))
  ∧ (∀ id, (∀ path w, path ∈ l → mon_watchers (DIR_MONITORS st) !! path = Some w →
                      poolId w ≠ Some id) →
           mget id (watchers (pool st')) = mget id (watchers (pool st)))
  ∧ (∀ id i path w, path ∈ l → mon_watchers (DIR_MONITORS st) !! path = Some w →
                    poolId w = Some id →
                    mget id (watchers (pool st)) = Some i → closes i →
                    mget id (watchers (pool st')) = None).
Proof.
  induction l as [|dirPath rest IH]; intros st Hnd Hen Hl; simpl.
  { rewrite !difference_empty_L.
    repeat split; try done; try (by right).
    intros ???? Hin. by apply elem_of_nil in Hin. }
  apply NoDup_cons in Hnd as [Hfresh Hnd].
  destruct (Hl dirPath) as [Hin [w Hw]]; [by left|].
  rewrite (stopMonitoringDirectory_listed dirPath w st Hen Hin Hw).
  set (st1 := withDirMonitors _ _).
  destruct (closeWatcher_frame w st) as (Hfc & Hcm & Hdc & _ & Hfs).
  assert (∀ path, path ≠ dirPath →
                  mon_watchers (DIR_MONITORS st1) !! path
                  = mon_watchers (DIR_MONITORS st) !! path) as Hother.
  { intros path Hne. subst st1. simpl. by rewrite lookup_delete_ne. }
  assert (∀ path, path ∈ rest → path ≠ dirPath) as Hrest.
  { intros path Hp ->. done. }
  destruct (IH st1 Hnd) as (E1 & E2 & E3 & E4 & E5 & E6 & E7 & M & K & R).
  { done. }
  { intros path Hp. destruct (Hl path) as [? ?]; [by right|].
    split.
    - subst st1. simpl. apply elem_of_difference. split; [done|].
      rewrite elem_of_singleton. by apply Hrest.
    - rewrite Hother by (by apply Hrest). done. }
  assert (∀ id, mget id (watchers (pool st1))
                = mget id (watchers (pool (snd (closeWatcher w st))))) as Hpool by done.
  split.
  { rewrite E1. subst st1. simpl. apply set_eq. intros x.
    rewrite !elem_of_difference, elem_of_union, elem_of_singleton. tauto. }
  split.
  { rewrite E2. subst st1. simpl. rewrite dom_delete_L. apply set_eq. intros x.
    rewrite !elem_of_difference, elem_of_union, elem_of_singleton. tauto. }
  split; [done|].
  split; [by rewrite E4|]. split; [by rewrite E5|]. split; [by rewrite E6|].
  split; [by rewrite E7|].
  split.
  { intros id. destruct (M id) as [Hn|He]; [by left|].
    rewrite He, Hpool.
    destruct (closeWatcher_records w st id) as ([?|?] & _); [by left|by right]. }
  split.
  { intros id Hno. rewrite K.
    - rewrite Hpool. destruct (closeWatcher_records w st id) as (_ & Hkeep & _).
      apply Hkeep. apply (Hno dirPath w); [by left|done].
    - intros path w' Hp Hw'. rewrite Hother in Hw' by (by apply Hrest).
      apply (Hno path w'); [by right|done]. }
  intros id i path w' Hp Hw' Hid Hget Hc.
  apply elem_of_cons in Hp as [->|Hp].
  - assert (w' = w) as -> by congruence.
    destruct (closeWatcher_records w st id) as (_ & _ & Hgone).
    destruct (M id) as [Hn|He]; [done|].
    rewrite He, Hpool. by apply (Hgone i).
  - destruct (closeWatcher_records w st id) as ([Hn|Hs] & _).
    + destruct (M id) as [?|He]; [done|]. by rewrite He, Hpool.
    + apply (R id i path w'); try done.
      * rewrite Hother by (by apply Hrest). done.
      * by rewrite Hpool, Hs.
Qed.

Lemma stopMonitoringDirectory_every st :
  monitorsAgree (DIR_MONITORS st) →
  let st1 :=
    foldl (λ st dirPath, stopMonitoringDirectory dirPath st) st
      (elements (monitoredPaths (DIR_MONITORS st))) in
  monitoredPaths (DIR_MONITORS st1) = ∅
  ∧ mon_watchers (DIR_MONITORS st1) = ∅
  ∧ FILE_CACHE st1 = FILE_CACHE st ∧ DIR_CACHE st1 = DIR_CACHE st
  ∧ CACHE_MONITORS st1 = CACHE_MONITORS st ∧ fs st1 = fs st
  ∧ (∀ id, ¬ monitorOf (DIR_MONITORS st) id →
           mget id (watchers (pool st1)) = mget id (watchers (pool st)))
  ∧ (∀ id i, monitorOf (DIR_MONITORS st) id →
             mget id (watchers (pool st)) = Some i → closes i →
             mget id (watchers (pool st1)) = None).
Proof.
  intros [Hdom Hen].
  set (l := elements (monitoredPaths (DIR_MONITORS st))). intros st1.
  destruct Hen as [Hen|Hnone].
  - destruct (stopMonitoringDirectory_all l st)
      as (E1 & E2 & _ & E4 & E5 & E6 & E7 & _ & K & R).
    + apply NoDup_elements.
    + done.
    + intros path Hp. apply elem_of_elements in Hp. split; [done|].
      apply elem_of_dom. by rewrite Hdom.
    + fold st1 in E1, E2, E4, E5, E6, E7, K, R.
      assert (list_to_set l = monitoredPaths (DIR_MONITORS st)) as Hl.
      { apply set_eq. intros x. subst l.
        by rewrite elem_of_list_to_set, elem_of_elements. }
      rewrite Hl in E1, E2.
      split; [rewrite E1; apply set_eq; intros x;
              rewrite elem_of_difference, elem_of_empty; tauto|].
      split.
      { apply dom_empty_inv_L. rewrite E2, Hdom. apply set_eq. intros x.
        rewrite elem_of_difference, elem_of_empty. tauto. }
      repeat (split; [done|]).
      split.
      * intros id Hno. apply K. intros path w _ Hw Hid. apply Hno. by exists path, w.
      * intros id i (path & w & Hw & Hid) Hget Hc.
        apply (R id i path w); try done.
        subst l. apply elem_of_elements. rewrite <- Hdom. apply elem_of_dom. eauto.
  - assert (l = []) as Hl by (subst l; rewrite Hnone; apply elements_empty).
    subst st1. rewrite Hl. simpl.
    assert (mon_watchers (DIR_MONITORS st) = ∅) as Hw
      by (apply dom_empty_inv_L; by rewrite Hdom).
    repeat (split; [done|]).
    intros id i (path & w & Hw' & _). rewrite Hw in Hw'. done.
Qed.

(** X27.  Switching the directory cache off.  [setConfig] of the directory
    tools with [enabled] false, and [clearDirCache] in any state, remove
    every cached listing and stop every monitor of a directory: the two
    tables of [DIR_MONITORS] are left empty and the records of the monitors
    leave the pool, while the records of the file monitors stay.  With the
    cache off [getFromDirCache] finds nothing and [addToDirCache] stores
    nothing. *)
Theorem dirSetConfig_switches_the_cache_off o st :
  monitorsAgree (DIR_MONITORS st) →
  let gone st' :=
    dc_items (DIR_CACHE st') = []
    ∧ (monitoredPaths (DIR_MONITORS st') = ∅ ∧ mon_watchers (DIR_MONITORS st') = ∅)
    ∧ (∀ id i, monitorOf (DIR_MONITORS st) id →
               mget id (watchers (pool st)) = Some i → closes i →
               mget id (watchers (pool st')) = None)
    ∧ (∀ id, ¬ monitorOf (DIR_MONITORS st) id →
             mget id (watchers (pool st')) = mget id (watchers (pool st)))
    ∧ (fs st' = fs st ∧ FILE_CACHE st' = FILE_CACHE st
       ∧ CACHE_MONITORS st' = CACHE_MONITORS st) in
  gone (clearDirCache st)
  ∧ (dirCacheEnabled o = Some false →
     let st' := dirSetConfig o st in
     gone st'
     ∧ dc_enabled (DIR_CACHE st') = false
     ∧ (∀ dirPath now, getFromDirCache dirPath now st' = (None, st'))
     ∧ (∀ dirPath entries now random,
          addToDirCache cfg dirPath entries now random st' = st')).
Proof.
  intros Hagree gone.
  assert (∀ c0, gone (clearDirCache (withDirCache st c0))) as Hclear.
  { intros c0.
    destruct (stopMonitoringDirectory_every (withDirCache st c0) Hagree)
      as (M1 & M2 & F1 & F2 & F3 & F4 & K & R).
    subst gone. unfold clearDirCache.
    change (DIR_MONITORS (withDirCache st c0)) with (DIR_MONITORS st) in *.
    set (st1 := foldl (λ st dirPath, stopMonitoringDirectory dirPath st)
                  (withDirCache st c0)
                  (elements (monitoredPaths (DIR_MONITORS st)))) in *.
    simpl in *. done. }
  split.
  { assert (withDirCache st (DIR_CACHE st) = st) as Hst by (by destruct st).
    rewrite <- Hst at 1. apply Hclear. }
  intros Hoff st'.
  set (c0 := {| dc_enabled := false; dc_maxSize := dc_maxSize (DIR_CACHE st);
                dc_maxAge := dc_maxAge (DIR_CACHE st);
                dc_items := dc_items (DIR_CACHE st);
                dc_hits := dc_hits (DIR_CACHE st);
                dc_misses := dc_misses (DIR_CACHE st);
                dc_evictions := dc_evictions (DIR_CACHE st) |}).
  specialize (Hclear c0).
  destruct (stopMonitoringDirectory_every (withDirCache st c0) Hagree)
    as (_ & _ & _ & F2 & _).
  assert (dc_enabled (DIR_CACHE st') = false
          ∧ dc_items (DIR_CACHE st') = dc_items (DIR_CACHE (clearDirCache (withDirCache st c0)))
          ∧ DIR_MONITORS st' = DIR_MONITORS (clearDirCache (withDirCache st c0))
          ∧ pool st' = pool (clearDirCache (withDirCache st c0))
          ∧ fs st' = fs (clearDirCache (withDirCache st c0))
          ∧ FILE_CACHE st' = FILE_CACHE (clearDirCache (withDirCache st c0))
          ∧ CACHE_MONITORS st' = CACHE_MONITORS (clearDirCache (withDirCache st c0)))
    as (Hen & E0 & E1 & E2 & E3 & E4 & E5).
  { subst st'. unfold dirSetConfig. rewrite Hoff. fold c0.
    unfold clearDirCache.
    change (DIR_MONITORS (withDirCache st c0)) with (DIR_MONITORS st) in *.
    simpl. simpl in F2. rewrite F2. done. }
  split.
  { subst gone. simpl in *. rewrite E0, E1, E2, E3, E4, E5. exact Hclear. }
  split; [done|].
  split.
  - intros dirPath now. unfold getFromDirCache. by rewrite Hen.
  - intros dirPath entries now random. unfold addToDirCache. by rewrite Hen.
Qed.

End SwitchingOff.

Section SwitchingOffExamples.
Local Existing Instance posix.

(** In the state of [bothCached], where the file [/d/a.txt] and the listing
    of [/d] are cached and monitored, the file cache is switched off: its
    entry and its monitor go, the monitor of the directory stays, and the
    next read of the file comes from the file system. *)
Lemma fileSetConfig_switches_the_cache_off_witness :
  let cfg := exampleConfig true in
  let o :=
    {| cacheEnabled := Some false; maxCacheSize := None; maxCacheAge := None;
       monitoringEnabled := Some true |} in
  let st' := fileSetConfig cfg o 2000 (λ _, 0) bothCached in
  monitorsAgree (CACHE_MONITORS bothCached)
  ∧ mkeys (fc_items (FILE_CACHE bothCached)) = ["/d/a.txt"]
  ∧ mkeys (watchers (pool bothCached)) = [(1000, 7); (1000, 8)]
  ∧ fc_items (FILE_CACHE st') = []
  ∧ monitoredPaths (CACHE_MONITORS st') = ∅
  ∧ mkeys (watchers (pool st')) = [(1000, 8)]
  ∧ fst (readFile cfg "/d/a.txt" 2100 9 st') = ReadOk "hello" false.
Proof.
  intros cfg o st'.
  assert (monitorsAgree (CACHE_MONITORS bothCached)) as Hagree.
  { split; [|left]; vm_compute; reflexivity. }
  destruct (fileSetConfig_switches_the_cache_off cfg o 2000 (λ _, 0) bothCached Hagree
              eq_refl) as ((_ & Hitems & _) & (Hpaths & _) & _).
  split; [exact Hagree|].
  split; [vm_compute; reflexivity|].
  split; [vm_compute; reflexivity|].
  split; [exact Hitems|].
  split; [exact Hpaths|].
  split; vm_compute; reflexivity.
Defined.

(** The same for the directory cache: the listing of [/d] and its monitor
    go, and the monitor of the file stays. *)
Lemma dirSetConfig_switches_the_cache_off_witness :
  let cfg := exampleConfig true in
  let o := {| dirCacheEnabled := Some false; maxDirCacheSize := None;
              maxDirCacheAge := None |} in
  let st' := dirSetConfig o bothCached in
  monitorsAgree (DIR_MONITORS bothCached)
  ∧ mkeys (dc_items (DIR_CACHE bothCached)) = ["/d"]
  ∧ dc_items (DIR_CACHE st') = []
  ∧ monitoredPaths (DIR_MONITORS st') = ∅
  ∧ mkeys (watchers (pool st')) = [(1000, 7)]
  ∧ fst (getFromDirCache "/d" 1001 st') = None.
Proof.
  intros cfg o st'.
  assert (monitorsAgree (DIR_MONITORS bothCached)) as Hagree.
  { split; [|left]; vm_compute; reflexivity. }
  destruct (dirSetConfig_switches_the_cache_off cfg o bothCached Hagree) as [_ Hoff].
  destruct (Hoff eq_refl) as ((Hitems & (Hpaths & _) & _) & _ & Hget & _).
  split; [exact Hagree|].
  split; [vm_compute; reflexivity|].
  split; [exact Hitems|].
  split; [exact Hpaths|].
  split; [vm_compute; reflexivity|].
  fold st'. by rewrite Hget.
Defined.

End SwitchingOffExamples.


Section PoolLimitsExamples.
Local Existing Instance posix.

(** A pool with room for one watcher for each path and two for each process:
    of three registrations of one process, two of them for the same path,
    the first one stays alone. *)
Lemma pool_limits_per_path_and_process_witness :
  let ops :=
    [OpAdd "/a" (Some chokidarWatcher) file "main" 1 1;
     OpAdd "/a" (Some chokidarWatcher) file "main" 2 2;
     OpAdd "/b" (Some chokidarWatcher) file "main" 3 3;
     OpAdd "/c" (Some chokidarWatcher) file "main" 4 4] in
  let p := runOps (emptyPool 10 1 2 1000) ops in
  (0 ≤ 1 ∧ 0 ≤ 2)
  ∧ mkeys (watchers p) = [(1, 1); (3, 3)]
  ∧ Z.of_nat (length (recordsOfPath p "/a")) ≤ 1
  ∧ Z.of_nat (length (recordsOfProcess p "main")) ≤ 2.
Proof.
  intros ops p.
  assert (0 ≤ 1) as H1 by lia.
  assert (0 ≤ 2) as H2 by lia.
  destruct (pool_limits_per_path_and_process ops 10 1 2 1000 "/a" "main" H1 H2)
    as [Hpath Hproc].
  split; [by split|].
  split; [vm_compute; reflexivity|].
  split; [exact Hpath | exact Hproc].
Defined.

End PoolLimitsExamples.


(** ** The monitor tables under the tools *)

Section MonitorTables.
Context `{PathLib} (cfg : Config).

#[local] Instance keepsTables_preorder : PreOrder keepsTables.
Proof.
  split.
  - by intros st Hst.
  - intros st1 st2 st3 H12 H23 Hst. by apply H23, H12.
Qed.

Lemma keepsTables_same st st' :
  CACHE_MONITORS st' = CACHE_MONITORS st → DIR_MONITORS st' = DIR_MONITORS st →
  keepsTables st st'.
Proof. intros E1 E2 Hst. unfold tablesInOrder. by rewrite E1, E2. Qed.

Lemma monitorsInOrder_monRemove m path :
  monitorsInOrder m → monitorsInOrder (monRemove m path).
Proof.
  intros [[Hdom Hen] Hids]. split; [split|]; simpl.
  - rewrite dom_delete_L. by rewrite Hdom.
  - destruct Hen as [Hen|Hnone]; [by left|right].
    rewrite Hnone. apply set_eq. intros x.
    rewrite elem_of_difference, elem_of_empty. tauto.
  - intros p w Hw. apply lookup_delete_Some in Hw as [_ Hw]. by apply (Hids p).
Qed.

Lemma monitorsInOrder_monEnable m : monitorsInOrder m → monitorsInOrder (monEnable m).
Proof. intros [[Hdom Hen] Hids]. split; [split|]; simpl; [done|by left|done]. Qed.

Lemma monitorsInOrder_monAdd m path w :
  mon_enabled m = true → is_Some (poolId w) →
  monitorsInOrder m → monitorsInOrder (monAdd m path w).
Proof.
  intros Hon Hid [[Hdom Hen] Hids]. split; [split|]; simpl.
  - rewrite dom_insert_L, Hdom. apply set_eq. intros x.
    rewrite !elem_of_union. tauto.
  - by left.
  - intros p w' Hw. apply lookup_insert_Some in Hw as [[_ <-]|[_ Hw]]; [done|].
    by apply (Hids p).
Qed.

Local Ltac kept := first [reflexivity | by apply keepsTables_same].

Lemma keepsTables_closeWatcher w st : keepsTables st (snd (closeWatcher w st)).
Proof.
  destruct (closeWatcher_frame w st) as (_ & E1 & _ & E2 & _). by apply keepsTables_same.
Qed.

Lemma keepsTables_stopMonitoringFile filePath st :
  keepsTables st (stopMonitoringFile filePath st).
Proof.
  unfold stopMonitoringFile.
  destruct (negb _ || negb _); [reflexivity|].
  destruct (mon_watchers _ !! filePath) as [w|]; [|reflexivity].
  destruct (closeWatcher_frame w st) as (_ & E1 & _ & E2 & _).
  intros [Hc Hd]. split; simpl.
  - rewrite E1. by apply monitorsInOrder_monRemove.
  - by rewrite E2.
Qed.

Lemma keepsTables_stopMonitoringDirectory dirPath st :
  keepsTables st (stopMonitoringDirectory dirPath st).
Proof.
  unfold stopMonitoringDirectory.
  destruct (negb _ || negb _); [reflexivity|].
  destruct (mon_watchers _ !! dirPath) as [w|]; [|reflexivity].
  destruct (closeWatcher_frame w st) as (_ & E1 & _ & E2 & _).
  intros [Hc Hd]. split; simpl.
  - by rewrite E1.
  - rewrite E2. by apply monitorsInOrder_monRemove.
Qed.

Lemma setFileChangeCallback_poolId filePath now random st w :
  fst (setFileChangeCallback cfg filePath now random st) = Some w → is_Some (poolId w).
Proof.
  unfold setFileChangeCallback.
  destruct (bool_decide _); [done|].
  destruct (fs st !! filePath) as [[body|]|]; try done.
  destruct (addWatcher _ _ _ _ _ _ _) as [[info|] p']; simpl; [|done].
  intros [= <-]. simpl. eauto.
Qed.

Lemma setDirChangeCallback_poolId dirPath now random st w :
  fst (setDirChangeCallback cfg dirPath now random st) = Some w → is_Some (poolId w).
Proof.
  unfold setDirChangeCallback.
  destruct (bool_decide _); [done|].
  destruct (fs st !! dirPath) as [[body|]|]; try done.
  destruct (addWatcher _ _ _ _ _ _ _) as [[info|] p']; simpl; [|done].
  intros [= <-]. simpl. eauto.
Qed.

Lemma keepsTables_monitorFileForCache filePath now random st :
  keepsTables st (monitorFileForCache cfg filePath now random st).
Proof.
  unfold monitorFileForCache.
  destruct (negb _ || negb _); [reflexivity|].
  set (st1 := if mon_enabled (CACHE_MONITORS st) then st else _).
  assert (keepsTables st st1 ∧ mon_enabled (CACHE_MONITORS st1) = true) as [Hstep Hon].
  { subst st1. destruct (mon_enabled (CACHE_MONITORS st)) eqn:E; [done|].
    split; [|done]. intros [Hc Hd]. split; simpl; [|done].
    by apply monitorsInOrder_monEnable. }
  clearbody st1. etrans; [exact Hstep|]. clear Hstep.
  destruct (bool_decide _); [reflexivity|].
  pose proof (setFileChangeCallback_poolId filePath now random st1) as Hid.
  destruct (setFileChangeCallback_frame cfg filePath now random st1) as (_ & E1 & _ & E2 & _).
  destruct (setFileChangeCallback cfg filePath now random st1) as [[w|] st2]; simpl in *.
  - intros [Hc Hd]. split; simpl.
    + rewrite E1. apply monitorsInOrder_monAdd; [done|by apply Hid|done].
    + by rewrite E2.
  - by apply keepsTables_same.
Qed.

Lemma keepsTables_monitorDirectoryForCache dirPath now random st :
  keepsTables st (monitorDirectoryForCache cfg dirPath now random st).
Proof.
  unfold monitorDirectoryForCache.
  destruct (negb _ || negb _); [reflexivity|].
  set (st1 := if mon_enabled (DIR_MONITORS st) then st else _).
  assert (keepsTables st st1 ∧ mon_enabled (DIR_MONITORS st1) = true) as [Hstep Hon].
  { subst st1. destruct (mon_enabled (DIR_MONITORS st)) eqn:E; [done|].
    split; [|done]. intros [Hc Hd]. split; simpl; [done|].
    by apply monitorsInOrder_monEnable. }
  clearbody st1. etrans; [exact Hstep|]. clear Hstep.
  destruct (bool_decide _); [reflexivity|].
  pose proof (setDirChangeCallback_poolId dirPath now random st1) as Hid.
  destruct (setDirChangeCallback_frame cfg dirPath now random st1) as (_ & E1 & _ & E2 & _).
  destruct (setDirChangeCallback cfg dirPath now random st1) as [[w|] st2]; simpl in *.
  - intros [Hc Hd]. split; simpl.
    + by rewrite E1.
    + rewrite E2. apply monitorsInOrder_monAdd; [done|by apply Hid|done].
  - by apply keepsTables_same.
Qed.

Lemma keepsTables_getFromCache filePath now st :
  keepsTables st (snd (getFromCache filePath now st)).
Proof.
  unfold getFromCache.
  destruct (negb _); [kept|].
  destruct (mget filePath _) as [item|]; [|kept].
  destruct (_ >? _); [|kept].
  simpl.
  set (st1 := if fc_monitoring (FILE_CACHE st) then stopMonitoringFile filePath st else st).
  assert (keepsTables st st1) as Hstep.
  { subst st1. destruct (fc_monitoring _); [apply keepsTables_stopMonitoringFile|kept]. }
  etrans; [exact Hstep|kept].
Qed.

Lemma keepsTables_getFromDirCache dirPath now st :
  keepsTables st (snd (getFromDirCache dirPath now st)).
Proof.
  unfold getFromDirCache.
  destruct (negb _); [kept|].
  destruct (mget dirPath _) as [item|]; [|kept].
  destruct (_ >? _); [|by apply keepsTables_same].
  simpl.
  match goal with
  | |- keepsTables _ (stopMonitoringDirectory ?d ?s) =>
      etrans; [|apply (keepsTables_stopMonitoringDirectory d s)]
  end.
  by apply keepsTables_same.
Qed.

Lemma keepsTables_evictLoop requiredSpace cacheItems st :
  keepsTables st (evictLoop requiredSpace cacheItems st).
Proof.
  revert st. induction cacheItems as [|[key item] rest IH]; intros st; simpl; [kept|].
  set (st1 := if fc_monitoring (FILE_CACHE st) then stopMonitoringFile key st else st).
  assert (keepsTables st st1) as Hstep.
  { subst st1. destruct (fc_monitoring _); [apply keepsTables_stopMonitoringFile|kept]. }
  clearbody st1.
  etrans; [exact Hstep|].
  match goal with
  | |- keepsTables _ (if _ then ?s else _) =>
      assert (keepsTables st1 s) as Hset by (by apply keepsTables_same)
  end.
  destruct (_ <=? _); [done|].
  etrans; [exact Hset|apply IH].
Qed.

Lemma keepsTables_ensureCacheSpace requiredSpace st :
  keepsTables st (ensureCacheSpace requiredSpace st).
Proof.
  unfold ensureCacheSpace. destruct (_ <=? _); [kept|]. apply keepsTables_evictLoop.
Qed.

Lemma keepsTables_addToCache filePath body now random st :
  keepsTables st (addToCache cfg filePath body now random st).
Proof.
  unfold addToCache.
  destruct (negb _ || _); [kept|].
  destruct (_ >? _); [kept|].
  set (st1 := match mget filePath _ with Some _ => _ | None => st end).
  assert (keepsTables st st1) as Hstep.
  { subst st1. destruct (mget filePath _); [by apply keepsTables_same|kept]. }
  clearbody st1. etrans; [exact Hstep|].
  etrans; [apply (keepsTables_ensureCacheSpace (strlen body) st1)|].
  match goal with
  | |- keepsTables ?s0 (if ?b then monitorFileForCache cfg ?p ?n ?r ?s else ?s) =>
      assert (keepsTables s0 s) as Hset by (by apply keepsTables_same);
      etrans; [exact Hset|];
      destruct b; [apply (keepsTables_monitorFileForCache p n r s)|kept]
  end.
Qed.

Lemma keepsTables_evictFromDirCache now st :
  keepsTables st (evictFromDirCache now st).
Proof.
  unfold evictFromDirCache.
  destruct (snd (scanOldest _ _ _ _)) as [oldestPath|]; [|kept].
  destruct (bool_decide _); [kept|].
  match goal with
  | |- keepsTables _ (withDirCache (stopMonitoringDirectory ?d ?s) _) =>
      etrans; [|etrans; [apply (keepsTables_stopMonitoringDirectory d s)|]]
  end; by apply keepsTables_same.
Qed.

Lemma keepsTables_addToDirCache dirPath entries now random st :
  keepsTables st (addToDirCache cfg dirPath entries now random st).
Proof.
  unfold addToDirCache.
  destruct (negb _); [kept|].
  set (st1 := if msize _ >=? _ then evictFromDirCache now st else st).
  assert (keepsTables st st1) as Hstep.
  { subst st1. destruct (_ >=? _); [apply keepsTables_evictFromDirCache|kept]. }
  clearbody st1.
  etrans; [exact Hstep|].
  match goal with
  | |- keepsTables _ (monitorDirectoryForCache cfg ?d ?n ?r ?s) =>
      etrans; [|apply (keepsTables_monitorDirectoryForCache d n r s)]
  end.
  by apply keepsTables_same.
Qed.

Lemma keepsTables_dropCached filePath st : keepsTables st (dropCached filePath st).
Proof. unfold dropCached. destruct (_ && _); [by apply keepsTables_same|kept]. Qed.

Lemma keepsTables_invalidateDirCache dirPath st :
  keepsTables st (invalidateDirCache dirPath st).
Proof.
  destruct (invalidateDirCache_frame dirPath st) as (_ & _ & E1 & E2 & _).
  by apply keepsTables_same.
Qed.

Lemma keepsTables_dirChangeCallback dirPath event changedPath st :
  keepsTables st (dirChangeCallback dirPath event changedPath st).
Proof.
  unfold dirChangeCallback.
  etrans; [apply (keepsTables_invalidateDirCache dirPath st)|].
  destruct (_ && _); [|kept].
  destruct (_ && _); [|kept].
  destruct (negb _); [|kept].
  apply keepsTables_invalidateDirCache.
Qed.

Lemma keepsTables_readFile filePath now random st :
  keepsTables st (snd (readFile cfg filePath now random st)).
Proof.
  unfold readFile.
  destruct (negb _); [kept|].
  destruct (fs st !! filePath) as [node|]; [|kept].
  set (r := if fc_enabled (FILE_CACHE st) then _ else (None, st)).
  assert (keepsTables st (snd r)) as Hstep.
  { subst r. destruct (fc_enabled _); [|kept].
    pose proof (keepsTables_getFromCache filePath now st) as Hget.
    destruct (getFromCache filePath now st) as [[c|] st1]; simpl in *.
    - destruct (bool_decide _); simpl;
        (etrans; [exact Hget|by apply keepsTables_same]).
    - etrans; [exact Hget|by apply keepsTables_same]. }
  destruct r as [[c|] st1]; simpl in *; [done|].
  destruct node as [body|]; [|done].
  destruct (_ >? _); [done|]. simpl.
  destruct (_ && _); [|done].
  etrans; [exact Hstep|]. apply keepsTables_addToCache.
Qed.

Lemma keepsTables_writeFile filePath body now random st :
  keepsTables st (snd (writeFile cfg filePath body now random st)).
Proof.
  unfold writeFile.
  destruct (negb _); [kept|].
  destruct (ensureDir _ _) as [f0|]; [|kept].
  destruct (_ >? _).
  { destruct (writeNode _ _ _ _); [by apply keepsTables_same|kept]. }
  destruct (writeNode _ _ _ _) as [f|]; [|kept].
  simpl. destruct (_ && _); [|by apply keepsTables_same].
  match goal with
  | |- keepsTables _ (addToCache cfg ?p ?b ?n ?r ?s) =>
      etrans; [|apply (keepsTables_addToCache p b n r s)]
  end.
  by apply keepsTables_same.
Qed.

Lemma keepsTables_appendFile filePath body st :
  keepsTables st (snd (appendFile cfg filePath body st)).
Proof.
  unfold appendFile.
  destruct (negb _); [kept|].
  destruct (ensureDir _ _) as [f0|]; [|kept].
  destruct (_ >? _).
  { destruct (writeNode _ _ _ _); [by apply keepsTables_same|kept]. }
  destruct (writeNode _ _ _ _) as [f|]; [|kept].
  simpl.
  match goal with
  | |- keepsTables _ (dropCached ?p ?s) =>
      etrans; [|apply (keepsTables_dropCached p s)]
  end.
  by apply keepsTables_same.
Qed.

Lemma keepsTables_deleteFile filePath st :
  keepsTables st (snd (deleteFile cfg filePath st)).
Proof.
  unfold deleteFile.
  destruct (negb _); [kept|].
  destruct (fs st !! filePath) as [[old|]|]; try kept.
  simpl.
  match goal with
  | |- keepsTables _ (dropCached ?p ?s) =>
      etrans; [|apply (keepsTables_dropCached p s)]
  end.
  by apply keepsTables_same.
Qed.

Lemma keepsTables_copyFile source destination overwrite st :
  keepsTables st (snd (copyFile cfg source destination overwrite st)).
Proof.
  unfold copyFile.
  destruct (negb _); [kept|].
  destruct (fs st !! source) as [node|]; [|kept].
  destruct (ensureDir _ _) as [f0|]; [|kept].
  destruct node as [body|]; [|kept]. simpl.
  destruct (f0 !! destination) as [[old|]|]; try kept.
  - destruct overwrite; [by apply keepsTables_same|kept].
  - destruct (f0 !! dirname destination) as [[c|]|]; try kept;
      by apply keepsTables_same.
Qed.

Lemma keepsTables_moveFile source destination st :
  keepsTables st (snd (moveFile cfg source destination st)).
Proof.
  unfold moveFile.
  destruct (negb _); [kept|].
  destruct (fs st !! destination); [kept|].
  set (st1 := match ensureDir (dirname destination) (fs st) with
              | Some f => withFs st f
              | None => st
              end).
  assert (keepsTables st st1) as Hstep
    by (subst st1; destruct (ensureDir _ _); [by apply keepsTables_same|reflexivity]).
  destruct (match ensureDir (dirname destination) (fs st) with
            | Some f => renameSync cfg source destination f
            | None => None
            end) as [f|].
  - simpl. etrans; [exact Hstep|].
    destruct (fc_enabled _); [|by apply keepsTables_same].
    destruct (mget source _); by apply keepsTables_same.
  - pose proof (keepsTables_copyFile source destination true st1) as Ec.
    destruct (copyFile cfg source destination true st1) as [copyResult st2].
    simpl in Ec.
    destruct copyResult; try (simpl; etrans; [exact Hstep|exact Ec]).
    destruct (fs st2 !! source) as [[body|]|];
      try (simpl; etrans; [exact Hstep|exact Ec]).
    simpl. etrans; [exact Hstep|]. etrans; [exact Ec|].
    match goal with
    | |- keepsTables _ (dropCached ?p ?s) =>
        etrans; [|apply (keepsTables_dropCached p s)]
    end.
    by apply keepsTables_same.
Qed.

Lemma keepsTables_createDirectory dirPath recursive st :
  keepsTables st (snd (createDirectory cfg dirPath recursive st)).
Proof.
  unfold createDirectory.
  destruct (negb _); [kept|].
  destruct (directoryExists _ _); [kept|].
  destruct (fs st !! sanitizePath dirPath); [kept|].
  destruct (if recursive then _ else _) as [f|]; [|kept]. simpl.
  match goal with
  | |- keepsTables _ (invalidateDirCache ?d ?s) =>
      etrans; [|apply (keepsTables_invalidateDirCache d s)]
  end.
  by apply keepsTables_same.
Qed.

Lemma keepsTables_deleteDirectory dirPath recursive st :
  keepsTables st (snd (deleteDirectory cfg dirPath recursive st)).
Proof.
  unfold deleteDirectory.
  destruct (negb _); [kept|].
  destruct (negb _); [kept|].
  destruct (_ && _); [kept|]. simpl.
  match goal with
  | |- keepsTables _ (stopMonitoringDirectory ?d ?s) =>
      etrans; [|apply (keepsTables_stopMonitoringDirectory d s)]
  end.
  match goal with
  | |- keepsTables _ (invalidateDirCache ?d ?s) =>
      etrans; [|apply (keepsTables_invalidateDirCache d s)]
  end.
  match goal with
  | |- keepsTables _ (invalidateDirCache ?d ?s) =>
      etrans; [|apply (keepsTables_invalidateDirCache d s)]
  end.
  by apply keepsTables_same.
Qed.

Lemma keepsTables_foldl {A : Type} (f : State → A → State) (l : list A) st :
  (∀ s a, keepsTables s (f s a)) → keepsTables st (foldl f st l).
Proof.
  intros Hf. revert st. induction l as [|a l IH]; intros st; simpl; [kept|].
  etrans; [apply (Hf st a)|apply IH].
Qed.

Lemma keepsTables_clearCache st : keepsTables st (clearCache st).
Proof.
  unfold clearCache.
  set (st1 := foldl _ st _).
  assert (keepsTables st st1) as Hstep
    by (apply keepsTables_foldl; intros s a; apply keepsTables_stopMonitoringFile).
  clearbody st1. etrans; [exact Hstep|by apply keepsTables_same].
Qed.

Lemma keepsTables_clearDirCache st : keepsTables st (clearDirCache st).
Proof.
  unfold clearDirCache.
  set (st1 := foldl _ st _).
  assert (keepsTables st st1) as Hstep
    by (apply keepsTables_foldl; intros s a; apply keepsTables_stopMonitoringDirectory).
  clearbody st1. etrans; [exact Hstep|by apply keepsTables_same].
Qed.

Lemma keepsTables_fileSetConfig o now random st :
  keepsTables st (fileSetConfig cfg o now random st).
Proof.
  unfold fileSetConfig.
  set (st1 := match cacheEnabled o with Some b => _ | None => st end).
  assert (keepsTables st st1) as Hstep.
  { subst st1. destruct (cacheEnabled o) as [[]|]; try kept.
    match goal with
    | |- keepsTables _ (clearCache ?s) => etrans; [|apply (keepsTables_clearCache s)]
    end.
    by apply keepsTables_same. }
  clearbody st1.
  etrans; [exact Hstep|].
  destruct (monitoringEnabled o) as [b|]; [|by apply keepsTables_same].
  destruct (_ && _); [|by apply keepsTables_same].
  match goal with
  | |- keepsTables _ (foldl ?f ?s ?l) => etrans; [|apply (keepsTables_foldl f l s)]
  end.
  - by apply keepsTables_same.
  - intros s a. apply keepsTables_monitorFileForCache.
Qed.

Lemma keepsTables_dirSetConfig o st : keepsTables st (dirSetConfig o st).
Proof.
  unfold dirSetConfig.
  set (st1 := match dirCacheEnabled o with Some b => _ | None => st end).
  assert (keepsTables st st1) as Hstep.
  { subst st1. destruct (dirCacheEnabled o) as [[]|]; try kept.
    match goal with
    | |- keepsTables _ (clearDirCache ?s) => etrans; [|apply (keepsTables_clearDirCache s)]
    end.
    by apply keepsTables_same. }
  clearbody st1. etrans; [exact Hstep|by apply keepsTables_same].
Qed.

Lemma keepsTables_runTool st call : keepsTables st (runTool cfg st call).
Proof.
  destruct call; simpl.
  - apply keepsTables_readFile.
  - apply keepsTables_writeFile.
  - apply keepsTables_appendFile.
  - apply keepsTables_deleteFile.
  - apply keepsTables_copyFile.
  - apply keepsTables_moveFile.
  - apply keepsTables_createDirectory.
  - apply keepsTables_deleteDirectory.
  - apply keepsTables_getFromDirCache.
  - apply keepsTables_addToDirCache.
  - apply keepsTables_invalidateDirCache.
  - apply keepsTables_clearCache.
  - apply keepsTables_clearDirCache.
  - apply keepsTables_fileSetConfig.
  - apply keepsTables_dirSetConfig.
  - apply keepsTables_monitorFileForCache.
  - apply keepsTables_stopMonitoringFile.
  - apply keepsTables_monitorDirectoryForCache.
  - apply keepsTables_stopMonitoringDirectory.
  - destruct (fileChangeCallback_frame filePath event changedPath st) as (_ & E1 & E2 & _).
    by apply keepsTables_same.
  - apply keepsTables_dirChangeCallback.
  - by apply keepsTables_same.
Qed.

Lemma keepsTables_runTools st calls : keepsTables st (runTools cfg st calls).
Proof.
  revert st. induction calls as [|call calls IH]; intros st; [kept|].
  unfold runTools. simpl.
  etrans; [apply (keepsTables_runTool st call)|apply IH].
Qed.

(** X29.  The tools keep the tables of the monitors in order.  After any
    sequence of tool calls, cache calls, events and sweeps on the server as
    it starts, [CACHE_MONITORS] and [DIR_MONITORS] each list the same paths
    in [watchers] and in [monitoredPaths], none before the table is enabled,
    and every watcher in them has its [_poolId] set: the id under which it
    was registered, whose record a sweep or an eviction may have removed
    from the pool since.  [clearCache] and [clearDirCache] then leave no
    monitored path. *)
Theorem tools_keep_the_monitor_tables f calls :
  let st := runTools cfg (initialState cfg f) calls in
  (monitorsAgree (CACHE_MONITORS st) ∧ monitorsAgree (DIR_MONITORS st))
  ∧ (∀ path w, mon_watchers (CACHE_MONITORS st) !! path = Some w → is_Some (poolId w))
  ∧ (∀ path w, mon_watchers (DIR_MONITORS st) !! path = Some w → is_Some (poolId w))
  ∧ monitoredPaths (CACHE_MONITORS (clearCache st)) = ∅
  ∧ monitoredPaths (DIR_MONITORS (clearDirCache st)) = ∅.
Proof.
  intros st.
  assert (tablesInOrder st) as [[Hc Hcid] [Hd Hdid]].
  { apply keepsTables_runTools. split; (split; [split|]); simpl; try done; by right. }
  split; [done|]. split; [done|]. split; [done|].
  split.
  - unfold clearCache. simpl.
    by destruct (stopMonitoringFile_every st Hc) as (-> & _).
  - unfold clearDirCache. simpl.
    by destruct (stopMonitoringDirectory_every st Hd) as (-> & _).
Qed.

End MonitorTables.


(** ** The path checks *)

Section PathChecks.
Context `{PathLib}.
Variable sep : string.
Variable basename : string → string.
Variable extname : string → string.

Lemma append_empty (s : string) : s +:+ EmptyString = s.
Proof.
  induction s as [|c s IH]; [done|].
  change (String c (s +:+ EmptyString) = String c s). by rewrite IH.
Qed.

Lemma append_assoc3 (a b c : string) : (a +:+ b) +:+ c = a +:+ b +:+ c.
Proof.
  induction a as [|x a IH]; [done|].
  change (String x ((a +:+ b) +:+ c) = String x (a +:+ b +:+ c)). by rewrite IH.
Qed.

Lemma within_occurs p q : PathUtils.within sep p q = true → occursIn q p.
Proof.
  unfold PathUtils.within. intros Hw. apply orb_true_iff in Hw as [Heq|Hpre].
  - apply bool_decide_eq_true in Heq as ->. exists EmptyString, EmptyString.
    symmetry. exact (append_empty q).
  - apply startsWith_spec in Hpre as [b ->]. exists EmptyString, (sep +:+ b).
    exact (append_assoc3 q sep b).
Qed.

Lemma isPathSafe_valid (sc : Security.SecurityConfig) pathToCheck :
  Security.isValid (Security.isPathSafe extname sc pathToCheck) = true →
  pathToCheck ≠ EmptyString
  ∧ (Security.checkPathTraversal (Security.pathSecurity sc) = true →
     ∀ f, f ∈ Security.forbiddenPaths (Security.pathSecurity sc) →
          ¬ occursIn f (normalize pathToCheck))
  ∧ (toLowerCase (extname (normalize pathToCheck)) = EmptyString
     ∨ toLowerCase (extname (normalize pathToCheck))
       ∉ Security.forbiddenExtensions (Security.pathSecurity sc)).
Proof.
  unfold Security.isPathSafe. case_bool_decide as Hempty; [done|].
  destruct (Security.checkPathTraversal (Security.pathSecurity sc)).
  - destruct (Security.firstForbidden _ _) as [f|] eqn:Hfirst; [done|].
    pose proof (proj1 (firstForbidden_None _ _) Hfirst) as Hall.
    repeat case_bool_decide; simpl; try done; intros _.
    all: split; [done|]; split; [intros _ f Hf; by destruct (Hall f Hf)|]; tauto.
  - repeat case_bool_decide; simpl; try done; intros _.
    all: split; [done|]; split; [done|]; tauto.
Qed.

Lemma validatePath_refusals (ps : PathUtils.PathSecurity) filePath :
  let r := PathUtils.validatePath sep basename extname ps filePath in
  (r = inl PathUtils.EmptyPath → filePath = EmptyString)
  ∧ (r = inl PathUtils.InBlackList →
     ∃ f, f ∈ PathUtils.forbiddenPaths ps
          ∧ PathUtils.within sep (normalize filePath) f = true)
  ∧ (∀ e, r = inl (PathUtils.ForbiddenExtension e) →
          e = toLowerCase (extname (normalize filePath)) ∧ e ≠ EmptyString
          ∧ e ∈ PathUtils.forbiddenExtensions ps).
Proof.
  unfold PathUtils.validatePath.
  repeat match goal with
         | |- context [if ?b then _ else _] => destruct b eqn:?
         end;
    simpl; (split; [|split]); try done; try (intros e; done).
  all: try (intros _;
            match goal with
            | Hb : bool_decide (?x = EmptyString) = true |- ?x = EmptyString =>
                by apply bool_decide_eq_true in Hb
            end).
  all: try (intros _;
            match goal with
            | Hb : _ && existsb _ _ = true |- _ =>
                apply andb_true_iff in Hb as [_ Hin];
                apply existsb_exists in Hin as (f & Hf & Hw);
                exists f; split; [by apply list_elem_of_In|done]
            end).
  all: intros e [= <-];
    repeat match goal with
           | Hb : bool_decide _ = true |- _ => apply bool_decide_eq_true in Hb
           | Hb : bool_decide _ = false |- _ => apply bool_decide_eq_false in Hb
           end;
    done.
Qed.

(** X30.  What [validatePath] lets through, and how it compares with
    [isPathSafe].  A path that [validatePath] returns is the normal form of
    a path that is not empty; with [checkPathTraversal] no two dots occur in
    it, not even inside a name; it is one of the allowed paths or lies below
    one when there are any, and it is none of the forbidden paths and lies
    below none.  The black list of [validatePath] matches at the boundary of
    a directory only, so it is the weaker one: a path that [isPathSafe]
    accepts under the same lists is refused by [validatePath] neither as
    empty, nor for the black list, nor for a forbidden extension. *)
Theorem validatePath_and_isPathSafe (ps : PathUtils.PathSecurity)
    (sc : Security.SecurityConfig) filePath :
  (∀ q, PathUtils.validatePath sep basename extname ps filePath = inr q →
        q = normalize filePath ∧ filePath ≠ EmptyString
        ∧ (PathUtils.checkPathTraversal ps = true → ¬ occursIn ".." q)
        ∧ (PathUtils.allowedPaths ps ≠ [] →
           ∃ a, a ∈ PathUtils.allowedPaths ps ∧ (q = a ∨ ∃ rest, q = a +:+ sep +:+ rest))
        ∧ (∀ f, f ∈ PathUtils.forbiddenPaths ps →
                q ≠ f ∧ ∀ rest, q ≠ f +:+ sep +:+ rest))
  ∧ (Security.isValid (Security.isPathSafe extname sc filePath) = true →
     Security.checkPathTraversal (Security.pathSecurity sc) = true →
     PathUtils.forbiddenPaths ps = Security.forbiddenPaths (Security.pathSecurity sc) →
     PathUtils.forbiddenExtensions ps
     = Security.forbiddenExtensions (Security.pathSecurity sc) →
     PathUtils.validatePath sep basename extname ps filePath ≠ inl PathUtils.EmptyPath
     ∧ PathUtils.validatePath sep basename extname ps filePath ≠ inl PathUtils.InBlackList
     ∧ ∀ e, PathUtils.validatePath sep basename extname ps filePath
            ≠ inl (PathUtils.ForbiddenExtension e)).
Proof.
  assert (∀ l q, existsb (PathUtils.within sep q) l = true
                 ↔ ∃ a, a ∈ l ∧ (q = a ∨ ∃ rest, q = a +:+ sep +:+ rest)) as Hex.
  { intros l q. rewrite existsb_exists. split.
    - intros (a & Hin & Hw). exists a. split; [by apply list_elem_of_In|].
      unfold PathUtils.within in Hw. apply orb_true_iff in Hw as [Heq|Hpre].
      + left. by apply bool_decide_eq_true in Heq.
      + right. apply startsWith_spec in Hpre as [b ->]. exists b.
        exact (append_assoc3 a sep b).
    - intros (a & Hin & Hq). exists a. split; [by apply list_elem_of_In|].
      unfold PathUtils.within. apply orb_true_iff. destruct Hq as [->|[rest ->]].
      + left. by apply bool_decide_eq_true.
      + right. apply startsWith_spec. exists rest.
        symmetry. exact (append_assoc3 a sep rest). }
  split.
  - intros q. unfold PathUtils.validatePath.
    case_bool_decide as Hempty; [done|].
    destruct (PathUtils.checkPathTraversal ps && includes (normalize filePath) "..")
      eqn:Htrav; [done|].
    destruct (_ && negb (isAbsolute _)); [done|].
    destruct (_ && isAbsolute _); [done|].
    destruct (negb (bool_decide (PathUtils.allowedPaths ps = []))
              && negb (existsb _ (PathUtils.allowedPaths ps))) eqn:Hwhite; [done|].
    destruct (negb (bool_decide (PathUtils.forbiddenPaths ps = []))
              && existsb _ (PathUtils.forbiddenPaths ps)) eqn:Hblack; [done|].
    destruct (_ && startsWith _ _); [done|].
    intros Hres.
    assert (q = normalize filePath) as ->.
    { repeat case_bool_decide; simpl in *; try done; by injection Hres. }
    clear Hres.
    split; [done|]. split; [done|].
    split.
    { intros Hon. rewrite Hon in Htrav. simpl in Htrav. by apply includes_false. }
    split.
    { intros Hne. rewrite (bool_decide_eq_false_2 _ Hne) in Hwhite. simpl in Hwhite.
      apply negb_false_iff in Hwhite. by apply Hex. }
    intros f Hf.
    assert (existsb (PathUtils.within sep (normalize filePath)) (PathUtils.forbiddenPaths ps)
            = false) as Hnone.
    { apply andb_false_iff in Hblack as [Hnil|?]; [|done].
      apply negb_false_iff, bool_decide_eq_true in Hnil. rewrite Hnil in Hf.
      by apply elem_of_nil in Hf. }
    split.
    + intros Heq. assert (existsb (PathUtils.within sep (normalize filePath))
                            (PathUtils.forbiddenPaths ps) = true); [|congruence].
      apply Hex. exists f. split; [done|by left].
    + intros rest Heq.
      assert (existsb (PathUtils.within sep (normalize filePath))
                (PathUtils.forbiddenPaths ps) = true); [|congruence].
      apply Hex. exists f. split; [done|]. right. by exists rest.
  - intros Hsafe Hon Hpaths Hexts.
    apply isPathSafe_valid in Hsafe as (Hne & Hall & Hext).
    specialize (Hall Hon).
    destruct (validatePath_refusals ps filePath) as (R1 & R2 & R3).
    split; [|split].
    + intros Hr. by apply R1 in Hr.
    + intros Hr. apply R2 in Hr as (f & Hf & Hw).
      rewrite Hpaths in Hf. apply (Hall f Hf). by apply within_occurs.
    + intros e Hr. apply R3 in Hr as (-> & Hne' & Hin).
      rewrite Hexts in Hin. by destruct Hext.
Qed.

End PathChecks.
